(** * SimX functional-unit back-end and arbiter fabric

    A shallow embedding of [sim/simx/func_unit.cpp] (AluUnit, LsuUnit,
    SfuUnit) and of the generic containers and arbiters of
    [sim/simx/types.h] (HashTable, Mux, Switch), together with the
    properties of the per-cycle [tick] functions.

    Conventions.
    - C++ code that can abort, fail an assertion, throw [std::out_of_range]
      or dereference a null pointer is a computation in the error monad
      [res]; the fault says which of these happened.  Assertions are
      modelled as in a debug build (they fire).
    - Unsigned machine integers are [Z] with the wrap-around written out
      ([wrap32], [wrap64]); container indices are [nat].
    - Traces are heap objects handled through pointers ([trace_ptr]); the
      heap is a finite map from pointers to [instr_trace] records.
    - Bit masks ([BitVector<>], [std::bitset]) are [N], read with
      [N.testbit] and counted with [popcount]. *)

From Stdlib Require Import ZArith NArith Lia List Permutation.
From stdpp Require Import base option list gmap numbers.

Local Open Scope Z_scope.

(** ** Faults and the error monad *)

Inductive assert_site :=
  | AssertDelay          (* push with a zero delay *)
  | AssertEntryFirst     (* HashTable::at / release on a free slot *)
  | AssertAllocate       (* HashTable::allocate found no free slot *)
  | AssertMaskNone.      (* LsuUnit::tick: response for an empty mask *)

Inductive fault :=
  | FaultAbort                       (* std::abort() *)
  | FaultAssert (site : assert_site) (* assert(...) failed *)
  | FaultOutOfRange                  (* vector::at / bitset::test threw *)
  | FaultNull.                       (* null or dangling pointer used *)

Inductive res (A : Type) : Type :=
  | Ok (a : A)
  | Fault (f : fault).
Arguments Ok {A} a.
Arguments Fault {A} f.

#[global] Instance res_ret : MRet res := fun A a => Ok a.
#[global] Instance res_bind : MBind res := fun A B k m =>
  match m with
  | Ok a => k a
  | Fault f => Fault f
  end.

(** [std::vector::at]: bounds-checked access. *)
Definition vec_at {A} (v : list A) (i : nat) : res A :=
  match v !! i with
  | Some x => Ok x
  | None => Fault FaultOutOfRange
  end.

(** ** Machine integers *)

Definition wrap32 (z : Z) : Z := z mod 2 ^ 32.
Definition wrap64 (z : Z) : Z := z mod 2 ^ 64.

(** Number of set bits of a mask ([BitVector::count]). *)
Fixpoint popcount_pos (p : positive) : Z :=
  match p with
  | xH => 1
  | xO q => popcount_pos q
  | xI q => 1 + popcount_pos q
  end.

Definition popcount (m : N) : Z :=
  match m with
  | N0 => 0
  | Npos p => popcount_pos p
  end.

(** ** Ports

    Modelled from the spec: [SimPort] ([simobject.h] is not part of the
    sources).  A port is a FIFO of the items already visible, plus the
    pushes still in flight with their remaining delay.  [push(item, delay)]
    never changes what [empty()]/[front()] see during the same cycle, and a
    zero delay is a fatal assertion. *)

Record SimPort (T : Type) := mkPort {
  queue : list T;
  sched : list (T * Z)
}.
Arguments mkPort {T} queue sched.
Arguments queue {T} s.
Arguments sched {T} s.

(** An empty port. *)
Definition port_new {T} : SimPort T := mkPort [] [].

Definition port_pop {T} (p : SimPort T) : SimPort T :=
  mkPort (tail (queue p)) (sched p).

Definition port_push {T} (x : T) (delay : Z) (p : SimPort T) : res (SimPort T) :=
  if delay =? 0 then Fault (FaultAssert AssertDelay)
  else Ok (mkPort (queue p) (sched p ++ [(x, delay)])).

(** [ports.at(i).push(x, delay)] on a vector of ports. *)
Definition ports_push {T} (ports : list (SimPort T)) (i : nat) (x : T) (delay : Z)
  : res (list (SimPort T)) :=
  p ← vec_at ports i;
  p' ← port_push x delay p;
  mret (<[i := p']> ports).

(** [ports.at(i).pop()] on a vector of ports. *)
Definition ports_pop {T} (ports : list (SimPort T)) (i : nat) : list (SimPort T) :=
  match ports !! i with
  | Some p => <[i := port_pop p]> ports
  | None => ports
  end.

(** [for (i = lo; i < lo + n; ++i) body(i)] over a state, stopping at the
    first fault. *)
Fixpoint for_range {St : Type} (lo n : nat) (body : nat -> St -> res St) (s : St) : res St :=
  match n with
  | O => Ok s
  | S n' => s' ← body lo s; for_range (S lo) n' body s'
  end.

(** ** Configuration

    The compile-time constants of [VX_config.h] (not part of the sources)
    are parameters of the development. *)

Class Config := {
  ISSUE_WIDTH : nat;
  NUM_LSU_BLOCKS : nat;
  NUM_LSU_LANES : nat;
  XLEN : Z;
  LATENCY_IMUL : Z
}.

Definition MAX_NUM_THREADS : nat := 32.

(** ** Traces *)

Module AluType.
(** [enum class AluType]: the field holds the underlying integer, so that
    the [default:] arm of a [switch] over it can be expressed. *)
Definition ARITH : Z := 0.
Definition BRANCH : Z := 1.
Definition SYSCALL : Z := 2.
Definition IMUL : Z := 3.
Definition IDIV : Z := 4.
End AluType.

Inductive LsuType := LOAD | STORE | FENCE.

Inductive SfuType :=
  | TMC | WSPAWN | SPLIT | JOIN | BAR | PRED
  | CSRRW | CSRRS | CSRRC | TEX | RASTER | OM | CMOV.

Record mem_addr_size_t := { addr : Z; size : Z }.

(** The class-specific payload of a trace; [dynamic_pointer_cast] to the
    wrong class yields a null pointer. *)
Inductive ITraceData :=
  | LsuTraceData (mem_addrs : list mem_addr_size_t)
  | SFUTraceData (arg1 arg2 : Z)
  | RasterTraceData (raster_idx : nat)
  | OMTraceData (om_idx : nat)
  | TexTraceData (tex_idx : nat).

(** Modelled from the spec: [instr_trace_t] ([instr_trace.h] is not part of
    the sources), with the fields the functional units read (spec 3.1). *)
Record instr_trace := mkTrace {
  uuid : Z;
  cid : Z;
  wid : nat;
  pid : nat;
  tmask : N;
  eop : bool;
  fetch_stall : bool;
  alu_type : Z;
  lsu_type : LsuType;
  sfu_type : SfuType;
  data : option ITraceData;
  log_once_ : bool
}.

(** Modelled from the spec: [instr_trace_t::log_once(enable)], the latch
    "used to debounce repeated diagnostic prints": it stores [enable] and
    returns the value the latch had before. *)
Definition log_once (enable : bool) (t : instr_trace) : bool * instr_trace :=
  (log_once_ t,
   mkTrace (uuid t) (cid t) (wid t) (pid t) (tmask t) (eop t) (fetch_stall t)
           (alu_type t) (lsu_type t) (sfu_type t) (data t) enable).

Definition trace_ptr := N.

(** The trace objects, by address. *)
Abbreviation trace_heap := (gmap N instr_trace).

Definition deref (h : trace_heap) (p : trace_ptr) : res instr_trace :=
  match h !! p with
  | Some t => Ok t
  | None => Fault FaultNull
  end.

Definition cast_LsuTraceData (d : option ITraceData) : option (list mem_addr_size_t) :=
  match d with Some (LsuTraceData a) => Some a | _ => None end.

Definition cast_SFUTraceData (d : option ITraceData) : option (Z * Z) :=
  match d with Some (SFUTraceData a1 a2) => Some (a1, a2) | _ => None end.

Definition cast_RasterTraceData (d : option ITraceData) : option nat :=
  match d with Some (RasterTraceData i) => Some i | _ => None end.

Definition cast_OMTraceData (d : option ITraceData) : option nat :=
  match d with Some (OMTraceData i) => Some i | _ => None end.

Definition cast_TexTraceData (d : option ITraceData) : option nat :=
  match d with Some (TexTraceData i) => Some i | _ => None end.

(** Dereferencing the result of a cast. *)
Definition deref_cast {A} (o : option A) : res A :=
  match o with Some a => Ok a | None => Fault FaultNull end.

(** ** Memory packets *)

Module LsuReq.
Record t := mk {
  mask : N;
  addrs : list Z;
  write : bool;
  tag : Z;
  cid : Z;
  uuid : Z
}.
(** [LsuReq(uint32_t size)] *)
Definition new (size : nat) : t := mk 0%N (replicate size 0) false 0 0 0.
End LsuReq.

Module LsuRsp.
Record t := mk {
  mask : N;
  tag : Z;
  cid : Z;
  uuid : Z
}.
End LsuRsp.

Module MemReq.
Record t := mk {
  addr : Z;
  write : bool;
  tag : Z;
  cid : Z;
  uuid : Z
}.
End MemReq.

Module MemRsp.
Record t := mk {
  tag : Z;
  cid : Z;
  uuid : Z
}.
End MemRsp.

(** ** The core, as seen from the functional units *)

(** The warp-scheduler callbacks ([core.h] is not part of the sources):
    an interface over an abstract scheduler state. *)
Class WarpScheduler (W : Type) := {
  sched_resume : nat -> W -> W;
  sched_wspawn : Z -> Z -> W -> bool * W;
  sched_barrier : Z -> Z -> nat -> W -> bool * W
}.

Inductive CoreCall :=
  | CallResume (wid : nat)
  | CallWspawn (arg1 arg2 : Z)
  | CallBarrier (arg1 arg2 : Z) (wid : nat).

Record PerfStats := mkPerf {
  load_latency : Z;
  loads : Z;
  stores : Z
}.

Module LocalMemDemux.
Record t := mk {
  ReqIn : SimPort LsuReq.t;
  RspIn : SimPort LsuRsp.t
}.
End LocalMemDemux.

Record Core (W : Type) := mkCore {
  core_id : Z;
  perf_stats_ : PerfStats;
  lsu_demux_ : list LocalMemDemux.t;
  sched_ : W;
  calls_ : list CoreCall   (* every callback invocation, oldest first *)
}.
Arguments mkCore {W}.
Arguments core_id {W}.
Arguments perf_stats_ {W}.
Arguments lsu_demux_ {W}.
Arguments sched_ {W}.
Arguments calls_ {W}.

Section CoreCalls.
Context {W : Type} `{WarpScheduler W}.

Definition Core_resume (w : nat) (c : Core W) : Core W :=
  mkCore (core_id c) (perf_stats_ c) (lsu_demux_ c)
         (sched_resume w (sched_ c)) (calls_ c ++ [CallResume w]).

Definition Core_wspawn (a1 a2 : Z) (c : Core W) : bool * Core W :=
  let r := sched_wspawn a1 a2 (sched_ c) in
  (fst r, mkCore (core_id c) (perf_stats_ c) (lsu_demux_ c)
                 (snd r) (calls_ c ++ [CallWspawn a1 a2])).

Definition Core_barrier (a1 a2 : Z) (w : nat) (c : Core W) : bool * Core W :=
  let r := sched_barrier a1 a2 w (sched_ c) in
  (fst r, mkCore (core_id c) (perf_stats_ c) (lsu_demux_ c)
                 (snd r) (calls_ c ++ [CallBarrier a1 a2 w])).
End CoreCalls.

(** ** HashTable (types.h) *)

Module HashTable.
Section HashTable.
Context {T : Type}.

Record t := mk {
  entries_ : list (bool * T);
  size_ : Z
}.

(** [HashTable(uint32_t capacity)]; the slots hold a default value. *)
Definition new (capacity : nat) (dflt : T) : t :=
  mk (replicate capacity (false, dflt)) 0.

Definition empty (h : t) : bool := 0 =? size_ h.

Definition full (h : t) : bool := size_ h =? Z.of_nat (length (entries_ h)).

Definition contains (h : t) (index : nat) : res bool :=
  '(first, _) ← vec_at (entries_ h) index;
  mret first.

Definition at_ (h : t) (index : nat) : res T :=
  '(first, second) ← vec_at (entries_ h) index;
  if (first : bool) then Ok second else Fault (FaultAssert AssertEntryFirst).

(** Writing through the reference returned by the non-const [at]. *)
Definition store (h : t) (index : nat) (v : T) : t :=
  mk (<[index := (true, v)]> (entries_ h)) (size_ h).

(** The loop of [allocate], from slot [i], with [k] slots left to visit. *)
Fixpoint allocate_from (h : t) (value : T) (i k : nat) : res (nat * t) :=
  match k with
  | O => Fault (FaultAssert AssertAllocate)
  | S k' =>
      '(first, _) ← vec_at (entries_ h) i;
      if negb (first : bool)
      then Ok (i, mk (<[i := (true, value)]> (entries_ h)) (wrap32 (size_ h + 1)))
      else allocate_from h value (S i) k'
  end.

Definition allocate (h : t) (value : T) : res (nat * t) :=
  allocate_from h value 0 (length (entries_ h)).

Definition release (h : t) (index : nat) : res t :=
  '(first, second) ← vec_at (entries_ h) index;
  if (first : bool)
  then Ok (mk (<[index := (false, second)]> (entries_ h)) (wrap32 (size_ h - 1)))
  else Fault (FaultAssert AssertEntryFirst).

Definition clear (h : t) : t :=
  mk (map (fun e => (false, snd e)) (entries_ h)) 0.

(** The slots in use. *)
Definition allocated (h : t) : list T :=
  map snd (List.filter (fun e : bool * T => fst e) (entries_ h)).

(** Representation invariant: [size_] counts the slots in use, and the
    capacity fits the 32-bit constructor argument. *)
Definition wf (h : t) : Prop :=
  size_ h = Z.of_nat (length (allocated h)) /\
  Z.of_nat (length (entries_ h)) < 2 ^ 32.

End HashTable.
Arguments t : clear implicits.
End HashTable.

(** ** AluUnit (func_unit.cpp) *)

Module AluUnit.
Section AluUnit.
Context {cfg : Config} {W : Type} `{WarpScheduler W}.

Record t := mk {
  Inputs : list (SimPort trace_ptr);
  Outputs : list (SimPort trace_ptr);
  core_ : Core W
}.

(** The [switch] over [alu_type]: the delay handed to [output.push]. *)
Definition push_delay (ty : Z) : res Z :=
  let delay := 2 in
  if (ty =? AluType.ARITH) || (ty =? AluType.BRANCH) || (ty =? AluType.SYSCALL)
  then Ok (2 + delay)
  else if ty =? AluType.IMUL then Ok (LATENCY_IMUL + delay)
  else if ty =? AluType.IDIV then Ok (XLEN + delay)
  else Fault FaultAbort.

(** The body of the loop over the issue lanes. *)
Definition tick_lane (h : trace_heap) (iw : nat) (u : t) : res t :=
  input ← vec_at (Inputs u) iw;
  match queue input with
  | [] => Ok u
  | trace :: _ =>
      _ ← vec_at (Outputs u) iw;
      tr ← deref h trace;
      d ← push_delay (alu_type tr);
      outs ← ports_push (Outputs u) iw trace d;
      let core := if eop tr && fetch_stall tr
                  then Core_resume (wid tr) (core_ u)
                  else core_ u in
      Ok (mk (ports_pop (Inputs u) iw) outs core)
  end.

Definition tick (h : trace_heap) (u : t) : res t :=
  for_range 0 ISSUE_WIDTH (tick_lane h) u.

End AluUnit.
Arguments t : clear implicits.
End AluUnit.

(** ** LsuUnit (func_unit.cpp) *)

Module LsuUnit.

(** Modelled from the spec: the pending-table entry and the per-block state
    of the LSU (spec 3.3 and 3.6; [func_unit.h] is not part of the
    sources). *)
Record pending_req_t := mkPending {
  trace : trace_ptr;
  mask : N
}.

Record lsu_state_t := mkState {
  pending_rd_reqs : HashTable.t pending_req_t;
  fence_trace : trace_ptr;
  fence_lock : bool
}.

Section LsuUnit.
Context {cfg : Config} {W : Type}.

Record t := mk {
  Inputs : list (SimPort trace_ptr);
  Outputs : list (SimPort trace_ptr);
  core_ : Core W;
  states_ : list lsu_state_t;
  pending_loads_ : Z;
  mem : trace_heap;               (* the trace objects the queues point to *)
  dt_queue_full : list trace_ptr  (* the "queue-full" diagnostics printed *)
}.

Definition set_perf (ps : PerfStats) (c : Core W) : Core W :=
  mkCore (core_id c) ps (lsu_demux_ c) (sched_ c) (calls_ c).

Definition set_demux (d : list LocalMemDemux.t) (c : Core W) : Core W :=
  mkCore (core_id c) (perf_stats_ c) d (sched_ c) (calls_ c).

(** Modelled from the spec: [lsu_state_t::clear()] (declared in
    [func_unit.h], not part of the sources) empties the pending table and
    drops the fence lock. *)
Definition clear_state (s : lsu_state_t) : lsu_state_t :=
  mkState (HashTable.clear (pending_rd_reqs s)) 0%N false.

Definition reset (u : t) : t :=
  mk (Inputs u) (Outputs u) (core_ u) (map clear_state (states_ u)) 0
     (mem u) (dt_queue_full u).

(** [core_->perf_stats_.load_latency += pending_loads_] *)
Definition tick_stats (u : t) : t :=
  let ps := perf_stats_ (core_ u) in
  mk (Inputs u) (Outputs u)
     (set_perf (mkPerf (wrap64 (load_latency ps + pending_loads_ u)) (loads ps) (stores ps))
               (core_ u))
     (states_ u) (pending_loads_ u) (mem u) (dt_queue_full u).

(** The body of the loop over the blocks: absorb one memory response. *)
Definition tick_rsp (b : nat) (u : t) : res t :=
  demux ← vec_at (lsu_demux_ (core_ u)) b;
  match queue (LocalMemDemux.RspIn demux) with
  | [] => Ok u
  | lsu_rsp :: _ =>
      state ← vec_at (states_ u) b;
      let tag := Z.to_nat (wrap32 (LsuRsp.tag lsu_rsp)) in
      entry ← HashTable.at_ (pending_rd_reqs state) tag;
      if (mask entry =? 0)%N then Fault (FaultAssert AssertMaskNone) else
      let remaining := N.ldiff (mask entry) (LsuRsp.mask lsu_rsp) in
      let tbl := HashTable.store (pending_rd_reqs state) tag
                   (mkPending (trace entry) remaining) in
      '(outs, tbl') ←
        (if (remaining =? 0)%N then
           tr ← deref (mem u) (trace entry);
           let iw := (wid tr mod ISSUE_WIDTH)%nat in
           outs ← ports_push (Outputs u) iw (trace entry) 1;
           tbl' ← HashTable.release tbl tag;
           mret (outs, tbl')
         else mret (Outputs u, tbl));
      let demux' := LocalMemDemux.mk (LocalMemDemux.ReqIn demux)
                      (port_pop (LocalMemDemux.RspIn demux)) in
      mret (mk (Inputs u) outs
               (set_demux (<[b := demux']> (lsu_demux_ (core_ u))) (core_ u))
               (<[b := mkState tbl' (fence_trace state) (fence_lock state)]> (states_ u))
               (wrap64 (pending_loads_ u - popcount (LsuRsp.mask lsu_rsp)))
               (mem u) (dt_queue_full u))
  end.

(** One iteration of the loop that builds the request's mask and addresses. *)
Definition build_req_lane (tr : instr_trace) (t0 : nat) (i : nat) (req : LsuReq.t)
  : res LsuReq.t :=
  if (MAX_NUM_THREADS <=? t0 + i)%nat then Fault FaultOutOfRange
  else if N.testbit (tmask tr) (N.of_nat (t0 + i)) then
    trace_data ← deref_cast (cast_LsuTraceData (data tr));
    a ← vec_at trace_data (t0 + i)%nat;
    _ ← vec_at (LsuReq.addrs req) i;
    mret (LsuReq.mk (N.setbit (LsuReq.mask req) (N.of_nat i))
                    (<[i := addr a]> (LsuReq.addrs req))
                    (LsuReq.write req) (LsuReq.tag req) (LsuReq.cid req) (LsuReq.uuid req))
  else Ok req.

Definition build_req (tr : instr_trace) (is_write : bool) : res LsuReq.t :=
  let r := LsuReq.new NUM_LSU_LANES in
  let lsu_req := LsuReq.mk (LsuReq.mask r) (LsuReq.addrs r) is_write
                           (LsuReq.tag r) (LsuReq.cid r) (LsuReq.uuid r) in
  let t0 := (pid tr * NUM_LSU_LANES)%nat in
  for_range 0 NUM_LSU_LANES (build_req_lane tr t0) lsu_req.

(** The fence-lock prologue of a lane: [None] is the [continue] taken while
    loads are still pending. *)
Definition fence_unlock (iw : nat) (u : t) : res (option t) :=
  let block_idx := (iw mod NUM_LSU_BLOCKS)%nat in
  state ← vec_at (states_ u) block_idx;
  if fence_lock state then
    if negb (HashTable.empty (pending_rd_reqs state)) then mret None
    else
      outs ← ports_push (Outputs u) iw (fence_trace state) 1;
      mret (Some (mk (Inputs u) outs (core_ u)
                     (<[block_idx := mkState (pending_rd_reqs state) (fence_trace state) false]>
                        (states_ u))
                     (pending_loads_ u) (mem u) (dt_queue_full u)))
  else mret (Some u).

(** The rest of a lane, from "check input queue" on. *)
Definition issue_input (iw : nat) (u : t) : res t :=
  let block_idx := (iw mod NUM_LSU_BLOCKS)%nat in
  input ← vec_at (Inputs u) iw;
  match queue input with
  | [] => Ok u
  | trace :: _ =>
      tr ← deref (mem u) trace;
      state ← vec_at (states_ u) block_idx;
      match lsu_type tr with
      | FENCE =>
          mret (mk (ports_pop (Inputs u) iw) (Outputs u) (core_ u)
                   (<[block_idx := mkState (pending_rd_reqs state) trace true]> (states_ u))
                   (pending_loads_ u) (mem u) (dt_queue_full u))
      | ty =>
          let is_write := match ty with STORE => true | _ => false end in
          if negb is_write && HashTable.full (pending_rd_reqs state) then
            let '(old, tr') := log_once true tr in
            mret (mk (Inputs u) (Outputs u) (core_ u) (states_ u) (pending_loads_ u)
                     (<[trace := tr']> (mem u))
                     (if old then dt_queue_full u else dt_queue_full u ++ [trace]))
          else
            let '(_, tr') := log_once false tr in
            let mem' := <[trace := tr']> (mem u) in
            lsu_req ← build_req tr' is_write;
            '(tag, tbl) ←
              (if negb is_write then
                 HashTable.allocate (pending_rd_reqs state)
                                    (mkPending trace (LsuReq.mask lsu_req))
               else mret (O, pending_rd_reqs state));
            let lsu_req := LsuReq.mk (LsuReq.mask lsu_req) (LsuReq.addrs lsu_req)
                                     (LsuReq.write lsu_req) (wrap32 (Z.of_nat tag))
                                     (cid tr') (uuid tr') in
            demux ← vec_at (lsu_demux_ (core_ u)) block_idx;
            (* [ReqIn.push(lsu_req)]: the default delay of a push is 1 *)
            req_in ← port_push lsu_req 1 (LocalMemDemux.ReqIn demux);
            let demux' := LocalMemDemux.mk req_in (LocalMemDemux.RspIn demux) in
            let num_addrs := popcount (LsuReq.mask lsu_req) in
            let ps := perf_stats_ (core_ u) in
            let ps' := if is_write
                       then mkPerf (load_latency ps) (loads ps) (wrap64 (stores ps + num_addrs))
                       else mkPerf (load_latency ps) (wrap64 (loads ps + num_addrs)) (stores ps) in
            let pl := if is_write then pending_loads_ u
                      else wrap64 (pending_loads_ u + num_addrs) in
            outs ← (if is_write then ports_push (Outputs u) iw trace 1
                    else mret (Outputs u));
            mret (mk (ports_pop (Inputs u) iw) outs
                     (set_perf ps' (set_demux (<[block_idx := demux']> (lsu_demux_ (core_ u)))
                                              (core_ u)))
                     (<[block_idx := mkState tbl (fence_trace state) (fence_lock state)]>
                        (states_ u))
                     pl mem' (dt_queue_full u))
      end
  end.

(** The body of the loop over the issue lanes. *)
Definition tick_issue (iw : nat) (u : t) : res t :=
  o ← fence_unlock iw u;
  match o with
  | None => Ok u
  | Some u' => issue_input iw u'
  end.

Definition tick (u : t) : res t :=
  u1 ← for_range 0 NUM_LSU_BLOCKS tick_rsp (tick_stats u);
  for_range 0 ISSUE_WIDTH tick_issue u1.

(** What the invariant of the pending loads sums: the lanes still awaited
    by the slots in use, over all blocks. *)
Definition table_lanes (h : HashTable.t pending_req_t) : Z :=
  fold_right Z.add 0 (map (fun e => popcount (mask e)) (HashTable.allocated h)).

Definition outstanding_lanes (u : t) : Z :=
  fold_right Z.add 0 (map (fun s => table_lanes (pending_rd_reqs s)) (states_ u)).

End LsuUnit.
Arguments t : clear implicits.
End LsuUnit.

(** ** SfuUnit (func_unit.cpp) *)

Module SfuUnit.

(** Modelled from the spec: the raster, texture and output-merger units, of
    which the SFU uses the [Input] and [Output] ports only (their classes
    are not part of the sources). *)
Record Coprocessor := mkCoproc {
  Input : SimPort trace_ptr;
  Output : SimPort trace_ptr
}.

(** A pointer to the [Output] port of one of the units. *)
Inductive output_ref :=
  | RasterOutput (i : nat)
  | TexOutput (i : nat)
  | OMOutput (i : nat).

Section SfuUnit.
Context {cfg : Config} {W : Type} `{WarpScheduler W}.

Record t := mk {
  Inputs : list (SimPort trace_ptr);
  Outputs : list (SimPort trace_ptr);
  core_ : Core W;
  raster_units_ : list Coprocessor;
  tex_units_ : list Coprocessor;
  om_units_ : list Coprocessor;
  pending_rsps_ : list output_ref
}.

(** The constructor's list of pending-response ports: raster, then texture,
    then output-merger units. *)
Definition make_pending_rsps (nr nt no : nat) : list output_ref :=
  map RasterOutput (seq 0 nr) ++ map TexOutput (seq 0 nt) ++ map OMOutput (seq 0 no).

Definition get_output (u : t) (r : output_ref) : res (SimPort trace_ptr) :=
  match r with
  | RasterOutput i => c ← vec_at (raster_units_ u) i; mret (Output c)
  | TexOutput i => c ← vec_at (tex_units_ u) i; mret (Output c)
  | OMOutput i => c ← vec_at (om_units_ u) i; mret (Output c)
  end.

Definition pop_output (c : Coprocessor) : Coprocessor :=
  mkCoproc (Input c) (port_pop (Output c)).

Definition update_at {A} (f : A -> A) (i : nat) (l : list A) : list A :=
  match l !! i with
  | Some x => <[i := f x]> l
  | None => l
  end.

(** The body of the loop over the pending responses. *)
Definition tick_pending (h : trace_heap) (r : output_ref) (u : t) : res t :=
  pending_rsp ← get_output u r;
  match queue pending_rsp with
  | [] => Ok u
  | trace :: _ =>
      tr ← deref h trace;
      if negb (cid tr =? core_id (core_ u)) then Ok u
      else
        let iw := (wid tr mod ISSUE_WIDTH)%nat in
        outs ← ports_push (Outputs u) iw trace 1;
        mret (match r with
              | RasterOutput i =>
                  mk (Inputs u) outs (core_ u) (update_at pop_output i (raster_units_ u))
                     (tex_units_ u) (om_units_ u) (pending_rsps_ u)
              | TexOutput i =>
                  mk (Inputs u) outs (core_ u) (raster_units_ u)
                     (update_at pop_output i (tex_units_ u)) (om_units_ u) (pending_rsps_ u)
              | OMOutput i =>
                  mk (Inputs u) outs (core_ u) (raster_units_ u) (tex_units_ u)
                     (update_at pop_output i (om_units_ u)) (pending_rsps_ u)
              end)
  end.

Fixpoint tick_pendings (h : trace_heap) (rs : list output_ref) (u : t) : res t :=
  match rs with
  | [] => Ok u
  | r :: rs' => u' ← tick_pending h r u; tick_pendings h rs' u'
  end.

(** [units.at(idx)->Input.push(trace, delay)] *)
Definition push_input (units : list Coprocessor) (idx : nat) (trace : trace_ptr) (delay : Z)
  : res (list Coprocessor) :=
  c ← vec_at units idx;
  p ← port_push trace delay (Input c);
  mret (<[idx := mkCoproc p (Output c)]> units).

Definition set_outputs (outs : list (SimPort trace_ptr)) (u : t) : t :=
  mk (Inputs u) outs (core_ u) (raster_units_ u) (tex_units_ u) (om_units_ u)
     (pending_rsps_ u).

Definition set_core (c : Core W) (u : t) : t :=
  mk (Inputs u) (Outputs u) c (raster_units_ u) (tex_units_ u) (om_units_ u)
     (pending_rsps_ u).

(** The [switch] over [sfu_type]: the unit after the arm, and
    [release_warp]. *)
Definition dispatch (iw : nat) (trace : trace_ptr) (tr : instr_trace) (u : t)
  : res (t * bool) :=
  let release_warp := fetch_stall tr in
  let delay := 2 in
  match sfu_type tr with
  | WSPAWN =>
      outs ← ports_push (Outputs u) iw trace (2 + delay);
      if eop tr then
        trace_data ← deref_cast (cast_SFUTraceData (data tr));
        let r := Core_wspawn (fst trace_data) (snd trace_data) (core_ u) in
        mret (set_core (snd r) (set_outputs outs u), fst r)
      else mret (set_outputs outs u, release_warp)
  | TMC | SPLIT | JOIN | PRED | CSRRW | CSRRS | CSRRC =>
      outs ← ports_push (Outputs u) iw trace (2 + delay);
      mret (set_outputs outs u, release_warp)
  | BAR =>
      outs ← ports_push (Outputs u) iw trace (2 + delay);
      if eop tr then
        trace_data ← deref_cast (cast_SFUTraceData (data tr));
        let r := Core_barrier (fst trace_data) (snd trace_data) (wid tr) (core_ u) in
        mret (set_core (snd r) (set_outputs outs u), fst r)
      else mret (set_outputs outs u, release_warp)
  | RASTER =>
      raster_idx ← deref_cast (cast_RasterTraceData (data tr));
      units ← push_input (raster_units_ u) raster_idx trace delay;
      mret (mk (Inputs u) (Outputs u) (core_ u) units (tex_units_ u) (om_units_ u)
               (pending_rsps_ u), release_warp)
  | OM =>
      om_idx ← deref_cast (cast_OMTraceData (data tr));
      units ← push_input (om_units_ u) om_idx trace delay;
      mret (mk (Inputs u) (Outputs u) (core_ u) (raster_units_ u) (tex_units_ u) units
               (pending_rsps_ u), release_warp)
  | TEX =>
      tex_idx ← deref_cast (cast_TexTraceData (data tr));
      units ← push_input (tex_units_ u) tex_idx trace delay;
      mret (mk (Inputs u) (Outputs u) (core_ u) (raster_units_ u) units (om_units_ u)
               (pending_rsps_ u), release_warp)
  | CMOV => Fault FaultAbort
  end.

(** The body of the loop over the issue lanes. *)
Definition tick_lane (h : trace_heap) (iw : nat) (u : t) : res t :=
  input ← vec_at (Inputs u) iw;
  match queue input with
  | [] => Ok u
  | trace :: _ =>
      _ ← vec_at (Outputs u) iw;
      tr ← deref h trace;
      '(u1, release_warp) ← dispatch iw trace tr u;
      let core := if eop tr && (release_warp : bool)
                  then Core_resume (wid tr) (core_ u1)
                  else core_ u1 in
      mret (mk (ports_pop (Inputs u1) iw) (Outputs u1) core (raster_units_ u1)
               (tex_units_ u1) (om_units_ u1) (pending_rsps_ u1))
  end.

Definition tick (h : trace_heap) (u : t) : res t :=
  u1 ← tick_pendings h (pending_rsps_ u) u;
  for_range 0 ISSUE_WIDTH (tick_lane h) u1.

End SfuUnit.
Arguments t : clear implicits.
End SfuUnit.

(** ** Arbiters (types.h) *)

Inductive ArbiterType := Priority | RoundRobin.

Module Mux.
Section Mux.
Context {T : Type}.

Record t := mk {
  Inputs : list (SimPort T);
  Outputs : list (SimPort T);
  type_ : ArbiterType;
  delay_ : Z;
  cursors_ : list Z;
  num_reqs_ : Z
}.

Definition update_cursor (index : nat) (grant : Z) (m : t) : res t :=
  match type_ m with
  | RoundRobin =>
      _ ← vec_at (cursors_ m) index;
      mret (mk (Inputs m) (Outputs m) (type_ m) (delay_ m)
               (<[index := wrap32 (grant + 1)]> (cursors_ m)) (num_reqs_ m))
  | Priority => Ok m
  end.

(** The loop over [r] for output [o], from [r] on, with [n] iterations
    left; it ends at the first input that is not empty ([break]). *)
Fixpoint scan (o : nat) (r : Z) (n : nat) (m : t) : res t :=
  match n with
  | O => Ok m
  | S n' =>
      let I := Z.of_nat (length (Inputs m)) in
      let R := num_reqs_ m in
      cursor ← vec_at (cursors_ m) o;
      let i := Z.land (wrap32 (cursor + r)) (wrap32 (R - 1)) in
      let j := wrap32 (Z.of_nat o * R + i) in
      if I <=? j then scan o (r + 1) n' m
      else
        req_in ← vec_at (Inputs m) (Z.to_nat j);
        match queue req_in with
        | [] => scan o (r + 1) n' m
        | req :: _ =>
            outs ← ports_push (Outputs m) o req (delay_ m);
            update_cursor o i
              (mk (ports_pop (Inputs m) (Z.to_nat j)) outs (type_ m) (delay_ m)
                  (cursors_ m) (num_reqs_ m))
        end
  end.

Definition tick_output (o : nat) (m : t) : res t :=
  scan o 0 (Z.to_nat (num_reqs_ m)) m.

Definition tick (m : t) : res t :=
  let I := length (Inputs m) in
  let O := length (Outputs m) in
  if (I =? O)%nat then Ok m
  else for_range 0 O tick_output m.

(** [n] consecutive ticks. *)
Fixpoint ticks (n : nat) (m : t) : res t :=
  match n with
  | O => Ok m
  | S n' => m' ← tick m; ticks n' m'
  end.

End Mux.
Arguments t : clear implicits.
End Mux.

(** The packets a [Switch] routes carry an unsigned tag of some width. *)
Class Tagged (P : Type) := {
  tag_bits : Z;
  get_tag : P -> Z;
  set_tag : Z -> P -> P;
  get_set_tag : forall v p, get_tag (set_tag v p) = v
}.

#[global] Instance MemReq_tagged : Tagged MemReq.t := {
  tag_bits := 32;                      (* uint32_t tag *)
  get_tag := MemReq.tag;
  set_tag v r := MemReq.mk (MemReq.addr r) (MemReq.write r) v (MemReq.cid r) (MemReq.uuid r);
  get_set_tag _ _ := eq_refl
}.

#[global] Instance MemRsp_tagged : Tagged MemRsp.t := {
  tag_bits := 64;                      (* uint64_t tag *)
  get_tag := MemRsp.tag;
  set_tag v r := MemRsp.mk v (MemRsp.cid r) (MemRsp.uuid r);
  get_set_tag _ _ := eq_refl
}.

Module Switch.
Section Switch.
Context {Req Rsp : Type} `{Tagged Req} `{Tagged Rsp}.

Record t := mk {
  ReqIn : list (SimPort Req);
  RspIn : list (SimPort Rsp);
  ReqOut : list (SimPort Req);
  RspOut : list (SimPort Rsp);
  type_ : ArbiterType;
  delay_ : Z;
  cursors_ : list Z;
  lg_num_reqs_ : Z
}.

(** [uint32_t R = 1 << lg_num_reqs_] *)
Definition num_reqs (s : t) : Z := wrap32 (Z.shiftl 1 (lg_num_reqs_ s)).

(** [req.tag = (req.tag << lg_num_reqs_) | i], in the width of the
    request's tag. *)
Definition encode_tag (lg : Z) (i : Z) (req : Req) : Req :=
  set_tag (Z.lor (Z.shiftl (get_tag req) lg) i mod 2 ^ tag_bits (P:=Req)) req.

(** [i = rsp.tag & (R-1); rsp.tag >>= lg_num_reqs_] *)
Definition decode_tag (R lg : Z) (rsp : Rsp) : Z * Rsp :=
  (wrap32 (Z.land (get_tag rsp) (wrap32 (R - 1))),
   set_tag (Z.shiftr (get_tag rsp) lg) rsp).

Definition update_cursor (index : nat) (grant : Z) (s : t) : res t :=
  match type_ s with
  | RoundRobin =>
      _ ← vec_at (cursors_ s) index;
      mret (mk (ReqIn s) (RspIn s) (ReqOut s) (RspOut s) (type_ s) (delay_ s)
               (<[index := wrap32 (grant + 1)]> (cursors_ s)) (lg_num_reqs_ s))
  | Priority => Ok s
  end.

(** "process incoming responses" for output [o]. *)
Definition tick_rsp (o : nat) (s : t) : res t :=
  let R := num_reqs s in
  rsp_out ← vec_at (RspOut s) o;
  match queue rsp_out with
  | [] => Ok s
  | rsp :: _ =>
      let '(i, rsp') := if negb (lg_num_reqs_ s =? 0)
                        then decode_tag R (lg_num_reqs_ s) rsp
                        else (0, rsp) in
      let j := wrap32 (Z.of_nat o * R + i) in
      rsp_in ← ports_push (RspIn s) (Z.to_nat j) rsp' 1;
      mret (mk (ReqIn s) rsp_in (ReqOut s) (ports_pop (RspOut s) o) (type_ s) (delay_ s)
               (cursors_ s) (lg_num_reqs_ s))
  end.

(** "process incoming requests" for output [o]: the loop over [r], from
    [r] on, with [n] iterations left. *)
Fixpoint scan (o : nat) (r : Z) (n : nat) (s : t) : res t :=
  match n with
  | O => Ok s
  | S n' =>
      let I := Z.of_nat (length (ReqIn s)) in
      let R := num_reqs s in
      cursor ← vec_at (cursors_ s) o;
      let i := Z.land (wrap32 (cursor + r)) (wrap32 (R - 1)) in
      let j := wrap32 (Z.of_nat o * R + i) in
      if I <=? j then scan o (r + 1) n' s
      else
        req_in ← vec_at (ReqIn s) (Z.to_nat j);
        match queue req_in with
        | [] => scan o (r + 1) n' s
        | req :: _ =>
            let req' := if negb (lg_num_reqs_ s =? 0)
                        then encode_tag (lg_num_reqs_ s) i req else req in
            outs ← ports_push (ReqOut s) o req' (delay_ s);
            update_cursor o i
              (mk (ports_pop (ReqIn s) (Z.to_nat j)) (RspIn s) outs (RspOut s)
                  (type_ s) (delay_ s) (cursors_ s) (lg_num_reqs_ s))
        end
  end.

Definition tick_req (o : nat) (s : t) : res t :=
  scan o 0 (Z.to_nat (num_reqs s)) s.

Definition tick_output (o : nat) (s : t) : res t :=
  s' ← tick_rsp o s; tick_req o s'.

Definition tick (s : t) : res t :=
  let I := length (ReqIn s) in
  let O := length (ReqOut s) in
  if (I =? O)%nat then Ok s
  else for_range 0 O tick_output s.

End Switch.
Arguments t : clear implicits.
End Switch.

(** ** A concrete configuration

    The configuration of the scenarios of spec 8: [ISSUE_WIDTH = 2],
    [NUM_LSU_BLOCKS = 1], [NUM_LSU_LANES = 4], [XLEN = 32],
    [LATENCY_IMUL = 3]; the warp scheduler is a stub. *)

Module Scenario.

Definition cfg : Config := Build_Config 2 1 4 32 3.

(** A scheduler that keeps no state, resumes on [wspawn] and holds the warp
    on [barrier]. *)
Definition stub_sched : WarpScheduler unit :=
  Build_WarpScheduler unit (fun _ s => s) (fun _ _ s => (true, s)) (fun _ _ _ s => (false, s)).

Definition stub_core : Core unit :=
  mkCore 0 (mkPerf 0 0 0) [LocalMemDemux.mk port_new port_new] tt [].

Definition alu_trace (ty : Z) (w : nat) : instr_trace :=
  mkTrace 1 0 w 0 15%N true false ty LOAD TMC None false.

Definition alu_heap : trace_heap :=
  {[ 1%N := alu_trace AluType.ARITH 0; 2%N := alu_trace AluType.IDIV 1 ]}.

Definition alu0 : AluUnit.t unit :=
  AluUnit.mk [mkPort [1%N] []; mkPort [2%N] []] [port_new; port_new] stub_core.

Definition alu_bad_heap : trace_heap :=
  {[ 1%N := alu_trace AluType.ARITH 0; 2%N := alu_trace 7 1 ]}.

(** The LSU of scenario 4: a LOAD of four lanes on lane 0, a pending table
    of two slots. *)
Definition load_trace (u : Z) : instr_trace :=
  mkTrace u 0 0 0 15%N true false 0 LOAD TMC
    (Some (LsuTraceData [Build_mem_addr_size_t 100 4; Build_mem_addr_size_t 104 4;
                         Build_mem_addr_size_t 108 4; Build_mem_addr_size_t 112 4]))
    false.

Definition fence_trace : instr_trace :=
  mkTrace 9 0 0 0 15%N true false 0 FENCE TMC None false.

Definition lsu_mem : trace_heap :=
  {[ 1%N := load_trace 7; 2%N := fence_trace; 3%N := load_trace 8 ]}.

Definition no_entry : LsuUnit.pending_req_t := LsuUnit.mkPending 0%N 0%N.

Definition lsu_with (inputs : list (SimPort trace_ptr)) (rsps : list LsuRsp.t)
    (tbl : HashTable.t LsuUnit.pending_req_t) (lock : bool) (pl : Z) : LsuUnit.t unit :=
  LsuUnit.mk inputs [port_new; port_new]
    (mkCore 0 (mkPerf 0 0 0) [LocalMemDemux.mk port_new (mkPort rsps [])] tt [])
    [LsuUnit.mkState tbl 0%N lock] pl lsu_mem [].

(** After reset, with the LOAD waiting on lane 0. *)
Definition lsu0 : LsuUnit.t unit :=
  lsu_with [mkPort [1%N] []; port_new] [] (HashTable.new 2 no_entry) false 0.

(** The LOAD is in flight and its two half responses have arrived. *)
Definition lsu_rsps : LsuUnit.t unit :=
  lsu_with [port_new; port_new]
    [LsuRsp.mk 3%N 0 0 7; LsuRsp.mk 12%N 0 0 7]
    (HashTable.mk [(true, LsuUnit.mkPending 1%N 15%N); (false, no_entry)] 1) false 4.

(** Both slots are taken and another LOAD waits on lane 0. *)
Definition lsu_full : LsuUnit.t unit :=
  lsu_with [mkPort [3%N] []; port_new] []
    (HashTable.mk [(true, LsuUnit.mkPending 1%N 15%N); (true, LsuUnit.mkPending 1%N 3%N)] 2)
    false 6.

(** A FENCE waits on lane 0 while the LOAD is in flight. *)
Definition lsu_fence : LsuUnit.t unit :=
  lsu_with [mkPort [2%N] []; port_new] []
    (HashTable.mk [(true, LsuUnit.mkPending 1%N 15%N); (false, no_entry)] 1) false 4.

(** Scenario 6: a WSPAWN on lane 0 of the SFU. *)
Definition wspawn_trace : instr_trace :=
  mkTrace 11 0 0 0 15%N true false 0 LOAD WSPAWN (Some (SFUTraceData 15 4096)) false.

Definition sfu_heap : trace_heap := {[ 1%N := wspawn_trace ]}.

Definition sfu0 : SfuUnit.t unit :=
  SfuUnit.mk [mkPort [1%N] []; port_new] [port_new; port_new] stub_core [] [] [] [].


(** The same with three inputs. *)
Definition mux3 : Mux.t nat :=
  Mux.mk [mkPort [10; 11; 12]%nat []; mkPort [20; 21; 22]%nat [];
          mkPort [30; 31; 32]%nat []]
         [port_new] RoundRobin 1 [0] 3.

(** A memory switch of two inputs and one output; the request on input 0
    has the top bit of its 32-bit tag set. *)
Definition big_req : MemReq.t := MemReq.mk 64 false (2 ^ 31) 0 5.

Definition switch2 : Switch.t MemReq.t MemRsp.t :=
  Switch.mk [mkPort [big_req] []; port_new] [port_new; port_new] [port_new] [port_new]
            RoundRobin 1 [0] 1.

(** The same switch when the response to the forwarded request comes back
    with the tag the request left with. *)
Definition switch2_rsp (tag : Z) : Switch.t MemReq.t MemRsp.t :=
  Switch.mk [port_new; port_new] [port_new; port_new] [port_new]
            [mkPort [MemRsp.mk tag 0 5] []]
            RoundRobin 1 [1] 1.

(** A request whose tag fits, on input 1. *)
Definition small_req : MemReq.t := MemReq.mk 64 false 6 0 5.

End Scenario.

(** ** FpuUnit (func_unit.cpp) *)

Module FpuType.
(** [enum class FpuType], as the underlying integer (see [AluType]). *)
Definition FNCP : Z := 0.
Definition FMA : Z := 1.
Definition FDIV : Z := 2.
Definition FSQRT : Z := 3.
Definition FCVT : Z := 4.
End FpuType.

(** The FPU latencies of [VX_config.h] (not part of the sources). *)
Class FpuConfig := {
  LATENCY_FMA : Z;
  LATENCY_FDIV : Z;
  LATENCY_FSQRT : Z;
  LATENCY_FCVT : Z
}.

Module FpuUnit.
Section FpuUnit.
Context {cfg : Config} {fcfg : FpuConfig} {W : Type}.

Record t := mk {
  Inputs : list (SimPort trace_ptr);
  Outputs : list (SimPort trace_ptr);
  core_ : Core W
}.

(** [trace->fpu_type]: the one field of a trace that the FPU reads, kept
    as a map from the address of the trace object to the field. *)
Definition fpu_type (types : gmap N Z) (p : trace_ptr) : res Z :=
  match types !! p with
  | Some ty => Ok ty
  | None => Fault FaultNull
  end.

(** The [switch] over [fpu_type]: the delay handed to [output.push]. *)
Definition push_delay (ty : Z) : res Z :=
  let delay := 2 in
  if ty =? FpuType.FNCP then Ok (2 + delay)
  else if ty =? FpuType.FMA then Ok (LATENCY_FMA + delay)
  else if ty =? FpuType.FDIV then Ok (LATENCY_FDIV + delay)
  else if ty =? FpuType.FSQRT then Ok (LATENCY_FSQRT + delay)
  else if ty =? FpuType.FCVT then Ok (LATENCY_FCVT + delay)
  else Fault FaultAbort.

(** The body of the loop over the issue lanes. *)
Definition tick_lane (types : gmap N Z) (iw : nat) (u : t) : res t :=
  input ← vec_at (Inputs u) iw;
  match queue input with
  | [] => Ok u
  | trace :: _ =>
      _ ← vec_at (Outputs u) iw;
      ty ← fpu_type types trace;
      d ← push_delay ty;
      outs ← ports_push (Outputs u) iw trace d;
      Ok (mk (ports_pop (Inputs u) iw) outs (core_ u))
  end.

Definition tick (types : gmap N Z) (u : t) : res t :=
  for_range 0 ISSUE_WIDTH (tick_lane types) u.

End FpuUnit.
Arguments t : clear implicits.
End FpuUnit.

(** ** Further configurations *)

Module Examples.

Definition fcfg : FpuConfig := Build_FpuConfig 4 16 16 4.

(** An FMA on lane 0 and an FDIV on lane 1 of the FPU. *)
Definition fpu_types : gmap N Z := {[ 1%N := FpuType.FMA; 2%N := FpuType.FDIV ]}.

Definition fpu0 : FpuUnit.t unit :=
  FpuUnit.mk [mkPort [1%N] []; mkPort [2%N] []] [port_new; port_new] Scenario.stub_core.

(** The ALU of [Scenario.alu0] when both heads end their instruction and
    the warp of the second one is stalled at fetch. *)
Definition alu_stall_heap : trace_heap :=
  {[ 1%N := mkTrace 1 0 0 0 15%N true false AluType.ARITH LOAD TMC None false;
     2%N := mkTrace 2 0 1 0 15%N true true AluType.BRANCH LOAD TMC None false ]}.

(** An SFU with one raster and one texture unit: a TMC on lane 0 (its warp
    stalled at fetch), a TEX on lane 1; the texture unit holds a response
    for this core (warp 1) and, behind it, one for core 1. *)
Definition tmc_trace : instr_trace :=
  mkTrace 21 0 0 0 15%N true true 0 LOAD TMC None false.
Definition tex_trace : instr_trace :=
  mkTrace 22 0 1 0 15%N true false 0 LOAD TEX (Some (TexTraceData 0)) false.
Definition rsp_trace : instr_trace :=
  mkTrace 23 0 1 0 15%N true false 0 LOAD TEX (Some (TexTraceData 0)) false.
Definition foreign_trace : instr_trace :=
  mkTrace 24 1 0 0 15%N true false 0 LOAD TEX (Some (TexTraceData 0)) false.
Definition cmov_trace : instr_trace :=
  mkTrace 25 0 1 0 15%N true false 0 LOAD CMOV None false.

Definition sfu_heap : trace_heap :=
  {[ 1%N := tmc_trace; 2%N := tex_trace; 3%N := rsp_trace; 4%N := foreign_trace;
     5%N := cmov_trace ]}.

Definition sfu_plain : SfuUnit.t unit :=
  SfuUnit.mk [mkPort [1%N] []; mkPort [2%N] []] [port_new; port_new] Scenario.stub_core
             [SfuUnit.mkCoproc port_new port_new]
             [SfuUnit.mkCoproc port_new (mkPort [3%N; 4%N] [])] []
             [SfuUnit.RasterOutput 0; SfuUnit.TexOutput 0].

(** A CMOV on lane 1, behind a TMC on lane 0. *)
Definition sfu_cmov : SfuUnit.t unit :=
  SfuUnit.mk [mkPort [1%N] []; mkPort [5%N] []] [port_new; port_new] Scenario.stub_core
             [] [] [] [].

(** An LSU whose pending table is full, with a STORE of lanes 0 and 2 on
    issue lane 1. *)
Definition store_trace : instr_trace :=
  mkTrace 12 0 1 0 5%N true false 0 STORE TMC
    (Some (LsuTraceData [Build_mem_addr_size_t 100 4; Build_mem_addr_size_t 104 4;
                         Build_mem_addr_size_t 108 4; Build_mem_addr_size_t 112 4]))
    false.

Definition lsu_store : LsuUnit.t unit :=
  LsuUnit.mk [port_new; mkPort [4%N] []] [port_new; port_new] Scenario.stub_core
    [LsuUnit.mkState
       (HashTable.mk [(true, LsuUnit.mkPending 1%N 15%N); (true, LsuUnit.mkPending 1%N 3%N)] 2)
       0%N false]
    6 {[ 4%N := store_trace ]} [].

(** A LOAD of an inactive packet (no thread of the mask is set) on lane 0. *)
Definition nolane_trace : instr_trace :=
  mkTrace 13 0 0 0 0%N true false 0 LOAD TMC None false.

Definition lsu_nolane : LsuUnit.t unit :=
  LsuUnit.mk [mkPort [5%N] []; port_new] [port_new; port_new] Scenario.stub_core
    [LsuUnit.mkState (HashTable.new 2 Scenario.no_entry) 0%N false]
    0 {[ 5%N := nolane_trace ]} [].

(** The table is full, a LOAD waits on lane 0, and the response that
    completes slot 1 has arrived. *)
Definition lsu_full_rsp : LsuUnit.t unit :=
  Scenario.lsu_with [mkPort [3%N] []; port_new] [LsuRsp.mk 3%N 1 0 7]
    (HashTable.mk [(true, LsuUnit.mkPending 1%N 15%N); (true, LsuUnit.mkPending 1%N 3%N)] 2)
    false 6.

(** The load of slot 0 is answered twice. *)
Definition lsu_dup : LsuUnit.t unit :=
  Scenario.lsu_with [port_new; port_new] [LsuRsp.mk 15%N 0 0 7; LsuRsp.mk 15%N 0 0 7]
    (HashTable.mk [(true, LsuUnit.mkPending 1%N 15%N); (false, Scenario.no_entry)] 1)
    false 4.

(** The response to the load of slot 0 comes back with bit 32 of its tag
    set. *)
Definition lsu_alias : LsuUnit.t unit :=
  Scenario.lsu_with [port_new; port_new] [LsuRsp.mk 3%N (2 ^ 32) 0 7]
    (HashTable.mk [(true, LsuUnit.mkPending 1%N 15%N); (false, Scenario.no_entry)] 1)
    false 4.

(** An LSU with nothing to do. *)
Definition lsu_idle : LsuUnit.t unit :=
  Scenario.lsu_with [port_new; port_new] [] (HashTable.new 2 Scenario.no_entry) false 0.

(** A WSPAWN on lane 0 and a BAR of warp 1 on lane 1 of the SFU, both with
    [eop]; the BAR has [fetch_stall] set, the WSPAWN has not. *)
Definition bar_trace : instr_trace :=
  mkTrace 12 0 1 0 15%N true true 0 LOAD BAR (Some (SFUTraceData 3 2)) false.

Definition sfu_wctl_heap : trace_heap :=
  {[ 1%N := Scenario.wspawn_trace; 2%N := bar_trace ]}.

Definition sfu_wctl : SfuUnit.t unit :=
  SfuUnit.mk [mkPort [1%N] []; mkPort [2%N] []] [port_new; port_new] Scenario.stub_core
             [] [] [] [].

(** The block is locked on the FENCE (trace 2), taken while the first LOAD
    (trace 1) was in flight, and another LOAD (trace 3) waits on lane 0. *)
Definition lsu_locked (rsps : list LsuRsp.t) (tbl : HashTable.t LsuUnit.pending_req_t)
    (pl : Z) : LsuUnit.t unit :=
  LsuUnit.mk [mkPort [3%N] []; port_new] [port_new; port_new]
    (mkCore 0 (mkPerf 0 0 0) [LocalMemDemux.mk port_new (mkPort rsps [])] tt [])
    [LsuUnit.mkState tbl 2%N true] pl Scenario.lsu_mem [].

(** The response for the two lower lanes of the first LOAD has arrived;
    the two upper lanes are still awaited. *)
Definition lsu_locked_busy : LsuUnit.t unit :=
  lsu_locked [LsuRsp.mk 3%N 0 0 7]
    (HashTable.mk [(true, LsuUnit.mkPending 1%N 15%N); (false, Scenario.no_entry)] 1) 4.

(** Every load before the FENCE has been absorbed. *)
Definition lsu_locked_done : LsuUnit.t unit :=
  lsu_locked []
    (HashTable.mk [(false, LsuUnit.mkPending 1%N 0%N); (false, Scenario.no_entry)] 0) 0.


(** A round-robin Mux of three inputs with nothing to forward. *)
Definition mux_empty : Mux.t nat :=
  Mux.mk [port_new; port_new; port_new] [port_new] RoundRobin 1 [0] 3.

(** Five inputs on two outputs: two inputs per output, input 4 is left over. *)
Definition mux5 : Mux.t nat :=
  Mux.mk [mkPort [10%nat] []; mkPort [20%nat] []; mkPort [30%nat] []; mkPort [40%nat] [];
          mkPort [50%nat] []]
         [port_new; port_new] RoundRobin 1 [0; 0] 2.

(** A Priority Mux of four inputs on two outputs; input 2 is empty. *)
Definition mux_prio : Mux.t nat :=
  Mux.mk [mkPort [10%nat] []; port_new; port_new; mkPort [40%nat] []]
         [port_new; port_new] Priority 1 [0; 0] 2.

(** A Priority Mux of three inputs on one output. *)
Definition mux_prio3 : Mux.t nat :=
  Mux.mk [mkPort [10; 11; 12]%nat []; mkPort [20; 21]%nat []; mkPort [30%nat] []]
         [port_new] Priority 1 [0] 3.

(** A memory switch of two inputs on one output with nothing to route. *)
Definition switch_idle : Switch.t MemReq.t MemRsp.t :=
  Switch.mk [port_new; port_new] [port_new; port_new] [port_new] [port_new]
            RoundRobin 1 [0] 1.

(** Three inputs on two outputs: [log2ceil(3 / 2) = 0]. *)
Definition switch32 : Switch.t MemReq.t MemRsp.t :=
  Switch.mk [mkPort [Scenario.small_req] []; port_new; mkPort [Scenario.big_req] []]
            [port_new; port_new; port_new] [port_new; port_new] [port_new; port_new]
            RoundRobin 1 [0; 0] 0.

End Examples.

(** * Properties *)

(** ** The error monad, vectors and ports *)

Lemma res_bind_Ok {A B} (k : A -> res B) (m : res A) (b : B) :
  m ≫= k = Ok b -> exists a, m = Ok a /\ k a = Ok b.
Proof. destruct m as [a|f]; simpl; [eauto | discriminate]. Qed.

Lemma vec_at_Ok {A} (v : list A) i x : vec_at v i = Ok x <-> v !! i = Some x.
Proof. unfold vec_at. destruct (v !! i); split; congruence. Qed.

Lemma vec_at_lookup {A} (v : list A) i x : v !! i = Some x -> vec_at v i = Ok x.
Proof. apply vec_at_Ok. Qed.

Lemma deref_Ok (h : trace_heap) p t : deref h p = Ok t <-> h !! p = Some t.
Proof. unfold deref. destruct (h !! p); split; congruence. Qed.

Lemma port_push_Ok {T} (x : T) d p p' :
  port_push x d p = Ok p' <-> d <> 0 /\ p' = mkPort (queue p) (sched p ++ [(x, d)]).
Proof.
  unfold port_push. destruct (Z.eqb_spec d 0); split.
  - discriminate.
  - intros [? _]; contradiction.
  - intros [= <-]; auto.
  - intros [_ ->]; reflexivity.
Qed.

Lemma ports_push_Ok {T} (ports : list (SimPort T)) i x d ports' :
  ports_push ports i x d = Ok ports' <->
  exists p, ports !! i = Some p /\ d <> 0 /\
            ports' = <[i := mkPort (queue p) (sched p ++ [(x, d)])]> ports.
Proof.
  unfold ports_push. split.
  - intros Hp. apply res_bind_Ok in Hp as (p & E1 & Hp).
    apply res_bind_Ok in Hp as (p' & E2 & Hp).
    apply vec_at_Ok in E1. apply port_push_Ok in E2 as [Hd ->].
    injection Hp as <-. eauto.
  - intros (p & Hl & Hd & ->). rewrite (vec_at_lookup _ _ _ Hl). simpl.
    rewrite (proj2 (port_push_Ok x d p _) (conj Hd eq_refl)). reflexivity.
Qed.

Lemma ports_push_length {T} (ports : list (SimPort T)) i x d ports' :
  ports_push ports i x d = Ok ports' -> length ports' = length ports.
Proof. intros (p & _ & _ & ->)%ports_push_Ok. apply length_insert. Qed.

Lemma ports_push_ne {T} (ports : list (SimPort T)) i j x d ports' :
  ports_push ports i x d = Ok ports' -> i <> j -> ports' !! j = ports !! j.
Proof. intros (p & _ & _ & ->)%ports_push_Ok Hne. by apply list_lookup_insert_ne. Qed.

Lemma ports_push_eq {T} (ports : list (SimPort T)) i x d ports' p :
  ports_push ports i x d = Ok ports' -> ports !! i = Some p ->
  ports' !! i = Some (mkPort (queue p) (sched p ++ [(x, d)])).
Proof.
  intros (p0 & Hl & _ & ->)%ports_push_Ok Hp.
  assert (p0 = p) as -> by congruence.
  apply list_lookup_insert_eq. by eapply lookup_lt_Some.
Qed.

Lemma ports_pop_length {T} (ports : list (SimPort T)) i :
  length (ports_pop ports i) = length ports.
Proof. unfold ports_pop. destruct (ports !! i); [apply length_insert | done]. Qed.

Lemma ports_pop_ne {T} (ports : list (SimPort T)) i j :
  i <> j -> ports_pop ports i !! j = ports !! j.
Proof.
  intros Hne. unfold ports_pop. destruct (ports !! i); [|done].
  by apply list_lookup_insert_ne.
Qed.

Lemma ports_pop_eq {T} (ports : list (SimPort T)) i p :
  ports !! i = Some p -> ports_pop ports i !! i = Some (port_pop p).
Proof.
  intros Hp. unfold ports_pop. rewrite Hp.
  apply list_lookup_insert_eq. by eapply lookup_lt_Some.
Qed.

(** ** Loops *)

Lemma for_range_snoc {St} lo n (body : nat -> St -> res St) s :
  for_range lo (S n) body s = for_range lo n body s ≫= body (lo + n)%nat.
Proof.
  revert lo s. induction n as [|n IH]; intros lo s.
  - simpl. rewrite Nat.add_0_r. destruct (body lo s); reflexivity.
  - change (for_range lo (S (S n)) body s)
      with (body lo s ≫= for_range (S lo) (S n) body).
    change (for_range lo (S n) body s)
      with (body lo s ≫= for_range (S lo) n body).
    destruct (body lo s) as [s1|f]; [|reflexivity].
    change (for_range (S lo) (S n) body s1
            = for_range (S lo) n body s1 ≫= body (lo + S n)%nat).
    rewrite IH. replace (S lo + n)%nat with (lo + S n)%nat by lia. reflexivity.
Qed.

(** Invariant rule: [P i] holds before iteration [i]. *)
Lemma for_range_inv {St} (P : nat -> St -> Prop) lo n (body : nat -> St -> res St) s s' :
  P lo s ->
  (forall i t t', (lo <= i < lo + n)%nat -> P i t -> body i t = Ok t' -> P (S i) t') ->
  for_range lo n body s = Ok s' ->
  P (lo + n)%nat s'.
Proof.
  revert lo s. induction n as [|n IH]; intros lo s H0 Hstep Hrun.
  - simpl in Hrun. injection Hrun as <-. by rewrite Nat.add_0_r.
  - simpl in Hrun. apply res_bind_Ok in Hrun as (s1 & E1 & Hrun).
    replace (lo + S n)%nat with (S lo + n)%nat by lia.
    apply (IH (S lo) s1); [| |done].
    + apply (Hstep lo s s1); [lia|done|done].
    + intros i t t' Hi. apply Hstep. lia.
Qed.

(** A loop that completes went through iteration [b]. *)
Lemma for_range_split {St} lo n (body : nat -> St -> res St) s s' b :
  (lo <= b < lo + n)%nat ->
  for_range lo n body s = Ok s' ->
  exists s1 s2,
    for_range lo (b - lo) body s = Ok s1 /\
    body b s1 = Ok s2 /\
    for_range (S b) (lo + n - S b) body s2 = Ok s'.
Proof.
  revert lo s. induction n as [|n IH]; intros lo s Hb Hrun; [lia|].
  simpl in Hrun. apply res_bind_Ok in Hrun as (t & Hstep & Hrun).
  destruct (decide (b = lo)) as [->|Hne].
  - exists s, t. rewrite Nat.sub_diag. split; [done|]. split; [done|].
    by replace (lo + S n - S lo)%nat with n by lia.
  - destruct (IH (S lo) t ltac:(lia) Hrun) as (s1 & s2 & H1 & H2 & H3).
    exists s1, s2. split; [|split; [done|]].
    + replace (b - lo)%nat with (S (b - S lo)) by lia. simpl. by rewrite Hstep.
    + by replace (lo + S n - S b)%nat with (S lo + n - S b)%nat by lia.
Qed.

(** Progress rule: if the invariant makes every iteration succeed, the loop
    succeeds. *)
Lemma for_range_total {St} (P : nat -> St -> Prop) lo n (body : nat -> St -> res St) s :
  P lo s ->
  (forall i t, (lo <= i < lo + n)%nat -> P i t -> exists t', body i t = Ok t' /\ P (S i) t') ->
  exists s', for_range lo n body s = Ok s' /\ P (lo + n)%nat s'.
Proof.
  revert lo s. induction n as [|n IH]; intros lo s H0 Hstep.
  - exists s. rewrite Nat.add_0_r. done.
  - destruct (Hstep lo s) as (s1 & E1 & H1); [lia|done|].
    destruct (IH (S lo) s1) as (s' & Hrun & Hs'); [done| |].
    + intros i t Hi. apply Hstep. lia.
    + exists s'. simpl. rewrite E1. simpl.
      replace (lo + S n)%nat with (S lo + n)%nat by lia. done.
Qed.

(** ** Masks *)

Lemma popcount_pos_pos p : 0 < popcount_pos p.
Proof. induction p; simpl; lia. Qed.

Lemma popcount_nonneg m : 0 <= popcount m.
Proof. destruct m; simpl; [lia|]. pose proof (popcount_pos_pos p). lia. Qed.

Lemma popcount_zero m : popcount m = 0 <-> m = 0%N.
Proof.
  destruct m; simpl; [done|]. pose proof (popcount_pos_pos p). split; [lia|discriminate].
Qed.

Lemma popcount_double n : popcount (Pos.Ndouble n) = popcount n.
Proof. by destruct n. Qed.

Lemma popcount_succ_double n : popcount (Pos.Nsucc_double n) = 1 + popcount n.
Proof. by destruct n. Qed.

Lemma pos_land_II p q : Pos.land p~1 q~1 = Pos.Nsucc_double (Pos.land p q).
Proof. reflexivity. Qed.
Lemma pos_land_IO p q : Pos.land p~1 q~0 = Pos.Ndouble (Pos.land p q).
Proof. reflexivity. Qed.
Lemma pos_land_OI p q : Pos.land p~0 q~1 = Pos.Ndouble (Pos.land p q).
Proof. reflexivity. Qed.
Lemma pos_land_OO p q : Pos.land p~0 q~0 = Pos.Ndouble (Pos.land p q).
Proof. reflexivity. Qed.

Lemma popcount_pos_split p q :
  popcount (Pos.ldiff p q) + popcount (Pos.land p q) = popcount_pos p.
Proof.
  revert q. induction p as [p IH|p IH|]; intros [q|q|]; simpl;
    rewrite ?pos_land_II, ?pos_land_IO, ?pos_land_OI, ?pos_land_OO,
      ?popcount_double, ?popcount_succ_double; try specialize (IH q); try lia.
Qed.

(** The lanes of [m] split into those outside and those inside [r]. *)
Lemma popcount_split m r :
  popcount (N.ldiff m r) + popcount (N.land m r) = popcount m.
Proof.
  destruct m as [|p], r as [|q]; simpl; try lia. apply popcount_pos_split.
Qed.

Lemma popcount_ldiff_le m r : popcount (N.ldiff m r) <= popcount m.
Proof. pose proof (popcount_split m r). pose proof (popcount_nonneg (N.land m r)). lia. Qed.

(** [r] is a subset of [m]. *)
Definition mask_subset (r m : N) : Prop := N.land m r = r.

Lemma popcount_ldiff_subset m r :
  mask_subset r m -> popcount (N.ldiff m r) = popcount m - popcount r.
Proof. unfold mask_subset. intros Hs. pose proof (popcount_split m r). rewrite Hs in *. lia. Qed.

Lemma popcount_pos_lor p q :
  popcount_pos (Pos.lor p q) <= popcount_pos p + popcount_pos q.
Proof.
  revert q. induction p as [p IH|p IH|]; intros [q|q|]; simpl;
    try specialize (IH q); try pose proof (popcount_pos_pos p);
    try pose proof (popcount_pos_pos q); lia.
Qed.

Lemma popcount_lor m r : popcount (N.lor m r) <= popcount m + popcount r.
Proof.
  destruct m as [|p], r as [|q]; simpl; try lia. apply popcount_pos_lor.
Qed.

Lemma popcount_pow2 i : popcount (N.shiftl 1 i) = 1.
Proof.
  rewrite N.shiftl_1_l. induction i as [|i IH] using N.peano_ind; [done|].
  rewrite N.pow_succ_r'. destruct (2 ^ i)%N eqn:E; [done|]. simpl in *. done.
Qed.

Lemma popcount_setbit m i : popcount (N.setbit m i) <= popcount m + 1.
Proof.
  rewrite N.setbit_spec'. pose proof (popcount_lor m (2 ^ i)).
  rewrite <- N.shiftl_1_l, popcount_pow2 in H. rewrite <- N.shiftl_1_l. lia.
Qed.

Lemma wrap64_small z : 0 <= z < 2 ^ 64 -> wrap64 z = z.
Proof. intros Hz. unfold wrap64. by apply Z.mod_small. Qed.

Lemma wrap32_small z : 0 <= z < 2 ^ 32 -> wrap32 z = z.
Proof. intros Hz. unfold wrap32. by apply Z.mod_small. Qed.

(** Sums over a vector, and what an update at one index does to them. *)
Definition sum_map {A} (g : A -> Z) (l : list A) : Z := fold_right Z.add 0 (map g l).

Lemma sum_map_insert {A} (g : A -> Z) (l : list A) (i : nat) (x y : A) :
  l !! i = Some x -> sum_map g (<[i := y]> l) = sum_map g l - g x + g y.
Proof.
  revert i. induction l as [|a l IH]; intros [|i] Hi; try discriminate.
  - injection Hi as ->. unfold sum_map. simpl. lia.
  - simpl in Hi. specialize (IH i Hi). unfold sum_map in *. simpl. lia.
Qed.

Lemma sum_map_le {A} (g g' : A -> Z) (l : list A) :
  (forall i x, l !! i = Some x -> g x <= g' x) -> sum_map g l <= sum_map g' l.
Proof.
  induction l as [|a l IH]; intros Hle; [done|].
  unfold sum_map in *. simpl.
  pose proof (Hle 0%nat a eq_refl). 
  assert (fold_right Z.add 0 (map g l) <= fold_right Z.add 0 (map g' l)).
  { apply IH. intros i x Hx. apply (Hle (S i) x Hx). }
  lia.
Qed.

Lemma flat_map_ext_In {A B} (f g : A -> list B) (l : list A) :
  (forall x, In x l -> f x = g x) -> flat_map f l = flat_map g l.
Proof.
  induction l as [|a l IH]; intros Hfg; [done|].
  simpl. rewrite (Hfg a) by (by left). f_equal. apply IH. intros x Hx. apply Hfg. by right.
Qed.

(** Arbiters have at most 32 inputs: group sizes are [2^k] with [k <= 5]. *)
Lemma pow2_range k : 1 <= k <= 5 -> 2 <= 2 ^ k <= 32.
Proof.
  intros Hk. assert (k = 1 \/ k = 2 \/ k = 3 \/ k = 4 \/ k = 5) as Hc by lia.
  destruct Hc as [->|[->|[->|[->| ->]]]]; simpl; lia.
Qed.

(** [x & (2^k - 1)] is [x mod 2^k]. *)
Lemma land_low_mask c k : 0 <= k -> Z.land c (2 ^ k - 1) = c mod 2 ^ k.
Proof.
  intros Hk. rewrite <- Z.land_ones by done. by rewrite Z.ones_equiv, <- Z.sub_1_r.
Qed.

Lemma for_range_fault {St} (P : nat -> St -> Prop) lo n (body : nat -> St -> res St) s f :
  P lo s ->
  (forall i t, (lo <= i < lo + n)%nat -> P i t ->
     body i t = Fault f \/ exists t', body i t = Ok t' /\ P (S i) t') ->
  (exists i, (lo <= i < lo + n)%nat /\ forall t, P i t -> body i t = Fault f) ->
  for_range lo n body s = Fault f.
Proof.
  revert lo s. induction n as [|n IH]; intros lo s H0 Hstep (i & Hi & Hbad).
  - lia.
  - simpl. destruct (Hstep lo s) as [E|(s1 & E & H1)]; [lia|done| |].
    + by rewrite E.
    + rewrite E. simpl. apply IH; [done| |].
      * intros j t Hj. apply Hstep. lia.
      * destruct (decide (i = lo)) as [->|Hne].
        -- rewrite (Hbad s H0) in E. discriminate.
        -- exists i. split; [lia|done].
Qed.

(** ** AluUnit *)

Module AluUnitProps.
Import AluUnit.
Section AluUnitProps.
Context {cfg : Config} {W : Type} `{WarpScheduler W}.

(** The five enumerators of [AluType]. *)
Definition known_alu_type (ty : Z) : Prop :=
  ty = AluType.ARITH \/ ty = AluType.BRANCH \/ ty = AluType.SYSCALL \/
  ty = AluType.IMUL \/ ty = AluType.IDIV.

(** The table of total delays of spec 4.2. *)
Definition table_delay (ty d : Z) : Prop :=
  ((ty = AluType.ARITH \/ ty = AluType.BRANCH \/ ty = AluType.SYSCALL) /\ d = 4) \/
  (ty = AluType.IMUL /\ d = LATENCY_IMUL + 2) \/
  (ty = AluType.IDIV /\ d = XLEN + 2).

Lemma push_delay_Ok ty d : push_delay ty = Ok d <-> table_delay ty d.
Proof.
  unfold push_delay, table_delay, AluType.ARITH, AluType.BRANCH, AluType.SYSCALL,
    AluType.IMUL, AluType.IDIV.
  destruct (Z.eqb_spec ty 0); [simpl; split; [intros [= <-]|intros H1; f_equal]; lia|].
  destruct (Z.eqb_spec ty 1); [simpl; split; [intros [= <-]|intros H1; f_equal]; lia|].
  destruct (Z.eqb_spec ty 2); [simpl; split; [intros [= <-]|intros H1; f_equal]; lia|].
  destruct (Z.eqb_spec ty 3); [simpl; split; [intros [= <-]|intros H1; f_equal]; lia|].
  destruct (Z.eqb_spec ty 4); [simpl; split; [intros [= <-]|intros H1; f_equal]; lia|].
  simpl. split; [discriminate|lia].
Qed.

Lemma push_delay_known ty : known_alu_type ty -> exists d, push_delay ty = Ok d.
Proof.
  unfold known_alu_type, push_delay.
  intros [->|[->|[->|[->| ->]]]]; simpl; eauto.
Qed.

Lemma push_delay_abort ty : ~ known_alu_type ty -> push_delay ty = Fault FaultAbort.
Proof.
  intros Hn. destruct (push_delay ty) as [d|f] eqn:E.
  - exfalso. apply Hn. apply push_delay_Ok in E. unfold table_delay in E.
    unfold known_alu_type. tauto.
  - unfold push_delay in E.
    repeat match type of E with
           | (if ?c then _ else _) = _ => destruct c; try discriminate
           end.
    by injection E as <-.
Qed.

(** The served lane: the head left the input and waits on the output. *)
Definition served (u u' : AluUnit.t W) (iw : nat) (trace : trace_ptr) (d : Z) : Prop :=
  exists input out,
    Inputs u !! iw = Some input /\ Outputs u !! iw = Some out /\
    Inputs u' !! iw = Some (mkPort (tail (queue input)) (sched input)) /\
    Outputs u' !! iw = Some (mkPort (queue out) (sched out ++ [(trace, d)])).

Definition untouched_from (u u' : AluUnit.t W) (k : nat) : Prop :=
  forall j, (k <= j)%nat ->
    Inputs u' !! j = Inputs u !! j /\ Outputs u' !! j = Outputs u !! j.

(** Every head of an input lane points to a trace. *)
Definition heads_valid (h : trace_heap) (u : AluUnit.t W) : Prop :=
  forall iw input trace q,
    Inputs u !! iw = Some input -> queue input = trace :: q -> is_Some (h !! trace).

Definition head_of (h : trace_heap) (u : AluUnit.t W) (iw : nat) (trace : trace_ptr)
    (tr : instr_trace) : Prop :=
  exists input q,
    Inputs u !! iw = Some input /\ queue input = trace :: q /\ h !! trace = Some tr.

Lemma tick_lane_empty h iw u input :
  Inputs u !! iw = Some input -> queue input = [] -> tick_lane h iw u = Ok u.
Proof.
  intros Hi Hq. unfold tick_lane. rewrite (vec_at_lookup _ _ _ Hi). simpl.
  by rewrite Hq.
Qed.

Lemma tick_lane_head h iw u input out trace q tr :
  Inputs u !! iw = Some input -> Outputs u !! iw = Some out ->
  queue input = trace :: q -> h !! trace = Some tr ->
  tick_lane h iw u =
    (d ← push_delay (alu_type tr);
     if d =? 0 then Fault (FaultAssert AssertDelay)
     else Ok (mk (<[iw := port_pop input]> (Inputs u))
                 (<[iw := mkPort (queue out) (sched out ++ [(trace, d)])]> (Outputs u))
                 (if eop tr && fetch_stall tr
                  then Core_resume (wid tr) (core_ u) else core_ u))).
Proof.
  intros Hi Ho Hq Ht. unfold tick_lane.
  rewrite (vec_at_lookup _ _ _ Hi). simpl. rewrite Hq.
  rewrite (vec_at_lookup _ _ _ Ho). simpl.
  rewrite (proj2 (deref_Ok _ _ _) Ht). simpl.
  destruct (push_delay (alu_type tr)) as [d|f]; [simpl|done].
  unfold ports_push, port_push. rewrite (vec_at_lookup _ _ _ Ho). simpl.
  destruct (d =? 0); [done|]. simpl. unfold ports_pop. by rewrite Hi.
Qed.

Lemma tick_lane_frame h iw u u' :
  tick_lane h iw u = Ok u' ->
  length (Inputs u') = length (Inputs u) /\
  length (Outputs u') = length (Outputs u) /\
  forall j, j <> iw ->
    Inputs u' !! j = Inputs u !! j /\ Outputs u' !! j = Outputs u !! j.
Proof.
  unfold tick_lane. intros Hrun.
  apply res_bind_Ok in Hrun as (input & Hi & Hrun). apply vec_at_Ok in Hi.
  destruct (queue input) as [|trace q] eqn:Hq.
  - injection Hrun as <-. auto.
  - apply res_bind_Ok in Hrun as (out & Ho & Hrun).
    apply res_bind_Ok in Hrun as (tr & Ht & Hrun).
    apply res_bind_Ok in Hrun as (d & Hd & Hrun).
    apply res_bind_Ok in Hrun as (outs & Hp & Hrun).
    injection Hrun as <-. simpl.
    rewrite ports_pop_length, (ports_push_length _ _ _ _ _ Hp).
    split; [done|]. split; [done|]. intros j Hj.
    rewrite ports_pop_ne by done. by rewrite (ports_push_ne _ _ _ _ _ _ Hp).
Qed.

Definition lanes_ok (u t : AluUnit.t W) (k : nat) : Prop :=
  length (Inputs t) = ISSUE_WIDTH /\ length (Outputs t) = ISSUE_WIDTH /\
  untouched_from u t k.

Lemma table_delay_nonzero ty d :
  LATENCY_IMUL + 2 <> 0 -> XLEN + 2 <> 0 -> table_delay ty d -> d <> 0.
Proof. unfold table_delay. intros H1 H2 [[_ ->]|[[_ ->]|[_ ->]]]; lia. Qed.

Lemma tick_lane_bad h u t i trace tr :
  lanes_ok u t i -> (i < ISSUE_WIDTH)%nat ->
  head_of h u i trace tr -> ~ known_alu_type (alu_type tr) ->
  tick_lane h i t = Fault FaultAbort.
Proof.
  intros (Hli & Hlo & Hun) Hi (input & q & Hin & Hq & Ht) Hbad.
  destruct (Hun i) as [Hi1 Ho1]; [lia|].
  destruct (lookup_lt_is_Some_2 (Outputs t) i) as [out Hout]; [lia|].
  rewrite <- Hi1 in Hin.
  rewrite (tick_lane_head h i t input out trace q tr Hin Hout Hq Ht).
  by rewrite (push_delay_abort _ Hbad).
Qed.

Lemma tick_lane_good h u t i :
  LATENCY_IMUL + 2 <> 0 -> XLEN + 2 <> 0 ->
  heads_valid h u -> lanes_ok u t i -> (i < ISSUE_WIDTH)%nat ->
  (forall trace tr, head_of h u i trace tr -> known_alu_type (alu_type tr)) ->
  exists t', tick_lane h i t = Ok t' /\ lanes_ok u t' (S i) /\
    (forall trace tr, head_of h u i trace tr ->
       exists d, table_delay (alu_type tr) d /\ served u t' i trace d).
Proof.
  intros HL HX Hv (Hli & Hlo & Hun) Hi Hknown.
  destruct (Hun i) as [Hi1 Ho1]; [lia|].
  destruct (lookup_lt_is_Some_2 (Inputs t) i) as [input Hin]; [lia|].
  destruct (lookup_lt_is_Some_2 (Outputs t) i) as [out Hout]; [lia|].
  destruct (queue input) as [|trace q] eqn:Hq.
  - exists t. split; [by eapply tick_lane_empty|]. split.
    + repeat split; try done; apply Hun; lia.
    + intros trace tr (input' & q & Hin' & Hq' & _). congruence.
  - destruct (Hv i input trace q) as [tr Ht]; [congruence|done|].
    assert (head_of h u i trace tr) as Hhead.
    { exists input, q. rewrite <- Hi1. done. }
    destruct (push_delay_known _ (Hknown _ _ Hhead)) as [d Hd].
    pose proof (proj1 (push_delay_Ok _ _) Hd) as Htab.
    pose proof (table_delay_nonzero _ _ HL HX Htab) as Hd0.
    eexists. split.
    { rewrite (tick_lane_head h i t input out trace q tr Hin Hout Hq Ht).
      rewrite Hd. simpl. destruct (Z.eqb_spec d 0); [done|]. reflexivity. }
    split.
    + unfold lanes_ok, untouched_from. simpl. rewrite !length_insert.
      split; [done|]. split; [done|]. intros j Hj.
      rewrite !list_lookup_insert_ne by lia. apply Hun. lia.
    + intros trace' tr' (input' & q' & Hin' & Hq' & Ht').
      assert (input' = input) as -> by congruence.
      assert (trace' = trace) as -> by congruence.
      assert (tr' = tr) as -> by congruence.
      exists d. split; [done|]. exists input, out. simpl.
      rewrite !list_lookup_insert_eq by lia.
      repeat split; congruence.
Qed.

#[local] Instance known_alu_type_dec ty : Decision (known_alu_type ty).
Proof. unfold known_alu_type. apply _. Defined.

Lemma tick_lane_either h u t i :
  LATENCY_IMUL + 2 <> 0 -> XLEN + 2 <> 0 ->
  heads_valid h u -> lanes_ok u t i -> (i < ISSUE_WIDTH)%nat ->
  tick_lane h i t = Fault FaultAbort \/
  exists t', tick_lane h i t = Ok t' /\ lanes_ok u t' (S i).
Proof.
  intros HL HX Hv Hok Hi.
  pose proof Hok as (Hli & Hlo & Hun).
  destruct (Hun i) as [Hi1 Ho1]; [lia|].
  destruct (lookup_lt_is_Some_2 (Inputs t) i) as [input Hin]; [lia|].
  destruct (queue input) as [|trace q] eqn:Hq.
  - right. destruct (tick_lane_good h u t i HL HX Hv Hok Hi) as (t' & ? & ? & _); [|eauto].
    intros trace tr (input' & q & Hin' & Hq' & _). congruence.
  - destruct (Hv i input trace q) as [tr Ht]; [congruence|done|].
    assert (head_of h u i trace tr) as Hhead.
    { exists input, q. rewrite <- Hi1. done. }
    destruct (decide (known_alu_type (alu_type tr))) as [Hk|Hk].
    + right. destruct (tick_lane_good h u t i HL HX Hv Hok Hi) as (t' & ? & ? & _); [|eauto].
      intros trace' tr' (input' & q' & Hin' & Hq' & Ht').
      assert (input' = input) as -> by congruence.
      assert (trace' = trace) as -> by congruence.
      assert (tr' = tr) as -> by congruence. done.
    + left. by eapply tick_lane_bad.
Qed.

(** C6.  On a tick of the ALU every trace at the head of an input lane is
    popped and pushed to the output of the same lane, with total delay 4
    for ARITH, BRANCH and SYSCALL, [LATENCY_IMUL + 2] for IMUL and
    [XLEN + 2] for IDIV; if a head carries any other [alu_type] value the
    tick aborts the program. *)
Theorem alu_tick_delays (h : trace_heap) (u : AluUnit.t W) :
  length (Inputs u) = ISSUE_WIDTH -> length (Outputs u) = ISSUE_WIDTH ->
  heads_valid h u ->
  LATENCY_IMUL + 2 <> 0 -> XLEN + 2 <> 0 ->
  ((forall iw trace tr, head_of h u iw trace tr -> known_alu_type (alu_type tr)) ->
   exists u', tick h u = Ok u' /\
     forall iw trace tr, head_of h u iw trace tr ->
       exists d, table_delay (alu_type tr) d /\ served u u' iw trace d) /\
  ((exists iw trace tr, head_of h u iw trace tr /\ ~ known_alu_type (alu_type tr)) ->
   tick h u = Fault FaultAbort).
Proof.
  intros Hli Hlo Hv HL HX. split.
  - intros Hknown.
    destruct (for_range_total
      (fun k t => lanes_ok u t k /\
         forall iw trace tr, (iw < k)%nat -> head_of h u iw trace tr ->
           exists d, table_delay (alu_type tr) d /\ served u t iw trace d)
      0 ISSUE_WIDTH (tick_lane h) u) as (u' & Hrun & Hok & Hserved).
    + split; [|intros; lia]. repeat split; done.
    + intros i t Hi [Hok Hs].
      destruct (tick_lane_good h u t i HL HX Hv Hok) as (t' & Hrun & Hok' & Hnew);
        [lia|intros; eapply Hknown; eauto|].
      exists t'. split; [done|]. split; [done|].
      intros iw trace tr Hiw Hhead.
      destruct (decide (iw = i)) as [->|Hne]; [by apply Hnew|].
      destruct (Hs iw trace tr) as (d & Htab & input & out & H1 & H2 & H3 & H4);
        [lia|done|].
      destruct (tick_lane_frame _ _ _ _ Hrun) as (_ & _ & Hfr).
      destruct (Hfr iw Hne) as [F1 F2].
      exists d. split; [done|]. exists input, out. rewrite F1, F2. done.
    + exists u'. split; [done|]. intros iw trace tr Hhead.
      apply Hserved; [|done].
      destruct Hhead as (input & q & Hin & _). apply lookup_lt_Some in Hin. lia.
  - intros (iw & trace & tr & Hhead & Hbad).
    assert (iw < ISSUE_WIDTH)%nat as Hiw.
    { destruct Hhead as (input & q & Hin & _). apply lookup_lt_Some in Hin. lia. }
    unfold tick.
    apply (for_range_fault (fun k t => lanes_ok u t k)).
    + repeat split; done.
    + intros i t Hi Hok. apply (tick_lane_either h u t i); auto. lia.
    + exists iw. split; [lia|]. intros t Hok. by eapply tick_lane_bad.
Qed.

End AluUnitProps.

(** The scenario of spec 8: an ARITH on lane 0 and an IDIV on lane 1. *)
Lemma scenario_heads (h : trace_heap) iw trace tr (P : Prop) :
  head_of (W:=unit) h Scenario.alu0 iw trace tr ->
  (iw = 0%nat -> trace = 1%N -> h !! 1%N = Some tr -> P) ->
  (iw = 1%nat -> trace = 2%N -> h !! 2%N = Some tr -> P) -> P.
Proof.
  intros (input & q & Hin & Hq & Ht) H0 H1.
  destruct iw as [|[|iw]]; simpl in Hin; [| |discriminate Hin].
  - injection Hin as <-. injection Hq as <- _. by apply H0.
  - injection Hin as <-. injection Hq as <- _. by apply H1.
Qed.

Lemma scenario_heads_valid (h : trace_heap) :
  is_Some (h !! 1%N) -> is_Some (h !! 2%N) -> heads_valid (W:=unit) h Scenario.alu0.
Proof.
  intros V1 V2 iw input trace q Hin Hq.
  destruct iw as [|[|iw]]; simpl in Hin; [| |discriminate Hin];
    injection Hin as <-; injection Hq as <- _; done.
Qed.

Lemma alu_tick_delays_witness :
  (exists u', tick (cfg:=Scenario.cfg) (H:=Scenario.stub_sched) Scenario.alu_heap Scenario.alu0 = Ok u' /\
     forall iw trace tr, head_of Scenario.alu_heap Scenario.alu0 iw trace tr ->
       exists d, table_delay (cfg:=Scenario.cfg) (alu_type tr) d /\
                 served Scenario.alu0 u' iw trace d) /\
  tick (cfg:=Scenario.cfg) (H:=Scenario.stub_sched) Scenario.alu_bad_heap Scenario.alu0
    = Fault FaultAbort.
Proof.
  split.
  - apply (alu_tick_delays (cfg:=Scenario.cfg) (H:=Scenario.stub_sched)
             Scenario.alu_heap Scenario.alu0); try reflexivity; try (simpl; lia).
    + apply scenario_heads_valid; vm_compute; eauto.
    + intros iw trace tr Hh.
      apply (scenario_heads _ _ _ _ _ Hh); intros _ _ Ht; vm_compute in Ht;
        injection Ht as <-; unfold known_alu_type; simpl; auto.
  - apply (alu_tick_delays (cfg:=Scenario.cfg) (H:=Scenario.stub_sched)
             Scenario.alu_bad_heap Scenario.alu0); try reflexivity; try (simpl; lia).
    + apply scenario_heads_valid; vm_compute; eauto.
    + exists 1%nat, 2%N, (Scenario.alu_trace 7 1). split.
      * exists (mkPort [2%N] []), []. repeat split; reflexivity.
      * unfold known_alu_type. vm_compute. intros [?|[?|[?|[?|?]]]]; discriminate.
Defined.

End AluUnitProps.

(** ** HashTable *)

Module HashTableProps.
Import HashTable.
Section HashTableProps.
Context {T : Type}.
Implicit Types (h : HashTable.t T) (es : list (bool * T)) (f : T -> Z).

(** The sum of [f] over the slots in use. *)
Definition sum_alloc f es : Z :=
  fold_right Z.add 0 (map f (map snd (List.filter (fun e : bool * T => fst e) es))).

Lemma sum_alloc_cons f (b : bool) (x : T) es :
  sum_alloc f ((b, x) :: es) = (if b then f x else 0) + sum_alloc f es.
Proof. unfold sum_alloc. simpl. destruct b; simpl; lia. Qed.

Lemma sum_alloc_insert f es (j : nat) (b : bool) (x : T) (b' : bool) (y : T) :
  es !! j = Some (b, x) ->
  sum_alloc f (<[j := (b', y)]> es)
  = sum_alloc f es - (if b then f x else 0) + (if b' then f y else 0).
Proof.
  revert j. induction es as [|[c z] es IH]; intros [|j] Hj; try discriminate.
  - injection Hj as -> ->. simpl. rewrite !sum_alloc_cons. lia.
  - simpl in Hj. change (<[S j := (b', y)]> ((c, z) :: es))
      with ((c, z) :: <[j := (b', y)]> es).
    rewrite !sum_alloc_cons, (IH j Hj). lia.
Qed.

Lemma sum_alloc_nonneg f es : (forall x, 0 <= f x) -> 0 <= sum_alloc f es.
Proof.
  intros Hf. induction es as [|[b x] es IH]; [done|].
  rewrite sum_alloc_cons. specialize (Hf x). destruct b; lia.
Qed.

Lemma sum_alloc_bound f es c :
  (forall x, 0 <= f x <= c) -> sum_alloc f es <= c * Z.of_nat (length es).
Proof.
  intros Hf. induction es as [|[b x] es IH]; [simpl; unfold sum_alloc; simpl; lia|].
  rewrite sum_alloc_cons. specialize (Hf x). simpl length. destruct b; lia.
Qed.

Lemma sum_alloc_bound_P (P : T -> Prop) f es c :
  0 <= c ->
  (forall x, P x -> 0 <= f x <= c) ->
  (forall i x, es !! i = Some (true, x) -> P x) ->
  0 <= sum_alloc f es <= c * Z.of_nat (length es).
Proof.
  intros Hc Hf. induction es as [|[b x] es IH]; intros HP.
  - unfold sum_alloc. simpl. lia.
  - rewrite sum_alloc_cons. simpl length.
    assert (0 <= sum_alloc f es <= c * Z.of_nat (length es)) as IH'.
    { apply IH. intros i y Hi. apply (HP (S i) y Hi). }
    destruct b; [|lia].
    specialize (Hf x (HP 0%nat x eq_refl)). lia.
Qed.

Lemma count_alloc es :
  Z.of_nat (length (map snd (List.filter (fun e : bool * T => fst e) es)))
  = sum_alloc (fun _ => 1) es.
Proof.
  induction es as [|[b x] es IH]; [done|].
  rewrite sum_alloc_cons, <- IH. simpl. destruct b; simpl; lia.
Qed.

Lemma count_alloc_le es : sum_alloc (fun _ => 1) es <= Z.of_nat (length es).
Proof.
  pose proof (sum_alloc_bound (fun _ => 1) es 1 (fun _ => ltac:(lia))). lia.
Qed.

(** When every slot is in use the count is the capacity, and conversely. *)
Lemma count_alloc_full es :
  sum_alloc (fun _ => 1) es = Z.of_nat (length es) <->
  forall i e, es !! i = Some e -> fst e = true.
Proof.
  induction es as [|[b x] es IH].
  - split; [intros _ i e; by rewrite lookup_nil|done].
  - rewrite sum_alloc_cons. simpl length. pose proof (count_alloc_le es). split.
    + intros Heq. destruct b; [|lia].
      intros [|i] e He; [by injection He as <-|].
      simpl in He. apply IH in He; [done|lia].
    + intros Hall. pose proof (Hall 0%nat (b, x) eq_refl) as Hb. simpl in Hb. subst b.
      assert (sum_alloc (fun _ => 1) es = Z.of_nat (length es)) as E.
      { apply IH. intros i e He. by apply (Hall (S i)). }
      lia.
Qed.

Lemma count_alloc_zero es :
  sum_alloc (fun _ => 1) es = 0 <->
  forall i e, es !! i = Some e -> fst e = false.
Proof.
  induction es as [|[b x] es IH].
  - split; [intros _ i e; by rewrite lookup_nil|done].
  - rewrite sum_alloc_cons.
    pose proof (sum_alloc_nonneg (fun _ => 1) es (fun _ => ltac:(lia))). split.
    + intros Heq. destruct b; [lia|].
      intros [|i] e He; [by injection He as <-|].
      simpl in He. apply IH in He; [done|lia].
    + intros Hall. pose proof (Hall 0%nat (b, x) eq_refl) as Hb. simpl in Hb. subst b.
      assert (sum_alloc (fun _ => 1) es = 0) as E.
      { apply IH. intros i e He. by apply (Hall (S i)). }
      lia.
Qed.

Lemma wf_size h : wf h -> size_ h = sum_alloc (fun _ => 1) (entries_ h).
Proof. intros [Hs _]. rewrite Hs. unfold allocated. apply count_alloc. Qed.

Lemma wf_intro h :
  size_ h = sum_alloc (fun _ => 1) (entries_ h) ->
  Z.of_nat (length (entries_ h)) < 2 ^ 32 -> wf h.
Proof. intros Hs Hl. split; [|done]. rewrite Hs. unfold allocated. by rewrite count_alloc. Qed.

Lemma wf_size_range h : wf h -> 0 <= size_ h <= Z.of_nat (length (entries_ h)).
Proof.
  intros Hwf. rewrite (wf_size h Hwf). split.
  - apply sum_alloc_nonneg. lia.
  - apply count_alloc_le.
Qed.

(** [empty()] says that no slot is in use. *)
Lemma empty_spec h :
  wf h -> (empty h = true <-> forall i e, entries_ h !! i = Some e -> fst e = false).
Proof.
  intros Hwf. unfold empty. rewrite <- count_alloc_zero, <- (wf_size h Hwf).
  destruct (Z.eqb_spec 0 (size_ h)); split; intros; try done; lia.
Qed.

(** [full()] says that every slot is in use. *)
Lemma full_spec h :
  wf h -> (full h = true <-> forall i e, entries_ h !! i = Some e -> fst e = true).
Proof.
  intros Hwf. unfold full. rewrite <- count_alloc_full, <- (wf_size h Hwf).
  destruct (Z.eqb_spec (size_ h) (Z.of_nat (length (entries_ h)))); split; intros; try done; lia.
Qed.

Lemma at_Ok h (i : nat) (v : T) : at_ h i = Ok v <-> entries_ h !! i = Some (true, v).
Proof.
  unfold at_, vec_at. destruct (entries_ h !! i) as [[[] x]|]; simpl; split; congruence.
Qed.

Lemma new_wf (n : nat) (d : T) : Z.of_nat n < 2 ^ 32 -> wf (new n d).
Proof.
  intros Hn. apply wf_intro; simpl; [|by rewrite length_replicate].
  symmetry. apply count_alloc_zero. intros i e [-> _]%lookup_replicate. done.
Qed.

(** *** allocate *)

Lemma allocate_from_Ok h v i k j h' :
  allocate_from h v i k = Ok (j, h') ->
  (i <= j < i + k)%nat /\
  (exists x, entries_ h !! j = Some (false, x)) /\
  (forall j', (i <= j' < j)%nat -> exists x, entries_ h !! j' = Some (true, x)) /\
  h' = mk (<[j := (true, v)]> (entries_ h)) (wrap32 (size_ h + 1)).
Proof.
  revert i. induction k as [|k IH]; intros i Hrun; [discriminate|].
  simpl in Hrun. apply res_bind_Ok in Hrun as ([b x] & He & Hrun).
  apply vec_at_Ok in He. destruct b; simpl in Hrun.
  - apply IH in Hrun as (Hj & Hfree & Hbelow & ->).
    split; [lia|]. split; [done|]. split; [|done].
    intros j' Hj'. destruct (decide (j' = i)) as [->|Hne]; [eauto|].
    apply Hbelow. lia.
  - injection Hrun as <- <-. split; [lia|]. split; [eauto|]. split; [|done].
    intros j' Hj'. lia.
Qed.

Lemma allocate_from_free h v i k j :
  (i + k <= length (entries_ h))%nat -> (i <= j < i + k)%nat ->
  (exists x, entries_ h !! j = Some (false, x)) ->
  exists j' h', allocate_from h v i k = Ok (j', h').
Proof.
  revert i. induction k as [|k IH]; intros i Hlen Hj Hfree; [lia|].
  simpl. destruct (lookup_lt_is_Some_2 (entries_ h) i) as [[b x] He]; [lia|].
  rewrite (vec_at_lookup _ _ _ He). simpl. destruct b; simpl; [|eauto].
  apply IH; [lia| |done].
  destruct (decide (j = i)) as [->|Hne]; [|lia].
  destruct Hfree as [y Hy]. congruence.
Qed.

Lemma allocate_from_fault h v i k (flt : fault) :
  (i + k <= length (entries_ h))%nat ->
  allocate_from h v i k = Fault flt ->
  flt = FaultAssert AssertAllocate /\
  forall j, (i <= j < i + k)%nat -> exists x, entries_ h !! j = Some (true, x).
Proof.
  revert i. induction k as [|k IH]; intros i Hlen Hrun.
  - injection Hrun as <-. split; [done|]. intros; lia.
  - simpl in Hrun.
    destruct (lookup_lt_is_Some_2 (entries_ h) i) as [[b x] He]; [lia|].
    rewrite (vec_at_lookup _ _ _ He) in Hrun. simpl in Hrun.
    destruct b; simpl in Hrun; [|discriminate].
    apply IH in Hrun as [-> Hall]; [|lia]. split; [done|].
    intros j Hj. destruct (decide (j = i)) as [->|Hne]; [eauto|]. apply Hall. lia.
Qed.

(** [allocate] returns the smallest free index. *)
Lemma allocate_Ok h v j h' :
  allocate h v = Ok (j, h') ->
  (j < length (entries_ h))%nat /\
  (exists x, entries_ h !! j = Some (false, x)) /\
  (forall j', (j' < j)%nat -> exists x, entries_ h !! j' = Some (true, x)) /\
  h' = mk (<[j := (true, v)]> (entries_ h)) (wrap32 (size_ h + 1)).
Proof.
  unfold allocate. intros (Hj & Hfree & Hbelow & ->)%allocate_from_Ok.
  split; [lia|]. split; [done|]. split; [|done]. intros j' Hj'. apply Hbelow. lia.
Qed.

(** The fatal branch of [allocate] is taken only on a full table. *)
Lemma allocate_not_full h v :
  wf h -> full h = false -> exists j h', allocate h v = Ok (j, h').
Proof.
  intros Hwf Hfull. unfold allocate.
  destruct (allocate_from h v 0 (length (entries_ h))) as [[j h']|flt] eqn:E; [eauto|].
  apply allocate_from_fault in E as [_ Hall]; [|lia].
  assert (full h = true) as Hf; [|congruence].
  apply (full_spec h Hwf). intros i e He.
  destruct (Hall i) as [x Hx]; [apply lookup_lt_Some in He; lia|].
  rewrite He in Hx. by injection Hx as ->.
Qed.

Lemma allocate_wf h v j h' : wf h -> allocate h v = Ok (j, h') -> wf h'.
Proof.
  intros Hwf (Hj & [x Hfree] & _ & ->)%allocate_Ok.
  pose proof (wf_size h Hwf) as Hs. destruct Hwf as [_ Hlen].
  pose proof (sum_alloc_insert (fun _ => 1) _ _ _ _ true v Hfree) as Hins.
  pose proof (count_alloc_le (<[j := (true, v)]> (entries_ h))) as Hle.
  pose proof (sum_alloc_nonneg (fun _ => 1) (entries_ h) (fun _ => ltac:(lia))) as H0.
  rewrite length_insert in Hle. cbv beta iota in Hins.
  apply wf_intro; simpl; [|by rewrite length_insert].
  rewrite Hins in *. unfold wrap32. rewrite Z.mod_small; lia.
Qed.

Lemma release_Ok h i h' :
  release h i = Ok h' <->
  exists x, entries_ h !! i = Some (true, x) /\
            h' = mk (<[i := (false, x)]> (entries_ h)) (wrap32 (size_ h - 1)).
Proof.
  unfold release, vec_at. destruct (entries_ h !! i) as [[[] x]|]; simpl; split.
  - intros [= <-]. eauto.
  - intros (y & [= <-] & ->). done.
  - discriminate.
  - intros (y & [=] & _).
  - discriminate.
  - intros (y & [=] & _).
Qed.

Lemma release_wf h i h' : wf h -> release h i = Ok h' -> wf h'.
Proof.
  intros Hwf (x & Hx & ->)%release_Ok.
  pose proof (wf_size h Hwf) as Hs. destruct Hwf as [_ Hlen].
  pose proof (sum_alloc_insert (fun _ => 1) _ _ _ _ false x Hx) as Hins.
  pose proof (sum_alloc_nonneg (fun _ => 1) (<[i := (false, x)]> (entries_ h))
                (fun _ => ltac:(lia))) as H0.
  pose proof (count_alloc_le (entries_ h)) as Hle. cbv beta iota in Hins.
  apply wf_intro; simpl; [|by rewrite length_insert].
  rewrite Hins in *. unfold wrap32. rewrite Z.mod_small; lia.
Qed.

Lemma store_wf h i x v : wf h -> entries_ h !! i = Some (true, x) -> wf (store h i v).
Proof.
  intros Hwf Hx. pose proof (wf_size h Hwf) as Hs. destruct Hwf as [_ Hlen].
  pose proof (sum_alloc_insert (fun _ => 1) _ _ _ _ true v Hx) as Hins.
  cbv beta iota in Hins.
  apply wf_intro; simpl; [|by rewrite length_insert]. rewrite Hins. lia.
Qed.

End HashTableProps.
End HashTableProps.

(** ** LsuUnit *)

Module LsuUnitProps.
Import LsuUnit.
Section LsuUnitProps.
Context {cfg : Config} {W : Type}.
Implicit Types (u : LsuUnit.t W) (st : lsu_state_t) (e : pending_req_t).

(** The slot a response addresses: its 64-bit tag narrowed to the 32-bit
    index of [HashTable::at]. *)
Definition rsp_tag (r : LsuRsp.t) : nat := Z.to_nat (wrap32 (LsuRsp.tag r)).

Definition block_of (iw : nat) : nat := (iw mod NUM_LSU_BLOCKS)%nat.

Definition pop_rsp (d : LocalMemDemux.t) : LocalMemDemux.t :=
  LocalMemDemux.mk (LocalMemDemux.ReqIn d) (port_pop (LocalMemDemux.RspIn d)).

Definition with_table (tbl : HashTable.t pending_req_t) st : lsu_state_t :=
  mkState tbl (fence_trace st) (fence_lock st).

(** *** Absorbing a response *)

(** What absorbing response [rsp] does to the slot [e] it addresses: either
    lanes remain, or the trace is released to its output lane. *)
Inductive rsp_effect u st e (rsp : LsuRsp.t)
    (outs : list (SimPort trace_ptr)) (tbl' : HashTable.t pending_req_t) : Prop :=
  | rsp_partial :
      N.ldiff (mask e) (LsuRsp.mask rsp) <> 0%N ->
      outs = Outputs u ->
      tbl' = HashTable.store (pending_rd_reqs st) (rsp_tag rsp)
               (mkPending (trace e) (N.ldiff (mask e) (LsuRsp.mask rsp))) ->
      rsp_effect u st e rsp outs tbl'
  | rsp_complete tr :
      N.ldiff (mask e) (LsuRsp.mask rsp) = 0%N ->
      mem u !! trace e = Some tr ->
      ports_push (Outputs u) (wid tr mod ISSUE_WIDTH)%nat (trace e) 1 = Ok outs ->
      tbl' = HashTable.mk
               (<[rsp_tag rsp := (false, mkPending (trace e) 0%N)]>
                  (HashTable.entries_ (pending_rd_reqs st)))
               (wrap32 (HashTable.size_ (pending_rd_reqs st) - 1)) ->
      rsp_effect u st e rsp outs tbl'.

Definition after_rsp u b (demux : LocalMemDemux.t) st (rsp : LsuRsp.t)
    (outs : list (SimPort trace_ptr)) (tbl' : HashTable.t pending_req_t) : LsuUnit.t W :=
  mk (Inputs u) outs
     (set_demux (<[b := pop_rsp demux]> (lsu_demux_ (core_ u))) (core_ u))
     (<[b := with_table tbl' st]> (states_ u))
     (wrap64 (pending_loads_ u - popcount (LsuRsp.mask rsp)))
     (mem u) (dt_queue_full u).

Inductive rsp_outcome b u u' : Prop :=
  | rsp_none demux :
      lsu_demux_ (core_ u) !! b = Some demux ->
      queue (LocalMemDemux.RspIn demux) = [] ->
      u' = u ->
      rsp_outcome b u u'
  | rsp_absorbed demux rsp q st e outs tbl' :
      lsu_demux_ (core_ u) !! b = Some demux ->
      queue (LocalMemDemux.RspIn demux) = rsp :: q ->
      states_ u !! b = Some st ->
      HashTable.entries_ (pending_rd_reqs st) !! rsp_tag rsp = Some (true, e) ->
      mask e <> 0%N ->
      rsp_effect u st e rsp outs tbl' ->
      u' = after_rsp u b demux st rsp outs tbl' ->
      rsp_outcome b u u'.

Lemma tick_rsp_inv b u u' : tick_rsp b u = Ok u' -> rsp_outcome b u u'.
Proof.
  unfold tick_rsp. intros Hrun.
  apply res_bind_Ok in Hrun as (demux & Hd & Hrun). apply vec_at_Ok in Hd.
  destruct (queue (LocalMemDemux.RspIn demux)) as [|rsp q] eqn:Hq.
  { injection Hrun as <-. by eapply rsp_none. }
  apply res_bind_Ok in Hrun as (st & Hst & Hrun). apply vec_at_Ok in Hst.
  apply res_bind_Ok in Hrun as (e & He & Hrun).
  apply HashTableProps.at_Ok in He.
  destruct (N.eqb_spec (mask e) 0) as [|Hne]; [discriminate|].
  apply res_bind_Ok in Hrun as ([outs tbl'] & Heff & Hrun).
  injection Hrun as <-.
  refine (rsp_absorbed b u _ demux rsp q st e outs tbl' Hd Hq Hst He Hne _ eq_refl).
  destruct (N.eqb_spec (N.ldiff (mask e) (LsuRsp.mask rsp)) 0) as [Hz|Hnz].
  - apply res_bind_Ok in Heff as (tr & Htr & Heff). apply deref_Ok in Htr.
    apply res_bind_Ok in Heff as (outs' & Hp & Heff).
    apply res_bind_Ok in Heff as (tbl'' & Hrel & Heff).
    injection Heff as <- <-.
    apply HashTableProps.release_Ok in Hrel as (x & Hx & ->).
    simpl in Hx. rewrite list_lookup_insert_eq in Hx
      by (eapply lookup_lt_Some; eauto).
    injection Hx as <-. simpl. rewrite list_insert_insert_eq.
    eapply rsp_complete; eauto. by rewrite Hz.
  - injection Heff as <- <-. by eapply rsp_partial.
Qed.

(** *** Issuing from a lane *)

Definition unlocked u iw st (outs : list (SimPort trace_ptr)) : LsuUnit.t W :=
  mk (Inputs u) outs (core_ u)
     (<[block_of iw := mkState (pending_rd_reqs st) (fence_trace st) false]> (states_ u))
     (pending_loads_ u) (mem u) (dt_queue_full u).

Inductive unlock_outcome iw u : option (LsuUnit.t W) -> Prop :=
  | unlock_wait st :
      states_ u !! block_of iw = Some st ->
      fence_lock st = true ->
      HashTable.empty (pending_rd_reqs st) = false ->
      unlock_outcome iw u None
  | unlock_release st outs :
      states_ u !! block_of iw = Some st ->
      fence_lock st = true ->
      HashTable.empty (pending_rd_reqs st) = true ->
      ports_push (Outputs u) iw (fence_trace st) 1 = Ok outs ->
      unlock_outcome iw u (Some (unlocked u iw st outs))
  | unlock_free st :
      states_ u !! block_of iw = Some st ->
      fence_lock st = false ->
      unlock_outcome iw u (Some u).

Lemma fence_unlock_inv iw u o : fence_unlock iw u = Ok o -> unlock_outcome iw u o.
Proof.
  unfold fence_unlock. intros Hrun.
  apply res_bind_Ok in Hrun as (st & Hst & Hrun). apply vec_at_Ok in Hst.
  destruct (fence_lock st) eqn:Hlock.
  - destruct (HashTable.empty (pending_rd_reqs st)) eqn:Hemp; simpl in Hrun.
    + apply res_bind_Ok in Hrun as (outs & Hp & Hrun). injection Hrun as <-.
      by eapply unlock_release.
    + injection Hrun as <-. by eapply unlock_wait.
  - injection Hrun as <-. by eapply unlock_free.
Qed.

Definition is_store (ty : LsuType) : bool :=
  match ty with STORE => true | _ => false end.

Definition fenced u iw st (trace : trace_ptr) : LsuUnit.t W :=
  mk (ports_pop (Inputs u) iw) (Outputs u) (core_ u)
     (<[block_of iw := mkState (pending_rd_reqs st) trace true]> (states_ u))
     (pending_loads_ u) (mem u) (dt_queue_full u).

Definition stalled u (trace : trace_ptr) (tr : instr_trace) : LsuUnit.t W :=
  mk (Inputs u) (Outputs u) (core_ u) (states_ u) (pending_loads_ u)
     (<[trace := snd (log_once true tr)]> (mem u))
     (if log_once_ tr then dt_queue_full u else dt_queue_full u ++ [trace]).

Definition sent_req (tr : instr_trace) (lsu_req : LsuReq.t) (tag : nat) : LsuReq.t :=
  LsuReq.mk (LsuReq.mask lsu_req) (LsuReq.addrs lsu_req) (LsuReq.write lsu_req)
            (wrap32 (Z.of_nat tag)) (cid tr) (uuid tr).

Definition push_req (r : LsuReq.t) (d : LocalMemDemux.t) : LocalMemDemux.t :=
  LocalMemDemux.mk
    (mkPort (queue (LocalMemDemux.ReqIn d)) (sched (LocalMemDemux.ReqIn d) ++ [(r, 1)]))
    (LocalMemDemux.RspIn d).

Definition issued u iw st (trace : trace_ptr) (tr : instr_trace) (lsu_req : LsuReq.t)
    (tag : nat) (tbl : HashTable.t pending_req_t) (demux : LocalMemDemux.t)
    (outs : list (SimPort trace_ptr)) : LsuUnit.t W :=
  let is_write := is_store (lsu_type tr) in
  let num_addrs := popcount (LsuReq.mask lsu_req) in
  let ps := perf_stats_ (core_ u) in
  mk (ports_pop (Inputs u) iw) outs
     (set_perf
        (if is_write
         then mkPerf (load_latency ps) (loads ps) (wrap64 (stores ps + num_addrs))
         else mkPerf (load_latency ps) (wrap64 (loads ps + num_addrs)) (stores ps))
        (set_demux (<[block_of iw := push_req (sent_req tr lsu_req tag) demux]>
                      (lsu_demux_ (core_ u))) (core_ u)))
     (<[block_of iw := with_table tbl st]> (states_ u))
     (if is_write then pending_loads_ u else wrap64 (pending_loads_ u + num_addrs))
     (<[trace := snd (log_once false tr)]> (mem u))
     (dt_queue_full u).

Inductive input_outcome iw u u' : Prop :=
  | input_idle input :
      Inputs u !! iw = Some input -> queue input = [] -> u' = u ->
      input_outcome iw u u'
  | input_fence input trace q tr st :
      Inputs u !! iw = Some input -> queue input = trace :: q ->
      mem u !! trace = Some tr -> states_ u !! block_of iw = Some st ->
      lsu_type tr = FENCE ->
      u' = fenced u iw st trace ->
      input_outcome iw u u'
  | input_stall input trace q tr st :
      Inputs u !! iw = Some input -> queue input = trace :: q ->
      mem u !! trace = Some tr -> states_ u !! block_of iw = Some st ->
      lsu_type tr = LOAD ->
      HashTable.full (pending_rd_reqs st) = true ->
      u' = stalled u trace tr ->
      input_outcome iw u u'
  | input_store input trace q tr st lsu_req demux outs :
      Inputs u !! iw = Some input -> queue input = trace :: q ->
      mem u !! trace = Some tr -> states_ u !! block_of iw = Some st ->
      lsu_type tr = STORE ->
      build_req (snd (log_once false tr)) true = Ok lsu_req ->
      lsu_demux_ (core_ u) !! block_of iw = Some demux ->
      ports_push (Outputs u) iw trace 1 = Ok outs ->
      u' = issued u iw st trace tr lsu_req 0 (pending_rd_reqs st) demux outs ->
      input_outcome iw u u'
  | input_load input trace q tr st lsu_req tag tbl demux :
      Inputs u !! iw = Some input -> queue input = trace :: q ->
      mem u !! trace = Some tr -> states_ u !! block_of iw = Some st ->
      lsu_type tr = LOAD ->
      HashTable.full (pending_rd_reqs st) = false ->
      build_req (snd (log_once false tr)) false = Ok lsu_req ->
      HashTable.allocate (pending_rd_reqs st) (mkPending trace (LsuReq.mask lsu_req))
        = Ok (tag, tbl) ->
      lsu_demux_ (core_ u) !! block_of iw = Some demux ->
      u' = issued u iw st trace tr lsu_req tag tbl demux (Outputs u) ->
      input_outcome iw u u'.

Lemma issue_input_inv iw u u' : issue_input iw u = Ok u' -> input_outcome iw u u'.
Proof.
  unfold issue_input. intros Hrun.
  apply res_bind_Ok in Hrun as (input & Hin & Hrun). apply vec_at_Ok in Hin.
  destruct (queue input) as [|trace q] eqn:Hq.
  { injection Hrun as <-. by eapply input_idle. }
  apply res_bind_Ok in Hrun as (tr & Htr & Hrun). apply deref_Ok in Htr.
  apply res_bind_Ok in Hrun as (st & Hst & Hrun). apply vec_at_Ok in Hst.
  destruct (lsu_type tr) eqn:Hty.
  - (* LOAD *)
    simpl in Hrun.
    destruct (HashTable.full (pending_rd_reqs st)) eqn:Hfull.
    + injection Hrun as <-.
      refine (input_stall iw u _ input trace q tr st Hin Hq Htr Hst Hty Hfull _).
      unfold stalled, log_once. cbn [snd]. rewrite ?Hty. reflexivity.
    + apply res_bind_Ok in Hrun as (lsu_req & Hreq & Hrun).
      apply res_bind_Ok in Hrun as ([tag tbl] & Hal & Hrun).
      apply res_bind_Ok in Hrun as (demux & Hd & Hrun). apply vec_at_Ok in Hd.
      simpl in Hrun. injection Hrun as <-.
      refine (input_load iw u _ input trace q tr st lsu_req tag tbl demux
                Hin Hq Htr Hst Hty Hfull Hreq Hal Hd _).
      unfold issued, log_once. cbn [snd]. rewrite ?Hty. reflexivity.
  - (* STORE *)
    simpl in Hrun.
    apply res_bind_Ok in Hrun as (lsu_req & Hreq & Hrun).
    simpl in Hrun.
    apply res_bind_Ok in Hrun as (demux & Hd & Hrun). apply vec_at_Ok in Hd.
    simpl in Hrun.
    apply res_bind_Ok in Hrun as (outs & Hp & Hrun). injection Hrun as <-.
    refine (input_store iw u _ input trace q tr st lsu_req demux outs
              Hin Hq Htr Hst Hty Hreq Hd Hp _).
    unfold issued, log_once. cbn [snd]. rewrite ?Hty. reflexivity.
  - injection Hrun as <-. by eapply input_fence.
Qed.

Inductive issue_outcome iw u u' : Prop :=
  | issue_wait :
      unlock_outcome iw u None -> u' = u -> issue_outcome iw u u'
  | issue_go u1 :
      unlock_outcome iw u (Some u1) -> input_outcome iw u1 u' -> issue_outcome iw u u'.

Lemma tick_issue_inv iw u u' : tick_issue iw u = Ok u' -> issue_outcome iw u u'.
Proof.
  unfold tick_issue. intros Hrun.
  apply res_bind_Ok in Hrun as (o & Ho & Hrun). apply fence_unlock_inv in Ho.
  destruct o as [u1|].
  - apply issue_input_inv in Hrun. by eapply issue_go.
  - injection Hrun as <-. by eapply issue_wait.
Qed.

(** *** The load-latency counter *)

Lemma tick_rsp_perf b u u' :
  tick_rsp b u = Ok u' -> perf_stats_ (core_ u') = perf_stats_ (core_ u).
Proof.
  intros Hrun. destruct (tick_rsp_inv _ _ _ Hrun); subst; reflexivity.
Qed.

Lemma tick_issue_latency iw u u' :
  tick_issue iw u = Ok u' ->
  load_latency (perf_stats_ (core_ u')) = load_latency (perf_stats_ (core_ u)).
Proof.
  intros Hrun. destruct (tick_issue_inv _ _ _ Hrun) as [_ ->|u1 Hu Hi]; [done|].
  assert (perf_stats_ (core_ u1) = perf_stats_ (core_ u)) as <-.
  { inversion Hu; subst; reflexivity. }
  destruct Hi; subst; try reflexivity;
    unfold issued; simpl; destruct (is_store (lsu_type tr)); reflexivity.
Qed.

(** C9.  A tick of the LSU adds to [load_latency] exactly the value that
    [pending_loads] had when the tick started, before any response is
    absorbed and before any load issues (the lanes whose last response is
    absorbed later in the same tick are still counted). *)
Theorem load_latency_tick u u' :
  tick u = Ok u' ->
  load_latency (perf_stats_ (core_ u'))
  = wrap64 (load_latency (perf_stats_ (core_ u)) + pending_loads_ u) /\
  (0 <= load_latency (perf_stats_ (core_ u)) -> 0 <= pending_loads_ u ->
   load_latency (perf_stats_ (core_ u)) + pending_loads_ u < 2 ^ 64 ->
   load_latency (perf_stats_ (core_ u')) - load_latency (perf_stats_ (core_ u))
   = pending_loads_ u).
Proof.
  unfold tick. intros Hrun.
  apply res_bind_Ok in Hrun as (u1 & Hrsp & Hiss).
  assert (load_latency (perf_stats_ (core_ u'))
          = wrap64 (load_latency (perf_stats_ (core_ u)) + pending_loads_ u)) as Heq.
  { transitivity (load_latency (perf_stats_ (core_ u1))).
    - apply (for_range_inv
        (fun _ t => load_latency (perf_stats_ (core_ t))
                    = load_latency (perf_stats_ (core_ u1))) _ _ _ _ _ eq_refl) in Hiss;
        [done|].
      intros i t t' _ <- Ht. apply (tick_issue_latency i t t' Ht).
    - apply (for_range_inv
        (fun _ t => perf_stats_ (core_ t) = perf_stats_ (core_ (tick_stats u)))
        _ _ _ _ _ eq_refl) in Hrsp.
      + rewrite Hrsp. reflexivity.
      + intros i t t' _ <- Ht. apply (tick_rsp_perf i t t' Ht). }
  split; [done|]. intros H1 H2 H3. rewrite Heq, wrap64_small; lia.
Qed.

(** *** The pending-loads invariant *)

Definition masks_bounded_in (sts : list lsu_state_t) : Prop :=
  forall b st j e,
    sts !! b = Some st ->
    HashTable.entries_ (pending_rd_reqs st) !! j = Some (true, e) ->
    popcount (mask e) <= Z.of_nat NUM_LSU_LANES.

Definition slots_of st : Z := Z.of_nat (length (HashTable.entries_ (pending_rd_reqs st))).

Definition total_slots u : Z := sum_map slots_of (states_ u).

(** The counter is wide enough for a full pending table in every block. *)
Definition capacity_ok u : Prop := Z.of_nat NUM_LSU_LANES * total_slots u < 2 ^ 64.

Definition lsu_inv u : Prop :=
  pending_loads_ u = outstanding_lanes u /\
  masks_bounded_in (states_ u) /\ capacity_ok u.

(** Every response at the head of a response port covers only lanes that
    its request still waits for. *)
Definition rsps_subset u : Prop :=
  forall b demux rsp q st e,
    lsu_demux_ (core_ u) !! b = Some demux ->
    queue (LocalMemDemux.RspIn demux) = rsp :: q ->
    states_ u !! b = Some st ->
    HashTable.entries_ (pending_rd_reqs st) !! rsp_tag rsp = Some (true, e) ->
    mask_subset (LsuRsp.mask rsp) (mask e).

Lemma table_lanes_sum (h : HashTable.t pending_req_t) :
  table_lanes h = HashTableProps.sum_alloc (fun e => popcount (mask e)) (HashTable.entries_ h).
Proof. reflexivity. Qed.

Lemma outstanding_sum u :
  outstanding_lanes u = sum_map (fun st => table_lanes (pending_rd_reqs st)) (states_ u).
Proof. reflexivity. Qed.

Lemma outstanding_bound (sts : list lsu_state_t) :
  masks_bounded_in sts ->
  0 <= sum_map (fun st => table_lanes (pending_rd_reqs st)) sts
    <= Z.of_nat NUM_LSU_LANES * sum_map slots_of sts.
Proof.
  induction sts as [|st sts IH]; intros Hb.
  - unfold sum_map. simpl. lia.
  - unfold sum_map in *. simpl.
    assert (masks_bounded_in sts) as Hb'.
    { intros b st' j e Hst. apply (Hb (S b) st' j e Hst). }
    specialize (IH Hb').
    pose proof (HashTableProps.sum_alloc_bound_P
      (fun e => popcount (mask e) <= Z.of_nat NUM_LSU_LANES)
      (fun e => popcount (mask e)) (HashTable.entries_ (pending_rd_reqs st))
      (Z.of_nat NUM_LSU_LANES)) as Hst.
    rewrite table_lanes_sum. unfold slots_of at 1.
    destruct Hst as [Hlo Hhi]; [lia| |intros j e Hj; by apply (Hb 0%nat st j e)|lia].
    intros e He. pose proof (popcount_nonneg (mask e)). lia.
Qed.

(** Replacing the table of one block by one of the same capacity whose
    awaited lanes differ by [delta], with the counter following. *)
Lemma lsu_inv_update u u' b st st' delta :
  lsu_inv u ->
  states_ u !! b = Some st ->
  states_ u' = <[b := st']> (states_ u) ->
  slots_of st' = slots_of st ->
  table_lanes (pending_rd_reqs st') = table_lanes (pending_rd_reqs st) + delta ->
  (forall j e, HashTable.entries_ (pending_rd_reqs st') !! j = Some (true, e) ->
               popcount (mask e) <= Z.of_nat NUM_LSU_LANES) ->
  (pending_loads_ u' = wrap64 (pending_loads_ u + delta) \/
   pending_loads_ u' = pending_loads_ u + delta) ->
  lsu_inv u'.
Proof.
  intros (Hpl & Hmb & Hcap) Hst Hsts Hslots Hlanes Hnew Hcnt.
  assert (masks_bounded_in (states_ u')) as Hmb'.
  { rewrite Hsts. intros b' s j e Hs He.
    destruct (decide (b' = b)) as [->|Hne].
    - rewrite list_lookup_insert_eq in Hs by (by eapply lookup_lt_Some).
      injection Hs as <-. by eapply Hnew.
    - rewrite list_lookup_insert_ne in Hs by done. by eapply Hmb. }
  assert (total_slots u' = total_slots u) as Hts.
  { unfold total_slots. rewrite Hsts, (sum_map_insert _ _ _ _ st' Hst). lia. }
  assert (outstanding_lanes u' = outstanding_lanes u + delta) as Hout.
  { rewrite !outstanding_sum, Hsts, (sum_map_insert _ _ _ _ st' Hst). lia. }
  pose proof (outstanding_bound _ Hmb') as Hbound.
  rewrite <- outstanding_sum in Hbound. fold (total_slots u') in Hbound.
  unfold capacity_ok in *. rewrite Hts in Hbound.
  split; [|split; [done|unfold capacity_ok; by rewrite Hts]].
  rewrite Hout. destruct Hcnt as [-> | ->]; [|lia].
  rewrite Hpl, wrap64_small; lia.
Qed.

Lemma lsu_inv_same u u' :
  lsu_inv u -> states_ u' = states_ u -> pending_loads_ u' = pending_loads_ u -> lsu_inv u'.
Proof.
  unfold lsu_inv, capacity_ok, total_slots. rewrite !outstanding_sum.
  intros H1 -> ->. done.
Qed.

Lemma tick_rsp_inv_step b u u' :
  lsu_inv u ->
  (forall demux rsp q st e,
     lsu_demux_ (core_ u) !! b = Some demux ->
     queue (LocalMemDemux.RspIn demux) = rsp :: q ->
     states_ u !! b = Some st ->
     HashTable.entries_ (pending_rd_reqs st) !! rsp_tag rsp = Some (true, e) ->
     mask_subset (LsuRsp.mask rsp) (mask e)) ->
  tick_rsp b u = Ok u' -> lsu_inv u'.
Proof.
  intros Hinv Hsub Hrun.
  destruct (tick_rsp_inv _ _ _ Hrun)
    as [demux Hd Hq ->|demux rsp q st e outs tbl' Hd Hq Hst He Hne Heff ->]; [done|].
  pose proof (Hsub _ _ _ _ _ Hd Hq Hst He) as Hs.
  pose proof (popcount_ldiff_subset _ _ Hs) as Hpc.
  destruct Hinv as (Hpl & Hmb & Hcap).
  pose proof (Hmb _ _ _ _ Hst He) as Hle.
  apply (lsu_inv_update u _ b st (with_table tbl' st) (- popcount (LsuRsp.mask rsp)));
    try done; simpl.
  - unfold slots_of. simpl. destruct Heff as [_ _ ->|tr _ _ _ ->]; simpl;
      by rewrite length_insert.
  - rewrite !table_lanes_sum.
    destruct Heff as [_ _ ->|tr Hz _ _ ->]; simpl;
      rewrite (HashTableProps.sum_alloc_insert _ _ _ _ _ _ _ He); simpl; [lia|].
    rewrite Hz in Hpc. simpl in Hpc. lia.
  - intros j e' He'.
    pose proof (popcount_ldiff_le (mask e) (LsuRsp.mask rsp)) as Hdl.
    destruct Heff as [_ _ ->|tr _ _ _ ->]; simpl in He';
      (destruct (decide (j = rsp_tag rsp)) as [->|Hne'];
       [rewrite list_lookup_insert_eq in He' by (by eapply lookup_lt_Some)
       |rewrite list_lookup_insert_ne in He' by done; by eapply Hmb]).
    + injection He' as <-. simpl. lia.
    + discriminate.
  - left. reflexivity.
Qed.

Lemma build_req_lane_mask tr t0 i req req' :
  build_req_lane tr t0 i req = Ok req' ->
  popcount (LsuReq.mask req') <= popcount (LsuReq.mask req) + 1.
Proof.
  unfold build_req_lane. intros Hrun.
  destruct (MAX_NUM_THREADS <=? t0 + i)%nat; [discriminate|].
  destruct (N.testbit (tmask tr) (N.of_nat (t0 + i))).
  - apply res_bind_Ok in Hrun as (d & _ & Hrun).
    apply res_bind_Ok in Hrun as (a & _ & Hrun).
    apply res_bind_Ok in Hrun as (x & _ & Hrun).
    injection Hrun as <-. simpl. apply popcount_setbit.
  - injection Hrun as <-. lia.
Qed.

(** A request never has more active lanes than the LSU has lanes. *)
Lemma build_req_mask tr w req :
  build_req tr w = Ok req -> popcount (LsuReq.mask req) <= Z.of_nat NUM_LSU_LANES.
Proof.
  unfold build_req. intros Hrun.
  apply (for_range_inv (fun i r => popcount (LsuReq.mask r) <= Z.of_nat i)) in Hrun.
  - simpl in Hrun. lia.
  - simpl. lia.
  - intros i r r' _ Hr Hl. apply build_req_lane_mask in Hl. lia.
Qed.

Lemma unlock_inv_step iw u u1 :
  lsu_inv u -> unlock_outcome iw u (Some u1) -> lsu_inv u1.
Proof.
  intros Hinv Hu. inversion Hu as [|st outs Hst Hlock Hemp Hp|st Hst Hlock]; subst; [|done].
  apply (lsu_inv_update u _ (block_of iw) st
           (mkState (pending_rd_reqs st) (fence_trace st) false) 0);
    try done; simpl; try lia.
  intros j e He. by eapply (proj1 (proj2 Hinv)).
Qed.

Lemma input_inv_step iw u u' :
  lsu_inv u -> input_outcome iw u u' -> lsu_inv u'.
Proof.
  intros Hinv Hi.
  destruct Hi as [input Hin Hq ->
    |input trace q tr st Hin Hq Htr Hst Hty ->
    |input trace q tr st Hin Hq Htr Hst Hty Hfull ->
    |input trace q tr st lsu_req demux outs Hin Hq Htr Hst Hty Hreq Hd Hp ->
    |input trace q tr st lsu_req tag tbl demux Hin Hq Htr Hst Hty Hfull Hreq Hal Hd ->].
  - done.
  - apply (lsu_inv_update u _ (block_of iw) st
             (mkState (pending_rd_reqs st) trace true) 0);
      try done; simpl; try lia.
    intros j e He. by eapply (proj1 (proj2 Hinv)).
  - by apply (lsu_inv_same u).
  - apply (lsu_inv_update u _ (block_of iw) st (with_table (pending_rd_reqs st) st) 0);
      try done; simpl; rewrite ?Hty; simpl; try lia.
    intros j e He. by eapply (proj1 (proj2 Hinv)).
  - apply HashTableProps.allocate_Ok in Hal as (Hlt & [x Hfree] & _ & ->).
    apply (lsu_inv_update u _ (block_of iw) st
             (with_table (HashTable.mk
                (<[tag := (true, mkPending trace (LsuReq.mask lsu_req))]>
                   (HashTable.entries_ (pending_rd_reqs st)))
                (wrap32 (HashTable.size_ (pending_rd_reqs st) + 1))) st)
             (popcount (LsuReq.mask lsu_req)));
      try done; simpl.
    + unfold slots_of. simpl. by rewrite length_insert.
    + rewrite !table_lanes_sum. simpl.
      rewrite (HashTableProps.sum_alloc_insert _ _ _ _ _ _ _ Hfree). simpl. lia.
    + intros j e He.
      destruct (decide (j = tag)) as [->|Hne].
      * rewrite list_lookup_insert_eq in He by done. injection He as <-. simpl.
        by eapply build_req_mask.
      * rewrite list_lookup_insert_ne in He by done. by eapply (proj1 (proj2 Hinv)).
    + rewrite Hty. simpl. by left.
Qed.

Lemma tick_issue_inv_step iw u u' : lsu_inv u -> tick_issue iw u = Ok u' -> lsu_inv u'.
Proof.
  intros Hinv Hrun.
  destruct (tick_issue_inv _ _ _ Hrun) as [_ ->|u1 Hu Hi]; [done|].
  eapply input_inv_step; [|done]. by eapply unlock_inv_step.
Qed.

(** The response of block [b] is absorbed from the ports and the table that
    the tick started with: the other blocks do not touch them. *)
Lemma tick_rsp_frame b u u' b' :
  tick_rsp b u = Ok u' -> b' <> b ->
  lsu_demux_ (core_ u') !! b' = lsu_demux_ (core_ u) !! b' /\
  states_ u' !! b' = states_ u !! b'.
Proof.
  intros Hrun Hne.
  destruct (tick_rsp_inv _ _ _ Hrun) as [? ? ? ->|? ? ? ? ? ? ? ? ? ? ? ? ? ->]; [done|].
  simpl. by rewrite !list_lookup_insert_ne.
Qed.

(** One tick preserves the invariant. *)
Lemma tick_inv u u' : lsu_inv u -> rsps_subset u -> tick u = Ok u' -> lsu_inv u'.
Proof.
  unfold tick. intros Hinv Hsub Hrun.
  apply res_bind_Ok in Hrun as (u1 & Hrsp & Hiss).
  assert (lsu_inv u1) as Hinv1.
  { apply (for_range_inv
      (fun k t => lsu_inv t /\
         forall b, (k <= b)%nat ->
           lsu_demux_ (core_ t) !! b = lsu_demux_ (core_ u) !! b /\
           states_ t !! b = states_ u !! b)) in Hrsp.
    - apply Hrsp.
    - split; [|done]. by apply (lsu_inv_same u).
    - intros b t t' _ [Ht Hfr] Hstep. split.
      + apply (tick_rsp_inv_step b t t' Ht); [|done].
        destruct (Hfr b) as [-> ->]; [lia|]. intros. by eapply Hsub.
      + intros b' Hb'. destruct (tick_rsp_frame _ _ _ b' Hstep) as [-> ->]; [lia|].
        apply Hfr. lia. }
  apply (for_range_inv (fun _ t => lsu_inv t) _ _ _ _ _ Hinv1) in Hiss; [done|].
  intros i t t' _ Ht Hstep. by eapply tick_issue_inv_step.
Qed.

Lemma clear_no_lanes (h : HashTable.t pending_req_t) : table_lanes (HashTable.clear h) = 0.
Proof.
  rewrite table_lanes_sum. unfold HashTable.clear. simpl.
  induction (HashTable.entries_ h) as [|[b x] es IH]; [done|].
  simpl. by rewrite HashTableProps.sum_alloc_cons.
Qed.

Lemma clear_slots st : slots_of (clear_state st) = slots_of st.
Proof. unfold slots_of, clear_state, HashTable.clear. simpl. by rewrite length_map. Qed.

Lemma reset_inv u : capacity_ok u -> lsu_inv (reset u).
Proof.
  intros Hcap. split; [|split].
  - rewrite outstanding_sum. simpl.
    induction (states_ u) as [|st sts IH]; [done|].
    unfold sum_map in *. simpl. rewrite clear_no_lanes. lia.
  - intros b st j e Hst He. simpl in Hst.
    apply list_lookup_fmap_Some in Hst as (st0 & -> & _).
    simpl in He. apply list_lookup_fmap_Some in He as ([c x] & [=] & _).
  - unfold capacity_ok, total_slots in *. simpl.
    assert (sum_map slots_of (map clear_state (states_ u)) = sum_map slots_of (states_ u))
      as ->; [|done].
    clear Hcap. induction (states_ u) as [|st sts IH]; [done|].
    unfold sum_map in *. simpl. rewrite clear_slots. lia.
Qed.

(** The states the LSU can be in at a cycle boundary: it starts from a
    reset; between ticks the rest of the simulator moves the ports, the
    traces and the core, but not the private members of the unit; and it
    ticks, under the assumption on the responses it is about to absorb. *)
Inductive reachable : LsuUnit.t W -> Prop :=
  | reach_reset u : capacity_ok u -> reachable (reset u)
  | reach_env u u' :
      reachable u ->
      states_ u' = states_ u -> pending_loads_ u' = pending_loads_ u ->
      reachable u'
  | reach_tick u u' :
      reachable u -> rsps_subset u -> tick u = Ok u' -> reachable u'.

Lemma reachable_inv u : reachable u -> lsu_inv u.
Proof.
  induction 1 as [u Hcap|u u' _ IH Hs Hp|u u' _ IH Hsub Hrun].
  - by apply reset_inv.
  - by apply (lsu_inv_same u).
  - by apply (tick_inv u).
Qed.

(** C3.  At every cycle boundary [pending_loads_] is the number of lanes
    still awaited, summed over the slots in use of the pending tables of
    all blocks -- provided every response covers only lanes that its request
    still waits for. *)
Theorem pending_loads_invariant u :
  reachable u -> pending_loads_ u = outstanding_lanes u.
Proof. intros Hr. by destruct (reachable_inv u Hr) as [? _]. Qed.

(** *** The fatal branch of [allocate] *)

(** A computation that does not end in the [assert(false)] of
    [HashTable::allocate]. *)
Definition guarded {A} (r : res A) : Prop := r <> Fault (FaultAssert AssertAllocate).

Lemma guarded_Ok {A} (a : A) : guarded (Ok a).
Proof. discriminate. Qed.

Lemma guarded_bind {A B} (m : res A) (k : A -> res B) :
  guarded m -> (forall a, m = Ok a -> guarded (k a)) -> guarded (m ≫= k).
Proof.
  destruct m as [a|f]; simpl; [intros _ Hk; by apply Hk|].
  intros Hm _ [= ->]. by apply Hm.
Qed.

Lemma guarded_vec_at {A} (v : list A) i : guarded (vec_at v i).
Proof. unfold vec_at. destruct (v !! i); discriminate. Qed.

Lemma guarded_deref h p : guarded (deref h p).
Proof. unfold deref. destruct (h !! p); discriminate. Qed.

Lemma guarded_deref_cast {A} (o : option A) : guarded (deref_cast o).
Proof. destruct o; discriminate. Qed.

Lemma guarded_port_push {T} (x : T) d p : guarded (port_push x d p).
Proof. unfold port_push. destruct (d =? 0); discriminate. Qed.

Lemma guarded_ports_push {T} (ports : list (SimPort T)) i x d :
  guarded (ports_push ports i x d).
Proof.
  unfold ports_push. apply guarded_bind; [apply guarded_vec_at|intros p _].
  apply guarded_bind; [apply guarded_port_push|intros p' _]. apply guarded_Ok.
Qed.

Lemma guarded_at {T} (h : HashTable.t T) i : guarded (HashTable.at_ h i).
Proof.
  unfold HashTable.at_. apply guarded_bind; [apply guarded_vec_at|intros [[] x] _];
    discriminate.
Qed.

Lemma guarded_release {T} (h : HashTable.t T) i : guarded (HashTable.release h i).
Proof.
  unfold HashTable.release. apply guarded_bind; [apply guarded_vec_at|intros [[] x] _];
    discriminate.
Qed.

Lemma guarded_for_range {St} (P : nat -> St -> Prop) lo n (body : nat -> St -> res St) s :
  P lo s ->
  (forall i t, (lo <= i < lo + n)%nat -> P i t ->
     guarded (body i t) /\ forall t', body i t = Ok t' -> P (S i) t') ->
  guarded (for_range lo n body s).
Proof.
  revert lo s. induction n as [|n IH]; intros lo s H0 Hstep; [apply guarded_Ok|].
  simpl. destruct (Hstep lo s) as [Hg Hnext]; [lia|done|].
  apply guarded_bind; [done|]. intros s1 E. apply IH; [by apply Hnext|].
  intros i t Hi. apply Hstep. lia.
Qed.

Lemma guarded_build_req tr w : guarded (build_req tr w).
Proof.
  unfold build_req. apply (guarded_for_range (fun _ _ => True)); [done|].
  intros i r _ _. split; [|done]. unfold build_req_lane.
  destruct (MAX_NUM_THREADS <=? _)%nat; [discriminate|].
  destruct (N.testbit _ _); [|apply guarded_Ok].
  apply guarded_bind; [apply guarded_deref_cast|intros d _].
  apply guarded_bind; [apply guarded_vec_at|intros a _].
  apply guarded_bind; [apply guarded_vec_at|intros x _]. apply guarded_Ok.
Qed.

Lemma guarded_tick_rsp b u : guarded (tick_rsp b u).
Proof.
  unfold tick_rsp. apply guarded_bind; [apply guarded_vec_at|intros demux _].
  destruct (queue _) as [|rsp q]; [apply guarded_Ok|].
  apply guarded_bind; [apply guarded_vec_at|intros st _].
  apply guarded_bind; [apply guarded_at|intros e _].
  destruct (mask e =? 0)%N; [discriminate|].
  apply guarded_bind; [|intros [outs tbl'] _; apply guarded_Ok].
  destruct (_ =? 0)%N; [|apply guarded_Ok].
  apply guarded_bind; [apply guarded_deref|intros tr _].
  apply guarded_bind; [apply guarded_ports_push|intros outs _].
  apply guarded_bind; [apply guarded_release|intros tbl' _]. apply guarded_Ok.
Qed.

Ltac guard_step :=
  first
    [ apply guarded_Ok
    | apply guarded_vec_at | apply guarded_deref | apply guarded_deref_cast
    | apply guarded_port_push | apply guarded_ports_push
    | apply guarded_at | apply guarded_release | apply guarded_build_req
    | match goal with
      | |- guarded (let '(_, _) := ?p in _) => destruct p
      | |- guarded (if ?c then _ else _) => destruct c
      end
    | apply guarded_bind; [|intros ? ?] ].

Definition tables_wf u : Prop :=
  forall b st, states_ u !! b = Some st -> HashTable.wf (pending_rd_reqs st).

Lemma guarded_fence_unlock iw u : guarded (fence_unlock iw u).
Proof.
  unfold fence_unlock. apply guarded_bind; [apply guarded_vec_at|intros st _].
  destruct (fence_lock st); [|apply guarded_Ok].
  destruct (negb _); [apply guarded_Ok|].
  apply guarded_bind; [apply guarded_ports_push|intros outs _]. apply guarded_Ok.
Qed.

(** [allocate] is reached only for a trace that is not a store and after
    [full()] returned false; on a well-formed table it then finds a slot. *)
Lemma guarded_issue_input iw u : tables_wf u -> guarded (issue_input iw u).
Proof.
  intros Hwf. unfold issue_input.
  apply guarded_bind; [apply guarded_vec_at|intros input _].
  destruct (queue input) as [|trace q]; [apply guarded_Ok|].
  apply guarded_bind; [apply guarded_deref|intros tr _].
  apply guarded_bind; [apply guarded_vec_at|intros st Hst]. apply vec_at_Ok in Hst.
  destruct (lsu_type tr); [| |apply guarded_Ok].
  - simpl. destruct (HashTable.full (pending_rd_reqs st)) eqn:Hfull; [apply guarded_Ok|].
    apply guarded_bind; [apply guarded_build_req|intros lsu_req _].
    apply guarded_bind.
    + destruct (HashTableProps.allocate_not_full (pending_rd_reqs st)
                  (mkPending trace (LsuReq.mask lsu_req)) (Hwf _ _ Hst) Hfull)
        as (j & h' & ->). apply guarded_Ok.
    + intros [tag tbl] _. repeat guard_step.
  - simpl. repeat guard_step.
Qed.

Lemma tables_wf_update u u' b st' :
  tables_wf u -> states_ u' = <[b := st']> (states_ u) ->
  HashTable.wf (pending_rd_reqs st') -> tables_wf u'.
Proof.
  intros Hwf Hs Hst' b' s Hl. rewrite Hs in Hl.
  destruct (decide (b' = b)) as [->|Hne].
  - destruct (decide (b < length (states_ u))%nat) as [Hlt|Hge].
    + rewrite list_lookup_insert_eq in Hl by done. by injection Hl as <-.
    + rewrite list_insert_ge in Hl by lia. by eapply Hwf.
  - rewrite list_lookup_insert_ne in Hl by done. by eapply Hwf.
Qed.

Lemma tables_wf_same u u' : tables_wf u -> states_ u' = states_ u -> tables_wf u'.
Proof. unfold tables_wf. by intros Hwf ->. Qed.

Lemma tick_rsp_wf b u u' : tables_wf u -> tick_rsp b u = Ok u' -> tables_wf u'.
Proof.
  intros Hwf Hrun.
  destruct (tick_rsp_inv _ _ _ Hrun)
    as [demux Hd Hq ->|demux rsp q st e outs tbl' Hd Hq Hst He Hne Heff ->]; [done|].
  eapply (tables_wf_update u); [exact Hwf|reflexivity|]. simpl.
  pose proof (HashTableProps.store_wf (pending_rd_reqs st) (rsp_tag rsp) e
                (mkPending (trace e) (N.ldiff (mask e) (LsuRsp.mask rsp)))
                (Hwf _ _ Hst) He) as Hstore.
  destruct Heff as [_ _ ->|tr Hz _ _ ->]; [done|].
  apply (HashTableProps.release_wf _ (rsp_tag rsp) _ Hstore).
  apply HashTableProps.release_Ok. eexists. split.
  - simpl. apply list_lookup_insert_eq. by eapply lookup_lt_Some.
  - simpl. by rewrite list_insert_insert_eq, Hz.
Qed.

Lemma unlock_wf iw u u1 : tables_wf u -> unlock_outcome iw u (Some u1) -> tables_wf u1.
Proof.
  intros Hwf Hu. inversion Hu as [|st outs Hst Hlock Hemp Hp|st Hst Hlock]; subst; [|done].
  eapply (tables_wf_update u); [exact Hwf|reflexivity|]. simpl. by eapply Hwf.
Qed.

Lemma input_wf iw u u' : tables_wf u -> input_outcome iw u u' -> tables_wf u'.
Proof.
  intros Hwf Hi.
  destruct Hi as [input Hin Hq ->
    |input trace q tr st Hin Hq Htr Hst Hty ->
    |input trace q tr st Hin Hq Htr Hst Hty Hfull ->
    |input trace q tr st lsu_req demux outs Hin Hq Htr Hst Hty Hreq Hd Hp ->
    |input trace q tr st lsu_req tag tbl demux Hin Hq Htr Hst Hty Hfull Hreq Hal Hd ->];
    try done.
  - eapply (tables_wf_update u); [exact Hwf|reflexivity|]. simpl. by eapply Hwf.
  - eapply (tables_wf_update u); [exact Hwf|reflexivity|]. simpl. by eapply Hwf.
  - eapply (tables_wf_update u); [exact Hwf|reflexivity|]. simpl.
    eapply HashTableProps.allocate_wf; [|done]. by eapply Hwf.
Qed.

Lemma tick_issue_wf iw u u' : tables_wf u -> tick_issue iw u = Ok u' -> tables_wf u'.
Proof.
  intros Hwf Hrun.
  destruct (tick_issue_inv _ _ _ Hrun) as [_ ->|u1 Hu Hi]; [done|].
  eapply input_wf; [|done]. by eapply unlock_wf.
Qed.

Lemma guarded_tick_issue iw u : tables_wf u -> guarded (tick_issue iw u).
Proof.
  intros Hwf. unfold tick_issue.
  apply guarded_bind; [apply guarded_fence_unlock|intros [u1|] Ho]; [|apply guarded_Ok].
  apply guarded_issue_input. eapply unlock_wf; [done|]. by apply fence_unlock_inv.
Qed.

Lemma guarded_tick u : tables_wf u -> guarded (tick u).
Proof.
  intros Hwf. unfold tick. apply guarded_bind.
  - apply (guarded_for_range (fun _ t => tables_wf t)); [by apply (tables_wf_same u)|].
    intros b t _ Ht. split; [apply guarded_tick_rsp|]. intros t'. by apply tick_rsp_wf.
  - intros u1 Hrsp.
    assert (tables_wf u1) as Hwf1.
    { apply (for_range_inv (fun _ t => tables_wf t)) in Hrsp; [done| |].
      - by apply (tables_wf_same u).
      - intros b t t' _ Ht. by apply tick_rsp_wf. }
    apply (guarded_for_range (fun _ t => tables_wf t)); [done|].
    intros iw t _ Ht. split; [by apply guarded_tick_issue|]. intros t'. by apply tick_issue_wf.
Qed.

Lemma tick_wf u u' : tables_wf u -> tick u = Ok u' -> tables_wf u'.
Proof.
  unfold tick. intros Hwf Hrun.
  apply res_bind_Ok in Hrun as (u1 & Hrsp & Hiss).
  apply (for_range_inv (fun _ t => tables_wf t)) in Hrsp.
  - apply (for_range_inv (fun _ t => tables_wf t)) in Hiss; [done|done|].
    intros iw t t' _ Ht. by apply tick_issue_wf.
  - by apply (tables_wf_same u).
  - intros b t t' _ Ht. by apply tick_rsp_wf.
Qed.

(** C10.  [HashTable::allocate] returns the smallest index of a free slot;
    it does return one whenever [full()] is false on a well-formed table,
    and the first allocation into an empty table returns 0.  A tick of the
    LSU whose pending tables are well formed never ends in the no-free-slot
    assertion of [allocate]: it calls [allocate] only for a trace that is
    not a store, after [full()] returned false; and it leaves the tables
    well formed. *)
Theorem allocate_lowest_free_guarded :
  (forall (T : Type) (h : HashTable.t T) v j h',
     HashTable.allocate h v = Ok (j, h') ->
     (exists x, HashTable.entries_ h !! j = Some (false, x)) /\
     (forall j', (j' < j)%nat -> exists x, HashTable.entries_ h !! j' = Some (true, x)) /\
     h' = HashTable.mk (<[j := (true, v)]> (HashTable.entries_ h))
                       (wrap32 (HashTable.size_ h + 1))) /\
  (forall (T : Type) (h : HashTable.t T) v,
     HashTable.wf h -> HashTable.full h = false ->
     exists j h', HashTable.allocate h v = Ok (j, h')) /\
  (forall (T : Type) (n : nat) (d v : T),
     HashTable.allocate (HashTable.new (S n) d) v
     = Ok (0%nat, HashTable.mk ((true, v) :: replicate n (false, d)) 1)) /\
  (forall u, tables_wf u -> tick u <> Fault (FaultAssert AssertAllocate)) /\
  (forall u u', tables_wf u -> tick u = Ok u' -> tables_wf u').
Proof.
  split; [|split; [|split; [|split]]].
  - intros T h v j h' Hal. apply HashTableProps.allocate_Ok in Hal. tauto.
  - intros T h v. apply HashTableProps.allocate_not_full.
  - intros T n d v. reflexivity.
  - apply guarded_tick.
  - apply tick_wf.
Qed.

(** *** Back-pressure on a full pending table *)

Lemma fence_unlock_free iw u st :
  states_ u !! block_of iw = Some st -> fence_lock st = false ->
  fence_unlock iw u = Ok (Some u).
Proof.
  intros Hst Hlock. unfold fence_unlock. fold (block_of iw).
  rewrite (vec_at_lookup _ _ _ Hst). simpl. by rewrite Hlock.
Qed.

Lemma fence_unlock_wait iw u st :
  states_ u !! block_of iw = Some st -> fence_lock st = true ->
  HashTable.empty (pending_rd_reqs st) = false ->
  fence_unlock iw u = Ok None.
Proof.
  intros Hst Hlock Hemp. unfold fence_unlock. fold (block_of iw).
  rewrite (vec_at_lookup _ _ _ Hst). simpl. by rewrite Hlock, Hemp.
Qed.

Lemma issue_input_stall iw u input trace q tr st :
  Inputs u !! iw = Some input -> queue input = trace :: q ->
  mem u !! trace = Some tr -> lsu_type tr = LOAD ->
  states_ u !! block_of iw = Some st ->
  HashTable.full (pending_rd_reqs st) = true ->
  issue_input iw u = Ok (stalled u trace tr).
Proof.
  intros Hin Hq Htr Hty Hst Hfull. unfold issue_input. fold (block_of iw).
  rewrite (vec_at_lookup _ _ _ Hin). simpl. rewrite Hq.
  rewrite (proj2 (deref_Ok _ _ _) Htr). simpl.
  rewrite (vec_at_lookup _ _ _ Hst). simpl. rewrite Hty. simpl. rewrite Hfull.
  unfold stalled, log_once. cbn [snd]. rewrite ?Hty. reflexivity.
Qed.

Lemma log_once_fields b tr :
  lsu_type (snd (log_once b tr)) = lsu_type tr /\
  log_once_ (snd (log_once b tr)) = b /\
  fst (log_once b tr) = log_once_ tr.
Proof. by destruct tr. Qed.

Lemma log_once_idem b tr : snd (log_once b (snd (log_once b tr))) = snd (log_once b tr).
Proof. by destruct tr. Qed.

Lemma stalled_again u trace tr :
  stalled (stalled u trace tr) trace (snd (log_once true tr)) = stalled u trace tr.
Proof.
  unfold stalled. destruct tr. simpl. by rewrite insert_insert_eq.
Qed.

(** C8.  A LOAD at the head of an issue lane whose block has a full pending
    table stalls: the iteration of the issue loop for that lane leaves the
    input queue, the outputs, the core (so the request port and the
    statistics), the pending tables and [pending_loads_] as they are.  The
    queue-full diagnostic is printed only if the [log_once] latch of the
    trace was clear, and the latch is set afterwards, so that a stall
    repeats without printing again; the latch is cleared when the trace
    issues. *)
Theorem load_stalls_on_full_table iw u input trace q tr st :
  Inputs u !! iw = Some input -> queue input = trace :: q ->
  mem u !! trace = Some tr -> lsu_type tr = LOAD ->
  states_ u !! block_of iw = Some st ->
  (HashTable.full (pending_rd_reqs st) = true ->
   fence_lock st = false \/ HashTable.empty (pending_rd_reqs st) = false ->
   exists u',
     tick_issue iw u = Ok u' /\
     Inputs u' = Inputs u /\ Outputs u' = Outputs u /\ core_ u' = core_ u /\
     states_ u' = states_ u /\ pending_loads_ u' = pending_loads_ u /\
     (forall p, p <> trace -> mem u' !! p = mem u !! p) /\
     (if fence_lock st then u' = u
      else mem u' = <[trace := snd (log_once true tr)]> (mem u) /\
           log_once_ (snd (log_once true tr)) = true /\
           dt_queue_full u'
           = dt_queue_full u ++ (if log_once_ tr then [] else [trace])) /\
     tick_issue iw u' = Ok u') /\
  (HashTable.full (pending_rd_reqs st) = false ->
   fence_lock st = false \/ HashTable.empty (pending_rd_reqs st) = true ->
   forall u', tick_issue iw u = Ok u' ->
     mem u' !! trace = Some (snd (log_once false tr)) /\
     log_once_ (snd (log_once false tr)) = false /\
     Inputs u' !! iw = Some (port_pop input)).
Proof.
  intros Hin Hq Htr Hty Hst. split.
  - intros Hfull Hopen. destruct (fence_lock st) eqn:Hlock.
    + destruct Hopen as [|Hemp]; [done|].
      assert (tick_issue iw u = Ok u) as Hrun.
      { unfold tick_issue. by rewrite (fence_unlock_wait iw u st). }
      exists u. repeat split; done.
    + assert (forall v tv, Inputs v = Inputs u -> states_ v = states_ u ->
                mem v !! trace = Some tv -> lsu_type tv = LOAD ->
                tick_issue iw v = Ok (stalled v trace tv)) as Hstall.
      { intros v tv Hi Hs Hm Ht. unfold tick_issue.
        assert (fence_unlock iw v = Ok (Some v)) as ->
          by (apply (fence_unlock_free iw v st); [by rewrite Hs|done]).
        simpl.
        apply (issue_input_stall iw v input trace q tv st); try done.
        - by rewrite Hi.
        - by rewrite Hs. }
      exists (stalled u trace tr). split; [by apply Hstall|].
      repeat split; try done.
      * intros p Hp. simpl. by rewrite lookup_insert_ne.
      * simpl. destruct (log_once_ tr); [by rewrite app_nil_r|done].
      * rewrite <- (stalled_again u trace tr) at 2.
        apply Hstall; try done; try (by destruct tr); simpl; by rewrite lookup_insert_eq.
  - intros Hfull Hopen u' Hrun.
    destruct (tick_issue_inv _ _ _ Hrun) as [Hu ->|u1 Hu Hi].
    { inversion Hu as [st0 Hst0 Hlock Hemp| |]; subst.
      assert (st0 = st) as -> by congruence.
      destruct Hopen; congruence. }
    assert (Inputs u1 = Inputs u /\ mem u1 = mem u /\
            exists st1, states_ u1 !! block_of iw = Some st1 /\
                        pending_rd_reqs st1 = pending_rd_reqs st) as (Hi1 & Hm1 & st1 & Hst1 & Hp1).
    { inversion Hu as [|st0 outs Hst0 Hlock Hemp Hp|st0 Hst0 Hlock]; subst.
      - assert (st0 = st) as -> by congruence. simpl.
        split; [reflexivity|]. split; [reflexivity|].
        exists (mkState (pending_rd_reqs st) (fence_trace st) false).
        split; [|reflexivity].
        apply list_lookup_insert_eq. by eapply lookup_lt_Some.
      - split; [reflexivity|]. split; [reflexivity|]. by exists st. }
    rewrite <- Hi1 in Hin. rewrite <- Hm1 in Htr.
    destruct Hi as [input' Hin' Hq' ->
      |input' trace' q' tr' st' Hin' Hq' Htr' Hst' Hty' ->
      |input' trace' q' tr' st' Hin' Hq' Htr' Hst' Hty' Hfull' ->
      |input' trace' q' tr' st' lsu_req demux outs Hin' Hq' Htr' Hst' Hty' Hreq Hd Hp ->
      |input' trace' q' tr' st' lsu_req tag tbl demux Hin' Hq' Htr' Hst' Hty' Hfull' Hreq Hal Hd ->];
      assert (input' = input) as -> by congruence;
      try (assert (trace' = trace) as -> by congruence);
      try (assert (tr' = tr) as -> by congruence);
      try (assert (st' = st1) as -> by congruence);
      try congruence.
    simpl. rewrite lookup_insert_eq. split; [done|]. split; [by destruct tr|].
    by apply ports_pop_eq.
Qed.

(** *** Fences *)

Lemma tick_rsp_fence b' u u' b st :
  tick_rsp b' u = Ok u' -> states_ u !! b = Some st ->
  Inputs u' = Inputs u /\
  exists st', states_ u' !! b = Some st' /\
              fence_lock st' = fence_lock st /\ fence_trace st' = fence_trace st.
Proof.
  intros Hrun Hst.
  destruct (tick_rsp_inv _ _ _ Hrun)
    as [demux Hd Hq ->|demux rsp q st0 e outs tbl' Hd Hq Hst0 He Hne Heff ->]; [eauto|].
  split; [done|]. simpl. destruct (decide (b = b')) as [->|Hneq].
  - assert (st0 = st) as -> by congruence.
    exists (with_table tbl' st). split; [|done].
    apply list_lookup_insert_eq. by eapply lookup_lt_Some.
  - exists st. by rewrite list_lookup_insert_ne.
Qed.

(** A lane touches only its own input and output port and the state of
    its own block. *)
Lemma unlock_frame iw u u1 :
  unlock_outcome iw u (Some u1) ->
  Inputs u1 = Inputs u /\ mem u1 = mem u /\
  (forall j, j <> iw -> Outputs u1 !! j = Outputs u !! j) /\
  (forall b, b <> block_of iw -> states_ u1 !! b = states_ u !! b).
Proof.
  intros Hu. inversion Hu as [|st outs Hst Hlock Hemp Hp|st Hst Hlock]; subst; [|done].
  simpl. repeat split.
  - intros j Hj. by rewrite (ports_push_ne _ _ _ _ _ _ Hp).
  - intros b Hb. by rewrite list_lookup_insert_ne.
Qed.

Lemma input_frame iw u u' :
  input_outcome iw u u' ->
  (forall j, j <> iw ->
     Inputs u' !! j = Inputs u !! j /\ Outputs u' !! j = Outputs u !! j) /\
  (forall b, b <> block_of iw -> states_ u' !! b = states_ u !! b).
Proof.
  intros Hi.
  destruct Hi as [input Hin Hq ->
    |input trace q tr st Hin Hq Htr Hst Hty ->
    |input trace q tr st Hin Hq Htr Hst Hty Hfull ->
    |input trace q tr st lsu_req demux outs Hin Hq Htr Hst Hty Hreq Hd Hp ->
    |input trace q tr st lsu_req tag tbl demux Hin Hq Htr Hst Hty Hfull Hreq Hal Hd ->];
    simpl; try done.
  - split; [intros j Hj; by rewrite ports_pop_ne|].
    intros b Hb. by rewrite list_lookup_insert_ne.
  - split; [intros j Hj; by rewrite ports_pop_ne, (ports_push_ne _ _ _ _ _ _ Hp)|].
    intros b Hb. by rewrite list_lookup_insert_ne.
  - split; [intros j Hj; by rewrite ports_pop_ne|].
    intros b Hb. by rewrite list_lookup_insert_ne.
Qed.

Lemma tick_issue_frame iw u u' :
  tick_issue iw u = Ok u' ->
  (forall j, j <> iw ->
     Inputs u' !! j = Inputs u !! j /\ Outputs u' !! j = Outputs u !! j) /\
  (forall b, b <> block_of iw -> states_ u' !! b = states_ u !! b).
Proof.
  intros Hrun. destruct (tick_issue_inv _ _ _ Hrun) as [_ ->|u1 Hu Hi]; [done|].
  destruct (unlock_frame _ _ _ Hu) as (Hi1 & _ & Ho1 & Hs1).
  destruct (input_frame _ _ _ Hi) as [Hio Hs].
  split.
  - intros j Hj. destruct (Hio j Hj) as [-> ->]. rewrite Hi1. split; [done|]. by apply Ho1.
  - intros b Hb. rewrite (Hs b Hb). by apply Hs1.
Qed.

(** While the block is locked and loads are pending the lane does nothing. *)
Lemma tick_issue_locked iw u u' st :
  states_ u !! block_of iw = Some st -> fence_lock st = true ->
  HashTable.empty (pending_rd_reqs st) = false ->
  tick_issue iw u = Ok u' -> u' = u.
Proof.
  intros Hst Hlock Hemp Hrun. unfold tick_issue in Hrun.
  rewrite (fence_unlock_wait iw u st Hst Hlock Hemp) in Hrun.
  simpl in Hrun. by injection Hrun as <-.
Qed.

(** What the rest of a lane adds to the lane's output. *)
Lemma input_output iw u u' out :
  input_outcome iw u u' -> Outputs u !! iw = Some out ->
  exists rest, Outputs u' !! iw = Some (mkPort (queue out) (sched out ++ rest)).
Proof.
  intros Hi Hout.
  destruct Hi as [input Hin Hq ->
    |input trace q tr st Hin Hq Htr Hst Hty ->
    |input trace q tr st Hin Hq Htr Hst Hty Hfull ->
    |input trace q tr st lsu_req demux outs Hin Hq Htr Hst Hty Hreq Hd Hp ->
    |input trace q tr st lsu_req tag tbl demux Hin Hq Htr Hst Hty Hfull Hreq Hal Hd ->];
    simpl; try (exists []; rewrite app_nil_r; by destruct out).
  exists [(trace, 1)]. by apply (ports_push_eq _ _ _ _ _ _ Hp).
Qed.

(** The lock of the block after the rest of a lane that found it clear:
    it is set again only by a FENCE taken from the input of the lane. *)
Lemma input_lock iw u u' st :
  input_outcome iw u u' ->
  states_ u !! block_of iw = Some st -> fence_lock st = false ->
  exists st',
    states_ u' !! block_of iw = Some st' /\
    (fence_lock st' = false \/
     exists input trace q tr,
       Inputs u !! iw = Some input /\ queue input = trace :: q /\
       mem u !! trace = Some tr /\ lsu_type tr = FENCE /\
       Outputs u' = Outputs u /\
       st' = mkState (pending_rd_reqs st) trace true).
Proof.
  intros Hi Hst Hlock.
  assert (block_of iw < length (states_ u))%nat as Hlt by (by eapply lookup_lt_Some).
  destruct Hi as [input Hin Hq ->
    |input trace q tr st0 Hin Hq Htr Hst0 Hty ->
    |input trace q tr st0 Hin Hq Htr Hst0 Hty Hfull ->
    |input trace q tr st0 lsu_req demux outs Hin Hq Htr Hst0 Hty Hreq Hd Hp ->
    |input trace q tr st0 lsu_req tag tbl demux Hin Hq Htr Hst0 Hty Hfull Hreq Hal Hd ->];
    try (assert (st0 = st) as -> by congruence).
  - exists st. split; [done|]. by left.
  - exists (mkState (pending_rd_reqs st) trace true). simpl.
    split; [by apply list_lookup_insert_eq|]. right.
    exists input, trace, q, tr. done.
  - exists st. split; [done|]. by left.
  - exists (with_table (pending_rd_reqs st) st). simpl.
    split; [by apply list_lookup_insert_eq|]. by left.
  - exists (with_table tbl st). simpl.
    split; [by apply list_lookup_insert_eq|]. by left.
Qed.

(** C1.  Fence ordering in a block of the LSU.
    (a) Taking a FENCE from a lane sets the lock of the block and latches
        the trace, without pushing it to an output.
    (b) In a tick that finds the block locked and, once the responses of
        the tick are absorbed ([mid]), loads still pending: the block stays
        locked on the same trace, nothing is taken from the input of any
        lane of the block and nothing is pushed to the outputs of these
        lanes by the issue loop.
    (c) A lane that finds its block locked either leaves everything as it
        is, loads being pending, or finds the pending table empty (no slot
        is in use: every earlier load has been absorbed completely); it
        then pushes the fence trace to its own output with delay 1, ahead of
        anything the lane issues next, and the lock is clear after the
        lane, unless the lane went on to take another FENCE from its
        input, which locks the block again on that trace.
    (d) On a locked block whose pending table is empty the prologue of the
        lane does clear the lock: it pushes the fence trace to output [iw]
        with delay 1, resets [fence_lock], and the lane goes on to its
        input from there. *)
Theorem fence_ordering :
  (forall iw u input trace q tr st,
     Inputs u !! iw = Some input -> queue input = trace :: q ->
     mem u !! trace = Some tr -> lsu_type tr = FENCE ->
     states_ u !! block_of iw = Some st -> fence_lock st = false ->
     exists u',
       tick_issue iw u = Ok u' /\
       states_ u' !! block_of iw = Some (mkState (pending_rd_reqs st) trace true) /\
       Inputs u' !! iw = Some (port_pop input) /\
       Outputs u' = Outputs u) /\
  (forall u u',
     tick u = Ok u' ->
     exists mid,
       for_range 0 NUM_LSU_BLOCKS tick_rsp (tick_stats u) = Ok mid /\
       for_range 0 ISSUE_WIDTH tick_issue mid = Ok u' /\
       forall b st0,
         states_ u !! b = Some st0 -> fence_lock st0 = true ->
         exists st,
           states_ mid !! b = Some st /\ fence_lock st = true /\
           fence_trace st = fence_trace st0 /\
           (HashTable.empty (pending_rd_reqs st) = false ->
            states_ u' !! b = Some st /\
            forall iw, block_of iw = b ->
              Inputs u' !! iw = Inputs u !! iw /\
              Outputs u' !! iw = Outputs mid !! iw)) /\
  (forall iw u u' st,
     tables_wf u ->
     states_ u !! block_of iw = Some st -> fence_lock st = true ->
     tick_issue iw u = Ok u' ->
     (HashTable.empty (pending_rd_reqs st) = false /\ u' = u) \/
     (HashTable.empty (pending_rd_reqs st) = true /\
      (forall j slot, HashTable.entries_ (pending_rd_reqs st) !! j = Some slot ->
                      fst slot = false) /\
      exists out rest st',
        Outputs u !! iw = Some out /\
        Outputs u' !! iw
        = Some (mkPort (queue out) (sched out ++ (fence_trace st, 1) :: rest)) /\
        states_ u' !! block_of iw = Some st' /\
        (fence_lock st' = false \/
         exists input trace q tr,
           Inputs u !! iw = Some input /\ queue input = trace :: q /\
           mem u !! trace = Some tr /\ lsu_type tr = FENCE /\
           rest = [] /\ st' = mkState (pending_rd_reqs st) trace true))) /\
  (forall iw u st out,
     states_ u !! block_of iw = Some st -> fence_lock st = true ->
     HashTable.empty (pending_rd_reqs st) = true ->
     Outputs u !! iw = Some out ->
     exists u1,
       u1 = mk (Inputs u)
               (<[iw := mkPort (queue out) (sched out ++ [(fence_trace st, 1)])]> (Outputs u))
               (core_ u)
               (<[block_of iw := mkState (pending_rd_reqs st) (fence_trace st) false]>
                  (states_ u))
               (pending_loads_ u) (mem u) (dt_queue_full u) /\
       fence_unlock iw u = Ok (Some u1) /\
       tick_issue iw u = issue_input iw u1).
Proof.
  split; [|split; [|split]].
  - intros iw u input trace q tr st Hin Hq Htr Hty Hst Hlock.
    exists (fenced u iw st trace). split.
    + unfold tick_issue. rewrite (fence_unlock_free iw u st Hst Hlock). simpl.
      unfold issue_input. fold (block_of iw).
      rewrite (vec_at_lookup _ _ _ Hin). simpl. rewrite Hq.
      rewrite (proj2 (deref_Ok _ _ _) Htr). simpl.
      rewrite (vec_at_lookup _ _ _ Hst). simpl. by rewrite Hty.
    + simpl. split; [|split; [by apply ports_pop_eq|done]].
      apply list_lookup_insert_eq. by eapply lookup_lt_Some.
  - intros u u' Hrun. unfold tick in Hrun.
    apply res_bind_Ok in Hrun as (mid & Hrsp & Hiss).
    exists mid. split; [done|]. split; [done|]. intros b st0 Hst0 Hlock0.
    apply (for_range_inv
      (fun _ t => Inputs t = Inputs u /\
         exists st, states_ t !! b = Some st /\
                    fence_lock st = true /\ fence_trace st = fence_trace st0)) in Hrsp.
    + destruct Hrsp as (Hin & st & Hst & Hlock & Htrace).
      exists st. split; [done|]. split; [done|]. split; [done|]. intros Hemp.
      apply (for_range_inv
        (fun _ t => states_ t !! b = Some st /\
           forall iw, block_of iw = b ->
             Inputs t !! iw = Inputs mid !! iw /\ Outputs t !! iw = Outputs mid !! iw))
        in Hiss.
      * destruct Hiss as [Hs Hio]. split; [done|]. intros iw Hiw.
        rewrite <- Hin. by apply Hio.
      * done.
      * intros i t t' _ [Hs Hio] Hstep.
        destruct (decide (block_of i = b)) as [Hb|Hb].
        -- assert (t' = t) as ->; [|done].
           apply (tick_issue_locked i t t' st); try done. by rewrite Hb.
        -- destruct (tick_issue_frame _ _ _ Hstep) as [Fio Fs].
           split; [rewrite Fs by done; done|].
           intros iw Hiw. destruct (Fio iw) as [-> ->]; [congruence|]. by apply Hio.
    + split; [done|]. by exists st0.
    + intros i t t' _ (Hin & st & Hst & Hlock & Htrace) Hstep.
      destruct (tick_rsp_fence _ _ _ _ _ Hstep Hst) as (Hin' & st' & Hst' & Hl' & Ht').
      split; [congruence|]. exists st'. split; [done|]. split; congruence.
  - intros iw u u' st Hwf Hst Hlock Hrun.
    destruct (tick_issue_inv _ _ _ Hrun) as [Hu ->|u1 Hu Hi].
    + left. inversion Hu as [st1 Hst1 Hl1 He1| |]; subst.
      assert (st1 = st) as -> by congruence. done.
    + right. inversion Hu as [|st1 outs Hst1 Hl1 He1 Hp|st1 Hst1 Hl1]; subst;
        assert (st1 = st) as -> by congruence; [|congruence].
      split; [done|]. split.
      { by apply (HashTableProps.empty_spec _ (Hwf _ _ Hst)). }
      apply ports_push_Ok in Hp as (out & Hout & _ & ->).
      assert (iw < length (Outputs u))%nat as Hlt by (by eapply lookup_lt_Some).
      assert (block_of iw < length (states_ u))%nat as Hltb by (by eapply lookup_lt_Some).
      destruct (input_output iw _ u' (mkPort (queue out) (sched out ++ [(fence_trace st, 1)])) Hi)
        as [rest Hrest].
      { simpl. by apply list_lookup_insert_eq. }
      destruct (input_lock iw _ u' (mkState (pending_rd_reqs st) (fence_trace st) false) Hi)
        as (st' & Hst' & Hl').
      { simpl. by apply list_lookup_insert_eq. }
      { done. }
      exists out, rest, st'. split; [done|]. split.
      { rewrite Hrest. simpl. by rewrite <- app_assoc. }
      split; [done|].
      destruct Hl' as [Hl'|(input & trace & q & tr & Hin & Hq & Htr & Hty & Hsame & ->)];
        [by left|right].
      exists input, trace, q, tr. repeat (split; [done|]). split; [|done].
      rewrite Hsame in Hrest. simpl in Hrest.
      rewrite list_lookup_insert_eq in Hrest by done.
      injection Hrest as Hrest. rewrite <- app_assoc in Hrest.
      apply app_inv_head in Hrest. by injection Hrest as <-.
  - intros iw u st out Hst Hlock Hemp Hout. eexists. split; [reflexivity|].
    assert (fence_unlock iw u = Ok (Some (mk (Inputs u)
               (<[iw := mkPort (queue out) (sched out ++ [(fence_trace st, 1)])]> (Outputs u))
               (core_ u)
               (<[block_of iw := mkState (pending_rd_reqs st) (fence_trace st) false]>
                  (states_ u))
               (pending_loads_ u) (mem u) (dt_queue_full u)))) as Hrun.
    { unfold fence_unlock. fold (block_of iw).
      rewrite (vec_at_lookup _ _ _ Hst). simpl. rewrite Hlock, Hemp. simpl.
      unfold ports_push. rewrite (vec_at_lookup _ _ _ Hout). reflexivity. }
    split; [exact Hrun|]. unfold tick_issue. by rewrite Hrun.
Qed.

(** *** Partial responses *)

(** The lanes of [m] left after the responses [rs], as the code computes
    them, and the lanes the responses cover together. *)
Definition remaining (m : N) (rs : list LsuRsp.t) : N :=
  fold_left (fun m r => N.ldiff m (LsuRsp.mask r)) rs m.

Definition cumulative (rs : list LsuRsp.t) : N :=
  fold_right (fun r m => N.lor (LsuRsp.mask r) m) 0%N rs.

Lemma remaining_cumulative m rs : remaining m rs = N.ldiff m (cumulative rs).
Proof.
  revert m. induction rs as [|r rs IH]; intros m; simpl.
  - by rewrite N.ldiff_0_r.
  - unfold remaining in *. rewrite IH. apply N.ldiff_ldiff_l.
Qed.

Lemma remaining_zero rs : remaining 0 rs = 0%N.
Proof. rewrite remaining_cumulative. apply N.ldiff_0_l. Qed.

Lemma remaining_app m rs1 rs2 : remaining m (rs1 ++ rs2) = remaining (remaining m rs1) rs2.
Proof. unfold remaining. apply fold_left_app. Qed.

Lemma remaining_prefix m rs1 rs2 : remaining m (rs1 ++ rs2) <> 0%N -> remaining m rs1 <> 0%N.
Proof. rewrite remaining_app. intros Hne Hz. rewrite Hz, remaining_zero in Hne. done. Qed.

Lemma tick_rsp_partial_run b u demux rsp q st e :
  lsu_demux_ (core_ u) !! b = Some demux ->
  queue (LocalMemDemux.RspIn demux) = rsp :: q ->
  states_ u !! b = Some st ->
  HashTable.entries_ (pending_rd_reqs st) !! rsp_tag rsp = Some (true, e) ->
  N.ldiff (mask e) (LsuRsp.mask rsp) <> 0%N ->
  tick_rsp b u
  = Ok (after_rsp u b demux st rsp (Outputs u)
          (HashTable.store (pending_rd_reqs st) (rsp_tag rsp)
             (mkPending (trace e) (N.ldiff (mask e) (LsuRsp.mask rsp))))).
Proof.
  intros Hd Hq Hst He Hrem. unfold tick_rsp.
  rewrite (vec_at_lookup _ _ _ Hd). cbn [mbind res_bind]. rewrite Hq.
  rewrite (vec_at_lookup _ _ _ Hst). cbn [mbind res_bind]. fold (rsp_tag rsp).
  rewrite (proj2 (HashTableProps.at_Ok _ _ _) He). cbn [mbind res_bind].
  destruct (N.eqb_spec (mask e) 0) as [Hz|_].
  { rewrite Hz, N.ldiff_0_l in Hrem. done. }
  destruct (N.eqb_spec (N.ldiff (mask e) (LsuRsp.mask rsp)) 0) as [|_]; [done|].
  reflexivity.
Qed.

Lemma tick_rsp_complete_run b u demux rsp q st e tr out :
  lsu_demux_ (core_ u) !! b = Some demux ->
  queue (LocalMemDemux.RspIn demux) = rsp :: q ->
  states_ u !! b = Some st ->
  HashTable.entries_ (pending_rd_reqs st) !! rsp_tag rsp = Some (true, e) ->
  mask e <> 0%N ->
  N.ldiff (mask e) (LsuRsp.mask rsp) = 0%N ->
  mem u !! trace e = Some tr ->
  Outputs u !! (wid tr mod ISSUE_WIDTH)%nat = Some out ->
  tick_rsp b u
  = Ok (after_rsp u b demux st rsp
          (<[(wid tr mod ISSUE_WIDTH)%nat :=
               mkPort (queue out) (sched out ++ [(trace e, 1)])]> (Outputs u))
          (HashTable.mk
             (<[rsp_tag rsp := (false, mkPending (trace e) 0%N)]>
                (HashTable.entries_ (pending_rd_reqs st)))
             (wrap32 (HashTable.size_ (pending_rd_reqs st) - 1)))).
Proof.
  intros Hd Hq Hst He Hne Hrem Htr Hout. unfold tick_rsp.
  rewrite (vec_at_lookup _ _ _ Hd). cbn [mbind res_bind]. rewrite Hq.
  rewrite (vec_at_lookup _ _ _ Hst). cbn [mbind res_bind]. fold (rsp_tag rsp).
  rewrite (proj2 (HashTableProps.at_Ok _ _ _) He). cbn [mbind res_bind].
  destruct (N.eqb_spec (mask e) 0) as [|_]; [done|].
  rewrite Hrem. simpl.
  rewrite (proj2 (deref_Ok _ _ _) Htr). simpl.
  unfold ports_push. rewrite (vec_at_lookup _ _ _ Hout). simpl.
  unfold HashTable.release, HashTable.store. simpl.
  unfold vec_at. rewrite list_lookup_insert_eq by (by eapply lookup_lt_Some). simpl.
  rewrite list_insert_insert_eq. reflexivity.
Qed.

Lemma wf_used_size (h : HashTable.t pending_req_t) i x :
  HashTable.wf h -> HashTable.entries_ h !! i = Some (true, x) ->
  1 <= HashTable.size_ h < 2 ^ 32.
Proof.
  intros Hwf Hx. pose proof (HashTableProps.wf_size h Hwf) as Hs.
  pose proof (HashTableProps.wf_size_range h Hwf) as Hr. destruct Hwf as [_ Hlen].
  pose proof (HashTableProps.sum_alloc_insert (fun _ => 1) _ _ _ _ false x Hx) as Hins.
  pose proof (HashTableProps.sum_alloc_nonneg (fun _ => 1)
                (<[i := (false, x)]> (HashTable.entries_ h)) (fun _ => ltac:(lia))) as H0.
  cbv beta iota in Hins. lia.
Qed.

(** Slot [tag] of block [b] is in use and holds [x]. *)
Definition holds u (b tag : nat) (x : pending_req_t) : Prop :=
  exists st, states_ u !! b = Some st /\
             HashTable.entries_ (pending_rd_reqs st) !! tag = Some (true, x).

(** The response for slot [tag] that a tick finds at the head of the
    response port of block [b], if any. *)
Definition head_rsp (b tag : nat) u : list LsuRsp.t :=
  match lsu_demux_ (core_ u) !! b with
  | Some demux =>
      match queue (LocalMemDemux.RspIn demux) with
      | rsp :: _ => if decide (rsp_tag rsp = tag) then [rsp] else []
      | [] => []
      end
  | None => []
  end.

(** A run of the LSU from [u] to [u'], and the responses [rs] for slot
    [tag] of block [b] that it absorbs, oldest first.  The run is made of
    ticks of the unit -- each absorbs the response at the head of every
    block and then visits the issue lanes -- and, between them, of steps of
    the rest of the simulator, which moves the ports, the traces and the
    core but not the private state of the unit. *)
Inductive absorbs (b tag : nat) : LsuUnit.t W -> list LsuRsp.t -> LsuUnit.t W -> Prop :=
  | absorbs_none u : absorbs b tag u [] u
  | absorbs_env u rs u1 u2 :
      absorbs b tag u rs u1 -> states_ u2 = states_ u1 -> absorbs b tag u rs u2
  | absorbs_tick u rs u1 u2 :
      absorbs b tag u rs u1 -> tick u1 = Ok u2 ->
      absorbs b tag u (rs ++ head_rsp b tag u1) u2.

Lemma tick_rsp_mem b u u' : tick_rsp b u = Ok u' -> mem u' = mem u.
Proof.
  intros Hrun.
  by destruct (tick_rsp_inv _ _ _ Hrun) as [? ? ? ->|? ? ? ? ? ? ? ? ? ? ? ? ? ->].
Qed.

(** The response loop over the blocks [lo .. lo+n-1] leaves the other
    blocks and the traces alone. *)
Lemma rsp_loop_frame lo n u u' :
  for_range lo n tick_rsp u = Ok u' ->
  mem u' = mem u /\
  forall b, (b < lo \/ lo + n <= b)%nat ->
    lsu_demux_ (core_ u') !! b = lsu_demux_ (core_ u) !! b /\
    states_ u' !! b = states_ u !! b.
Proof.
  intros Hrun.
  apply (for_range_inv
    (fun i t => mem t = mem u /\
       forall b, (b < lo \/ i <= b)%nat ->
         lsu_demux_ (core_ t) !! b = lsu_demux_ (core_ u) !! b /\
         states_ t !! b = states_ u !! b)) in Hrun; [done|done|].
  intros i t t' Hi [Hm Hfr] Hstep. split.
  - by rewrite (tick_rsp_mem _ _ _ Hstep).
  - intros b Hb. destruct (tick_rsp_frame _ _ _ b Hstep) as [-> ->]; [lia|].
    apply Hfr. lia.
Qed.

(** A response for another block, or for another slot of the block,
    leaves the slot as it is. *)
Lemma tick_rsp_keeps b' u u' b tag x :
  tick_rsp b' u = Ok u' -> holds u b tag x ->
  (b' = b -> head_rsp b tag u = []) ->
  holds u' b tag x.
Proof.
  intros Hrun (st & Hst & Hx) Hother.
  destruct (tick_rsp_inv _ _ _ Hrun)
    as [demux Hd Hq ->|demux rsp q st0 e outs tbl' Hd Hq Hst0 He Hne Heff ->];
    [by exists st|].
  unfold holds. simpl. destruct (decide (b' = b)) as [->|Hneq].
  - assert (st0 = st) as -> by congruence.
    specialize (Hother eq_refl). unfold head_rsp in Hother. rewrite Hd, Hq in Hother.
    destruct (decide (rsp_tag rsp = tag)) as [|Htag]; [discriminate Hother|].
    exists (with_table tbl' st).
    split; [apply list_lookup_insert_eq; by eapply lookup_lt_Some|].
    destruct Heff as [_ _ ->|tr _ _ _ ->]; simpl; by rewrite list_lookup_insert_ne.
  - exists st. by rewrite list_lookup_insert_ne.
Qed.

(** The issue loop does not touch a slot in use: a LOAD takes a free slot. *)
Lemma tick_issue_keeps iw u u' b tag x :
  tick_issue iw u = Ok u' -> holds u b tag x -> holds u' b tag x.
Proof.
  intros Hrun (st & Hst & Hx).
  destruct (tick_issue_inv _ _ _ Hrun) as [_ ->|u1 Hu Hi]; [by exists st|].
  assert (holds u1 b tag x) as (st1 & Hst1 & Hx1).
  { inversion Hu as [|st0 outs Hst0 Hlock Hemp Hp|st0 Hst0 Hlock]; subst; [|by exists st].
    unfold holds. simpl. destruct (decide (b = block_of iw)) as [->|Hneq].
    - assert (st0 = st) as -> by congruence.
      eexists. split; [apply list_lookup_insert_eq; by eapply lookup_lt_Some|done].
    - exists st. by rewrite list_lookup_insert_ne. }
  clear Hst Hx Hu.
  destruct Hi as [input Hin Hq ->
    |input trace q tr st0 Hin Hq Htr Hst0 Hty ->
    |input trace q tr st0 Hin Hq Htr Hst0 Hty Hfull ->
    |input trace q tr st0 lsu_req demux outs Hin Hq Htr Hst0 Hty Hreq Hd Hp ->
    |input trace q tr st0 lsu_req tag' tbl demux Hin Hq Htr Hst0 Hty Hfull Hreq Hal Hd ->];
    unfold holds; simpl; try (by exists st1).
  all: destruct (decide (b = block_of iw)) as [->|Hneq];
    [assert (st0 = st1) as -> by congruence|
     exists st1; by rewrite list_lookup_insert_ne].
  all: eexists; (split; [apply list_lookup_insert_eq; by eapply lookup_lt_Some|]); simpl;
    try done.
  apply HashTableProps.allocate_Ok in Hal as (_ & [y Hfree] & _ & ->). simpl.
  rewrite list_lookup_insert_ne; [done|]. intros ->. congruence.
Qed.

Lemma issue_loop_keeps lo n u u' b tag x :
  for_range lo n tick_issue u = Ok u' -> holds u b tag x -> holds u' b tag x.
Proof.
  intros Hrun Hx.
  apply (for_range_inv (fun _ t => holds t b tag x) _ _ _ _ _ Hx) in Hrun; [done|].
  intros i t t' _ Ht Hstep. by eapply tick_issue_keeps.
Qed.

(** A tick, cut at the response of block [b]. *)
Lemma tick_at_block b u u' :
  (b < NUM_LSU_BLOCKS)%nat -> tick u = Ok u' ->
  exists before after mid,
    for_range 0 b tick_rsp (tick_stats u) = Ok before /\
    tick_rsp b before = Ok after /\
    for_range (S b) (NUM_LSU_BLOCKS - S b) tick_rsp after = Ok mid /\
    for_range 0 ISSUE_WIDTH tick_issue mid = Ok u' /\
    mem before = mem u /\
    lsu_demux_ (core_ before) !! b = lsu_demux_ (core_ u) !! b /\
    states_ before !! b = states_ u !! b /\
    forall tag y, holds after b tag y -> holds u' b tag y.
Proof.
  intros Hb Hrun. unfold tick in Hrun.
  apply res_bind_Ok in Hrun as (mid & Hrsp & Hiss).
  destruct (for_range_split 0 NUM_LSU_BLOCKS tick_rsp _ _ b ltac:(lia) Hrsp)
    as (before & after & H1 & H2 & H3).
  rewrite Nat.sub_0_r in H1. simpl in H3.
  exists before, after, mid. repeat (split; [done|]).
  destruct (rsp_loop_frame _ _ _ _ H1) as [Hm1 Hfr1].
  destruct (Hfr1 b ltac:(lia)) as [Hd1 Hs1].
  destruct (rsp_loop_frame _ _ _ _ H3) as [_ Hfr3].
  destruct (Hfr3 b ltac:(lia)) as [_ Hs3].
  repeat (split; [done|]).
  intros tag y (st & Hst & Hy). eapply issue_loop_keeps; [done|].
  exists st. by rewrite Hs3.
Qed.

Lemma absorbs_wf b tag u rs u1 : tables_wf u -> absorbs b tag u rs u1 -> tables_wf u1.
Proof.
  intros Hwf. induction 1 as [|u rs u1 u2 _ IH Hs|u rs u1 u2 _ IH Hrun]; [done| |].
  - by apply (tables_wf_same u1); [apply IH|].
  - by apply (tick_wf u1); [apply IH|].
Qed.

(** What a tick does to a slot in use of a block it visits. *)
Lemma tick_holds b tag u u' x :
  (b < NUM_LSU_BLOCKS)%nat -> tick u = Ok u' -> holds u b tag x ->
  N.ldiff (mask x) (cumulative (head_rsp b tag u)) <> 0%N ->
  holds u' b tag (mkPending (trace x) (N.ldiff (mask x) (cumulative (head_rsp b tag u)))).
Proof.
  intros Hb Hrun (st & Hst & Hx) Hrem.
  destruct (tick_at_block b u u' Hb Hrun)
    as (before & after & mid & H1 & H2 & H3 & H4 & Hm & Hd & Hs & Hkeep).
  apply Hkeep. rewrite <- Hs in Hst.
  assert (head_rsp b tag before = head_rsp b tag u) as Hhead
    by (unfold head_rsp; by rewrite Hd).
  unfold head_rsp in Hrem, Hhead |- *.
  destruct (lsu_demux_ (core_ u) !! b) as [demux|] eqn:Hdu;
    [destruct (queue (LocalMemDemux.RspIn demux)) as [|rsp q] eqn:Hq;
     [|destruct (decide (rsp_tag rsp = tag)) as [Htag|Htag]]|];
    simpl in Hrem |- *; rewrite ?N.lor_0_r, ?N.ldiff_0_r in *.
  2: { subst tag.
       rewrite (tick_rsp_partial_run b before demux rsp q st x Hd Hq Hst Hx Hrem) in H2.
       injection H2 as <-. unfold holds. simpl. eexists.
       split; [apply list_lookup_insert_eq; by eapply lookup_lt_Some|]. simpl.
       apply list_lookup_insert_eq. by eapply lookup_lt_Some. }
  all: replace (mkPending (trace x) (mask x)) with x by (by destruct x);
    apply (tick_rsp_keeps b before after b tag x H2); [by exists st|by intros _].
Qed.

(** C2.  A load in flight in slot [tag] of block [b], with entry [e], and
    the responses with its tag, absorbed one per tick over a run of ticks
    of the unit during which other responses are absorbed and the lanes
    issue.
    (a) As long as the masks absorbed so far do not cover the mask of the
        request, the slot stays in use, with the retained trace and the
        lanes that remain.
    (b) In the tick that absorbs the next response [rsp] for the slot, the
        response loop reaches block [b] in a state [before] and absorbs
        [rsp] there, leading to [after].  If lanes remain once [rsp] is
        taken off, nothing is pushed to the outputs for it and the slot is
        kept with the remaining lanes.  If none remains, the retained trace
        is pushed, once, to output [wid mod ISSUE_WIDTH] with delay 1, and
        this one slot is released: [size_] drops by one and no other slot
        changes.
    (c) The lanes that remain are the lanes of the request that the masks
        absorbed so far, taken together, do not cover. *)
Theorem partial_responses_release_once b tag u e :
  (b < NUM_LSU_BLOCKS)%nat -> tables_wf u -> holds u b tag e ->
  (forall rs u1,
     absorbs b tag u rs u1 -> remaining (mask e) rs <> 0%N ->
     holds u1 b tag (mkPending (trace e) (remaining (mask e) rs))) /\
  (forall rs u1 u2 demux rsp q,
     absorbs b tag u rs u1 -> remaining (mask e) rs <> 0%N ->
     lsu_demux_ (core_ u1) !! b = Some demux ->
     queue (LocalMemDemux.RspIn demux) = rsp :: q -> rsp_tag rsp = tag ->
     tick u1 = Ok u2 ->
     exists before after mid st1 st2,
       for_range 0 b tick_rsp (tick_stats u1) = Ok before /\
       tick_rsp b before = Ok after /\
       for_range (S b) (NUM_LSU_BLOCKS - S b) tick_rsp after = Ok mid /\
       for_range 0 ISSUE_WIDTH tick_issue mid = Ok u2 /\
       states_ before !! b = Some st1 /\ states_ after !! b = Some st2 /\
       HashTable.entries_ (pending_rd_reqs st1) !! tag
       = Some (true, mkPending (trace e) (remaining (mask e) rs)) /\
       if decide (remaining (mask e) (rs ++ [rsp]) = 0%N)
       then
         exists tr out,
           mem u1 !! trace e = Some tr /\
           Outputs before !! (wid tr mod ISSUE_WIDTH)%nat = Some out /\
           Outputs after
           = <[(wid tr mod ISSUE_WIDTH)%nat :=
                 mkPort (queue out) (sched out ++ [(trace e, 1)])]> (Outputs before) /\
           HashTable.entries_ (pending_rd_reqs st2)
           = <[tag := (false, mkPending (trace e) 0%N)]>
               (HashTable.entries_ (pending_rd_reqs st1)) /\
           HashTable.size_ (pending_rd_reqs st2)
           = HashTable.size_ (pending_rd_reqs st1) - 1
       else
         Outputs after = Outputs before /\
         HashTable.entries_ (pending_rd_reqs st2)
         = <[tag := (true, mkPending (trace e) (remaining (mask e) (rs ++ [rsp])))]>
             (HashTable.entries_ (pending_rd_reqs st1)) /\
         HashTable.size_ (pending_rd_reqs st2) = HashTable.size_ (pending_rd_reqs st1) /\
         holds u2 b tag (mkPending (trace e) (remaining (mask e) (rs ++ [rsp])))) /\
  (forall rs, remaining (mask e) rs = N.ldiff (mask e) (cumulative rs)).
Proof.
  intros Hb Hwf He.
  cut ((forall rs u1,
          absorbs b tag u rs u1 -> remaining (mask e) rs <> 0%N ->
          holds u1 b tag (mkPending (trace e) (remaining (mask e) rs))) /\
       (forall rs, remaining (mask e) rs = N.ldiff (mask e) (cumulative rs))).
  2: { split; [|intros rs; apply remaining_cumulative]. intros rs u1 Hrun. induction Hrun as [u|u rs u1 u2 _ IH Hs|u rs u1 u2 _ IH Hrun];
      intros Hrem.
    - simpl. by destruct e.
    - destruct (IH Hwf He Hrem) as (st1 & Hst1 & Hx1). exists st1. by rewrite Hs.
    - pose proof (remaining_prefix _ _ _ Hrem) as Hrem1.
      rewrite remaining_app in Hrem |- *.
      rewrite (remaining_cumulative _ (head_rsp b tag u1)) in Hrem |- *.
      apply (tick_holds b tag u1 u2 _ Hb Hrun (IH Hwf He Hrem1) Hrem). }
  intros [Hpart Hcum]. split; [exact Hpart|]. split; [|exact Hcum].
  intros rs u1 u2 demux rsp q Hrun Hrem Hd Hq Htag Htick.
  destruct (Hpart rs u1 Hrun Hrem) as (st1 & Hst1 & Hx1).
  pose proof (absorbs_wf _ _ _ _ _ Hwf Hrun _ _ Hst1) as Hwf1.
  destruct (tick_at_block b u1 u2 Hb Htick)
    as (before & after & mid & H1 & H2 & H3 & H4 & Hm & Hdb & Hs & Hkeep).
  rewrite <- Hs in Hst1. rewrite <- Hdb in Hd. subst tag.
  set (e1 := mkPending (trace e) (remaining (mask e) rs)) in *.
  assert (remaining (mask e) (rs ++ [rsp]) = N.ldiff (mask e1) (LsuRsp.mask rsp)) as Hlast
    by (by rewrite remaining_app).
  rewrite Hlast.
  destruct (decide (N.ldiff (mask e1) (LsuRsp.mask rsp) = 0%N)) as [Hz|Hnz].
  - destruct (tick_rsp_inv _ _ _ H2)
      as [demux0 Hd0 Hq0 _|demux0 rsp0 q0 st0 e0 outs tbl' Hd0 Hq0 Hst0 He0 Hne0 Heff Hafter];
      [congruence|].
    assert (demux0 = demux) as -> by congruence.
    assert (rsp0 = rsp) as -> by congruence.
    assert (st0 = st1) as -> by congruence.
    assert (e0 = e1) as -> by congruence.
    destruct Heff as [Hnz _ _|tr _ Htr Hp Htbl]; [done|].
    apply ports_push_Ok in Hp as (out & Hout & _ & Houts).
    exists before, after, mid, st1, (with_table tbl' st1).
    repeat (split; [done|]). split.
    { rewrite Hafter. simpl. apply list_lookup_insert_eq. by eapply lookup_lt_Some. }
    split; [done|].
    exists tr, out. rewrite <- Hm. split; [done|]. split; [done|].
    split; [by rewrite Hafter|]. rewrite Htbl. simpl. split; [done|].
    pose proof (wf_used_size _ _ _ Hwf1 Hx1). apply wrap32_small. lia.
  - pose proof (tick_rsp_partial_run b before demux rsp q st1 e1 Hd Hq Hst1 Hx1 Hnz)
      as Hstep.
    rewrite Hstep in H2. injection H2 as <-.
    eexists before, _, mid, st1, _.
    split; [done|]. split; [exact Hstep|]. split; [done|]. split; [done|].
    split; [done|]. split.
    { simpl. apply list_lookup_insert_eq. by eapply lookup_lt_Some. }
    split; [done|]. simpl. repeat (split; [done|]).
    apply Hkeep. unfold holds. simpl. eexists.
    split; [apply list_lookup_insert_eq; by eapply lookup_lt_Some|]. simpl.
    apply list_lookup_insert_eq. by eapply lookup_lt_Some.
Qed.

End LsuUnitProps.

(** *** The scenarios of spec 8 *)

Lemma scenario_rsps_subset : rsps_subset Scenario.lsu_rsps.
Proof.
  intros b demux rsp q st e Hd Hq Hst He.
  destruct b as [|b]; [|discriminate Hd].
  injection Hd as <-. injection Hq as <- _. injection Hst as <-.
  injection He as <-. reflexivity.
Qed.

Lemma scenario_no_rsps : rsps_subset Scenario.lsu0.
Proof.
  intros b demux rsp q st e Hd Hq Hst He.
  destruct b as [|b]; [|discriminate Hd].
  injection Hd as <-. discriminate Hq.
Qed.

Lemma scenario_tables_wf (tbl : HashTable.t pending_req_t) inputs rsps lock pl :
  HashTable.wf tbl -> tables_wf (Scenario.lsu_with inputs rsps tbl lock pl).
Proof.
  intros Hwf b st Hst. destruct b as [|b]; [|discriminate Hst]. by injection Hst as <-.
Qed.

Lemma scenario_wf_locked (tbl : HashTable.t pending_req_t) rsps pl :
  HashTable.wf tbl -> tables_wf (Examples.lsu_locked rsps tbl pl).
Proof.
  intros Hwf b st Hst. destruct b as [|b]; [|discriminate Hst]. by injection Hst as <-.
Qed.

Lemma fence_ordering_witness :
  (exists u',
     tick_issue (cfg:=Scenario.cfg) 0 Scenario.lsu_fence = Ok u' /\
     states_ u' !! 0%nat
     = Some (mkState (HashTable.mk [(true, mkPending 1%N 15%N); (false, Scenario.no_entry)] 1)
                     2%N true) /\
     Inputs u' !! 0%nat = Some (mkPort [] []) /\
     Outputs u' = Outputs Scenario.lsu_fence) /\
  (exists u',
     tick (cfg:=Scenario.cfg) Examples.lsu_locked_busy = Ok u' /\
     states_ u' !! 0%nat
     = Some (mkState (HashTable.mk [(true, mkPending 1%N 12%N); (false, Scenario.no_entry)] 1)
                     2%N true) /\
     Inputs u' !! 0%nat = Some (mkPort [3%N] []) /\
     Outputs u' !! 0%nat = Some port_new) /\
  (exists u' st' rest,
     tick_issue (cfg:=Scenario.cfg) 0 Examples.lsu_locked_done = Ok u' /\
     Outputs u' !! 0%nat = Some (mkPort [] ((2%N, 1) :: rest)) /\
     states_ u' !! 0%nat = Some st' /\ fence_lock st' = false) /\
  (exists u1,
     fence_unlock (cfg:=Scenario.cfg) 0 Examples.lsu_locked_done = Ok (Some u1) /\
     Outputs u1 = [mkPort [] [(2%N, 1)]; port_new] /\
     fence_lock <$> states_ u1 = [false]).
Proof.
  pose proof (fence_ordering (cfg:=Scenario.cfg) (W:=unit)) as (Ha & Hb & Hc & Hd).
  split; [|split; [|split]].
  - apply (Ha 0%nat Scenario.lsu_fence (mkPort [2%N] []) 2%N [] Scenario.fence_trace
             (mkState (HashTable.mk [(true, mkPending 1%N 15%N); (false, Scenario.no_entry)] 1)
                      0%N false));
      reflexivity.
  - destruct (tick (cfg:=Scenario.cfg) Examples.lsu_locked_busy) as [u'|f] eqn:E;
      [|vm_compute in E; discriminate E].
    exists u'. split; [reflexivity|].
    destruct (Hb _ _ E) as (mid & Hmid & _ & Hlocked).
    destruct (Hlocked 0%nat _ eq_refl eq_refl) as (st & Hst & _ & _ & Hkeep).
    vm_compute in Hmid. injection Hmid as <-.
    injection Hst as <-.
    destruct (Hkeep eq_refl) as (Hst' & Hio).
    destruct (Hio 0%nat eq_refl) as (Hi & Ho).
    split; [exact Hst'|]. split; [exact Hi|exact Ho].
  - destruct (tick_issue (cfg:=Scenario.cfg) 0 Examples.lsu_locked_done) as [u'|f] eqn:E;
      [|vm_compute in E; discriminate E].
    destruct (Hc 0%nat Examples.lsu_locked_done u' _
                ltac:(apply scenario_wf_locked; split; reflexivity) eq_refl eq_refl E)
      as [[Hemp _]|(_ & _ & out & rest & st' & Hout & Hout' & Hst' & Hl')];
      [discriminate Hemp|].
    injection Hout as <-.
    exists u', st', rest. split; [reflexivity|]. split; [exact Hout'|]. split; [exact Hst'|].
    destruct Hl' as [Hl'|(input & trace & q & tr & Hin & Hq & Htr & Hty & _)]; [exact Hl'|].
    injection Hin as <-. injection Hq as <- _. injection Htr as <-. discriminate Hty.
  - destruct (Hd 0%nat Examples.lsu_locked_done _ port_new eq_refl eq_refl eq_refl eq_refl)
      as (u1 & -> & Hrun & _).
    eexists. split; [exact Hrun|]. split; reflexivity.
Defined.

Lemma partial_responses_release_once_witness :
  exists u1 u2 before after st2,
    tick (cfg:=Scenario.cfg) Scenario.lsu_rsps = Ok u1 /\
    holds u1 0 0 (mkPending 1%N 12%N) /\
    tick (cfg:=Scenario.cfg) u1 = Ok u2 /\
    for_range 0 0 (tick_rsp (cfg:=Scenario.cfg)) (tick_stats u1) = Ok before /\
    tick_rsp (cfg:=Scenario.cfg) 0 before = Ok after /\
    Outputs before = [port_new; port_new] /\
    Outputs after = [mkPort [] [(1%N, 1)]; port_new] /\
    states_ after !! 0%nat = Some st2 /\
    HashTable.entries_ (pending_rd_reqs st2)
    = [(false, mkPending 1%N 0%N); (false, Scenario.no_entry)] /\
    HashTable.size_ (pending_rd_reqs st2) = 0.
Proof.
  destruct (partial_responses_release_once (cfg:=Scenario.cfg) 0 0 Scenario.lsu_rsps
              (mkPending 1%N 15%N))
    as (Hpart & Hlast & _).
  { simpl. lia. }
  { apply scenario_tables_wf. split; reflexivity. }
  { eexists. split; reflexivity. }
  destruct (tick (cfg:=Scenario.cfg) Scenario.lsu_rsps) as [u1|f] eqn:E1;
    [|vm_compute in E1; discriminate E1].
  pose proof E1 as E1'. vm_compute in E1'. injection E1' as <-.
  pose proof (absorbs_tick (cfg:=Scenario.cfg) 0 0 _ _ _ _
                (absorbs_none 0 0 Scenario.lsu_rsps) E1) as Hrun.
  change ([] ++ head_rsp 0 0 Scenario.lsu_rsps) with [LsuRsp.mk 3%N 0 0 7] in Hrun.
  match type of Hrun with absorbs _ _ _ _ ?v => set (u1 := v) in * end.
  destruct (tick (cfg:=Scenario.cfg) u1) as [u2|f] eqn:E2;
    [|vm_compute in E2; discriminate E2].
  destruct (Hlast [LsuRsp.mk 3%N 0 0 7] u1 u2
              (LocalMemDemux.mk port_new (mkPort [LsuRsp.mk 12%N 0 0 7] []))
              (LsuRsp.mk 12%N 0 0 7) [] Hrun ltac:(vm_compute; discriminate)
              eq_refl eq_refl eq_refl E2)
    as (before & after & mid & st1 & st2 & H1 & H2 & _ & _ & Hst1 & Hst2 & _ & Hfin).
  destruct (decide _) as [_|Hn] in Hfin; [|exfalso; apply Hn; reflexivity].
  destruct Hfin as (tr & out & Htr & Hout & Hafter & Hen & Hsz).
  injection Htr as <-.
  pose proof H1 as H1'. simpl in H1'. injection H1' as <-.
  injection Hout as <-. injection Hst1 as <-.
  exists u1, u2, (tick_stats u1), after, st2.
  split; [reflexivity|].
  split; [exact (Hpart _ _ Hrun ltac:(vm_compute; discriminate))|].
  split; [exact E2|]. split; [exact H1|]. split; [exact H2|].
  split; [reflexivity|]. split; [exact Hafter|]. split; [exact Hst2|].
  split; [exact Hen|exact Hsz].
Defined.

Lemma pending_loads_invariant_witness :
  exists u1 u2,
    tick (cfg:=Scenario.cfg) Scenario.lsu0 = Ok u1 /\
    tick (cfg:=Scenario.cfg) Scenario.lsu_rsps = Ok u2 /\
    pending_loads_ u1 = outstanding_lanes u1 /\
    pending_loads_ u2 = outstanding_lanes u2 /\
    pending_loads_ u2 = 2.
Proof.
  assert (exists u1, tick (cfg:=Scenario.cfg) Scenario.lsu0 = Ok u1) as [u1 H1]
    by (vm_compute; eexists; reflexivity).
  assert (exists u2, tick (cfg:=Scenario.cfg) Scenario.lsu_rsps = Ok u2) as [u2 H2]
    by (vm_compute; eexists; reflexivity).
  assert (reachable (cfg:=Scenario.cfg) Scenario.lsu0) as R0.
  { apply (reach_env (reset Scenario.lsu0)); [|reflexivity|reflexivity].
    apply reach_reset. vm_compute. reflexivity. }
  assert (reachable (cfg:=Scenario.cfg) u1) as R1
    by (exact (reach_tick _ _ R0 scenario_no_rsps H1)).
  assert (reachable (cfg:=Scenario.cfg) Scenario.lsu_rsps) as R2.
  { apply (reach_env u1); [exact R1| |];
      vm_compute in H1; injection H1 as <-; reflexivity. }
  assert (reachable (cfg:=Scenario.cfg) u2) as R3
    by (exact (reach_tick _ _ R2 scenario_rsps_subset H2)).
  exists u1, u2. split; [exact H1|]. split; [exact H2|].
  split; [exact (pending_loads_invariant u1 R1)|].
  split; [exact (pending_loads_invariant u2 R3)|].
  vm_compute in H2. injection H2 as <-. reflexivity.
Defined.

Lemma load_stalls_on_full_table_witness :
  exists u',
    tick_issue (cfg:=Scenario.cfg) 0 Scenario.lsu_full = Ok u' /\
    Inputs u' = Inputs Scenario.lsu_full /\ Outputs u' = Outputs Scenario.lsu_full /\
    states_ u' = states_ Scenario.lsu_full /\
    dt_queue_full u' = [3%N] /\
    tick_issue (cfg:=Scenario.cfg) 0 u' = Ok u'.
Proof.
  destruct (proj1 (load_stalls_on_full_table (cfg:=Scenario.cfg) 0 Scenario.lsu_full
              (mkPort [3%N] []) 3%N [] (Scenario.load_trace 8)
              (mkState (HashTable.mk [(true, mkPending 1%N 15%N); (true, mkPending 1%N 3%N)] 2)
                       0%N false)
              eq_refl eq_refl eq_refl eq_refl eq_refl) eq_refl (or_introl eq_refl))
    as (u' & Hrun & Hi & Ho & _ & Hs & _ & _ & Hlatch & Hagain).
  exists u'. split; [exact Hrun|]. split; [exact Hi|]. split; [exact Ho|].
  split; [exact Hs|]. split; [|exact Hagain].
  simpl in Hlatch. destruct Hlatch as (_ & _ & ->). reflexivity.
Defined.

Lemma load_latency_tick_witness :
  exists u',
    tick (cfg:=Scenario.cfg) Scenario.lsu_rsps = Ok u' /\
    load_latency (perf_stats_ (core_ u')) = 4 /\ pending_loads_ u' = 2.
Proof.
  assert (exists u', tick (cfg:=Scenario.cfg) Scenario.lsu_rsps = Ok u') as [u' Hrun]
    by (vm_compute; eexists; reflexivity).
  exists u'. split; [exact Hrun|]. split.
  - rewrite (proj1 (load_latency_tick (cfg:=Scenario.cfg) Scenario.lsu_rsps u' Hrun)).
    reflexivity.
  - vm_compute in Hrun. injection Hrun as <-. reflexivity.
Defined.

Lemma allocate_lowest_free_guarded_witness :
  tick (cfg:=Scenario.cfg) Scenario.lsu_full <> Fault (FaultAssert AssertAllocate) /\
  HashTable.allocate (HashTable.new 2 Scenario.no_entry) (mkPending 1%N 15%N)
  = Ok (0%nat, HashTable.mk [(true, mkPending 1%N 15%N); (false, Scenario.no_entry)] 1).
Proof.
  split.
  - apply (proj1 (proj2 (proj2 (proj2
             (allocate_lowest_free_guarded (cfg:=Scenario.cfg) (W:=unit)))))).
    apply scenario_tables_wf. split; vm_compute; reflexivity.
  - apply (proj1 (proj2 (proj2 (allocate_lowest_free_guarded (cfg:=Scenario.cfg) (W:=unit))))
             pending_req_t 1%nat).
Defined.

End LsuUnitProps.

(** ** SfuUnit *)

Module SfuUnitProps.
Import SfuUnit.
Section SfuUnitProps.
Context {cfg : Config} {W : Type} `{WarpScheduler W}.
Implicit Types (u : SfuUnit.t W) (h : trace_heap).

(** The warp-scheduler callback of a WSPAWN or BAR trace, and what it
    returns in the scheduler state [w]. *)
Definition callback_of (tr : instr_trace) (a1 a2 : Z) (w : W) : CoreCall * bool :=
  match sfu_type tr with
  | WSPAWN => (CallWspawn a1 a2, fst (sched_wspawn a1 a2 w))
  | _ => (CallBarrier a1 a2 (wid tr), fst (sched_barrier a1 a2 (wid tr) w))
  end.

(** *** The calls into the core *)

Definition warp_control (ty : SfuType) : bool :=
  match ty with WSPAWN | BAR => true | _ => false end.

(** The [switch] over [sfu_type], as the core sees it in the scheduler
    state [w]: the callback invoked, the scheduler state after it, and
    [release_warp]. *)
Definition switch_calls (tr : instr_trace) (w : W) : list CoreCall * W * bool :=
  match sfu_type tr with
  | WSPAWN =>
      if eop tr then
        match cast_SFUTraceData (data tr) with
        | Some (a1, a2) =>
            ([CallWspawn a1 a2], snd (sched_wspawn a1 a2 w), fst (sched_wspawn a1 a2 w))
        | None => ([], w, fetch_stall tr)
        end
      else ([], w, fetch_stall tr)
  | BAR =>
      if eop tr then
        match cast_SFUTraceData (data tr) with
        | Some (a1, a2) =>
            ([CallBarrier a1 a2 (wid tr)], snd (sched_barrier a1 a2 (wid tr) w),
             fst (sched_barrier a1 a2 (wid tr) w))
        | None => ([], w, fetch_stall tr)
        end
      else ([], w, fetch_stall tr)
  | _ => ([], w, fetch_stall tr)
  end.

(** The calls of a lane for the trace [tr] at its head: those of the
    [switch], then [resume(wid)] if [eop && release_warp]. *)
Definition lane_calls (tr : instr_trace) (w : W) : list CoreCall * W :=
  let '(cs, w1, release_warp) := switch_calls tr w in
  if eop tr && release_warp
  then (cs ++ [CallResume (wid tr)], sched_resume (wid tr) w1)
  else (cs, w1).

(** The trace at the head of lane [iw]. *)
Definition head_trace h u (iw : nat) : option instr_trace :=
  match Inputs u !! iw with
  | Some input =>
      match queue input with
      | trace :: _ => h !! trace
      | [] => None
      end
  | None => None
  end.

Definition head_calls h u (iw : nat) (w : W) : list CoreCall * W :=
  match head_trace h u iw with
  | Some tr => lane_calls tr w
  | None => ([], w)
  end.

(** The calls of the lanes [lanes], visited in this order from the
    scheduler state [w]. *)
Definition tick_calls h u (lanes : list nat) (w : W) : list CoreCall * W :=
  fold_left (fun acc iw => (fst acc ++ fst (head_calls h u iw (snd acc)),
                            snd (head_calls h u iw (snd acc))))
            lanes ([], w).

Lemma tick_pending_inputs h r u u' : tick_pending h r u = Ok u' -> Inputs u' = Inputs u.
Proof.
  unfold tick_pending. intros Hrun.
  apply res_bind_Ok in Hrun as (p & _ & Hrun).
  destruct (queue p) as [|trace q]; [by injection Hrun as <-|].
  apply res_bind_Ok in Hrun as (tr & _ & Hrun).
  destruct (negb _); [by injection Hrun as <-|].
  apply res_bind_Ok in Hrun as (outs & _ & Hrun).
  injection Hrun as <-. by destruct r.
Qed.

Lemma tick_pendings_inputs h rs : forall u u',
  tick_pendings h rs u = Ok u' -> Inputs u' = Inputs u.
Proof.
  induction rs as [|r rs IH]; intros u u' Hrun.
  - by injection Hrun as <-.
  - simpl in Hrun. apply res_bind_Ok in Hrun as (u1 & H1 & Hrun).
    rewrite (IH _ _ Hrun). by eapply tick_pending_inputs.
Qed.

Lemma sfu_lane_frame h (iw : nat) u u' :
  tick_lane h iw u = Ok u' -> forall j, j <> iw -> Inputs u' !! j = Inputs u !! j.
Proof.
  unfold tick_lane. intros Hrun j Hj.
  apply res_bind_Ok in Hrun as (input & Hi & Hrun).
  destruct (queue input) as [|trace q]; [by injection Hrun as <-|].
  apply res_bind_Ok in Hrun as (out & Ho & Hrun).
  apply res_bind_Ok in Hrun as (tr & Ht & Hrun).
  apply res_bind_Ok in Hrun as ([u1 rw] & Hd & Hrun).
  injection Hrun as <-. simpl. rewrite ports_pop_ne by done.
  assert (Inputs u1 = Inputs u) as ->; [|done].
  unfold dispatch in Hd.
  destruct (sfu_type tr);
    repeat match type of Hd with
           | _ ≫= _ = Ok _ => apply res_bind_Ok in Hd as (? & ? & Hd)
           | (if ?c then _ else _) = Ok _ => destruct c
           | Fault _ = Ok _ => discriminate Hd
           end;
    by injection Hd as <- _.
Qed.


Lemma tick_pending_core h r u u' : tick_pending h r u = Ok u' -> core_ u' = core_ u.
Proof.
  unfold tick_pending. intros Hrun.
  apply res_bind_Ok in Hrun as (p & _ & Hrun).
  destruct (queue p) as [|trace q]; [by injection Hrun as <-|].
  apply res_bind_Ok in Hrun as (tr & _ & Hrun).
  destruct (negb _); [by injection Hrun as <-|].
  apply res_bind_Ok in Hrun as (outs & _ & Hrun).
  injection Hrun as <-. by destruct r.
Qed.

Lemma tick_pendings_core h rs : forall u u',
  tick_pendings h rs u = Ok u' -> core_ u' = core_ u.
Proof.
  induction rs as [|r rs IH]; intros u u' Hrun.
  - by injection Hrun as <-.
  - simpl in Hrun. apply res_bind_Ok in Hrun as (u1 & H1 & Hrun).
    rewrite (IH _ _ Hrun). by eapply tick_pending_core.
Qed.

(** The calls of one lane. *)
Lemma sfu_lane_calls h (iw : nat) u u' :
  tick_lane h iw u = Ok u' ->
  calls_ (core_ u') = calls_ (core_ u) ++ fst (head_calls h u iw (sched_ (core_ u))) /\
  sched_ (core_ u') = snd (head_calls h u iw (sched_ (core_ u))).
Proof.
  unfold tick_lane, head_calls, head_trace. intros Hrun.
  apply res_bind_Ok in Hrun as (input & Hi & Hrun). apply vec_at_Ok in Hi. rewrite Hi.
  destruct (queue input) as [|trace q].
  { injection Hrun as <-. by rewrite app_nil_r. }
  apply res_bind_Ok in Hrun as (out & Ho & Hrun).
  apply res_bind_Ok in Hrun as (tr & Ht & Hrun). apply deref_Ok in Ht. rewrite Ht.
  apply res_bind_Ok in Hrun as ([u1 rw] & Hd & Hrun).
  injection Hrun as <-. simpl.
  unfold lane_calls, switch_calls. unfold dispatch in Hd.
  destruct (sfu_type tr), (eop tr) eqn:Heop; simpl in Hd |- *;
    repeat match type of Hd with
           | _ ≫= _ = Ok _ => apply res_bind_Ok in Hd as (? & ? & Hd)
           | Fault _ = Ok _ => discriminate Hd
           end.
  all: try match goal with
           | Hc : deref_cast (cast_SFUTraceData (data ?t)) = Ok _ |- _ =>
               destruct (cast_SFUTraceData (data t)) as [[a1 a2]|];
               [|discriminate Hc]; injection Hc as <-
           end.
  all: injection Hd as <- <-; simpl.
  all: repeat match goal with
              | |- context [sched_wspawn ?a ?b ?w] =>
                  destruct (sched_wspawn a b w) as [[] ?]; simpl
              | |- context [sched_barrier ?a ?b ?c ?w] =>
                  destruct (sched_barrier a b c w) as [[] ?]; simpl
              | |- context [fetch_stall ?t] => destruct (fetch_stall t); simpl
              end.
  all: rewrite <- ?app_assoc, ?app_nil_r; done.
Qed.
(** A WSPAWN or BAR trace at the head of a lane: what the lane does. *)
Lemma warp_control_lane h iw (u : SfuUnit.t W) input trace q tr out a1 a2 :
  Inputs u !! iw = Some input -> queue input = trace :: q ->
  Outputs u !! iw = Some out -> h !! trace = Some tr ->
  sfu_type tr = WSPAWN \/ sfu_type tr = BAR ->
  (eop tr = true -> data tr = Some (SFUTraceData a1 a2)) ->
  exists u',
    tick_lane h iw u = Ok u' /\
    calls_ (core_ u')
    = calls_ (core_ u) ++
      (if eop tr
       then fst (callback_of tr a1 a2 (sched_ (core_ u))) ::
            (if snd (callback_of tr a1 a2 (sched_ (core_ u)))
             then [CallResume (wid tr)] else [])
       else []) /\
    Inputs u' !! iw = Some (port_pop input) /\
    Outputs u' !! iw = Some (mkPort (queue out) (sched out ++ [(trace, 4)])).
Proof.
  intros Hin Hq Hout Htr Hty Hdata.
  assert (ports_push (Outputs u) iw trace (2 + 2)
          = Ok (<[iw := mkPort (queue out) (sched out ++ [(trace, 4)])]> (Outputs u))) as Hpush.
  { apply ports_push_Ok. exists out. split; [done|]. split; [lia|done]. }
  assert (forall outs, outs !! iw = Inputs u !! iw -> ports_pop outs iw !! iw = Some (port_pop input))
    as Hpop.
  { intros ins Hins. apply ports_pop_eq. by rewrite Hins. }
  assert (iw < length (Outputs u))%nat as Hlt by (by eapply lookup_lt_Some).
  unfold tick_lane. rewrite (vec_at_lookup _ _ _ Hin). simpl. rewrite Hq.
  rewrite (vec_at_lookup _ _ _ Hout). simpl.
  rewrite (proj2 (deref_Ok _ _ _) Htr). simpl.
  unfold dispatch, callback_of.
  destruct Hty as [Hty|Hty]; rewrite Hty; rewrite Hpush; simpl;
    destruct (eop tr) eqn:Heop; simpl.
  - rewrite (Hdata eq_refl). simpl.
    destruct (sched_wspawn a1 a2 (sched_ (core_ u))) as [[] w'] eqn:Hcb; simpl;
      eexists; (split; [reflexivity|]); simpl;
      rewrite <- ?app_assoc; simpl; rewrite list_lookup_insert_eq by done;
      (split; [done|]); split; [by apply Hpop|done| by apply Hpop|done].
  - eexists; split; [reflexivity|]. simpl. rewrite app_nil_r.
    rewrite list_lookup_insert_eq by done. split; [done|]. split; [by apply Hpop|done].
  - rewrite (Hdata eq_refl). simpl.
    destruct (sched_barrier a1 a2 (wid tr) (sched_ (core_ u))) as [[] w'] eqn:Hcb; simpl;
      eexists; (split; [reflexivity|]); simpl;
      rewrite <- ?app_assoc; simpl; rewrite list_lookup_insert_eq by done;
      (split; [done|]); split; [by apply Hpop|done| by apply Hpop|done].
  - eexists; split; [reflexivity|]. simpl. rewrite app_nil_r.
    rewrite list_lookup_insert_eq by done. split; [done|]. split; [by apply Hpop|done].
Qed.


(** C5.  The calls that a tick of the SFU makes into the core are those of
    its lanes, in lane order, each for the trace at the head of the lane.
    For a WSPAWN or BAR trace the callback ([core.wspawn(arg1, arg2)],
    [core.barrier(arg1, arg2, wid)]) is invoked exactly when [eop] holds,
    once, and [core.resume(wid)] is invoked iff [eop] holds and the
    callback returned true -- whatever [fetch_stall] says.  The lane pops
    the trace and pushes it to its output with delay 4. *)
Theorem warp_control_resume h :
  (forall u u',
     tick h u = Ok u' ->
     calls_ (core_ u')
     = calls_ (core_ u) ++ fst (tick_calls h u (seq 0 ISSUE_WIDTH) (sched_ (core_ u))) /\
     sched_ (core_ u') = snd (tick_calls h u (seq 0 ISSUE_WIDTH) (sched_ (core_ u)))) /\
  (forall tr a1 a2 (w : W),
     warp_control (sfu_type tr) = true ->
     (eop tr = true -> data tr = Some (SFUTraceData a1 a2)) ->
     fst (lane_calls tr w)
     = if eop tr
       then fst (callback_of tr a1 a2 w) ::
            (if snd (callback_of tr a1 a2 w) then [CallResume (wid tr)] else [])
       else []) /\
  (forall iw u input trace q tr out a1 a2,
     Inputs u !! iw = Some input -> queue input = trace :: q ->
     Outputs u !! iw = Some out -> h !! trace = Some tr ->
     sfu_type tr = WSPAWN \/ sfu_type tr = BAR ->
     (eop tr = true -> data tr = Some (SFUTraceData a1 a2)) ->
     exists u',
       tick_lane h iw u = Ok u' /\
       calls_ (core_ u') = calls_ (core_ u) ++ fst (lane_calls tr (sched_ (core_ u))) /\
       Inputs u' !! iw = Some (port_pop input) /\
       Outputs u' !! iw = Some (mkPort (queue out) (sched out ++ [(trace, 4)]))).
Proof.
  split; [|split].
  - intros u u' Hrun. unfold tick in Hrun.
    apply res_bind_Ok in Hrun as (u1 & Hp & Hrun).
    pose proof (tick_pendings_inputs _ _ _ _ Hp) as Hin1.
    pose proof (tick_pendings_core _ _ _ _ Hp) as Hc1.
    apply (for_range_inv
      (fun k t =>
         (forall j, (k <= j)%nat -> Inputs t !! j = Inputs u !! j) /\
         calls_ (core_ t)
         = calls_ (core_ u) ++ fst (tick_calls h u (seq 0 k) (sched_ (core_ u))) /\
         sched_ (core_ t) = snd (tick_calls h u (seq 0 k) (sched_ (core_ u))))) in Hrun.
    + simpl in Hrun. tauto.
    + rewrite Hin1, Hc1. simpl. by rewrite app_nil_r.
    + intros i t t' _ (Hfr & Hc & Hs) Hstep.
      destruct (sfu_lane_calls h i t t' Hstep) as (Hc' & Hs').
      assert (head_calls h t i = head_calls h u i) as Hhead.
      { unfold head_calls, head_trace. by rewrite (Hfr i (le_n i)). }
      rewrite Hhead, Hs in Hc', Hs'.
      split; [|split].
      * intros j Hj. rewrite (sfu_lane_frame h i t t' Hstep) by lia. apply Hfr. lia.
      * rewrite Hc', Hc, seq_S. unfold tick_calls. rewrite fold_left_app. simpl.
        by rewrite app_assoc.
      * rewrite Hs', seq_S. unfold tick_calls. rewrite fold_left_app. done.
  - intros tr a1 a2 w Hty Hdata. unfold lane_calls, switch_calls, callback_of.
    destruct (sfu_type tr); try discriminate Hty; destruct (eop tr); simpl;
      rewrite ?(Hdata eq_refl); simpl; try done.
    + by destruct (sched_wspawn a1 a2 w) as [[] ?].
    + by destruct (sched_barrier a1 a2 (wid tr) w) as [[] ?].
  - intros iw u input trace q tr out a1 a2 Hin Hq Hout Htr Hty Hdata.
    destruct (warp_control_lane h iw u input trace q tr out a1 a2 Hin Hq Hout Htr Hty Hdata)
      as (u' & Hrun & Hc & Hi & Ho).
    exists u'. split; [done|]. split; [|done].
    destruct (sfu_lane_calls h iw u u' Hrun) as (Hc' & _).
    rewrite Hc'. unfold head_calls, head_trace. by rewrite Hin, Hq, Htr.
Qed.

End SfuUnitProps.

Lemma warp_control_resume_witness :
  exists u',
    tick (cfg:=Scenario.cfg) (H:=Scenario.stub_sched) Examples.sfu_wctl_heap Examples.sfu_wctl
    = Ok u' /\
    calls_ (core_ u') = [CallWspawn 15 4096; CallResume 0; CallBarrier 3 2 1] /\
    fst (lane_calls (H:=Scenario.stub_sched) Examples.bar_trace tt) = [CallBarrier 3 2 1].
Proof.
  pose proof (warp_control_resume (cfg:=Scenario.cfg) (H:=Scenario.stub_sched)
                Examples.sfu_wctl_heap) as (Htick & Hlane & _).
  destruct (tick (cfg:=Scenario.cfg) (H:=Scenario.stub_sched)
              Examples.sfu_wctl_heap Examples.sfu_wctl) as [u'|f] eqn:E;
    [|vm_compute in E; discriminate E].
  exists u'. split; [reflexivity|]. split.
  - destruct (Htick _ _ E) as (Hc & _). rewrite Hc. vm_compute. reflexivity.
  - rewrite (Hlane Examples.bar_trace 3 2 tt eq_refl (fun _ => eq_refl)). reflexivity.
Defined.

End SfuUnitProps.

(** ** Mux *)

Module MuxProps.
Import Mux.
Section MuxProps.
Context {T : Type}.
Implicit Types (m : Mux.t T).












End MuxProps.



End MuxProps.

(** ** Switch *)

Module SwitchProps.
Import Switch.

(** *** Tag arithmetic *)

Lemma testbit_small i k n : 0 <= i < 2 ^ k -> k <= n -> Z.testbit i n = false.
Proof.
  intros Hi Hn.
  assert (0 <= k) as Hk.
  { destruct (Z.lt_ge_cases k 0) as [Hneg|]; [|done].
    rewrite Z.pow_neg_r in Hi by done. lia. }
  rewrite <- (Z.mod_small i (2 ^ k)) by done.
  apply Z.mod_pow2_bits_high. lia.
Qed.

(** The low [k] bits of an encoded tag are the input index. *)
Lemma encode_low w k tag i :
  0 <= k <= w -> 0 <= i < 2 ^ k ->
  (Z.lor (Z.shiftl tag k) i mod 2 ^ w) mod 2 ^ k = i.
Proof.
  intros Hk Hi. apply Z.bits_inj'. intros n Hn.
  destruct (Z.lt_ge_cases n k) as [Hlt|Hge].
  - rewrite Z.mod_pow2_bits_low by lia. rewrite Z.mod_pow2_bits_low by lia.
    rewrite Z.lor_spec, Z.shiftl_spec_low by lia. done.
  - rewrite Z.mod_pow2_bits_high by lia. symmetry. by apply (testbit_small i k).
Qed.

(** Shifting an encoded tag back yields the original tag, cut to the bits
    that survived the shift to the left. *)
Lemma encode_high w k tag i :
  0 <= k <= w -> 0 <= i < 2 ^ k ->
  Z.shiftr (Z.lor (Z.shiftl tag k) i mod 2 ^ w) k = tag mod 2 ^ (w - k).
Proof.
  intros Hk Hi. apply Z.bits_inj'. intros n Hn.
  rewrite Z.shiftr_spec by lia.
  destruct (Z.lt_ge_cases n (w - k)) as [Hlt|Hge].
  - rewrite !Z.mod_pow2_bits_low by lia.
    rewrite Z.lor_spec, Z.shiftl_spec by lia.
    rewrite (testbit_small i k (n + k)) by lia.
    rewrite orb_false_r. f_equal. lia.
  - rewrite !Z.mod_pow2_bits_high by lia. done.
Qed.

Section SwitchProps.
Context {Req Rsp : Type} `{Tagged Req} `{Tagged Rsp}.
Implicit Types (s : Switch.t Req Rsp).

(** A switch out of bypass mode with [2^k] inputs per output. *)
Definition switch_wf (k : Z) s : Prop :=
  lg_num_reqs_ s = k /\
  Z.of_nat (length (ReqIn s)) = Z.of_nat (length (ReqOut s)) * 2 ^ k /\
  length (RspIn s) = length (ReqIn s) /\
  length (RspOut s) = length (ReqOut s) /\
  Z.of_nat (length (ReqIn s)) <= 32 /\
  delay_ s <> 0.

Lemma num_reqs_pow2 k s : 1 <= k <= 5 -> lg_num_reqs_ s = k -> num_reqs s = 2 ^ k.
Proof.
  intros Hk Hlg. pose proof (pow2_range k Hk). unfold num_reqs. rewrite Hlg.
  rewrite Z.shiftl_1_l. apply wrap32_small. lia.
Qed.

(** What a forwarded request looks like. *)
Inductive forwarded (k : Z) (o : nat) s s' : Prop :=
  | forwarded_from i req q pin pout cursors' :
      0 <= i < 2 ^ k ->
      ReqIn s !! Z.to_nat (Z.of_nat o * 2 ^ k + i) = Some pin ->
      queue pin = req :: q ->
      ReqOut s !! o = Some pout ->
      s' = mk (<[Z.to_nat (Z.of_nat o * 2 ^ k + i) := port_pop pin]> (ReqIn s)) (RspIn s)
              (<[o := mkPort (queue pout)
                             (sched pout ++ [(encode_tag k i req, delay_ s)])]> (ReqOut s))
              (RspOut s) (type_ s) (delay_ s) cursors' k ->
      forwarded k o s s'.

Lemma scan_forwards k o n : forall r s s',
  1 <= k <= 5 -> switch_wf k s -> (o < length (ReqOut s))%nat ->
  scan o r n s = Ok s' -> s' = s \/ forwarded k o s s'.
Proof.
  induction n as [|n IH]; intros r s s' Hk Hwf Ho Hrun.
  - left. by injection Hrun as <-.
  - pose proof (pow2_range k Hk) as Hp.
    pose proof Hwf as (Hlg & HI & HRI & HRO & H32 & Hd).
    simpl in Hrun. rewrite (num_reqs_pow2 k s Hk Hlg) in Hrun.
    apply res_bind_Ok in Hrun as (cursor & _ & Hrun).
    set (i := Z.land (wrap32 (cursor + r)) (wrap32 (2 ^ k - 1))) in *.
    assert (0 <= i < 2 ^ k) as Hi.
    { unfold i. rewrite (wrap32_small (2 ^ k - 1)) by lia.
      rewrite land_low_mask by lia. apply Z.mod_pos_bound. lia. }
    assert (wrap32 (Z.of_nat o * 2 ^ k + i) = Z.of_nat o * 2 ^ k + i) as Hj.
    { apply wrap32_small. nia. }
    rewrite Hj in Hrun.
    destruct (_ <=? _); [by eapply IH|].
    apply res_bind_Ok in Hrun as (pin & Hpin & Hrun). apply vec_at_Ok in Hpin.
    destruct (queue pin) as [|req q] eqn:Hq; [by eapply IH|].
    apply res_bind_Ok in Hrun as (outs & Hpush & Hrun).
    apply ports_push_Ok in Hpush as (pout & Hpout & _ & ->).
    assert (negb (lg_num_reqs_ s =? 0) = true) as Hnz.
    { rewrite Hlg. destruct (Z.eqb_spec k 0); [lia|done]. }
    rewrite Hnz, Hlg in Hrun.
    right. unfold update_cursor in Hrun. simpl in Hrun.
    unfold ports_pop in Hrun. rewrite Hpin in Hrun.
    destruct (type_ s) eqn:Hty.
    + injection Hrun as <-.
      apply (forwarded_from k o s _ i req q pin pout (cursors_ s) Hi Hpin Hq Hpout).
      by rewrite Hty.
    + apply res_bind_Ok in Hrun as (c0 & _ & Hrun). injection Hrun as <-.
      apply (forwarded_from k o s _ i req q pin pout
               (<[o := wrap32 (i + 1)]> (cursors_ s)) Hi Hpin Hq Hpout).
      by rewrite Hty.
Qed.

Lemma tick_req_forwards k o s s' :
  1 <= k <= 5 -> switch_wf k s -> (o < length (ReqOut s))%nat ->
  tick_req o s = Ok s' -> s' = s \/ forwarded k o s s'.
Proof. intros Hk Hwf Ho Hrun. by eapply scan_forwards. Qed.

Lemma tick_rsp_routes k o s pout (rsp : Rsp) q :
  1 <= k <= 5 -> switch_wf k s ->
  RspOut s !! o = Some pout -> queue pout = rsp :: q ->
  exists pin,
    RspIn s !! Z.to_nat (Z.of_nat o * 2 ^ k + Z.land (get_tag rsp) (2 ^ k - 1)) = Some pin /\
    tick_rsp o s
    = Ok (mk (ReqIn s)
             (<[Z.to_nat (Z.of_nat o * 2 ^ k + Z.land (get_tag rsp) (2 ^ k - 1)) :=
                  mkPort (queue pin)
                         (sched pin ++ [(set_tag (Z.shiftr (get_tag rsp) k) rsp, 1)])]>
                (RspIn s))
             (ReqOut s) (<[o := port_pop pout]> (RspOut s))
             (type_ s) (delay_ s) (cursors_ s) k).
Proof.
  intros Hk Hwf Hpout Hq. pose proof (pow2_range k Hk) as Hp.
  pose proof Hwf as (Hlg & HI & HRI & HRO & H32 & Hd).
  assert (o < length (ReqOut s))%nat as Ho.
  { rewrite <- HRO. by eapply lookup_lt_Some. }
  set (i := Z.land (get_tag rsp) (2 ^ k - 1)).
  assert (0 <= i < 2 ^ k) as Hi.
  { unfold i. rewrite land_low_mask by lia. apply Z.mod_pos_bound. lia. }
  destruct (lookup_lt_is_Some_2 (RspIn s) (Z.to_nat (Z.of_nat o * 2 ^ k + i)))
    as [pin Hpin]; [rewrite HRI; nia|].
  exists pin. split; [done|].
  unfold tick_rsp. rewrite (vec_at_lookup _ _ _ Hpout). simpl. rewrite Hq.
  rewrite (num_reqs_pow2 k s Hk Hlg), Hlg.
  destruct (Z.eqb_spec k 0) as [|_]; [lia|]. simpl.
  rewrite (wrap32_small (2 ^ k - 1)) by lia. fold i.
  rewrite (wrap32_small i) by lia.
  rewrite (wrap32_small (Z.of_nat o * 2 ^ k + i)) by nia.
  unfold ports_push. rewrite (vec_at_lookup _ _ _ Hpin). simpl.
  unfold ports_pop. by rewrite Hpout.
Qed.

(** C4 (amended).  A Switch out of bypass mode with [R = 2^k] inputs per
    output, [k >= 1], whose request tags are [W] bits wide ([W = 32] for
    [MemReq]):
    (a) a request forwarded to output [o] comes from an input
        [j = o*R + i] and leaves with tag [((tag << k) | i) mod 2^W];
    (b) the low [k] bits of that tag are [i];
    (c) a response on output [o] with tag [t] goes to the response port of
        input [o*R + (t & (R-1))] with delay 1 and tag [t >> k];
    (d) decoding the tag of a forwarded request gives back the input index,
        and the original tag modulo [2^(W-k)]: the original tag itself when
        it fits in [W - k] bits. *)
Theorem switch_tag_roundtrip k :
  1 <= k <= 5 -> k <= tag_bits (P:=Req) ->
  (forall s o s',
     switch_wf k s -> (o < length (ReqOut s))%nat ->
     tick_req o s = Ok s' -> s' = s \/ forwarded k o s s') /\
  (forall i (req : Req),
     0 <= i < 2 ^ k ->
     get_tag (encode_tag k i req)
     = Z.lor (Z.shiftl (get_tag req) k) i mod 2 ^ tag_bits (P:=Req) /\
     Z.land (get_tag (encode_tag k i req)) (2 ^ k - 1) = i) /\
  (forall s o pout (rsp : Rsp) q,
     switch_wf k s -> RspOut s !! o = Some pout -> queue pout = rsp :: q ->
     exists pin,
       RspIn s !! Z.to_nat (Z.of_nat o * 2 ^ k + Z.land (get_tag rsp) (2 ^ k - 1))
       = Some pin /\
       tick_rsp o s
       = Ok (mk (ReqIn s)
                (<[Z.to_nat (Z.of_nat o * 2 ^ k + Z.land (get_tag rsp) (2 ^ k - 1)) :=
                     mkPort (queue pin)
                            (sched pin ++ [(set_tag (Z.shiftr (get_tag rsp) k) rsp, 1)])]>
                   (RspIn s))
                (ReqOut s) (<[o := port_pop pout]> (RspOut s))
                (type_ s) (delay_ s) (cursors_ s) k)) /\
  (forall i (req : Req) (rsp : Rsp),
     0 <= i < 2 ^ k ->
     get_tag rsp = get_tag (encode_tag k i req) ->
     fst (decode_tag (2 ^ k) k rsp) = i /\
     get_tag (snd (decode_tag (2 ^ k) k rsp))
     = get_tag req mod 2 ^ (tag_bits (P:=Req) - k) /\
     (0 <= get_tag req < 2 ^ (tag_bits (P:=Req) - k) ->
      get_tag (snd (decode_tag (2 ^ k) k rsp)) = get_tag req)).
Proof.
  intros Hk Hw. pose proof (pow2_range k Hk) as Hp.
  assert (forall i (req : Req), 0 <= i < 2 ^ k ->
            Z.land (get_tag (encode_tag k i req)) (2 ^ k - 1) = i) as Hlow.
  { intros i req Hi. unfold encode_tag. rewrite get_set_tag, land_low_mask by lia.
    apply encode_low; lia. }
  split; [|split; [|split]].
  - intros s o s' Hwf Ho Hrun. by eapply tick_req_forwards.
  - intros i req Hi. split; [|by apply Hlow].
    unfold encode_tag. by rewrite get_set_tag.
  - intros s o pout rsp q Hwf Hpout Hq. by eapply tick_rsp_routes.
  - intros i req rsp Hi Htag. unfold decode_tag. simpl.
    rewrite (wrap32_small (2 ^ k - 1)) by lia. rewrite Htag, (Hlow i req Hi).
    rewrite get_set_tag. split; [apply wrap32_small; lia|].
    assert (Z.shiftr (get_tag (encode_tag k i req)) k
            = get_tag req mod 2 ^ (tag_bits (P:=Req) - k)) as Hhigh.
    { unfold encode_tag. rewrite get_set_tag. apply encode_high; lia. }
    split; [done|]. intros Hfit. rewrite Hhigh. by apply Z.mod_small.
Qed.

End SwitchProps.

Lemma switch_tag_roundtrip_witness :
  fst (decode_tag 2 1 (MemRsp.mk (get_tag (encode_tag 1 1 Scenario.small_req)) 0 5)) = 1 /\
  get_tag (snd (decode_tag 2 1 (MemRsp.mk (get_tag (encode_tag 1 1 Scenario.small_req)) 0 5)))
  = 6.
Proof.
  assert (1 <= 1 <= 5) as Hk by lia.
  assert (1 <= tag_bits (P:=MemReq.t)) as Hw by (simpl; lia).
  assert (0 <= 1 < 2 ^ 1) as Hi1 by lia.
  assert (get_tag (MemRsp.mk (get_tag (encode_tag 1 1 Scenario.small_req)) 0 5)
          = get_tag (encode_tag 1 1 Scenario.small_req)) as Hsame by reflexivity.
  destruct (proj2 (proj2 (proj2
              (switch_tag_roundtrip (Req:=MemReq.t) (Rsp:=MemRsp.t) 1 Hk Hw)))
              1 Scenario.small_req
              (MemRsp.mk (get_tag (encode_tag 1 1 Scenario.small_req)) 0 5)
              Hi1 Hsame) as (Hi & _ & Htag).
  split; [exact Hi|]. apply Htag. simpl. lia.
Defined.

(** A request whose 32-bit tag has its top bit set loses that bit on the
    way out, and the response comes back with another tag. *)
Lemma switch_roundtrip_counterexample :
  tick Scenario.switch2
  = Ok (mk [mkPort [] []; port_new] [port_new; port_new]
           [mkPort [] [(MemReq.mk 64 false 0 0 5, 1)]] [port_new]
           RoundRobin 1 [1] 1) /\
  tick (Scenario.switch2_rsp 0)
  = Ok (mk [port_new; port_new] [mkPort [] [(MemRsp.mk 0 0 5, 1)]; port_new]
           [port_new] [mkPort [] []] RoundRobin 1 [1] 1) /\
  get_tag (snd (decode_tag 2 1
                  (MemRsp.mk (get_tag (encode_tag 1 0 Scenario.big_req)) 0 5)))
  <> get_tag Scenario.big_req.
Proof.
  split; [vm_compute; reflexivity|]. split; [vm_compute; reflexivity|].
  vm_compute. discriminate.
Qed.

End SwitchProps.

(** ** Further facts on loops and machine integers *)

(** A loop whose body leaves the state alone does nothing. *)
Lemma for_range_id {St} lo n (body : nat -> St -> res St) (s : St) :
  (forall i, (lo <= i < lo + n)%nat -> body i s = Ok s) -> for_range lo n body s = Ok s.
Proof.
  revert lo. induction n as [|n IH]; intros lo Hid; [done|].
  simpl. rewrite Hid by lia. simpl. apply IH. intros i Hi. apply Hid. lia.
Qed.

Lemma wrap32_range z : 0 <= wrap32 z < 2 ^ 32.
Proof. unfold wrap32. apply Z.mod_pos_bound. lia. Qed.

(** [a & b] is at most [b]. *)
Lemma land_le_r a b : 0 <= a -> 0 <= b -> 0 <= Z.land a b <= b.
Proof.
  intros Ha Hb. split; [apply Z.land_nonneg; auto|].
  assert (Z.land (Z.ldiff b a) (Z.land b a) = 0) as Hdisj.
  { apply Z.bits_inj'. intros n Hn.
    rewrite Z.land_spec, Z.ldiff_spec, Z.land_spec, Z.bits_0.
    destruct (Z.testbit b n), (Z.testbit a n); reflexivity. }
  pose proof (Z.add_nocarry_lxor _ _ Hdisj) as Hadd.
  rewrite (Z.lxor_lor _ _ Hdisj), Z.lor_ldiff_and in Hadd.
  assert (0 <= Z.ldiff b a) by (apply Z.ldiff_nonneg; auto).
  rewrite (Z.land_comm a b). lia.
Qed.

(** ** HashTable: laws of the operations *)

Module HashTableLaws.
Import HashTable HashTableProps.
Section HashTableLaws.
Context {T : Type}.
Implicit Types (h : HashTable.t T) (es : list (bool * T)).

(** The slots in use do not change when a free slot is overwritten by a
    free slot. *)
Lemma allocated_insert_free es (j : nat) (x y : T) :
  es !! j = Some (false, x) ->
  map snd (List.filter (fun e : bool * T => fst e) (<[j := (false, y)]> es))
  = map snd (List.filter (fun e : bool * T => fst e) es).
Proof.
  revert j. induction es as [|[c z] es IH]; intros [|j] Hj; try discriminate.
  - by injection Hj as -> ->.
  - simpl in Hj. change (<[S j := (false, y)]> ((c, z) :: es))
      with ((c, z) :: <[j := (false, y)]> es).
    simpl. destruct c; simpl; by rewrite (IH j Hj).
Qed.

(** The loop of [allocate] stops at the first free slot. *)
Lemma allocate_from_first h v (j : nat) x : forall k i,
  (i <= j < i + k)%nat ->
  entries_ h !! j = Some (false, x) ->
  (forall j', (i <= j' < j)%nat -> exists y, entries_ h !! j' = Some (true, y)) ->
  allocate_from h v i k
  = Ok (j, mk (<[j := (true, v)]> (entries_ h)) (wrap32 (size_ h + 1))).
Proof.
  induction k as [|k IH]; intros i Hj Hfree Hused; [lia|].
  simpl. destruct (decide (i = j)) as [->|Hne].
  - rewrite (vec_at_lookup _ _ _ Hfree). reflexivity.
  - destruct (Hused i) as [y Hy]; [lia|].
    rewrite (vec_at_lookup _ _ _ Hy). simpl.
    apply IH; [lia|done|]. intros j' Hj'. apply Hused. lia.
Qed.

Lemma allocate_first h v (j : nat) x :
  entries_ h !! j = Some (false, x) ->
  (forall j', (j' < j)%nat -> exists y, entries_ h !! j' = Some (true, y)) ->
  allocate h v = Ok (j, mk (<[j := (true, v)]> (entries_ h)) (wrap32 (size_ h + 1))).
Proof.
  intros Hfree Hused. unfold allocate.
  apply (allocate_from_first h v j x); [|done|].
  - apply lookup_lt_Some in Hfree. lia.
  - intros j' Hj'. apply Hused. lia.
Qed.

Lemma contains_lookup h (i : nat) (b : bool) (x : T) :
  entries_ h !! i = Some (b, x) -> contains h i = Ok b.
Proof. intros He. unfold contains. by rewrite (vec_at_lookup _ _ _ He). Qed.

Lemma contains_Ok h (i : nat) (b : bool) :
  contains h i = Ok b <-> exists x, entries_ h !! i = Some (b, x).
Proof.
  unfold contains, vec_at. destruct (entries_ h !! i) as [[c x]|]; simpl; split.
  - intros [= ->]. eauto.
  - intros (y & [= -> _]). done.
  - discriminate.
  - intros (y & [=]).
Qed.

(** X1.  After a successful [allocate] the returned index holds the value
    ([at] returns it, [contains] is true), the capacity is unchanged and
    every other slot reads as before. *)
Theorem allocate_then_lookup h v (j : nat) h' :
  allocate h v = Ok (j, h') ->
  at_ h' j = Ok v /\ contains h' j = Ok true /\
  length (entries_ h') = length (entries_ h) /\
  (forall i, i <> j -> at_ h' i = at_ h i /\ contains h' i = contains h i).
Proof.
  intros (Hj & _ & _ & ->)%allocate_Ok.
  assert (<[j := (true, v)]> (entries_ h) !! j = Some (true, v)) as Hl
    by (by apply list_lookup_insert_eq).
  split; [by apply at_Ok|]. split; [by eapply contains_lookup|].
  split; [apply length_insert|].
  intros i Hi. unfold at_, contains. simpl.
  unfold vec_at. by rewrite list_lookup_insert_ne.
Qed.

(** X2.  Releasing the slot that [allocate] has just returned undoes the
    allocation: the count and the set of slots in use are those of before,
    every index reads as before, and the next [allocate] returns the same
    index again. *)
Theorem allocate_then_release h v v' (j : nat) h1 :
  wf h -> allocate h v = Ok (j, h1) ->
  exists h2,
    release h1 j = Ok h2 /\
    size_ h2 = size_ h /\ allocated h2 = allocated h /\
    (forall i, contains h2 i = contains h i /\ at_ h2 i = at_ h i) /\
    exists h3, allocate h2 v' = Ok (j, h3).
Proof.
  intros Hwf Hal. pose proof (allocate_wf h v j h1 Hwf Hal) as Hwf1.
  apply allocate_Ok in Hal as (Hj & [x Hfree] & Hused & ->).
  set (h2 := mk (<[j := (false, v)]> (entries_ h)) (wrap32 (wrap32 (size_ h + 1) - 1))).
  assert (release (mk (<[j := (true, v)]> (entries_ h)) (wrap32 (size_ h + 1))) j = Ok h2)
    as Hrel.
  { apply release_Ok. exists v. simpl. rewrite list_lookup_insert_eq by done.
    split; [done|]. unfold h2. by rewrite list_insert_insert_eq. }
  pose proof (release_wf _ _ _ Hwf1 Hrel) as Hwf2.
  assert (allocated h2 = allocated h) as Hsame.
  { unfold allocated, h2. simpl. by eapply allocated_insert_free. }
  exists h2. split; [done|]. split; [|split; [done|split]].
  - destruct Hwf2 as [-> _]. destruct Hwf as [-> _]. by rewrite Hsame.
  - intros i. unfold contains, at_, vec_at, h2. simpl.
    destruct (decide (i = j)) as [->|Hne].
    + rewrite list_lookup_insert_eq by done. by rewrite Hfree.
    + by rewrite list_lookup_insert_ne.
  - eexists. apply (allocate_first h2 v' j v).
    + unfold h2. simpl. by apply list_lookup_insert_eq.
    + intros j' Hj'. unfold h2. simpl. rewrite list_lookup_insert_ne by lia.
      by apply Hused.
Qed.

Lemma allocate_fault_full h v flt :
  wf h -> allocate h v = Fault flt -> flt = FaultAssert AssertAllocate /\ full h = true.
Proof.
  intros Hwf E. unfold allocate in E.
  apply allocate_from_fault in E as [-> Hall]; [|lia]. split; [done|].
  apply (full_spec h Hwf). intros i e He.
  destruct (Hall i) as [x Hx]; [apply lookup_lt_Some in He; lia|].
  rewrite He in Hx. by injection Hx as ->.
Qed.

Lemma allocate_ok_not_full h v (j : nat) h' :
  wf h -> allocate h v = Ok (j, h') -> full h = false.
Proof.
  intros Hwf (_ & [x Hfree] & _)%allocate_Ok.
  destruct (full h) eqn:Hfull; [|done].
  pose proof (proj1 (full_spec h Hwf) Hfull j _ Hfree) as Hb. discriminate Hb.
Qed.

Lemma allocate_on_full h v :
  wf h -> full h = true -> allocate h v = Fault (FaultAssert AssertAllocate).
Proof.
  intros Hwf Hfull. destruct (allocate h v) as [[j h']|flt] eqn:E.
  - rewrite (allocate_ok_not_full h v j h' Hwf E) in Hfull. discriminate.
  - by destruct (allocate_fault_full h v flt Hwf E) as [-> _].
Qed.

(** X3.  On a well-formed table [allocate] fails exactly when the table is
    full, and the failed assertion is the only way it can fail. *)
Theorem allocate_fails_iff_full h v :
  wf h ->
  (full h = true <-> allocate h v = Fault (FaultAssert AssertAllocate)) /\
  (full h = false <-> exists j h', allocate h v = Ok (j, h')) /\
  (forall flt, allocate h v = Fault flt -> flt = FaultAssert AssertAllocate).
Proof.
  intros Hwf. split; [|split].
  - split; [by apply allocate_on_full|].
    intros E. by destruct (allocate_fault_full h v _ Hwf E).
  - split; [by apply allocate_not_full|].
    intros (j & h' & E). by eapply allocate_ok_not_full.
  - intros flt E. by destruct (allocate_fault_full h v flt Hwf E).
Qed.

(** Allocating a list of values, one after the other. *)
Fixpoint allocate_all h (vs : list T) : res (list nat * HashTable.t T) :=
  match vs with
  | [] => Ok ([], h)
  | v :: vs' =>
      '(j, h1) ← allocate h v;
      '(js, h2) ← allocate_all h1 vs';
      mret (j :: js, h2)
  end.

Lemma allocate_all_fill (d : T) (vs : list T) : forall (us : list T) (n : nat),
  (length vs <= n)%nat -> Z.of_nat (length us + n) < 2 ^ 32 ->
  allocate_all (mk (map (fun v => (true, v)) us ++ replicate n (false, d))
                   (Z.of_nat (length us))) vs
  = Ok (seq (length us) (length vs),
        mk (map (fun v => (true, v)) (us ++ vs) ++ replicate (n - length vs) (false, d))
           (Z.of_nat (length us + length vs))).
Proof.
  induction vs as [|v vs IH]; intros us n Hn Hcap.
  - simpl. rewrite app_nil_r, Nat.sub_0_r, Nat.add_0_r. reflexivity.
  - simpl in Hn. destruct n as [|n]; [lia|].
    set (h := mk (map (fun v => (true, v)) us ++ replicate (S n) (false, d))
                 (Z.of_nat (length us))).
    assert (allocate h v
            = Ok (length us, mk (<[length us := (true, v)]> (entries_ h))
                                (wrap32 (size_ h + 1)))) as Hal.
    { apply (allocate_first h v (length us) d).
      - unfold h. simpl. rewrite lookup_app_r by (rewrite length_map; lia).
        rewrite length_map, Nat.sub_diag. reflexivity.
      - intros j' Hj'. unfold h. simpl. rewrite lookup_app_l by (rewrite length_map; lia).
        rewrite list_lookup_fmap.
        destruct (lookup_lt_is_Some_2 us j' Hj') as [y ->]. eauto. }
    simpl. fold h. rewrite Hal. simpl.
    assert (<[length us := (true, v)]> (map (fun v => (true, v)) us ++ (false, d) :: replicate n (false, d))
            = map (fun v => (true, v)) (us ++ [v]) ++ replicate n (false, d)) as ->.
    { rewrite insert_app_r_alt by (rewrite length_map; lia).
      rewrite length_map, Nat.sub_diag. simpl.
      rewrite map_app. simpl. by rewrite <- app_assoc. }
    rewrite wrap32_small by lia.
    replace (Z.of_nat (length us) + 1) with (Z.of_nat (length (us ++ [v])))
      by (rewrite length_app; simpl; lia).
    rewrite (IH (us ++ [v]) n); [|lia|rewrite length_app; simpl; lia].
    simpl. rewrite length_app. simpl. rewrite <- app_assoc. simpl.
    replace (length us + 1)%nat with (S (length us)) by lia.
    replace (S (length us) + length vs)%nat with (length us + S (length vs))%nat by lia.
    reflexivity.
Qed.

(** X4.  Filling a fresh table: [n] allocations in a row return the
    indices [0, 1, .., n-1] in this order and leave the table full, each
    value in its slot; one more [allocate] fails its assertion. *)
Theorem allocate_fills_in_order (d : T) (vs : list T) (v : T) :
  Z.of_nat (length vs) < 2 ^ 32 ->
  exists h',
    allocate_all (new (length vs) d) vs = Ok (seq 0 (length vs), h') /\
    entries_ h' = map (fun x => (true, x)) vs /\
    allocated h' = vs /\
    size_ h' = Z.of_nat (length vs) /\
    full h' = true /\
    allocate h' v = Fault (FaultAssert AssertAllocate).
Proof.
  intros Hcap.
  pose proof (allocate_all_fill d vs [] (length vs) (le_n _) ltac:(simpl; lia)) as Hrun.
  simpl in Hrun. rewrite Nat.sub_diag in Hrun. simpl in Hrun.
  rewrite app_nil_r in Hrun.
  eexists. split; [exact Hrun|]. simpl.
  assert (map snd (List.filter (fun e : bool * T => fst e) (map (fun x => (true, x)) vs)) = vs)
    as Hall.
  { clear. induction vs as [|x vs IH]; [done|]. simpl. by rewrite IH. }
  split; [done|]. split; [exact Hall|]. split; [done|].
  assert (wf (mk (map (fun x => (true, x)) vs) (Z.of_nat (length vs)))) as Hwf.
  { split; simpl; [|by rewrite length_map].
    unfold allocated. simpl. by rewrite Hall. }
  assert (full (mk (map (fun x => (true, x)) vs) (Z.of_nat (length vs))) = true) as Hfull.
  { unfold full. simpl. rewrite length_map. apply Z.eqb_refl. }
  split; [exact Hfull|].
  by apply allocate_on_full.
Qed.

Lemma clear_allocated h : allocated (clear h) = [].
Proof.
  unfold allocated, clear. simpl.
  induction (entries_ h) as [|[b x] es IH]; [done|]. simpl. exact IH.
Qed.

Lemma clear_wf h : Z.of_nat (length (entries_ h)) < 2 ^ 32 -> wf (clear h).
Proof.
  intros Hcap. split; [by rewrite clear_allocated|].
  unfold clear. simpl. by rewrite length_map.
Qed.

(** X5.  [clear] frees every slot whatever the table held: the table is
    empty, no index is contained, [at] fails its assertion on every index
    of the table, the capacity is kept, and the next [allocate] returns
    index 0. *)
Theorem clear_frees_all h :
  empty (clear h) = true /\ allocated (clear h) = [] /\
  length (entries_ (clear h)) = length (entries_ h) /\
  (forall i, (i < length (entries_ h))%nat ->
     contains (clear h) i = Ok false /\
     at_ (clear h) i = Fault (FaultAssert AssertEntryFirst) /\
     release (clear h) i = Fault (FaultAssert AssertEntryFirst)) /\
  (forall v, (0 < length (entries_ h))%nat ->
     exists h', allocate (clear h) v = Ok (0%nat, h') /\ size_ h' = 1).
Proof.
  split; [done|]. split; [apply clear_allocated|].
  split; [unfold clear; simpl; apply length_map|]. split.
  - intros i Hi. destruct (lookup_lt_is_Some_2 (entries_ h) i Hi) as [[b x] He].
    assert (entries_ (clear h) !! i = Some (false, x)) as Hc.
    { unfold clear. simpl. rewrite list_lookup_fmap, He. done. }
    unfold contains, at_, release. rewrite (vec_at_lookup _ _ _ Hc). done.
  - intros v Hcap. destruct (lookup_lt_is_Some_2 (entries_ h) 0 Hcap) as [[b x] He].
    assert (entries_ (clear h) !! 0%nat = Some (false, x)) as Hc.
    { unfold clear. simpl. rewrite list_lookup_fmap, He. done. }
    eexists. split.
    + apply (allocate_first (clear h) v 0 x Hc). intros j' Hj'. lia.
    + reflexivity.
Qed.

(** The tables that the operations can build from a fresh one. *)
Inductive built : HashTable.t T -> Prop :=
  | built_new (n : nat) (d : T) : Z.of_nat n < 2 ^ 32 -> built (new n d)
  | built_allocate h v (j : nat) h' : built h -> allocate h v = Ok (j, h') -> built h'
  | built_release h (i : nat) h' : built h -> release h i = Ok h' -> built h'
  | built_store h (i : nat) (x v : T) : built h -> at_ h i = Ok x -> built (store h i v)
  | built_clear h : built h -> built (clear h).

Lemma built_wf h : built h -> wf h.
Proof.
  induction 1 as [n d Hn|h v j h' _ IH Hal|h i h' _ IH Hrel|h i x v _ IH Hat|h _ IH].
  - by apply new_wf.
  - by eapply allocate_wf.
  - by eapply release_wf.
  - apply at_Ok in Hat. by eapply store_wf.
  - apply clear_wf. apply IH.
Qed.

(** X6.  Whatever sequence of [allocate], [release], writes through [at]
    and [clear] is applied to a fresh table, [size()] is the number of
    slots in use and never leaves [0 .. capacity]; hence [empty()] holds
    exactly when no index is contained and [full()] exactly when every
    index is. *)
Theorem size_counts_used_slots h :
  built h ->
  size_ h = Z.of_nat (length (allocated h)) /\
  0 <= size_ h <= Z.of_nat (length (entries_ h)) /\
  (empty h = true <->
   forall i, (i < length (entries_ h))%nat -> contains h i = Ok false) /\
  (full h = true <->
   forall i, (i < length (entries_ h))%nat -> contains h i = Ok true).
Proof.
  intros Hwf%built_wf. split; [apply Hwf|]. split; [by apply wf_size_range|].
  split.
  - rewrite (empty_spec h Hwf). split.
    + intros Hall i Hi. destruct (lookup_lt_is_Some_2 (entries_ h) i Hi) as [[b x] He].
      pose proof (Hall i _ He) as Hb. simpl in Hb. subst b. by eapply contains_lookup.
    + intros Hall i [b x] He. pose proof (lookup_lt_Some _ _ _ He) as Hi.
      apply Hall in Hi. rewrite (contains_lookup h i b x He) in Hi. by injection Hi as ->.
  - rewrite (full_spec h Hwf). split.
    + intros Hall i Hi. destruct (lookup_lt_is_Some_2 (entries_ h) i Hi) as [[b x] He].
      pose proof (Hall i _ He) as Hb. simpl in Hb. subst b. by eapply contains_lookup.
    + intros Hall i [b x] He. pose proof (lookup_lt_Some _ _ _ He) as Hi.
      apply Hall in Hi. rewrite (contains_lookup h i b x He) in Hi. by injection Hi as ->.
Qed.

(** X7.  A slot can be released once: after [release(i)] the index is no
    longer contained, and a second [release(i)] or an [at(i)] fails the
    assertion; an index past the capacity makes [release], [at] and
    [contains] throw [std::out_of_range]. *)
Theorem release_only_once h :
  (forall (i : nat) h', release h i = Ok h' ->
     contains h' i = Ok false /\
     release h' i = Fault (FaultAssert AssertEntryFirst) /\
     at_ h' i = Fault (FaultAssert AssertEntryFirst) /\
     forall k, k <> i -> contains h' k = contains h k /\ at_ h' k = at_ h k) /\
  (forall i, (length (entries_ h) <= i)%nat ->
     release h i = Fault FaultOutOfRange /\ at_ h i = Fault FaultOutOfRange /\
     contains h i = Fault FaultOutOfRange).
Proof.
  split.
  - intros i h' (x & Hx & ->)%release_Ok.
    pose proof (lookup_lt_Some _ _ _ Hx) as Hi.
    unfold contains, release, at_, vec_at. simpl.
    rewrite list_lookup_insert_eq by done. simpl.
    repeat (split; [done|]). intros k Hk.
    by rewrite list_lookup_insert_ne.
  - intros i Hi. unfold contains, release, at_, vec_at.
    by rewrite (lookup_ge_None_2 _ _ Hi).
Qed.

End HashTableLaws.

Lemma allocate_then_lookup_witness :
  at_ (mk [(true, 7); (true, 9)] 2) 1 = Ok 9 /\
  contains (mk [(true, 7); (true, 9)] 2) 1 = Ok true.
Proof.
  destruct (allocate_then_lookup (mk [(true, 7); (false, 0)] 1) 9 1
              (mk [(true, 7); (true, 9)] 2) eq_refl) as (H1 & H2 & _).
  split; [exact H1|exact H2].
Defined.

Lemma allocate_then_release_witness :
  exists h2,
    release (mk [(true, 7); (true, 9)] 2) 1 = Ok h2 /\
    size_ h2 = 1 /\ allocated h2 = [7].
Proof.
  assert (wf (mk [(true, 7); (false, 0)] 1)) as Hwf by (split; simpl; [reflexivity|lia]).
  destruct (allocate_then_release (mk [(true, 7); (false, 0)] 1) 9 5 1
              (mk [(true, 7); (true, 9)] 2) Hwf eq_refl)
    as (h2 & H1 & H2 & H3 & _).
  exists h2. split; [exact H1|]. split; [exact H2|exact H3].
Defined.

Lemma allocate_fails_iff_full_witness :
  allocate (mk [(true, 7); (true, 9)] 2) 5 = Fault (FaultAssert AssertAllocate).
Proof.
  assert (wf (mk [(true, 7); (true, 9)] 2)) as Hwf by (split; simpl; [reflexivity|lia]).
  apply (allocate_fails_iff_full (mk [(true, 7); (true, 9)] 2) 5 Hwf). reflexivity.
Defined.

Lemma allocate_fills_in_order_witness :
  exists h',
    allocate_all (new 3 0) [4; 5; 6] = Ok ([0; 1; 2]%nat, h') /\
    entries_ h' = [(true, 4); (true, 5); (true, 6)].
Proof.
  destruct (allocate_fills_in_order 0 [4; 5; 6] 8 ltac:(simpl; lia))
    as (h' & H1 & H2 & _).
  exists h'. split; [exact H1|exact H2].
Defined.

Lemma size_counts_used_slots_witness :
  size_ (new 2 0) = Z.of_nat (length (allocated (new 2 0))) /\
  0 <= size_ (new 2 0) <= 2.
Proof.
  destruct (size_counts_used_slots (new 2 0) (built_new 2 0 ltac:(lia))) as (H1 & H2 & _).
  split; [exact H1|exact H2].
Defined.

End HashTableLaws.

(** ** AluUnit: the warp resumed by a tick *)

Module AluResume.
Import AluUnit AluUnitProps.
Section AluResume.
Context {cfg : Config} {W : Type} `{WarpScheduler W}.

(** The call of [core.resume] that lane [iw] makes: one, for the warp of
    the head, when the head has [eop] and [fetch_stall] set. *)
Definition lane_resume (h : trace_heap) (u : AluUnit.t W) (iw : nat) : list CoreCall :=
  match Inputs u !! iw with
  | Some input =>
      match queue input with
      | trace :: _ =>
          match h !! trace with
          | Some tr => if eop tr && fetch_stall tr then [CallResume (wid tr)] else []
          | None => []
          end
      | [] => []
      end
  | None => []
  end.

Lemma tick_lane_calls h iw u u' :
  tick_lane h iw u = Ok u' ->
  calls_ (core_ u') = calls_ (core_ u) ++ lane_resume h u iw /\
  core_id (core_ u') = core_id (core_ u) /\
  perf_stats_ (core_ u') = perf_stats_ (core_ u) /\
  lsu_demux_ (core_ u') = lsu_demux_ (core_ u).
Proof.
  unfold tick_lane, lane_resume. intros Hrun.
  apply res_bind_Ok in Hrun as (input & Hi & Hrun). apply vec_at_Ok in Hi.
  rewrite Hi. destruct (queue input) as [|trace q] eqn:Hq.
  - injection Hrun as <-. by rewrite app_nil_r.
  - apply res_bind_Ok in Hrun as (out & Ho & Hrun).
    apply res_bind_Ok in Hrun as (tr & Ht & Hrun). apply deref_Ok in Ht.
    apply res_bind_Ok in Hrun as (d & Hd & Hrun).
    apply res_bind_Ok in Hrun as (outs & Hp & Hrun).
    injection Hrun as <-. simpl. rewrite Ht.
    destruct (eop tr && fetch_stall tr); simpl; [done|by rewrite app_nil_r].
Qed.

(** X8.  A tick of the ALU calls [core.resume(wid)] once for every lane
    whose head has both [eop] and [fetch_stall] set, in lane order, and
    makes no other call into the core; a head with [eop] or [fetch_stall]
    clear resumes nothing. *)
Theorem alu_tick_resumes (h : trace_heap) (u u' : AluUnit.t W) :
  tick h u = Ok u' ->
  calls_ (core_ u')
  = calls_ (core_ u) ++ flat_map (lane_resume h u) (seq 0 ISSUE_WIDTH) /\
  core_id (core_ u') = core_id (core_ u) /\
  perf_stats_ (core_ u') = perf_stats_ (core_ u) /\
  lsu_demux_ (core_ u') = lsu_demux_ (core_ u).
Proof.
  unfold tick. intros Hrun.
  apply (for_range_inv
    (fun k t =>
       (forall j, (k <= j)%nat -> Inputs t !! j = Inputs u !! j) /\
       calls_ (core_ t) = calls_ (core_ u) ++ flat_map (lane_resume h u) (seq 0 k) /\
       core_id (core_ t) = core_id (core_ u) /\
       perf_stats_ (core_ t) = perf_stats_ (core_ u) /\
       lsu_demux_ (core_ t) = lsu_demux_ (core_ u))) in Hrun.
  - simpl in Hrun. tauto.
  - simpl. by rewrite app_nil_r.
  - intros i t t' Hi (Hfr & Hc & Hid & Hps & Hdm) Hstep.
    destruct (tick_lane_calls h i t t' Hstep) as (Hc' & Hid' & Hps' & Hdm').
    destruct (tick_lane_frame h i t t' Hstep) as (_ & _ & Hfr').
    split; [|split; [|split; [congruence|split; congruence]]].
    + intros j Hj. destruct (Hfr' j) as [-> _]; [lia|]. apply Hfr. lia.
    + rewrite Hc', Hc, seq_S, flat_map_app, <- app_assoc. simpl.
      rewrite app_nil_r. f_equal. f_equal.
      unfold lane_resume. by rewrite (Hfr i (le_n i)).
Qed.

End AluResume.

Lemma alu_tick_resumes_witness :
  exists u',
    tick (cfg:=Scenario.cfg) (H:=Scenario.stub_sched) Examples.alu_stall_heap Scenario.alu0
    = Ok u' /\
    calls_ (core_ u') = [CallResume 1].
Proof.
  destruct (tick (cfg:=Scenario.cfg) (H:=Scenario.stub_sched)
              Examples.alu_stall_heap Scenario.alu0) as [u'|f] eqn:E;
    [|vm_compute in E; discriminate E].
  exists u'. split; [reflexivity|].
  destruct (alu_tick_resumes (cfg:=Scenario.cfg) (H:=Scenario.stub_sched)
              Examples.alu_stall_heap Scenario.alu0 u' E) as (Hc & _).
  rewrite Hc. vm_compute. reflexivity.
Defined.

End AluResume.

(** ** FpuUnit *)

Module FpuUnitProps.
Import FpuUnit.
Section FpuUnitProps.
Context {cfg : Config} {fcfg : FpuConfig} {W : Type}.
Implicit Types (u : FpuUnit.t W) (types : gmap N Z).

(** The five enumerators of [FpuType]. *)
Definition known_fpu_type (ty : Z) : Prop :=
  ty = FpuType.FNCP \/ ty = FpuType.FMA \/ ty = FpuType.FDIV \/
  ty = FpuType.FSQRT \/ ty = FpuType.FCVT.

(** The delay of the push for a known type. *)
Definition fpu_delay (ty : Z) : Z :=
  if ty =? FpuType.FNCP then 4
  else if ty =? FpuType.FMA then LATENCY_FMA + 2
  else if ty =? FpuType.FDIV then LATENCY_FDIV + 2
  else if ty =? FpuType.FSQRT then LATENCY_FSQRT + 2
  else LATENCY_FCVT + 2.

(** The latencies are such that no push has a zero delay. *)
Definition latencies_ok : Prop :=
  LATENCY_FMA + 2 <> 0 /\ LATENCY_FDIV + 2 <> 0 /\
  LATENCY_FSQRT + 2 <> 0 /\ LATENCY_FCVT + 2 <> 0.

(** What lane [iw] pushes to its output. *)
Definition lane_push types u (iw : nat) : list (trace_ptr * Z) :=
  match Inputs u !! iw with
  | Some input =>
      match queue input with
      | trace :: _ =>
          match types !! trace with
          | Some ty => [(trace, fpu_delay ty)]
          | None => []
          end
      | [] => []
      end
  | None => []
  end.

(** The head of lane [iw]. *)
Definition fpu_head types u (iw : nat) (trace : trace_ptr) (ty : Z) : Prop :=
  exists input q,
    Inputs u !! iw = Some input /\ queue input = trace :: q /\ types !! trace = Some ty.

Definition fpu_heads_valid types u : Prop :=
  forall iw input trace q,
    Inputs u !! iw = Some input -> queue input = trace :: q -> is_Some (types !! trace).

Lemma fpu_push_delay_known ty :
  known_fpu_type ty -> push_delay ty = Ok (fpu_delay ty).
Proof.
  unfold known_fpu_type, push_delay, fpu_delay.
  intros [->|[->|[->|[->| ->]]]]; simpl; f_equal; lia.
Qed.

Lemma fpu_push_delay_abort ty : ~ known_fpu_type ty -> push_delay ty = Fault FaultAbort.
Proof.
  unfold known_fpu_type, push_delay, FpuType.FNCP, FpuType.FMA, FpuType.FDIV,
    FpuType.FSQRT, FpuType.FCVT.
  intros Hn.
  repeat match goal with
         | |- context [?a =? ?b] => destruct (Z.eqb_spec a b); [exfalso; apply Hn; lia|]
         end.
  reflexivity.
Qed.

Lemma fpu_delay_nonzero ty : latencies_ok -> fpu_delay ty <> 0.
Proof.
  unfold latencies_ok, fpu_delay. intros (H1 & H2 & H3 & H4).
  repeat match goal with
         | |- context [if ?c then _ else _] => destruct c
         end; lia.
Qed.

#[local] Instance known_fpu_type_dec ty : Decision (known_fpu_type ty).
Proof. unfold known_fpu_type. apply _. Defined.

(** The state before lane [k] is visited: the lanes below [k] are served,
    the others are as in [u]. *)
Definition fpu_lanes types u (k : nat) t : Prop :=
  core_ t = core_ u /\
  length (Inputs t) = length (Inputs u) /\
  length (Outputs t) = length (Outputs u) /\
  (forall j, Inputs t !! j
             = if decide (j < k)%nat then port_pop <$> Inputs u !! j else Inputs u !! j) /\
  (forall j, Outputs t !! j
             = if decide (j < k)%nat
               then (fun out => mkPort (queue out) (sched out ++ lane_push types u j))
                      <$> Outputs u !! j
               else Outputs u !! j).

Lemma fpu_lane_step types u t (i : nat) :
  latencies_ok ->
  length (Inputs u) = ISSUE_WIDTH -> length (Outputs u) = ISSUE_WIDTH ->
  fpu_heads_valid types u -> (i < ISSUE_WIDTH)%nat ->
  fpu_lanes types u i t ->
  (forall trace ty, fpu_head types u i trace ty -> ~ known_fpu_type ty ->
     tick_lane types i t = Fault FaultAbort) /\
  ((forall trace ty, fpu_head types u i trace ty -> known_fpu_type ty) ->
   exists t', tick_lane types i t = Ok t' /\ fpu_lanes types u (S i) t').
Proof.
  intros Hlat Hli Hlo Hv Hi (Hcore & Hlen1 & Hlen2 & Hin & Hout).
  destruct (lookup_lt_is_Some_2 (Inputs u) i) as [input Hinput]; [lia|].
  destruct (lookup_lt_is_Some_2 (Outputs u) i) as [out Hout0]; [lia|].
  pose proof (Hin i) as Hin_i. pose proof (Hout i) as Hout_i.
  destruct (decide (i < i)%nat) as [|_]; [lia|].
  rewrite Hinput in Hin_i. rewrite Hout0 in Hout_i.
  unfold tick_lane. rewrite (vec_at_lookup _ _ _ Hin_i). simpl.
  destruct (queue input) as [|trace q] eqn:Hq.
  - split; [intros trace ty (input' & q & Hin' & Hq' & _); congruence|].
    intros _. exists t. split; [done|].
    split; [done|]. split; [done|]. split; [done|]. split.
    + intros j. rewrite Hin. destruct (decide (j < i)%nat), (decide (j < S i)%nat);
        try lia; try done.
      assert (j = i) as -> by lia. rewrite Hinput. simpl.
      unfold port_pop. rewrite Hq. destruct input as [qi si]. simpl in *. by subst.
    + intros j. rewrite Hout. destruct (decide (j < i)%nat), (decide (j < S i)%nat);
        try lia; try done.
      assert (j = i) as -> by lia. rewrite Hout0. simpl.
      unfold lane_push. rewrite Hinput, Hq, app_nil_r. by destruct out.
  - destruct (Hv i input trace q Hinput Hq) as [ty Hty].
    rewrite (vec_at_lookup _ _ _ Hout_i). simpl.
    unfold fpu_type. rewrite Hty. simpl.
    assert (fpu_head types u i trace ty) as Hhead by (by exists input, q).
    split.
    + intros trace' ty' (input' & q' & Hin' & Hq' & Hty') Hbad.
      assert (input' = input) as -> by congruence.
      assert (trace' = trace) as -> by congruence.
      assert (ty' = ty) as -> by congruence.
      by rewrite (fpu_push_delay_abort ty Hbad).
    + intros Hknown. rewrite (fpu_push_delay_known ty (Hknown _ _ Hhead)). simpl.
      unfold ports_push. rewrite (vec_at_lookup _ _ _ Hout_i). simpl.
      unfold port_push. destruct (Z.eqb_spec (fpu_delay ty) 0) as [Hz|_].
      { by destruct (fpu_delay_nonzero ty Hlat). }
      simpl. eexists. split; [reflexivity|].
      unfold ports_pop. rewrite Hin_i.
      split; [done|]. simpl. rewrite !length_insert.
      split; [done|]. split; [done|]. split.
      * intros j. destruct (decide (j = i)) as [->|Hne].
        -- rewrite list_lookup_insert_eq by lia.
           destruct (decide (i < S i)%nat); [|lia]. by rewrite Hinput.
        -- rewrite list_lookup_insert_ne by done. rewrite Hin.
           destruct (decide (j < i)%nat), (decide (j < S i)%nat); try lia; done.
      * intros j. destruct (decide (j = i)) as [->|Hne].
        -- rewrite list_lookup_insert_eq by lia.
           destruct (decide (i < S i)%nat); [|lia]. rewrite Hout0. simpl.
           unfold lane_push. by rewrite Hinput, Hq, Hty.
        -- rewrite list_lookup_insert_ne by done. rewrite Hout.
           destruct (decide (j < i)%nat), (decide (j < S i)%nat); try lia; done.
Qed.

(** X9.  On a tick of the FPU every trace at the head of an input lane is
    popped and pushed to the output of the same lane, with total delay 4
    for FNCP and [LATENCY_x + 2] for FMA, FDIV, FSQRT and FCVT; the core is
    not touched (an FPU instruction never resumes a warp, whatever its
    [fetch_stall]).  If a head carries any other [fpu_type] value the tick
    aborts the program. *)
Theorem fpu_tick_delays types u :
  latencies_ok ->
  length (Inputs u) = ISSUE_WIDTH -> length (Outputs u) = ISSUE_WIDTH ->
  fpu_heads_valid types u ->
  ((forall iw trace ty, fpu_head types u iw trace ty -> known_fpu_type ty) ->
   exists u',
     tick types u = Ok u' /\
     core_ u' = core_ u /\
     Inputs u' = map port_pop (Inputs u) /\
     Outputs u'
     = imap (fun iw out => mkPort (queue out) (sched out ++ lane_push types u iw))
            (Outputs u)) /\
  ((exists iw trace ty, fpu_head types u iw trace ty /\ ~ known_fpu_type ty) ->
   tick types u = Fault FaultAbort) /\
  fpu_delay FpuType.FNCP = 4 /\
  fpu_delay FpuType.FMA = LATENCY_FMA + 2 /\
  fpu_delay FpuType.FDIV = LATENCY_FDIV + 2 /\
  fpu_delay FpuType.FSQRT = LATENCY_FSQRT + 2 /\
  fpu_delay FpuType.FCVT = LATENCY_FCVT + 2.
Proof.
  intros Hlat Hli Hlo Hv.
  assert (fpu_lanes types u 0 u) as H0.
  { repeat split; try done; intros j; destruct (decide (j < 0)%nat); done || lia. }
  split; [|split; [|by repeat split]].
  - intros Hknown.
    destruct (for_range_total (fpu_lanes types u) 0 ISSUE_WIDTH (tick_lane types) u H0)
      as (u' & Hrun & Hcore & Hlen1 & Hlen2 & Hin & Hout).
    { intros i t Hi Ht.
      destruct (fpu_lane_step types u t i Hlat Hli Hlo Hv ltac:(lia) Ht) as [_ Hgood].
      apply Hgood. intros trace ty. apply Hknown. }
    exists u'. split; [done|]. split; [done|]. simpl in Hin, Hout. split.
    + apply list_eq. intros j. rewrite Hin, list_lookup_fmap.
      destruct (decide (j < ISSUE_WIDTH)%nat) as [|Hj]; [done|].
      rewrite (lookup_ge_None_2 (Inputs u) j) by lia. done.
    + apply list_eq. intros j. rewrite Hout, list_lookup_imap.
      destruct (decide (j < ISSUE_WIDTH)%nat) as [|Hj].
      * by destruct (Outputs u !! j).
      * rewrite (lookup_ge_None_2 (Outputs u) j) by lia. done.
  - intros (iw & trace & ty & Hhead & Hbad).
    assert (iw < ISSUE_WIDTH)%nat as Hiw.
    { destruct Hhead as (input & q & Hin & _). apply lookup_lt_Some in Hin. lia. }
    unfold tick. apply (for_range_fault (fpu_lanes types u)); [done| |].
    + intros i t Hi Ht.
      destruct (fpu_lane_step types u t i Hlat Hli Hlo Hv ltac:(lia) Ht) as [Hbad' Hgood].
      destruct (lookup_lt_is_Some_2 (Inputs u) i) as [input Hinput]; [lia|].
      destruct (queue input) as [|tr0 q] eqn:Hq.
      * right. apply Hgood. intros trace' ty' (input' & q' & Hin' & Hq' & _). congruence.
      * destruct (Hv i input tr0 q Hinput Hq) as [ty0 Hty0].
        assert (fpu_head types u i tr0 ty0) as Hh by (by exists input, q).
        destruct (decide (known_fpu_type ty0)) as [Hk|Hk].
        -- right. apply Hgood. intros trace' ty' (input' & q' & Hin' & Hq' & Hty').
           assert (input' = input) as -> by congruence.
           assert (trace' = tr0) as -> by congruence.
           assert (ty' = ty0) as -> by congruence. done.
        -- left. by eapply Hbad'.
    + exists iw. split; [lia|]. intros t Ht.
      destruct (fpu_lane_step types u t iw Hlat Hli Hlo Hv Hiw Ht) as [Hbad' _].
      by eapply Hbad'.
Qed.

End FpuUnitProps.

Lemma fpu_tick_delays_witness :
  exists u',
    tick (cfg:=Scenario.cfg) (fcfg:=Examples.fcfg) Examples.fpu_types Examples.fpu0 = Ok u' /\
    core_ u' = Scenario.stub_core /\
    Inputs u' = [mkPort [] []; mkPort [] []] /\
    Outputs u' = [mkPort [] [(1%N, 6)]; mkPort [] [(2%N, 18)]].
Proof.
  assert (latencies_ok (fcfg:=Examples.fcfg)) as Hlat by (vm_compute; repeat split; discriminate).
  assert (fpu_heads_valid (W:=unit) Examples.fpu_types Examples.fpu0) as Hv.
  { intros iw input trace q Hin Hq.
    destruct iw as [|[|iw]]; simpl in Hin; [| |discriminate Hin];
      injection Hin as <-; injection Hq as <- _; vm_compute; eauto. }
  destruct (fpu_tick_delays (cfg:=Scenario.cfg) (fcfg:=Examples.fcfg)
              Examples.fpu_types Examples.fpu0 Hlat eq_refl eq_refl Hv) as (Hgood & _).
  destruct Hgood as (u' & Hrun & Hcore & Hin & Hout).
  - intros iw trace ty (input & q & Hin & Hq & Hty).
    destruct iw as [|[|iw]]; simpl in Hin; [| |discriminate Hin];
      injection Hin as <-; injection Hq as <- _; vm_compute in Hty;
      injection Hty as <-; unfold known_fpu_type; vm_compute; auto.
  - exists u'. split; [exact Hrun|]. split; [exact Hcore|].
    split; [exact Hin|]. rewrite Hout. vm_compute. reflexivity.
Defined.

End FpuUnitProps.

(** ** LsuUnit: building and issuing requests *)

Module LsuIssue.
Import LsuUnit LsuUnitProps.
Section LsuIssue.
Context {cfg : Config} {W : Type}.
Implicit Types (u : LsuUnit.t W) (st : lsu_state_t) (tr : instr_trace).

(** The first thread of the packet of [tr]. *)
Definition first_thread tr : nat := (pid tr * NUM_LSU_LANES)%nat.

(** Lane [i] of the packet is active in the thread mask. *)
Definition active tr (i : nat) : bool :=
  N.testbit (tmask tr) (N.of_nat (first_thread tr + i)).

(** The address that the trace recorded for lane [i]. *)
Definition lane_addr tr (i : nat) : Z :=
  match cast_LsuTraceData (data tr) with
  | Some mem_addrs =>
      match mem_addrs !! (first_thread tr + i)%nat with
      | Some a => addr a
      | None => 0
      end
  | None => 0
  end.

(** The trace carries an address for lane [i]. *)
Definition readable tr (i : nat) : Prop :=
  exists mem_addrs a,
    data tr = Some (LsuTraceData mem_addrs) /\
    mem_addrs !! (first_thread tr + i)%nat = Some a.

(** The request after the lanes below [k]. *)
Definition built_upto tr (w : bool) (k : nat) (req : LsuReq.t) : Prop :=
  LsuReq.write req = w /\ LsuReq.tag req = 0 /\ LsuReq.cid req = 0 /\ LsuReq.uuid req = 0 /\
  length (LsuReq.addrs req) = NUM_LSU_LANES /\
  (forall i, N.testbit (LsuReq.mask req) (N.of_nat i) = (i <? k)%nat && active tr i) /\
  (forall i, (i < NUM_LSU_LANES)%nat ->
     LsuReq.addrs req !! i
     = Some (if (i <? k)%nat && active tr i then lane_addr tr i else 0)).

Lemma build_req_lane_step tr w (k : nat) req :
  built_upto tr w k req -> (k < NUM_LSU_LANES)%nat ->
  ((MAX_NUM_THREADS <= first_thread tr + k)%nat ->
   build_req_lane tr (first_thread tr) k req = Fault FaultOutOfRange) /\
  ((first_thread tr + k < MAX_NUM_THREADS)%nat ->
   (active tr k = true -> readable tr k) ->
   exists req', build_req_lane tr (first_thread tr) k req = Ok req' /\
                built_upto tr w (S k) req').
Proof.
  intros (Hw & Htag & Hcid & Huuid & Hlen & Hmask & Haddrs) Hk.
  unfold build_req_lane. split.
  - intros Hbig. destruct (Nat.leb_spec MAX_NUM_THREADS (first_thread tr + k)); [done|lia].
  - intros Hsmall Hread.
    destruct (Nat.leb_spec MAX_NUM_THREADS (first_thread tr + k)); [lia|].
    fold (active tr k). destruct (active tr k) eqn:Hact.
    + destruct (Hread eq_refl) as (mem_addrs & a & Hdata & Ha).
      rewrite Hdata. simpl. rewrite (vec_at_lookup _ _ _ Ha). simpl.
      rewrite (vec_at_lookup _ _ _ (Haddrs k Hk)). simpl.
      eexists. split; [reflexivity|].
      unfold built_upto. simpl. rewrite length_insert.
      do 5 (split; [done|]). split.
      * intros i. rewrite N.setbit_eqb, Hmask.
        destruct (N.eqb_spec (N.of_nat k) (N.of_nat i)) as [Heq|Hne].
        -- apply Nat2N.inj in Heq. subst i.
           rewrite Hact. destruct (Nat.ltb_spec k (S k)); [done|lia].
        -- assert (i <> k) by congruence. simpl.
           destruct (Nat.ltb_spec i k), (Nat.ltb_spec i (S k)); try lia; done.
      * intros i Hi. destruct (decide (i = k)) as [->|Hne].
        -- rewrite list_lookup_insert_eq by lia.
           destruct (Nat.ltb_spec k (S k)); [|lia]. rewrite Hact. simpl.
           unfold lane_addr. by rewrite Hdata; simpl; rewrite Ha.
        -- rewrite list_lookup_insert_ne by done. rewrite (Haddrs i Hi).
           destruct (Nat.ltb_spec i k), (Nat.ltb_spec i (S k)); try lia; done.
    + exists req. split; [done|].
      unfold built_upto. do 5 (split; [done|]). split.
      * intros i. rewrite Hmask.
        destruct (Nat.ltb_spec i k), (Nat.ltb_spec i (S k)); try lia; try done.
        assert (i = k) as -> by lia. by rewrite Hact.
      * intros i Hi. rewrite (Haddrs i Hi).
        destruct (Nat.ltb_spec i k), (Nat.ltb_spec i (S k)); try lia; try done.
        assert (i = k) as -> by lia. by rewrite Hact.
Qed.

Lemma built_upto_init tr w :
  built_upto tr w 0
    (LsuReq.mk 0%N (replicate NUM_LSU_LANES 0) w 0 0 0).
Proof.
  unfold built_upto. simpl. rewrite length_replicate.
  do 5 (split; [reflexivity|]). split.
  - done.
  - intros i Hi. by apply lookup_replicate_2.
Qed.

(** X10.  The memory request built for a trace covers the packet [pid]
    of the warp: lane [i] of the request is set iff thread
    [pid * NUM_LSU_LANES + i] is active in the thread mask, and carries the
    address recorded for that thread (0 on an inactive lane); [write] is as
    asked, and tag, cid and uuid are still 0.  When the packet reaches
    past thread 31 the read of the thread mask throws. *)
Theorem build_req_slices_tmask tr (w : bool) :
  ((first_thread tr + NUM_LSU_LANES <= MAX_NUM_THREADS)%nat ->
   (forall i, (i < NUM_LSU_LANES)%nat -> active tr i = true -> readable tr i) ->
   exists req,
     build_req tr w = Ok req /\
     LsuReq.write req = w /\ LsuReq.tag req = 0 /\ LsuReq.cid req = 0 /\
     LsuReq.uuid req = 0 /\
     (forall i, N.testbit (LsuReq.mask req) (N.of_nat i)
                = (i <? NUM_LSU_LANES)%nat && active tr i) /\
     LsuReq.addrs req
     = map (fun i => if active tr i then lane_addr tr i else 0) (seq 0 NUM_LSU_LANES)) /\
  ((MAX_NUM_THREADS < first_thread tr + NUM_LSU_LANES)%nat ->
   (forall i, (i < NUM_LSU_LANES)%nat -> (first_thread tr + i < MAX_NUM_THREADS)%nat ->
      active tr i = true -> readable tr i) ->
   build_req tr w = Fault FaultOutOfRange).
Proof.
  split.
  - intros Hfit Hread.
    destruct (for_range_total (built_upto tr w) 0 NUM_LSU_LANES
                (build_req_lane tr (first_thread tr))
                (LsuReq.mk 0%N (replicate NUM_LSU_LANES 0) w 0 0 0)
                (built_upto_init tr w))
      as (req & Hrun & Hw & Htag & Hcid & Huuid & Hlen & Hmask & Haddrs).
    { intros i t Hi Ht.
      destruct (build_req_lane_step tr w i t Ht ltac:(lia)) as [_ Hok].
      apply Hok; [lia|]. apply Hread. lia. }
    exists req. split; [exact Hrun|]. do 4 (split; [done|]). split; [done|].
    apply list_eq. intros i. simpl in Haddrs.
    destruct (decide (i < NUM_LSU_LANES)%nat) as [Hi|Hi].
    + rewrite (Haddrs i Hi), list_lookup_fmap, lookup_seq_lt by done. simpl.
      destruct (Nat.ltb_spec i NUM_LSU_LANES); [done|lia].
    + rewrite !lookup_ge_None_2; [done| |lia].
      rewrite length_map, length_seq. lia.
  - intros Hbig Hread. unfold build_req.
    apply (for_range_fault (built_upto tr w)).
    + apply built_upto_init.
    + intros i t Hi Ht.
      destruct (build_req_lane_step tr w i t Ht ltac:(lia)) as [Hbad Hok].
      destruct (le_lt_dec MAX_NUM_THREADS (first_thread tr + i)) as [Hge|Hlt].
      * left. by apply Hbad.
      * right. apply Hok; [done|]. apply Hread; lia.
    + assert (0 < NUM_LSU_LANES)%nat as Hpos.
      { unfold first_thread in Hbig. destruct NUM_LSU_LANES; [|lia].
        rewrite Nat.mul_0_r in Hbig. unfold MAX_NUM_THREADS in Hbig. lia. }
      exists (MAX_NUM_THREADS - first_thread tr)%nat. split; [lia|].
      intros t Ht.
      destruct (build_req_lane_step tr w _ t Ht ltac:(lia)) as [Hbad _].
      apply Hbad. lia.
Qed.

Lemma build_req_write tr (w : bool) req : build_req tr w = Ok req -> LsuReq.write req = w.
Proof.
  unfold build_req.
  apply (for_range_inv (fun _ r => LsuReq.write r = w)); [done|].
  intros i t t' _ Ht Hstep. unfold build_req_lane in Hstep.
  destruct (_ <=? _)%nat; [discriminate|].
  destruct (N.testbit _ _); [|by injection Hstep as <-].
  apply res_bind_Ok in Hstep as (? & _ & Hstep).
  apply res_bind_Ok in Hstep as (? & _ & Hstep).
  apply res_bind_Ok in Hstep as (? & _ & Hstep).
  by injection Hstep as <-.
Qed.

(** The request does not depend on the [log_once] latch. *)
Lemma build_req_latch (b : bool) tr (w : bool) :
  build_req (snd (log_once b tr)) w = build_req tr w.
Proof. reflexivity. Qed.

Lemma with_table_same st : with_table (pending_rd_reqs st) st = st.
Proof. by destruct st. Qed.

Lemma issue_input_store iw u input trace q tr st req demux out :
  Inputs u !! iw = Some input -> queue input = trace :: q ->
  mem u !! trace = Some tr -> lsu_type tr = STORE ->
  states_ u !! block_of iw = Some st ->
  build_req tr true = Ok req ->
  lsu_demux_ (core_ u) !! block_of iw = Some demux ->
  Outputs u !! iw = Some out ->
  issue_input iw u
  = Ok (issued u iw st trace tr req 0 (pending_rd_reqs st) demux
          (<[iw := mkPort (queue out) (sched out ++ [(trace, 1)])]> (Outputs u))).
Proof.
  intros Hin Hq Htr Hty Hst Hreq Hd Hout. unfold issue_input. fold (block_of iw).
  rewrite (vec_at_lookup _ _ _ Hin). simpl. rewrite Hq.
  rewrite (proj2 (deref_Ok _ _ _) Htr). simpl.
  rewrite (vec_at_lookup _ _ _ Hst). simpl. rewrite Hty. simpl.
  match goal with
  | |- context [build_req ?t true] => change (build_req t true) with (build_req tr true)
  end.
  rewrite Hreq. simpl. rewrite (vec_at_lookup _ _ _ Hd). simpl.
  unfold ports_push. rewrite (vec_at_lookup _ _ _ Hout). simpl.
  unfold issued, log_once, sent_req, push_req, with_table. cbn [snd].
  rewrite ?Hty. reflexivity.
Qed.

Lemma issue_input_load iw u input trace q tr st req tag tbl demux :
  Inputs u !! iw = Some input -> queue input = trace :: q ->
  mem u !! trace = Some tr -> lsu_type tr = LOAD ->
  states_ u !! block_of iw = Some st ->
  HashTable.full (pending_rd_reqs st) = false ->
  build_req tr false = Ok req ->
  HashTable.allocate (pending_rd_reqs st) (mkPending trace (LsuReq.mask req)) = Ok (tag, tbl) ->
  lsu_demux_ (core_ u) !! block_of iw = Some demux ->
  issue_input iw u = Ok (issued u iw st trace tr req tag tbl demux (Outputs u)).
Proof.
  intros Hin Hq Htr Hty Hst Hfull Hreq Hal Hd. unfold issue_input. fold (block_of iw).
  rewrite (vec_at_lookup _ _ _ Hin). simpl. rewrite Hq.
  rewrite (proj2 (deref_Ok _ _ _) Htr). simpl.
  rewrite (vec_at_lookup _ _ _ Hst). simpl. rewrite Hty. simpl. rewrite Hfull.
  match goal with
  | |- context [build_req ?t false] => change (build_req t false) with (build_req tr false)
  end.
  rewrite Hreq. simpl. rewrite Hal. simpl. rewrite (vec_at_lookup _ _ _ Hd). simpl.
  unfold issued, log_once, sent_req, push_req, with_table. cbn [snd].
  rewrite ?Hty. reflexivity.
Qed.

(** X11.  A STORE at the head of a lane whose block is not fence-locked
    issues at once, whatever the pending table holds (it may be full): the
    request goes to the request port of the block with [write] set, tag 0
    and the cid and uuid of the trace; the trace is popped and pushed to the
    output of the same lane with delay 1; [stores] grows by the number of
    active lanes, while the pending table, [pending_loads_] and [loads]
    stay as they are. *)
Theorem store_issues_at_once iw u input trace q tr st req demux out :
  Inputs u !! iw = Some input -> queue input = trace :: q ->
  mem u !! trace = Some tr -> lsu_type tr = STORE ->
  states_ u !! block_of iw = Some st -> fence_lock st = false ->
  build_req tr true = Ok req ->
  lsu_demux_ (core_ u) !! block_of iw = Some demux ->
  Outputs u !! iw = Some out ->
  exists u',
    tick_issue iw u = Ok u' /\
    Inputs u' = <[iw := port_pop input]> (Inputs u) /\
    Outputs u' = <[iw := mkPort (queue out) (sched out ++ [(trace, 1)])]> (Outputs u) /\
    lsu_demux_ (core_ u')
    = <[block_of iw :=
          LocalMemDemux.mk
            (mkPort (queue (LocalMemDemux.ReqIn demux))
               (sched (LocalMemDemux.ReqIn demux) ++
                [(LsuReq.mk (LsuReq.mask req) (LsuReq.addrs req) true 0 (cid tr) (uuid tr), 1)]))
            (LocalMemDemux.RspIn demux)]> (lsu_demux_ (core_ u)) /\
    states_ u' = states_ u /\
    pending_loads_ u' = pending_loads_ u /\
    perf_stats_ (core_ u')
    = mkPerf (load_latency (perf_stats_ (core_ u))) (loads (perf_stats_ (core_ u)))
             (wrap64 (stores (perf_stats_ (core_ u)) + popcount (LsuReq.mask req))).
Proof.
  intros Hin Hq Htr Hty Hst Hlock Hreq Hd Hout.
  eexists. split.
  - unfold tick_issue. rewrite (fence_unlock_free iw u st Hst Hlock). simpl.
    by apply (issue_input_store iw u input trace q tr st req demux out).
  - unfold issued. rewrite Hty. simpl. unfold ports_pop. rewrite Hin.
    split; [done|]. split; [done|]. split.
    + unfold push_req, sent_req. simpl.
      by rewrite (build_req_write tr true req Hreq).
    + rewrite with_table_same, list_insert_id by done. done.
Qed.

(** The table after the allocation of slot [j] for [trace]. *)
Definition table_with st (j : nat) (trace : trace_ptr) (m : N) : HashTable.t pending_req_t :=
  HashTable.mk (<[j := (true, mkPending trace m)]> (HashTable.entries_ (pending_rd_reqs st)))
               (HashTable.size_ (pending_rd_reqs st) + 1).

Lemma tick_issue_load iw u input trace q tr st req demux :
  Inputs u !! iw = Some input -> queue input = trace :: q ->
  mem u !! trace = Some tr -> lsu_type tr = LOAD ->
  states_ u !! block_of iw = Some st -> fence_lock st = false ->
  HashTable.wf (pending_rd_reqs st) -> HashTable.full (pending_rd_reqs st) = false ->
  build_req tr false = Ok req ->
  lsu_demux_ (core_ u) !! block_of iw = Some demux ->
  exists (j : nat),
    (exists x, HashTable.entries_ (pending_rd_reqs st) !! j = Some (false, x)) /\
    (forall j', (j' < j)%nat ->
       exists x, HashTable.entries_ (pending_rd_reqs st) !! j' = Some (true, x)) /\
    Z.of_nat j < 2 ^ 32 /\
    0 <= HashTable.size_ (pending_rd_reqs st) < 2 ^ 32 - 1 /\
    tick_issue iw u
    = Ok (issued u iw st trace tr req j (table_with st j trace (LsuReq.mask req)) demux
            (Outputs u)).
Proof.
  intros Hin Hq Htr Hty Hst Hlock Hwf Hfull Hreq Hd.
  destruct (HashTableProps.allocate_not_full (pending_rd_reqs st)
              (mkPending trace (LsuReq.mask req)) Hwf Hfull) as (j & tbl & Hal).
  pose proof (HashTableProps.allocate_Ok _ _ _ _ Hal) as (Hj & Hfree & Hused & Htbl).
  pose proof (HashTableProps.wf_size_range _ Hwf) as Hrange.
  destruct Hwf as [_ Hcap].
  assert (HashTable.size_ (pending_rd_reqs st)
          < Z.of_nat (length (HashTable.entries_ (pending_rd_reqs st)))) as Hlt.
  { unfold HashTable.full in Hfull.
    destruct (Z.eqb_spec (HashTable.size_ (pending_rd_reqs st))
                (Z.of_nat (length (HashTable.entries_ (pending_rd_reqs st))))); [done|lia]. }
  exists j. split; [done|]. split; [done|]. split; [lia|]. split; [lia|].
  unfold tick_issue. rewrite (fence_unlock_free iw u st Hst Hlock). simpl.
  rewrite (issue_input_load iw u input trace q tr st req j tbl demux) by done.
  rewrite Htbl. unfold table_with. by rewrite wrap32_small by lia.
Qed.

(** X12.  A LOAD at the head of a lane whose block is not fence-locked and
    whose pending table has a free slot issues: the trace is stored with
    the request's lane mask in the lowest free slot [j], and the request
    that goes to the request port of the block carries [j] as its tag (and
    the cid and uuid of the trace); the trace is popped but nothing is
    pushed to the outputs; [loads] and [pending_loads_] grow by the number
    of active lanes. *)
Theorem load_issues_with_slot_tag iw u input trace q tr st req demux :
  Inputs u !! iw = Some input -> queue input = trace :: q ->
  mem u !! trace = Some tr -> lsu_type tr = LOAD ->
  states_ u !! block_of iw = Some st -> fence_lock st = false ->
  HashTable.wf (pending_rd_reqs st) -> HashTable.full (pending_rd_reqs st) = false ->
  build_req tr false = Ok req ->
  lsu_demux_ (core_ u) !! block_of iw = Some demux ->
  exists (j : nat) u',
    tick_issue iw u = Ok u' /\
    (exists x, HashTable.entries_ (pending_rd_reqs st) !! j = Some (false, x)) /\
    (forall j', (j' < j)%nat ->
       exists x, HashTable.entries_ (pending_rd_reqs st) !! j' = Some (true, x)) /\
    states_ u'
    = <[block_of iw :=
          mkState (table_with st j trace (LsuReq.mask req)) (fence_trace st) false]>
        (states_ u) /\
    lsu_demux_ (core_ u')
    = <[block_of iw :=
          LocalMemDemux.mk
            (mkPort (queue (LocalMemDemux.ReqIn demux))
               (sched (LocalMemDemux.ReqIn demux) ++
                [(LsuReq.mk (LsuReq.mask req) (LsuReq.addrs req) false
                            (Z.of_nat j) (cid tr) (uuid tr), 1)]))
            (LocalMemDemux.RspIn demux)]> (lsu_demux_ (core_ u)) /\
    Inputs u' = <[iw := port_pop input]> (Inputs u) /\
    Outputs u' = Outputs u /\
    pending_loads_ u' = wrap64 (pending_loads_ u + popcount (LsuReq.mask req)) /\
    perf_stats_ (core_ u')
    = mkPerf (load_latency (perf_stats_ (core_ u)))
             (wrap64 (loads (perf_stats_ (core_ u)) + popcount (LsuReq.mask req)))
             (stores (perf_stats_ (core_ u))).
Proof.
  intros Hin Hq Htr Hty Hst Hlock Hwf Hfull Hreq Hd.
  destruct (tick_issue_load iw u input trace q tr st req demux)
    as (j & Hfree & Hused & Hj & Hsz & Hrun); try done.
  exists j. eexists. split; [exact Hrun|].
  split; [done|]. split; [done|].
  unfold issued. rewrite Hty. simpl. unfold ports_pop. rewrite Hin.
  split; [by unfold with_table; rewrite Hlock|].
  split; [|done]. unfold push_req, sent_req. simpl.
  rewrite wrap32_small by lia. by rewrite (build_req_write tr false req Hreq).
Qed.

(** X13.  The life of a load: after a LOAD has issued into slot [j], the
    response that carries tag [j] and the whole lane mask of the request
    releases it: the trace is pushed with delay 1 to the output of lane
    [wid mod ISSUE_WIDTH] (not necessarily the lane it issued from), slot
    [j] is free again, and the table's size, the set of slots in use and
    [pending_loads_] are back to what they were before the LOAD issued. *)
Theorem load_round_trip iw u input trace q tr st req demux :
  Inputs u !! iw = Some input -> queue input = trace :: q ->
  mem u !! trace = Some tr -> lsu_type tr = LOAD ->
  states_ u !! block_of iw = Some st -> fence_lock st = false ->
  HashTable.wf (pending_rd_reqs st) -> HashTable.full (pending_rd_reqs st) = false ->
  build_req tr false = Ok req -> LsuReq.mask req <> 0%N ->
  lsu_demux_ (core_ u) !! block_of iw = Some demux ->
  0 <= pending_loads_ u < 2 ^ 64 ->
  exists (j : nat) u1,
    tick_issue iw u = Ok u1 /\
    forall v demux1 rsp q1 out,
      states_ v = states_ u1 -> mem v = mem u1 -> pending_loads_ v = pending_loads_ u1 ->
      lsu_demux_ (core_ v) !! block_of iw = Some demux1 ->
      queue (LocalMemDemux.RspIn demux1) = rsp :: q1 ->
      wrap32 (LsuRsp.tag rsp) = Z.of_nat j -> LsuRsp.mask rsp = LsuReq.mask req ->
      Outputs v !! (wid tr mod ISSUE_WIDTH)%nat = Some out ->
      exists u2 st2,
        tick_rsp (block_of iw) v = Ok u2 /\
        Outputs u2
        = <[(wid tr mod ISSUE_WIDTH)%nat := mkPort (queue out) (sched out ++ [(trace, 1)])]>
            (Outputs v) /\
        states_ u2 !! block_of iw = Some st2 /\
        HashTable.contains (pending_rd_reqs st2) j = Ok false /\
        HashTable.size_ (pending_rd_reqs st2) = HashTable.size_ (pending_rd_reqs st) /\
        HashTable.allocated (pending_rd_reqs st2) = HashTable.allocated (pending_rd_reqs st) /\
        pending_loads_ u2 = pending_loads_ u.
Proof.
  intros Hin Hq Htr Hty Hst Hlock Hwf Hfull Hreq Hmask Hd Hpl.
  destruct (tick_issue_load iw u input trace q tr st req demux)
    as (j & [x Hfree] & Hused & Hj & Hsz & Hrun); try done.
  exists j. eexists. split; [exact Hrun|].
  intros v demux1 rsp q1 out Hsv Hmv Hplv Hd1 Hq1 Htag Hrm Hout.
  pose proof (lookup_lt_Some _ _ _ Hst) as Hb.
  pose proof (lookup_lt_Some _ _ _ Hfree) as Hjlt.
  assert (rsp_tag rsp = j) as Hrt by (unfold rsp_tag; rewrite Htag; lia).
  set (e := mkPending trace (LsuReq.mask req)).
  set (st1 := with_table (table_with st j trace (LsuReq.mask req)) st).
  assert (states_ v !! block_of iw = Some st1) as Hst1.
  { rewrite Hsv. unfold issued. simpl. by apply list_lookup_insert_eq. }
  assert (HashTable.entries_ (pending_rd_reqs st1) !! rsp_tag rsp = Some (true, e)) as He.
  { rewrite Hrt. unfold st1, table_with. simpl. by apply list_lookup_insert_eq. }
  assert (mem v !! trace = Some (snd (log_once false tr))) as Htr1.
  { rewrite Hmv. unfold issued. simpl. by rewrite lookup_insert_eq. }
  assert (N.ldiff (mask e) (LsuRsp.mask rsp) = 0%N) as Hz.
  { rewrite Hrm. simpl. apply N.ldiff_diag. }
  pose proof (tick_rsp_complete_run (block_of iw) v demux1 rsp q1 st1 e
                (snd (log_once false tr)) out Hd1 Hq1 Hst1 He Hmask Hz Htr1 Hout) as Hrsp.
  eexists. eexists. split; [exact Hrsp|].
  unfold after_rsp. simpl. split; [done|].
  split; [apply list_lookup_insert_eq; by rewrite Hsv; unfold issued; simpl; rewrite length_insert|].
  simpl. rewrite Hrt, list_insert_insert_eq.
  split; [|split; [|split]].
  - eapply HashTableLaws.contains_lookup. simpl. by apply list_lookup_insert_eq.
  - rewrite wrap32_small by lia. lia.
  - unfold HashTable.allocated. simpl. by eapply HashTableLaws.allocated_insert_free.
  - rewrite Hplv. unfold issued. rewrite Hty. simpl. rewrite Hrm.
    unfold wrap64. rewrite Zminus_mod_idemp_l.
    replace (pending_loads_ u + popcount (LsuReq.mask req) - popcount (LsuReq.mask req))
      with (pending_loads_ u) by lia.
    by apply Z.mod_small.
Qed.

(** X14.  A LOAD whose packet has no active lane still issues and takes
    a slot, with an empty lane mask, and [pending_loads_] does not grow;
    the response that comes back with the tag of that slot then fails the
    assertion on the mask: a response can never release such a slot. *)
Theorem load_without_lanes iw u input trace q tr st req demux :
  Inputs u !! iw = Some input -> queue input = trace :: q ->
  mem u !! trace = Some tr -> lsu_type tr = LOAD ->
  states_ u !! block_of iw = Some st -> fence_lock st = false ->
  HashTable.wf (pending_rd_reqs st) -> HashTable.full (pending_rd_reqs st) = false ->
  build_req tr false = Ok req -> LsuReq.mask req = 0%N ->
  lsu_demux_ (core_ u) !! block_of iw = Some demux ->
  exists (j : nat) u1 st1,
    tick_issue iw u = Ok u1 /\
    states_ u1 !! block_of iw = Some st1 /\
    HashTable.at_ (pending_rd_reqs st1) j = Ok (mkPending trace 0%N) /\
    HashTable.size_ (pending_rd_reqs st1) = HashTable.size_ (pending_rd_reqs st) + 1 /\
    pending_loads_ u1 = wrap64 (pending_loads_ u) /\
    forall (v : LsuUnit.t W) demux1 rsp q1,
      states_ v = states_ u1 ->
      lsu_demux_ (core_ v) !! block_of iw = Some demux1 ->
      queue (LocalMemDemux.RspIn demux1) = rsp :: q1 ->
      wrap32 (LsuRsp.tag rsp) = Z.of_nat j ->
      tick_rsp (block_of iw) v = Fault (FaultAssert AssertMaskNone).
Proof.
  intros Hin Hq Htr Hty Hst Hlock Hwf Hfull Hreq Hmask Hd.
  destruct (tick_issue_load iw u input trace q tr st req demux)
    as (j & [x Hfree] & Hused & Hj & Hsz & Hrun); try done.
  pose proof (lookup_lt_Some _ _ _ Hst) as Hb.
  pose proof (lookup_lt_Some _ _ _ Hfree) as Hjlt.
  exists j. eexists. exists (with_table (table_with st j trace (LsuReq.mask req)) st).
  split; [exact Hrun|].
  assert (HashTable.entries_ (table_with st j trace (LsuReq.mask req)) !! j
          = Some (true, mkPending trace 0%N)) as He.
  { unfold table_with. simpl. rewrite Hmask. by apply list_lookup_insert_eq. }
  split; [unfold issued; simpl; by apply list_lookup_insert_eq|].
  split; [by apply HashTableProps.at_Ok|]. split; [done|]. split.
  - unfold issued. rewrite Hty, Hmask. simpl. by rewrite Z.add_0_r.
  - intros v demux1 rsp q1 Hsv Hd1 Hq1 Htag.
    unfold tick_rsp. rewrite (vec_at_lookup _ _ _ Hd1). simpl. rewrite Hq1.
    assert (states_ v !! block_of iw
            = Some (with_table (table_with st j trace (LsuReq.mask req)) st)) as Hst1.
    { rewrite Hsv. unfold issued. simpl. by apply list_lookup_insert_eq. }
    rewrite (vec_at_lookup _ _ _ Hst1). simpl.
    rewrite Htag, Nat2Z.id.
    rewrite (proj2 (HashTableProps.at_Ok _ _ _) He). reflexivity.
Qed.

(** X15.  The responses are absorbed before the lanes issue: when the
    table of a block is full and the response at the head of its response
    port completes a load, a LOAD that waits on a lane of this block does
    not stall in this tick; it takes the slot that the response has just
    freed, and its request leaves with the tag of that slot. *)
Theorem freed_slot_reused iw u demux rsp q st e tr_old out input trace q' tr req :
  lsu_demux_ (core_ u) !! block_of iw = Some demux ->
  queue (LocalMemDemux.RspIn demux) = rsp :: q ->
  states_ u !! block_of iw = Some st -> fence_lock st = false ->
  HashTable.wf (pending_rd_reqs st) -> HashTable.full (pending_rd_reqs st) = true ->
  HashTable.entries_ (pending_rd_reqs st) !! rsp_tag rsp = Some (true, e) ->
  mask e <> 0%N -> N.ldiff (mask e) (LsuRsp.mask rsp) = 0%N ->
  mem u !! LsuUnit.trace e = Some tr_old ->
  Outputs u !! (wid tr_old mod ISSUE_WIDTH)%nat = Some out ->
  Inputs u !! iw = Some input -> queue input = trace :: q' ->
  mem u !! trace = Some tr -> lsu_type tr = LOAD ->
  build_req tr false = Ok req ->
  exists u1 u2 st2 demux2,
    tick_rsp (block_of iw) u = Ok u1 /\
    tick_issue iw u1 = Ok u2 /\
    Outputs u2
    = <[(wid tr_old mod ISSUE_WIDTH)%nat :=
          mkPort (queue out) (sched out ++ [(LsuUnit.trace e, 1)])]> (Outputs u) /\
    Inputs u2 = <[iw := port_pop input]> (Inputs u) /\
    states_ u2 !! block_of iw = Some st2 /\
    HashTable.at_ (pending_rd_reqs st2) (rsp_tag rsp)
    = Ok (mkPending trace (LsuReq.mask req)) /\
    HashTable.size_ (pending_rd_reqs st2) = HashTable.size_ (pending_rd_reqs st) /\
    lsu_demux_ (core_ u2) !! block_of iw = Some demux2 /\
    sched (LocalMemDemux.ReqIn demux2)
    = sched (LocalMemDemux.ReqIn demux) ++
      [(LsuReq.mk (LsuReq.mask req) (LsuReq.addrs req) false
                  (Z.of_nat (rsp_tag rsp)) (cid tr) (uuid tr), 1)].
Proof.
  intros Hd Hq Hst Hlock Hwf Hfull He Hmask Hz Hold Hout Hin Hq' Htr Hty Hreq.
  pose proof (tick_rsp_complete_run (block_of iw) u demux rsp q st e tr_old out
                Hd Hq Hst He Hmask Hz Hold Hout) as Hrsp.
  set (tbl1 := HashTable.mk
                 (<[rsp_tag rsp := (false, mkPending (LsuUnit.trace e) 0%N)]>
                    (HashTable.entries_ (pending_rd_reqs st)))
                 (wrap32 (HashTable.size_ (pending_rd_reqs st) - 1))) in *.
  set (u1 := after_rsp u (block_of iw) demux st rsp
               (<[(wid tr_old mod ISSUE_WIDTH)%nat :=
                    mkPort (queue out) (sched out ++ [(LsuUnit.trace e, 1)])]> (Outputs u))
               tbl1) in *.
  pose proof (lookup_lt_Some _ _ _ Hst) as Hb.
  pose proof (lookup_lt_Some _ _ _ Hd) as Hbd.
  pose proof (lookup_lt_Some _ _ _ He) as Htag.
  pose proof (wf_used_size _ _ _ Hwf He) as Hsize.
  assert (HashTable.size_ (pending_rd_reqs st)
          = Z.of_nat (length (HashTable.entries_ (pending_rd_reqs st)))) as Hcap.
  { unfold HashTable.full in Hfull. by apply Z.eqb_eq. }
  assert (HashTable.wf tbl1) as Hwf1.
  { pose proof (HashTableProps.store_wf _ (rsp_tag rsp) e (mkPending (LsuUnit.trace e) 0%N)
                  Hwf He) as Hw.
    apply (HashTableProps.release_wf _ (rsp_tag rsp) _ Hw).
    apply HashTableProps.release_Ok. exists (mkPending (LsuUnit.trace e) 0%N). simpl.
    split; [by apply list_lookup_insert_eq|].
    unfold tbl1. by rewrite list_insert_insert_eq. }
  assert (HashTable.full tbl1 = false) as Hfull1.
  { unfold HashTable.full, tbl1. simpl. rewrite length_insert, wrap32_small by lia.
    apply Z.eqb_neq. lia. }
  destruct (tick_issue_load iw u1 input trace q' tr (with_table tbl1 st) req (pop_rsp demux))
    as (j & [x Hfree] & Hused & Hj & Hsz & Hrun); try done.
  { unfold u1, after_rsp. simpl. by apply list_lookup_insert_eq. }
  { unfold u1, after_rsp. simpl. by apply list_lookup_insert_eq. }
  assert (j = rsp_tag rsp) as ->.
  { destruct (decide (j = rsp_tag rsp)) as [|Hne]; [done|]. exfalso.
    unfold tbl1 in Hfree. simpl in Hfree. rewrite list_lookup_insert_ne in Hfree by done.
    pose proof (proj1 (HashTableProps.full_spec _ Hwf) Hfull j _ Hfree) as Hb'.
    discriminate Hb'. }
  exists u1. eexists.
  exists (with_table (table_with (with_table tbl1 st) (rsp_tag rsp) trace (LsuReq.mask req))
            (with_table tbl1 st)).
  exists (push_req (sent_req tr req (rsp_tag rsp)) (pop_rsp demux)).
  split; [exact Hrsp|]. split; [exact Hrun|].
  unfold issued. rewrite Hty. simpl. unfold ports_pop. rewrite Hin.
  split; [done|]. split; [done|].
  split; [apply list_lookup_insert_eq; by rewrite length_insert|].
  split; [apply HashTableProps.at_Ok; simpl; apply list_lookup_insert_eq;
          by rewrite length_insert|].
  split; [rewrite wrap32_small by lia; lia|].
  split; [apply list_lookup_insert_eq; by rewrite length_insert|].
  unfold sent_req. simpl. rewrite wrap32_small by lia.
  by rewrite (build_req_write tr false req Hreq).
Qed.

(** X16.  The response loop indexes the pending table of the block with
    the 64-bit tag of the response narrowed to 32 bits.  A response whose
    narrowed tag is at or past the capacity of the table throws
    [std::out_of_range], and one whose narrowed tag names a free slot fails
    the assertion of [HashTable::at]; a tick that finds such a response at
    the head of the response port of one of its blocks does not complete.
    A tag that names a slot in use only once it is narrowed ([2^32 + j]
    for slot [j]) does not throw: the response is absorbed for that
    slot. *)
Theorem stale_response_faults b u demux rsp q st :
  lsu_demux_ (core_ u) !! b = Some demux ->
  queue (LocalMemDemux.RspIn demux) = rsp :: q ->
  states_ u !! b = Some st ->
  rsp_tag rsp = Z.to_nat (LsuRsp.tag rsp mod 2 ^ 32) /\
  ((length (HashTable.entries_ (pending_rd_reqs st)) <= rsp_tag rsp)%nat ->
   tick_rsp b u = Fault FaultOutOfRange /\
   ((b < NUM_LSU_BLOCKS)%nat -> forall u', tick u <> Ok u')) /\
  (forall x, HashTable.entries_ (pending_rd_reqs st) !! rsp_tag rsp = Some (false, x) ->
     tick_rsp b u = Fault (FaultAssert AssertEntryFirst) /\
     ((b < NUM_LSU_BLOCKS)%nat -> forall u', tick u <> Ok u')) /\
  (forall e, HashTable.entries_ (pending_rd_reqs st) !! rsp_tag rsp = Some (true, e) ->
     N.ldiff (mask e) (LsuRsp.mask rsp) <> 0%N ->
     tick_rsp b u
     = Ok (after_rsp u b demux st rsp (Outputs u)
             (HashTable.store (pending_rd_reqs st) (rsp_tag rsp)
                (mkPending (LsuUnit.trace e) (N.ldiff (mask e) (LsuRsp.mask rsp)))))).
Proof.
  intros Hd Hq Hst.
  assert (forall (v : LsuUnit.t W),
            lsu_demux_ (core_ v) !! b = Some demux -> states_ v !! b = Some st ->
            (length (HashTable.entries_ (pending_rd_reqs st)) <= rsp_tag rsp)%nat ->
            tick_rsp b v = Fault FaultOutOfRange) as Hbig.
  { intros v Hdv Hsv Hlen. unfold tick_rsp.
    rewrite (vec_at_lookup _ _ _ Hdv). simpl. rewrite Hq.
    rewrite (vec_at_lookup _ _ _ Hsv). simpl. fold (rsp_tag rsp).
    unfold HashTable.at_, vec_at. by rewrite (lookup_ge_None_2 _ _ Hlen). }
  assert (forall (v : LsuUnit.t W) x,
            lsu_demux_ (core_ v) !! b = Some demux -> states_ v !! b = Some st ->
            HashTable.entries_ (pending_rd_reqs st) !! rsp_tag rsp = Some (false, x) ->
            tick_rsp b v = Fault (FaultAssert AssertEntryFirst)) as Hfree.
  { intros v x Hdv Hsv Hx. unfold tick_rsp.
    rewrite (vec_at_lookup _ _ _ Hdv). simpl. rewrite Hq.
    rewrite (vec_at_lookup _ _ _ Hsv). simpl. fold (rsp_tag rsp).
    unfold HashTable.at_. by rewrite (vec_at_lookup _ _ _ Hx). }
  assert (forall flt,
            (forall (v : LsuUnit.t W),
               lsu_demux_ (core_ v) !! b = Some demux -> states_ v !! b = Some st ->
               tick_rsp b v = Fault flt) ->
            (b < NUM_LSU_BLOCKS)%nat -> forall u', tick u <> Ok u') as Htick.
  { intros flt Hflt Hb u' Hrun.
    destruct (tick_at_block b u u' Hb Hrun)
      as (before & after & mid & _ & H2 & _ & _ & _ & Hdb & Hsb & _).
    rewrite (Hflt before) in H2; [discriminate H2|congruence|congruence]. }
  split; [reflexivity|]. split; [|split].
  - intros Hlen. split; [by apply Hbig|].
    apply (Htick FaultOutOfRange). intros v Hdv Hsv. by apply Hbig.
  - intros x Hx. split; [by eapply Hfree|].
    apply (Htick (FaultAssert AssertEntryFirst)). intros v Hdv Hsv. by eapply Hfree.
  - intros e He Hrem. by apply (tick_rsp_partial_run b u demux rsp q st e).
Qed.

(** X17.  A tick of an LSU on which nothing can move only accumulates the
    load latency: when no block has a response waiting and every lane is
    either empty with its block unlocked, or held by a fence that still
    waits for loads, the tick changes nothing but [load_latency]. *)
Theorem lsu_quiet_tick u :
  (forall b, (b < NUM_LSU_BLOCKS)%nat ->
     exists demux, lsu_demux_ (core_ u) !! b = Some demux /\
                   queue (LocalMemDemux.RspIn demux) = []) ->
  (forall iw, (iw < ISSUE_WIDTH)%nat ->
     exists st, states_ u !! block_of iw = Some st /\
       ((fence_lock st = true /\ HashTable.empty (pending_rd_reqs st) = false) \/
        (fence_lock st = false /\
         exists input, Inputs u !! iw = Some input /\ queue input = []))) ->
  tick u = Ok (tick_stats u) /\
  load_latency (perf_stats_ (core_ (tick_stats u)))
  = wrap64 (load_latency (perf_stats_ (core_ u)) + pending_loads_ u) /\
  Inputs (tick_stats u) = Inputs u /\ Outputs (tick_stats u) = Outputs u /\
  states_ (tick_stats u) = states_ u /\ pending_loads_ (tick_stats u) = pending_loads_ u /\
  lsu_demux_ (core_ (tick_stats u)) = lsu_demux_ (core_ u).
Proof.
  intros Hrsp Hlanes. split; [|done].
  unfold tick. rewrite for_range_id.
  - simpl. apply for_range_id. intros iw Hiw.
    destruct (Hlanes iw) as (st & Hst & Hcase); [lia|].
    unfold tick_issue.
    destruct Hcase as [[Hlock Hemp]|(Hlock & input & Hin & Hq)].
    + by rewrite (fence_unlock_wait iw (tick_stats u) st Hst Hlock Hemp).
    + rewrite (fence_unlock_free iw (tick_stats u) st Hst Hlock). simpl.
      unfold issue_input. simpl. rewrite (vec_at_lookup _ _ _ Hin). simpl.
      by rewrite Hq.
  - intros b Hb. destruct (Hrsp b) as (demux & Hd & Hq); [lia|].
    unfold tick_rsp. simpl. rewrite (vec_at_lookup _ _ _ Hd). simpl. by rewrite Hq.
Qed.

End LsuIssue.

Lemma store_issues_at_once_witness :
  exists u',
    tick_issue (cfg:=Scenario.cfg) 1 Examples.lsu_store = Ok u' /\
    Outputs u' = [port_new; mkPort [] [(4%N, 1)]] /\
    states_ u' = states_ Examples.lsu_store /\
    perf_stats_ (core_ u') = mkPerf 0 0 2.
Proof.
  destruct (store_issues_at_once (cfg:=Scenario.cfg) 1 Examples.lsu_store
              (mkPort [4%N] []) 4%N [] Examples.store_trace
              (mkState (HashTable.mk [(true, mkPending 1%N 15%N); (true, mkPending 1%N 3%N)] 2)
                       0%N false)
              (LsuReq.mk 5%N [100; 0; 108; 0] true 0 0 0)
              (LocalMemDemux.mk port_new port_new) port_new
              eq_refl eq_refl eq_refl eq_refl eq_refl eq_refl eq_refl eq_refl eq_refl)
    as (u' & Hrun & _ & Hout & _ & Hst & _ & Hps).
  exists u'. split; [exact Hrun|]. split; [exact Hout|]. split; [exact Hst|exact Hps].
Defined.

Lemma load_issues_with_slot_tag_witness :
  exists (j : nat) u',
    tick_issue (cfg:=Scenario.cfg) 0 Scenario.lsu0 = Ok u' /\
    lsu_demux_ (core_ u')
    = [LocalMemDemux.mk
         (mkPort [] [(LsuReq.mk 15%N [100; 104; 108; 112] false (Z.of_nat j) 0 7, 1)])
         port_new] /\
    Outputs u' = Outputs Scenario.lsu0 /\
    pending_loads_ u' = 4.
Proof.
  assert (HashTable.wf (HashTable.new 2 Scenario.no_entry)) as Hwf
    by (apply HashTableProps.new_wf; lia).
  destruct (load_issues_with_slot_tag (cfg:=Scenario.cfg) 0 Scenario.lsu0
              (mkPort [1%N] []) 1%N [] (Scenario.load_trace 7)
              (mkState (HashTable.new 2 Scenario.no_entry) 0%N false)
              (LsuReq.mk 15%N [100; 104; 108; 112] false 0 0 0)
              (LocalMemDemux.mk port_new port_new)
              eq_refl eq_refl eq_refl eq_refl eq_refl eq_refl Hwf eq_refl eq_refl eq_refl)
    as (j & u' & Hrun & _ & _ & _ & Hd & _ & Hout & Hpl & _).
  exists j, u'. split; [exact Hrun|]. split; [exact Hd|]. split; [exact Hout|exact Hpl].
Defined.

Lemma load_round_trip_witness :
  exists (j : nat) u1,
    tick_issue (cfg:=Scenario.cfg) 0 Scenario.lsu0 = Ok u1 /\
    forall (v : LsuUnit.t unit) demux1 rsp q1 out,
      states_ v = states_ u1 -> mem v = mem u1 -> pending_loads_ v = pending_loads_ u1 ->
      lsu_demux_ (core_ v) !! 0%nat = Some demux1 ->
      queue (LocalMemDemux.RspIn demux1) = rsp :: q1 ->
      wrap32 (LsuRsp.tag rsp) = Z.of_nat j -> LsuRsp.mask rsp = 15%N ->
      Outputs v !! 0%nat = Some out ->
      exists u2 st2,
        tick_rsp (cfg:=Scenario.cfg) 0 v = Ok u2 /\
        Outputs u2
        = <[0%nat := mkPort (queue out) (sched out ++ [(1%N, 1)])]> (Outputs v) /\
        states_ u2 !! 0%nat = Some st2 /\
        HashTable.contains (pending_rd_reqs st2) j = Ok false /\
        HashTable.size_ (pending_rd_reqs st2) = 0 /\
        HashTable.allocated (pending_rd_reqs st2) = [] /\
        pending_loads_ u2 = 0.
Proof.
  assert (HashTable.wf (HashTable.new 2 Scenario.no_entry)) as Hwf
    by (apply HashTableProps.new_wf; lia).
  apply (load_round_trip (cfg:=Scenario.cfg) 0 Scenario.lsu0
           (mkPort [1%N] []) 1%N [] (Scenario.load_trace 7)
           (mkState (HashTable.new 2 Scenario.no_entry) 0%N false)
           (LsuReq.mk 15%N [100; 104; 108; 112] false 0 0 0)
           (LocalMemDemux.mk port_new port_new)
           eq_refl eq_refl eq_refl eq_refl eq_refl eq_refl Hwf eq_refl eq_refl).
  - discriminate.
  - reflexivity.
  - simpl. lia.
Defined.

Lemma load_without_lanes_witness :
  exists (j : nat) u1 st1,
    tick_issue (cfg:=Scenario.cfg) 0 Examples.lsu_nolane = Ok u1 /\
    states_ u1 !! 0%nat = Some st1 /\
    HashTable.at_ (pending_rd_reqs st1) j = Ok (mkPending 5%N 0%N) /\
    HashTable.size_ (pending_rd_reqs st1) = 1 /\
    pending_loads_ u1 = 0.
Proof.
  assert (HashTable.wf (HashTable.new 2 Scenario.no_entry)) as Hwf
    by (apply HashTableProps.new_wf; lia).
  destruct (load_without_lanes (cfg:=Scenario.cfg) 0 Examples.lsu_nolane
              (mkPort [5%N] []) 5%N [] Examples.nolane_trace
              (mkState (HashTable.new 2 Scenario.no_entry) 0%N false)
              (LsuReq.mk 0%N [0; 0; 0; 0] false 0 0 0)
              (LocalMemDemux.mk port_new port_new)
              eq_refl eq_refl eq_refl eq_refl eq_refl eq_refl Hwf eq_refl eq_refl eq_refl
              eq_refl)
    as (j & u1 & st1 & Hrun & Hst & Hat & Hsz & Hpl & _).
  exists j, u1, st1. split; [exact Hrun|]. split; [exact Hst|]. split; [exact Hat|].
  split; [exact Hsz|exact Hpl].
Defined.

Lemma freed_slot_reused_witness :
  exists u1 u2 st2,
    tick_rsp (cfg:=Scenario.cfg) 0 Examples.lsu_full_rsp = Ok u1 /\
    tick_issue (cfg:=Scenario.cfg) 0 u1 = Ok u2 /\
    Inputs u2 = [mkPort [] []; port_new] /\
    states_ u2 !! 0%nat = Some st2 /\
    HashTable.at_ (pending_rd_reqs st2) 1 = Ok (mkPending 3%N 15%N) /\
    HashTable.size_ (pending_rd_reqs st2) = 2.
Proof.
  assert (HashTable.wf
            (HashTable.mk [(true, mkPending 1%N 15%N); (true, mkPending 1%N 3%N)] 2)) as Hwf
    by (split; simpl; [reflexivity|lia]).
  destruct (freed_slot_reused (cfg:=Scenario.cfg) 0 Examples.lsu_full_rsp
              (LocalMemDemux.mk port_new (mkPort [LsuRsp.mk 3%N 1 0 7] []))
              (LsuRsp.mk 3%N 1 0 7) []
              (mkState (HashTable.mk [(true, mkPending 1%N 15%N); (true, mkPending 1%N 3%N)] 2)
                       0%N false)
              (mkPending 1%N 3%N) (Scenario.load_trace 7) port_new
              (mkPort [3%N] []) 3%N [] (Scenario.load_trace 8)
              (LsuReq.mk 15%N [100; 104; 108; 112] false 0 0 0)
              eq_refl eq_refl eq_refl eq_refl Hwf eq_refl eq_refl ltac:(discriminate)
              eq_refl eq_refl eq_refl eq_refl eq_refl eq_refl eq_refl eq_refl)
    as (u1 & u2 & st2 & demux2 & H1 & H2 & _ & H3 & H4 & H5 & H6 & _).
  exists u1, u2, st2. split; [exact H1|]. split; [exact H2|]. split; [exact H3|].
  split; [exact H4|]. split; [exact H5|exact H6].
Defined.

Lemma stale_response_faults_witness :
  (exists u1,
     tick (cfg:=Scenario.cfg) Examples.lsu_dup = Ok u1 /\
     tick_rsp (cfg:=Scenario.cfg) 0 u1 = Fault (FaultAssert AssertEntryFirst) /\
     forall u', tick (cfg:=Scenario.cfg) u1 <> Ok u') /\
  rsp_tag (LsuRsp.mk 3%N (2 ^ 32) 0 7) = 0%nat /\
  exists u1,
    tick_rsp (cfg:=Scenario.cfg) 0 Examples.lsu_alias = Ok u1 /\
    holds u1 0 0 (mkPending 1%N 12%N).
Proof.
  split; [|split].
  - destruct (tick (cfg:=Scenario.cfg) Examples.lsu_dup) as [u1|f] eqn:E;
      [|vm_compute in E; discriminate E].
    vm_compute in E. injection E as <-.
    eexists. split; [reflexivity|].
    match goal with
    | |- tick_rsp 0 ?v = _ /\ _ =>
        destruct (proj1 (proj2 (proj2 (stale_response_faults (cfg:=Scenario.cfg) 0 v
                           (LocalMemDemux.mk port_new (mkPort [LsuRsp.mk 15%N 0 0 7] []))
                           (LsuRsp.mk 15%N 0 0 7) []
                           (mkState (HashTable.mk [(false, mkPending 1%N 0%N);
                                                   (false, Scenario.no_entry)] 0) 0%N false)
                           eq_refl eq_refl eq_refl)))
                  (mkPending 1%N 0%N) eq_refl) as [Hrsp Htick]
    end.
    split; [exact Hrsp|]. apply Htick. simpl. lia.
  - exact (proj1 (stale_response_faults (cfg:=Scenario.cfg) 0 Examples.lsu_alias
                    (LocalMemDemux.mk port_new (mkPort [LsuRsp.mk 3%N (2 ^ 32) 0 7] []))
                    (LsuRsp.mk 3%N (2 ^ 32) 0 7) []
                    (mkState (HashTable.mk [(true, mkPending 1%N 15%N);
                                            (false, Scenario.no_entry)] 1) 0%N false)
                    eq_refl eq_refl eq_refl)).
  - eexists. split.
    + exact (proj2 (proj2 (proj2 (stale_response_faults (cfg:=Scenario.cfg) 0
                       Examples.lsu_alias
                       (LocalMemDemux.mk port_new (mkPort [LsuRsp.mk 3%N (2 ^ 32) 0 7] []))
                       (LsuRsp.mk 3%N (2 ^ 32) 0 7) []
                       (mkState (HashTable.mk [(true, mkPending 1%N 15%N);
                                               (false, Scenario.no_entry)] 1) 0%N false)
                       eq_refl eq_refl eq_refl)))
                    (mkPending 1%N 15%N) eq_refl ltac:(vm_compute; discriminate)).
    + eexists. split; reflexivity.
Defined.

Lemma lsu_quiet_tick_witness :
  tick (cfg:=Scenario.cfg) Examples.lsu_idle = Ok (tick_stats Examples.lsu_idle).
Proof.
  apply (lsu_quiet_tick (cfg:=Scenario.cfg) Examples.lsu_idle).
  - intros b Hb. exists (LocalMemDemux.mk port_new port_new).
    destruct b as [|b]; [done|]. simpl in Hb. lia.
  - intros iw Hiw. exists (mkState (HashTable.new 2 Scenario.no_entry) 0%N false).
    split; [by destruct iw as [|[|iw]]|]. right. split; [done|].
    exists port_new. destruct iw as [|[|iw]]; [done|done|]. simpl in Hiw. lia.
Defined.

End LsuIssue.

(** ** SfuUnit: the other arms of the dispatch, and the pending responses *)

Module SfuDispatch.
Import SfuUnit SfuUnitProps.
Section SfuDispatch.
Context {cfg : Config} {W : Type} `{WarpScheduler W}.
Implicit Types (u : SfuUnit.t W) (h : trace_heap).

(** The operations that the SFU completes by itself, without a callback. *)
Definition plain_op (ty : SfuType) : bool :=
  match ty with
  | TMC | SPLIT | JOIN | PRED | CSRRW | CSRRS | CSRRC => true
  | _ => false
  end.

(** The core after the lane: [resume(wid)] iff [eop && fetch_stall]. *)
Definition resumed (tr : instr_trace) (c : Core W) : Core W :=
  if eop tr && fetch_stall tr then Core_resume (wid tr) c else c.

(** X18.  A TMC, SPLIT, JOIN, PRED, CSRRW, CSRRS or CSRRC trace at the
    head of an SFU lane is popped and pushed to the output of its lane with
    delay 4; the raster, texture and output-merger units are not touched,
    and the only call into the core is [resume(wid)], made iff the trace
    has both [eop] and [fetch_stall] set. *)
Theorem sfu_plain_ops h (iw : nat) u input trace q tr out :
  Inputs u !! iw = Some input -> queue input = trace :: q ->
  Outputs u !! iw = Some out -> h !! trace = Some tr ->
  plain_op (sfu_type tr) = true ->
  tick_lane h iw u
  = Ok (mk (<[iw := port_pop input]> (Inputs u))
           (<[iw := mkPort (queue out) (sched out ++ [(trace, 4)])]> (Outputs u))
           (resumed tr (core_ u))
           (raster_units_ u) (tex_units_ u) (om_units_ u) (pending_rsps_ u)) /\
  calls_ (resumed tr (core_ u))
  = calls_ (core_ u) ++ (if eop tr && fetch_stall tr then [CallResume (wid tr)] else []).
Proof.
  intros Hin Hq Hout Htr Hty. split.
  - assert (ports_push (Outputs u) iw trace (2 + 2)
            = Ok (<[iw := mkPort (queue out) (sched out ++ [(trace, 4)])]> (Outputs u)))
      as Hpush.
    { apply ports_push_Ok. exists out. split; [done|]. split; [lia|done]. }
    unfold tick_lane. rewrite (vec_at_lookup _ _ _ Hin). simpl. rewrite Hq.
    rewrite (vec_at_lookup _ _ _ Hout). simpl.
    rewrite (proj2 (deref_Ok _ _ _) Htr). simpl.
    unfold dispatch, resumed.
    destruct (sfu_type tr); try discriminate Hty; rewrite Hpush; simpl;
      unfold ports_pop; rewrite Hin; reflexivity.
  - unfold resumed. destruct (eop tr && fetch_stall tr); simpl; [done|].
    by rewrite app_nil_r.
Qed.

(** The three kinds of units behind the SFU. *)
Inductive unit_kind := RasterUnit | TexUnit | OMUnit.

(** The unit a RASTER, TEX or OM trace names, when its payload is of the
    class that the operation expects. *)
Definition target (tr : instr_trace) : option (unit_kind * nat) :=
  match sfu_type tr, data tr with
  | RASTER, Some (RasterTraceData i) => Some (RasterUnit, i)
  | TEX, Some (TexTraceData i) => Some (TexUnit, i)
  | OM, Some (OMTraceData i) => Some (OMUnit, i)
  | _, _ => None
  end.

Definition is_unit_op (ty : SfuType) : bool :=
  match ty with RASTER | TEX | OM => true | _ => false end.

Definition units_of (k : unit_kind) u : list Coprocessor :=
  match k with
  | RasterUnit => raster_units_ u
  | TexUnit => tex_units_ u
  | OMUnit => om_units_ u
  end.

Definition with_units (k : unit_kind) (units : list Coprocessor) u : SfuUnit.t W :=
  match k with
  | RasterUnit => mk (Inputs u) (Outputs u) (core_ u) units (tex_units_ u) (om_units_ u)
                     (pending_rsps_ u)
  | TexUnit => mk (Inputs u) (Outputs u) (core_ u) (raster_units_ u) units (om_units_ u)
                  (pending_rsps_ u)
  | OMUnit => mk (Inputs u) (Outputs u) (core_ u) (raster_units_ u) (tex_units_ u) units
                 (pending_rsps_ u)
  end.

(** X19.  A RASTER, TEX or OM trace at the head of an SFU lane is handed
    to the unit that its payload names: it is popped and pushed to the
    [Input] port of that unit with delay 2, nothing is pushed to the
    output of the lane, and [resume(wid)] is called iff [eop] and
    [fetch_stall] are set.  A unit index past the end of the vector throws
    [std::out_of_range], and a payload of another class is a null pointer
    dereference. *)
Theorem sfu_forwards_to_unit h (iw : nat) u input trace q tr out :
  Inputs u !! iw = Some input -> queue input = trace :: q ->
  Outputs u !! iw = Some out -> h !! trace = Some tr ->
  is_unit_op (sfu_type tr) = true ->
  (forall k idx c,
     target tr = Some (k, idx) -> units_of k u !! idx = Some c ->
     tick_lane h iw u
     = Ok (with_units k
             (<[idx := mkCoproc (mkPort (queue (Input c)) (sched (Input c) ++ [(trace, 2)]))
                                (Output c)]> (units_of k u))
             (mk (<[iw := port_pop input]> (Inputs u)) (Outputs u) (resumed tr (core_ u))
                 (raster_units_ u) (tex_units_ u) (om_units_ u) (pending_rsps_ u)))) /\
  (forall k idx,
     target tr = Some (k, idx) -> (length (units_of k u) <= idx)%nat ->
     tick_lane h iw u = Fault FaultOutOfRange) /\
  (target tr = None -> tick_lane h iw u = Fault FaultNull).
Proof.
  intros Hin Hq Hout Htr Hop.
  assert (tick_lane h iw u
          = '(u1, release_warp) ← dispatch iw trace tr u;
            mret (mk (ports_pop (Inputs u1) iw) (Outputs u1)
                     (if eop tr && (release_warp : bool)
                      then Core_resume (wid tr) (core_ u1) else core_ u1)
                     (raster_units_ u1) (tex_units_ u1) (om_units_ u1) (pending_rsps_ u1)))
    as ->.
  { unfold tick_lane. rewrite (vec_at_lookup _ _ _ Hin). simpl. rewrite Hq.
    rewrite (vec_at_lookup _ _ _ Hout). simpl.
    by rewrite (proj2 (deref_Ok _ _ _) Htr). }
  unfold dispatch, target, resumed.
  split; [|split].
  - intros k idx c Htg Hc.
    destruct (sfu_type tr); try discriminate Hop;
      destruct (data tr) as [[| | | |]|]; try discriminate Htg;
      injection Htg as <- <-; simpl in Hc |- *;
      unfold push_input; rewrite (vec_at_lookup _ _ _ Hc); simpl;
      unfold ports_pop; rewrite Hin; reflexivity.
  - intros k idx Htg Hlen.
    destruct (sfu_type tr); try discriminate Hop;
      destruct (data tr) as [[| | | |]|]; try discriminate Htg;
      injection Htg as <- <-; simpl in Hlen |- *;
      unfold push_input, vec_at; rewrite (lookup_ge_None_2 _ _ Hlen); reflexivity.
  - intros Htg.
    destruct (sfu_type tr); try discriminate Hop;
      destruct (data tr) as [[| | | |]|]; try discriminate Htg; reflexivity.
Qed.

(** X20.  CMOV is not handled by the SFU: a CMOV trace at the head of a
    lane aborts the program when its lane is visited, so a tick that
    starts with a CMOV at the head of any lane never completes. *)
Theorem sfu_cmov_aborts h (iw : nat) u input trace q tr :
  Inputs u !! iw = Some input -> queue input = trace :: q ->
  h !! trace = Some tr -> sfu_type tr = CMOV -> (iw < ISSUE_WIDTH)%nat ->
  (forall out, Outputs u !! iw = Some out -> tick_lane h iw u = Fault FaultAbort) /\
  (forall u', tick h u <> Ok u').
Proof.
  intros Hin Hq Htr Hty Hiw.
  assert (forall t, Inputs t !! iw = Some input -> forall t', tick_lane h iw t <> Ok t')
    as Hlane.
  { intros t Hint t' Hrun. unfold tick_lane in Hrun.
    rewrite (vec_at_lookup _ _ _ Hint) in Hrun. simpl in Hrun. rewrite Hq in Hrun.
    apply res_bind_Ok in Hrun as (out & _ & Hrun).
    rewrite (proj2 (deref_Ok _ _ _) Htr) in Hrun. simpl in Hrun.
    unfold dispatch in Hrun. rewrite Hty in Hrun. discriminate Hrun. }
  split.
  - intros out Hout. unfold tick_lane.
    rewrite (vec_at_lookup _ _ _ Hin). simpl. rewrite Hq.
    rewrite (vec_at_lookup _ _ _ Hout). simpl.
    rewrite (proj2 (deref_Ok _ _ _) Htr). simpl.
    unfold dispatch. by rewrite Hty.
  - intros u' Hrun. unfold tick in Hrun.
    apply res_bind_Ok in Hrun as (u1 & Hp & Hrun).
    apply tick_pendings_inputs in Hp.
    apply (for_range_inv
      (fun k t => if decide (k <= iw)%nat then Inputs t !! iw = Some input else False))
      in Hrun.
    + simpl in Hrun. destruct (decide (ISSUE_WIDTH <= iw)%nat); [lia|done].
    + destruct (decide (0 <= iw)%nat); [|lia]. by rewrite Hp.
    + intros i t t' Hi Ht Hstep.
      destruct (decide (i <= iw)%nat) as [Hle|]; [|done].
      destruct (decide (S i <= iw)%nat) as [Hlt|Hge].
      * rewrite (sfu_lane_frame h i t t' Hstep) by lia. done.
      * assert (i = iw) as -> by lia. by apply (Hlane t Ht t').
Qed.

(** The port a pending-response pointer refers to, in the unit [u']. *)
Definition popped (r : output_ref) u : SfuUnit.t W :=
  match r with
  | RasterOutput i =>
      mk (Inputs u) (Outputs u) (core_ u) (update_at pop_output i (raster_units_ u))
         (tex_units_ u) (om_units_ u) (pending_rsps_ u)
  | TexOutput i =>
      mk (Inputs u) (Outputs u) (core_ u) (raster_units_ u)
         (update_at pop_output i (tex_units_ u)) (om_units_ u) (pending_rsps_ u)
  | OMOutput i =>
      mk (Inputs u) (Outputs u) (core_ u) (raster_units_ u) (tex_units_ u)
         (update_at pop_output i (om_units_ u)) (pending_rsps_ u)
  end.

Lemma get_output_popped (r : output_ref) u p :
  get_output u r = Ok p -> get_output (popped r u) r = Ok (port_pop p).
Proof.
  destruct r as [i|i|i]; simpl; intros Hp;
    apply res_bind_Ok in Hp as (c & Hc & Hp); apply vec_at_Ok in Hc;
    injection Hp as <-; unfold update_at; rewrite Hc;
    (rewrite (vec_at_lookup _ _ (pop_output c));
      [done|apply list_lookup_insert_eq; by eapply lookup_lt_Some]).
Qed.

(** X21.  The response at the head of the [Output] port of a raster,
    texture or output-merger unit:
    - when its trace belongs to this core, it is popped from the unit and
      pushed with delay 1 to the SFU output of lane [wid mod ISSUE_WIDTH];
    - when its trace belongs to another core, it stays where it is and
      nothing changes: it is left for the SFU of that core. *)
Theorem sfu_pending_response h (r : output_ref) u p trace q tr :
  get_output u r = Ok p -> queue p = trace :: q -> h !! trace = Some tr ->
  (cid tr <> core_id (core_ u) -> tick_pending h r u = Ok u) /\
  (cid tr = core_id (core_ u) ->
   forall out, Outputs u !! (wid tr mod ISSUE_WIDTH)%nat = Some out ->
     tick_pending h r u
     = Ok (set_outputs
             (<[(wid tr mod ISSUE_WIDTH)%nat :=
                  mkPort (queue out) (sched out ++ [(trace, 1)])]> (Outputs u))
             (popped r u)) /\
     get_output (popped r u) r = Ok (mkPort q (sched p))).
Proof.
  intros Hp Hq Htr. split.
  - intros Hcid. unfold tick_pending. rewrite Hp. simpl. rewrite Hq.
    rewrite (proj2 (deref_Ok _ _ _) Htr). simpl.
    destruct (Z.eqb_spec (cid tr) (core_id (core_ u))); [done|reflexivity].
  - intros Hcid out Hout. split.
    + unfold tick_pending. rewrite Hp. simpl. rewrite Hq.
      rewrite (proj2 (deref_Ok _ _ _) Htr). simpl.
      destruct (Z.eqb_spec (cid tr) (core_id (core_ u))) as [_|]; [|done]. simpl.
      unfold ports_push. rewrite (vec_at_lookup _ _ _ Hout). simpl.
      by destruct r.
    + rewrite (get_output_popped r u p Hp). unfold port_pop. by rewrite Hq.
Qed.

#[local] Instance output_ref_eq_dec : EqDecision output_ref.
Proof. solve_decision. Defined.

(** What the visit of the port [r] pushes to the output of lane [l]. *)
Definition rsp_for h u (l : nat) (r : output_ref) : list (trace_ptr * Z) :=
  match get_output u r with
  | Ok p =>
      match queue p with
      | trace :: _ =>
          match h !! trace with
          | Some tr =>
              if (cid tr =? core_id (core_ u)) && (wid tr mod ISSUE_WIDTH =? l)%nat
              then [(trace, 1)] else []
          | None => []
          end
      | [] => []
      end
  | Fault _ => []
  end.

(** The port [p] of a unit after the visit: without its head when the head
    belongs to the core [c]. *)
Definition served_port h (c : Z) (p : SimPort trace_ptr) : SimPort trace_ptr :=
  match queue p with
  | trace :: _ =>
      match h !! trace with
      | Some tr => if cid tr =? c then port_pop p else p
      | None => p
      end
  | [] => p
  end.

Lemma get_output_popped_ne (r r' : output_ref) u :
  r' <> r -> get_output (popped r u) r' = get_output u r'.
Proof.
  intros Hne. destruct r as [i|i|i], r' as [i'|i'|i']; simpl; try done;
    unfold update_at;
    match goal with
    | |- context [?l !! i] => destruct (l !! i) eqn:E; [|done]
    end;
    unfold vec_at; rewrite list_lookup_insert_ne by congruence; done.
Qed.

(** The effect of one visit, in all its cases. *)
Lemma tick_pending_run h (r : output_ref) u p :
  length (Outputs u) = ISSUE_WIDTH -> (0 < ISSUE_WIDTH)%nat ->
  get_output u r = Ok p ->
  (forall trace q, queue p = trace :: q -> is_Some (h !! trace)) ->
  exists u1,
    tick_pending h r u = Ok u1 /\
    Inputs u1 = Inputs u /\ core_ u1 = core_ u /\
    length (Outputs u1) = ISSUE_WIDTH /\
    (forall l out, Outputs u !! l = Some out ->
       Outputs u1 !! l = Some (mkPort (queue out) (sched out ++ rsp_for h u l r))) /\
    get_output u1 r = Ok (served_port h (core_id (core_ u)) p) /\
    (forall r', r' <> r -> get_output u1 r' = get_output u r').
Proof.
  intros Hlen Hiw Hp Hvalid.
  assert (forall l out, Outputs u !! l = Some out ->
            Some out = Some (mkPort (queue out) (sched out ++ []))) as Hsame.
  { intros l out _. rewrite app_nil_r. by destruct out. }
  unfold tick_pending, rsp_for, served_port. rewrite Hp. simpl.
  destruct (queue p) as [|trace q] eqn:Hq.
  { exists u. do 4 (split; [done|]). split; [|done].
    intros l out Hl. rewrite Hl. by eapply Hsame. }
  destruct (Hvalid trace q eq_refl) as [tr Htr].
  rewrite (proj2 (deref_Ok _ _ _) Htr), Htr. simpl.
  destruct (Z.eqb_spec (cid tr) (core_id (core_ u))) as [Hcid|Hcid]; simpl.
  - assert (wid tr mod ISSUE_WIDTH < length (Outputs u))%nat as Hlt.
    { rewrite Hlen. apply Nat.mod_upper_bound. lia. }
    destruct (lookup_lt_is_Some_2 _ _ Hlt) as [out0 Hout0].
    unfold ports_push. rewrite (vec_at_lookup _ _ _ Hout0). simpl.
    exists (set_outputs
              (<[(wid tr mod ISSUE_WIDTH)%nat :=
                   mkPort (queue out0) (sched out0 ++ [(trace, 1)])]> (Outputs u))
              (popped r u)).
    split; [by destruct r|]. split; [by destruct r|]. split; [by destruct r|].
    split; [destruct r; simpl; by rewrite length_insert|]. split; [|split].
    + intros l out Hl.
      assert (Outputs (set_outputs
                (<[(wid tr mod ISSUE_WIDTH)%nat :=
                     mkPort (queue out0) (sched out0 ++ [(trace, 1)])]> (Outputs u))
                (popped r u))
              = <[(wid tr mod ISSUE_WIDTH)%nat :=
                    mkPort (queue out0) (sched out0 ++ [(trace, 1)])]> (Outputs u)) as ->
        by (by destruct r).
      destruct (Nat.eqb_spec (wid tr mod ISSUE_WIDTH) l) as [<-|Hne].
      * rewrite list_lookup_insert_eq by done. congruence.
      * rewrite list_lookup_insert_ne by done. rewrite Hl. by eapply Hsame.
    + assert (get_output (set_outputs
                (<[(wid tr mod ISSUE_WIDTH)%nat :=
                     mkPort (queue out0) (sched out0 ++ [(trace, 1)])]> (Outputs u))
                (popped r u)) r = get_output (popped r u) r) as -> by (by destruct r).
      by apply get_output_popped.
    + intros r' Hne.
      assert (get_output (set_outputs
                (<[(wid tr mod ISSUE_WIDTH)%nat :=
                     mkPort (queue out0) (sched out0 ++ [(trace, 1)])]> (Outputs u))
                (popped r u)) r' = get_output (popped r u) r') as -> by (by destruct r, r').
      by apply get_output_popped_ne.
  - exists u. do 4 (split; [done|]). split; [|done].
    intros l out Hl. rewrite Hl. by eapply Hsame.
Qed.

Lemma tick_pendings_run h (rs : list output_ref) : forall u,
  length (Outputs u) = ISSUE_WIDTH -> (0 < ISSUE_WIDTH)%nat ->
  NoDup rs ->
  (forall r, r ∈ rs -> exists p, get_output u r = Ok p) ->
  (forall r p trace q, r ∈ rs -> get_output u r = Ok p -> queue p = trace :: q ->
     is_Some (h !! trace)) ->
  exists u',
    tick_pendings h rs u = Ok u' /\
    Inputs u' = Inputs u /\ core_ u' = core_ u /\
    (forall l out, Outputs u !! l = Some out ->
       Outputs u' !! l
       = Some (mkPort (queue out) (sched out ++ flat_map (rsp_for h u l) rs))) /\
    (forall r p, r ∈ rs -> get_output u r = Ok p ->
       get_output u' r = Ok (served_port h (core_id (core_ u)) p)) /\
    (forall r, r ∉ rs -> get_output u' r = get_output u r).
Proof.
  induction rs as [|r rs IH]; intros u Hlen Hiw Hnd Hok Hvalid.
  - exists u. simpl. do 3 (split; [done|]). split; [|split; [|done]].
    + intros l out Hl. rewrite Hl, app_nil_r. by destruct out.
    + intros r p Hr. by apply not_elem_of_nil in Hr.
  - inversion_clear Hnd as [|? ? Hnotin Hnd'].
    rename Hnd' into Hnd.
    destruct (Hok r ltac:(left)) as [p Hp].
    destruct (tick_pending_run h r u p Hlen Hiw Hp
                (fun trace q => Hvalid r p trace q ltac:(left) Hp))
      as (u1 & Hrun1 & Hin1 & Hcore1 & Hlen1 & Hout1 & Hr1 & Hne1).
    assert (forall r', r' ∈ rs -> get_output u1 r' = get_output u r') as Hsame.
    { intros r' Hr'. apply Hne1. intros ->. done. }
    destruct (IH u1 Hlen1 Hiw Hnd) as (u' & Hrun & Hin & Hcore & Hout & Hin_rs & Hnot_rs).
    { intros r' Hr'. rewrite (Hsame r' Hr'). apply Hok. by right. }
    { intros r' p' trace q Hr' Hp' Hq. rewrite (Hsame r' Hr') in Hp'.
      apply (Hvalid r' p' trace q); [by right|done|done]. }
    exists u'. simpl. rewrite Hrun1. simpl. rewrite Hrun.
    split; [done|]. split; [congruence|]. split; [congruence|]. split; [|split].
    + intros l out Hl. rewrite (Hout l _ (Hout1 l out Hl)). simpl.
      rewrite <- app_assoc. do 4 f_equal.
      apply flat_map_ext_In. intros r' Hr'. apply list_elem_of_In in Hr'.
      unfold rsp_for. by rewrite (Hsame r' Hr'), Hcore1.
    + intros r' p' Hr' Hp'. apply elem_of_cons in Hr' as [->|Hr'].
      * rewrite (Hnot_rs r Hnotin), Hr1. congruence.
      * rewrite (Hin_rs r' p' Hr'); [by rewrite Hcore1|]. by rewrite (Hsame r' Hr').
    + intros r' Hr'. apply not_elem_of_cons in Hr' as [Hne Hr'].
      rewrite (Hnot_rs r' Hr'). by apply Hne1.
Qed.

Lemma make_pending_NoDup (nr nt no : nat) : NoDup (make_pending_rsps nr nt no).
Proof.
  unfold make_pending_rsps.
  assert (Inj eq eq RasterOutput) as IR by (intros ? ? [=]; done).
  assert (Inj eq eq TexOutput) as IT by (intros ? ? [=]; done).
  assert (Inj eq eq OMOutput) as IO by (intros ? ? [=]; done).
  apply list.NoDup_app. split; [apply (NoDup_fmap_2 RasterOutput), NoDup_seq|]. split.
  - intros r (i & -> & _)%list_elem_of_fmap [(j & [=] & _)%list_elem_of_fmap
                                            |(j & [=] & _)%list_elem_of_fmap]%elem_of_app.
  - apply list.NoDup_app. split; [apply (NoDup_fmap_2 TexOutput), NoDup_seq|]. split.
    + intros r (i & -> & _)%list_elem_of_fmap (j & [=] & _)%list_elem_of_fmap.
    + apply (NoDup_fmap_2 OMOutput), NoDup_seq.
Qed.

Lemma make_pending_valid u (r : output_ref) :
  r ∈ make_pending_rsps (length (raster_units_ u)) (length (tex_units_ u))
        (length (om_units_ u))
  <-> exists p, get_output u r = Ok p.
Proof.
  unfold make_pending_rsps. rewrite !elem_of_app, !list_elem_of_fmap. split.
  - intros [(i & -> & Hi)|[(i & -> & Hi)|(i & -> & Hi)]];
      apply elem_of_seq in Hi; simpl;
      match goal with
      | |- context [vec_at ?l i] =>
          destruct (lookup_lt_is_Some_2 l i ltac:(lia)) as [c Hc];
          rewrite (vec_at_lookup _ _ _ Hc)
      end; simpl; eauto.
  - intros [p Hp]. destruct r as [i|i|i]; simpl in Hp;
      apply res_bind_Ok in Hp as (c & Hc%vec_at_Ok%lookup_lt_Some & _);
      [left|right; left|right; right]; exists i; (split; [done|]);
      apply elem_of_seq; lia.
Qed.

(** X22.  The first phase of [SfuUnit::tick], over the ports that the
    constructor has listed (raster, then texture, then output-merger
    units): every unit loses at most the head of its [Output] port, and
    does so exactly when that head belongs to this core; the traces taken
    reach the SFU output of lane [wid mod ISSUE_WIDTH] with delay 1, in
    the order of the list; the input lanes and the core are not touched. *)
Theorem sfu_pending_phase h u :
  pending_rsps_ u
  = make_pending_rsps (length (raster_units_ u)) (length (tex_units_ u))
      (length (om_units_ u)) ->
  length (Outputs u) = ISSUE_WIDTH -> (0 < ISSUE_WIDTH)%nat ->
  (forall r p trace q, get_output u r = Ok p -> queue p = trace :: q ->
     is_Some (h !! trace)) ->
  exists u',
    tick_pendings h (pending_rsps_ u) u = Ok u' /\
    Inputs u' = Inputs u /\ core_ u' = core_ u /\
    (forall l out, Outputs u !! l = Some out ->
       Outputs u' !! l
       = Some (mkPort (queue out)
                 (sched out ++ flat_map (rsp_for h u l) (pending_rsps_ u)))) /\
    (forall r p, get_output u r = Ok p ->
       get_output u' r = Ok (served_port h (core_id (core_ u)) p)).
Proof.
  intros Hctor Hlen Hiw Hvalid.
  destruct (tick_pendings_run h (pending_rsps_ u) u Hlen Hiw)
    as (u' & Hrun & Hin & Hcore & Hout & Hin_rs & _).
  - rewrite Hctor. apply make_pending_NoDup.
  - intros r Hr. rewrite Hctor in Hr. by apply make_pending_valid.
  - intros r p trace q _. apply Hvalid.
  - exists u'. do 4 (split; [done|]). intros r p Hp. apply Hin_rs; [|done].
    rewrite Hctor. apply make_pending_valid. eauto.
Qed.

End SfuDispatch.

Lemma sfu_plain_ops_witness :
  tick_lane (H:=Scenario.stub_sched) Examples.sfu_heap 0 Examples.sfu_plain
  = Ok (mk [mkPort [] []; mkPort [2%N] []] [mkPort [] [(1%N, 4)]; port_new]
           (mkCore 0 (mkPerf 0 0 0) [LocalMemDemux.mk port_new port_new] tt [CallResume 0])
           [mkCoproc port_new port_new] [mkCoproc port_new (mkPort [3%N; 4%N] [])] [] 
           [RasterOutput 0; TexOutput 0]).
Proof.
  exact (proj1 (sfu_plain_ops (H:=Scenario.stub_sched) Examples.sfu_heap 0 Examples.sfu_plain
                  (mkPort [1%N] []) 1%N [] Examples.tmc_trace port_new
                  eq_refl eq_refl eq_refl eq_refl eq_refl)).
Defined.

Lemma sfu_forwards_to_unit_witness :
  tick_lane (H:=Scenario.stub_sched) Examples.sfu_heap 1 Examples.sfu_plain
  = Ok (mk [mkPort [1%N] []; mkPort [] []] [port_new; port_new] Scenario.stub_core
           [mkCoproc port_new port_new]
           [mkCoproc (mkPort [] [(2%N, 2)]) (mkPort [3%N; 4%N] [])] []
           [RasterOutput 0; TexOutput 0]).
Proof.
  exact (proj1 (sfu_forwards_to_unit (H:=Scenario.stub_sched) Examples.sfu_heap 1
                  Examples.sfu_plain (mkPort [2%N] []) 2%N [] Examples.tex_trace port_new
                  eq_refl eq_refl eq_refl eq_refl eq_refl)
               TexUnit 0%nat (mkCoproc port_new (mkPort [3%N; 4%N] [])) eq_refl eq_refl).
Defined.

Lemma sfu_cmov_aborts_witness :
  tick_lane (H:=Scenario.stub_sched) Examples.sfu_heap 1 Examples.sfu_cmov
  = Fault FaultAbort /\
  forall u', tick (cfg:=Scenario.cfg) (H:=Scenario.stub_sched)
               Examples.sfu_heap Examples.sfu_cmov <> Ok u'.
Proof.
  destruct (sfu_cmov_aborts (cfg:=Scenario.cfg) (H:=Scenario.stub_sched)
              Examples.sfu_heap 1 Examples.sfu_cmov (mkPort [5%N] []) 5%N []
              Examples.cmov_trace eq_refl eq_refl eq_refl eq_refl ltac:(simpl; lia))
    as [Hlane Htick].
  split; [exact (Hlane port_new eq_refl)|exact Htick].
Defined.

Lemma sfu_pending_response_witness :
  tick_pending (cfg:=Scenario.cfg) Examples.sfu_heap (TexOutput 0) Examples.sfu_plain
  = Ok (set_outputs [port_new; mkPort [] [(3%N, 1)]]
          (popped (TexOutput 0) Examples.sfu_plain)) /\
  tick_pending (cfg:=Scenario.cfg) Examples.sfu_heap (TexOutput 0)
    (popped (TexOutput 0) Examples.sfu_plain)
  = Ok (popped (TexOutput 0) Examples.sfu_plain).
Proof.
  split.
  - exact (proj1 (proj2 (sfu_pending_response (cfg:=Scenario.cfg) Examples.sfu_heap
                    (TexOutput 0) Examples.sfu_plain (mkPort [3%N; 4%N] []) 3%N [4%N]
                    Examples.rsp_trace eq_refl eq_refl eq_refl)
                    eq_refl port_new eq_refl)).
  - apply (proj1 (sfu_pending_response (cfg:=Scenario.cfg) Examples.sfu_heap
                    (TexOutput 0) (popped (TexOutput 0) Examples.sfu_plain)
                    (mkPort [4%N] []) 4%N [] Examples.foreign_trace
                    eq_refl eq_refl eq_refl)).
    vm_compute. discriminate.
Defined.

Lemma sfu_pending_phase_witness :
  exists u',
    tick_pendings (cfg:=Scenario.cfg) Examples.sfu_heap
      (pending_rsps_ Examples.sfu_plain) Examples.sfu_plain = Ok u' /\
    Outputs u' !! 1%nat = Some (mkPort [] [(3%N, 1)]) /\
    get_output u' (TexOutput 0) = Ok (mkPort [4%N] []).
Proof.
  destruct (sfu_pending_phase (cfg:=Scenario.cfg) Examples.sfu_heap Examples.sfu_plain
              eq_refl eq_refl ltac:(simpl; lia)) as (u' & Hrun & _ & _ & Hout & Hunit).
  - intros r p trace q Hp Hq.
    destruct r as [[|i]|[|i]|i]; simpl in Hp; try discriminate Hp;
      injection Hp as <-; try discriminate Hq.
    injection Hq as <- _. vm_compute. eauto.
  - exists u'. split; [exact Hrun|]. split.
    + exact (Hout 1%nat port_new eq_refl).
    + exact (Hunit (TexOutput 0) (mkPort [3%N; 4%N] []) eq_refl).
Defined.

End SfuDispatch.

(** ** Mux: what a tick moves *)

Module MuxMoves.
Import Mux.
Section MuxMoves.
Context {T : Type}.
Implicit Types (m : Mux.t T).

(** The input that iteration [r] of the scan for output [o] looks at, with
    the cursor at [c]. *)
Definition grant_of m (c r : Z) : Z := Z.land (wrap32 (c + r)) (wrap32 (num_reqs_ m - 1)).

Definition input_of m (o : nat) (c r : Z) : Z :=
  wrap32 (Z.of_nat o * num_reqs_ m + grant_of m c r).

(** Output [o] has taken the head of input [j]. *)
Inductive granted (o : nat) m m' : Prop :=
  | granted_from (i : Z) (j : nat) pin (req : T) q pout cursors' :
      0 <= i <= wrap32 (num_reqs_ m - 1) ->
      j = Z.to_nat (wrap32 (Z.of_nat o * num_reqs_ m + i)) ->
      Inputs m !! j = Some pin -> queue pin = req :: q ->
      Outputs m !! o = Some pout ->
      cursors' = cursors_ m \/ cursors' = <[o := wrap32 (i + 1)]> (cursors_ m) ->
      m' = mk (<[j := port_pop pin]> (Inputs m))
              (<[o := mkPort (queue pout) (sched pout ++ [(req, delay_ m)])]> (Outputs m))
              (type_ m) (delay_ m) cursors' (num_reqs_ m) ->
      granted o m m'.

Lemma scan_granted (o : nat) (n : nat) : forall (r : Z) m m',
  scan o r n m = Ok m' -> m' = m \/ granted o m m'.
Proof.
  induction n as [|n IH]; intros r m m' Hrun.
  - left. by injection Hrun as <-.
  - simpl in Hrun. apply res_bind_Ok in Hrun as (cursor & _ & Hrun).
    destruct (_ <=? _); [by eapply IH|].
    apply res_bind_Ok in Hrun as (pin & Hpin & Hrun). apply vec_at_Ok in Hpin.
    destruct (queue pin) as [|req q] eqn:Hq; [by eapply IH|].
    apply res_bind_Ok in Hrun as (outs & Hpush & Hrun).
    apply ports_push_Ok in Hpush as (pout & Hpout & _ & ->).
    right. unfold update_cursor in Hrun. simpl in Hrun.
    unfold ports_pop in Hrun. rewrite Hpin in Hrun.
    assert (0 <= Z.land (wrap32 (cursor + r)) (wrap32 (num_reqs_ m - 1))
            <= wrap32 (num_reqs_ m - 1)) as Hi.
    { apply land_le_r; apply wrap32_range. }
    destruct (type_ m) eqn:Hty.
    + injection Hrun as <-.
      eapply (granted_from o m _ _ _ pin req q pout (cursors_ m) Hi eq_refl Hpin Hq Hpout);
        [by left|]. by rewrite Hty.
    + apply res_bind_Ok in Hrun as (c0 & _ & Hrun). injection Hrun as <-.
      eapply (granted_from o m _ _ _ pin req q pout _ Hi eq_refl Hpin Hq Hpout);
        [by right|]. by rewrite Hty.
Qed.

(** The requests held by a Mux: those waiting on its inputs and those on
    their way out of its outputs. *)
Definition requests m : list T :=
  flat_map queue (Inputs m) ++ map fst (flat_map sched (Outputs m)).

Lemma flat_map_pop (l : list (SimPort T)) (j : nat) p (x : T) q :
  l !! j = Some p -> queue p = x :: q ->
  Permutation (flat_map queue l) (x :: flat_map queue (<[j := port_pop p]> l)).
Proof.
  revert j. induction l as [|a l IH]; intros [|j] Hj Hq; try discriminate.
  - injection Hj as ->. simpl. by rewrite Hq.
  - simpl in Hj. change (<[S j := port_pop p]> (a :: l)) with (a :: <[j := port_pop p]> l).
    simpl. rewrite (IH j Hj Hq). symmetry. apply Permutation_middle.
Qed.

Lemma flat_map_push (l : list (SimPort T)) (o : nat) p (y : T * Z) :
  l !! o = Some p ->
  Permutation (flat_map sched (<[o := mkPort (queue p) (sched p ++ [y])]> l))
              (y :: flat_map sched l).
Proof.
  revert o. induction l as [|a l IH]; intros [|o] Ho; try discriminate.
  - injection Ho as ->. simpl. rewrite <- app_assoc. simpl.
    symmetry. apply Permutation_middle.
  - simpl in Ho.
    change (<[S o := mkPort (queue p) (sched p ++ [y])]> (a :: l))
      with (a :: <[o := mkPort (queue p) (sched p ++ [y])]> l).
    simpl. rewrite (IH o Ho). symmetry. apply Permutation_middle.
Qed.

Lemma granted_requests (o : nat) m m' : granted o m m' -> Permutation (requests m) (requests m').
Proof.
  intros [i j pin req q pout cursors' _ _ Hpin Hq Hpout _ ->].
  unfold requests. simpl.
  rewrite (flat_map_pop _ _ _ _ _ Hpin Hq).
  rewrite (flat_map_push _ _ _ (req, delay_ m) Hpout). simpl.
  apply Permutation_middle.
Qed.

(** X23.  A tick of a Mux neither loses nor duplicates nor invents a
    request: the requests waiting on the inputs together with those on
    their way out of the outputs are, after the tick, a permutation of
    what they were before; the numbers of inputs and outputs stay. *)
Theorem mux_conserves_requests m m' :
  tick m = Ok m' ->
  Permutation (requests m) (requests m') /\
  length (Inputs m') = length (Inputs m) /\
  length (Outputs m') = length (Outputs m).
Proof.
  unfold tick. intros Hrun.
  destruct (_ =? _)%nat; [by injection Hrun as <-|].
  apply (for_range_inv
    (fun _ t => Permutation (requests m) (requests t) /\
                length (Inputs t) = length (Inputs m) /\
                length (Outputs t) = length (Outputs m))) in Hrun; [done|done|].
  intros o t t' _ (Hperm & Hli & Hlo) Hstep.
  unfold tick_output in Hstep.
  destruct (scan_granted _ _ _ _ _ Hstep) as [->|Hg]; [done|].
  split; [by rewrite Hperm; apply (granted_requests o)|].
  destruct Hg as [i j pin req q pout cursors' _ _ _ _ _ _ ->]. simpl.
  by rewrite !length_insert.
Qed.

(** Skipping: the iterations that find an input past the end, or an empty
    input, pass the scan on. *)
Definition skipped m (o : nat) (c r : Z) : Prop :=
  Z.of_nat (length (Inputs m)) <= input_of m o c r \/
  exists p, Inputs m !! Z.to_nat (input_of m o c r) = Some p /\ queue p = [].

Lemma scan_skip (o : nat) m (c : Z) (k : nat) : forall (n : nat) (r : Z),
  cursors_ m !! o = Some c ->
  (forall d, (d < k)%nat -> skipped m o c (r + Z.of_nat d)) ->
  scan o r (k + n) m = scan o (r + Z.of_nat k) n m.
Proof.
  induction k as [|k IH]; intros n r Hc Hskip.
  - simpl. by rewrite Z.add_0_r.
  - change (S k + n)%nat with (S (k + n)). simpl scan.
    rewrite (vec_at_lookup _ _ _ Hc). simpl.
    pose proof (Hskip 0%nat ltac:(lia)) as H0. rewrite Z.add_0_r in H0.
    unfold skipped, input_of, grant_of in H0.
    assert (scan o (r + 1) (k + n) m = scan o (r + Z.of_nat (S k)) n m) as Hrest.
    { rewrite (IH n (r + 1) Hc).
      - f_equal. lia.
      - intros d Hd. replace (r + 1 + Z.of_nat d) with (r + Z.of_nat (S d)) by lia.
        apply Hskip. lia. }
    destruct (Z.leb_spec (Z.of_nat (length (Inputs m)))
                (wrap32 (Z.of_nat o * num_reqs_ m
                         + Z.land (wrap32 (c + r)) (wrap32 (num_reqs_ m - 1)))))
      as [Hle|Hlt]; [exact Hrest|].
    destruct H0 as [Hge|(p & Hp & Hq)]; [lia|].
    rewrite (vec_at_lookup _ _ _ Hp). simpl. rewrite Hq. exact Hrest.
Qed.

(** X24.  A tick of a Mux whose inputs are all empty does nothing at all:
    no request appears on an output and no cursor moves. *)
Theorem mux_idle_tick m :
  (forall j p, Inputs m !! j = Some p -> queue p = []) ->
  (length (Outputs m) <= length (cursors_ m))%nat ->
  tick m = Ok m.
Proof.
  intros Hempty Hcur. unfold tick.
  destruct (_ =? _)%nat; [done|].
  apply for_range_id. intros o Ho. unfold tick_output.
  destruct (lookup_lt_is_Some_2 (cursors_ m) o) as [c Hc]; [lia|].
  replace (Z.to_nat (num_reqs_ m)) with (Z.to_nat (num_reqs_ m) + 0)%nat by lia.
  rewrite (scan_skip o m c _ 0 0 Hc); [done|].
  intros d _. unfold skipped.
  destruct (Z.le_gt_cases (Z.of_nat (length (Inputs m))) (input_of m o c (0 + Z.of_nat d)))
    as [Hle|Hgt]; [by left|right].
  pose proof (wrap32_range (Z.of_nat o * num_reqs_ m + grant_of m c (0 + Z.of_nat d))).
  destruct (lookup_lt_is_Some_2 (Inputs m) (Z.to_nat (input_of m o c (0 + Z.of_nat d))))
    as [p Hp]; [unfold input_of in *; lia|].
  exists p. split; [done|]. by eapply Hempty.
Qed.

(** Output [o] has taken nothing, or the head of one input of its group. *)
Definition served_from_group m m' (o : nat) : Prop :=
  forall out, Outputs m !! o = Some out ->
    Outputs m' !! o = Some out \/
    exists (j : nat) p (x : T) q,
      Z.of_nat o * num_reqs_ m <= Z.of_nat j < Z.of_nat o * num_reqs_ m + num_reqs_ m /\
      Inputs m !! j = Some p /\ queue p = x :: q /\
      Outputs m' !! o = Some (mkPort (queue out) (sched out ++ [(x, delay_ m)])) /\
      Inputs m' !! j = Some (port_pop p).

(** Every input is as it was, or has lost its head. *)
Definition heads_only m m' : Prop :=
  forall (j : nat) p, Inputs m !! j = Some p ->
    Inputs m' !! j = Some p \/ (queue p <> [] /\ Inputs m' !! j = Some (port_pop p)).

(** The state when the loop over the outputs reaches output [k]. *)
Definition outputs_upto m (k : nat) t : Prop :=
  delay_ t = delay_ m /\ num_reqs_ t = num_reqs_ m /\
  (forall o, (k <= o)%nat -> Outputs t !! o = Outputs m !! o) /\
  (forall j : nat, Z.of_nat k * num_reqs_ m <= Z.of_nat j -> Inputs t !! j = Inputs m !! j) /\
  (forall o, (o < k)%nat -> served_from_group m t o) /\
  heads_only m t.

Lemma outputs_upto_step m (k : nat) t t' :
  1 <= num_reqs_ m <= 32 -> (k < 32)%nat ->
  outputs_upto m k t -> tick_output k t = Ok t' -> outputs_upto m (S k) t'.
Proof.
  intros HR Hk (Hd & Hn & Hout & Hin & Hserved & Hheads) Hstep.
  unfold tick_output in Hstep.
  destruct (scan_granted _ _ _ _ _ Hstep) as [->|Hg].
  { split; [done|]. split; [done|]. split; [intros o Ho; apply Hout; lia|].
    split; [intros j Hj; apply Hin; nia|]. split; [|done].
    intros o Ho. destruct (decide (o = k)) as [->|Hne]; [|apply Hserved; lia].
    intros out Hout0. left. by rewrite Hout. }
  destruct Hg as [i j pin req q pout cursors' Hi Hj Hpin Hq Hpout _ ->].
  rewrite Hn in Hi, Hj. rewrite (wrap32_small (num_reqs_ m - 1)) in Hi by lia.
  rewrite wrap32_small in Hj by nia.
  assert (Z.of_nat k * num_reqs_ m <= Z.of_nat j
          < Z.of_nat k * num_reqs_ m + num_reqs_ m) as Hjr by lia.
  rewrite Hin in Hpin by lia. rewrite Hout in Hpout by lia.
  pose proof (lookup_lt_Some _ _ _ Hpin) as Hjlt.
  pose proof (lookup_lt_Some _ _ _ Hpout) as Hklt.
  assert (length (Inputs t) = length (Inputs m)) as Hli.
  { apply Nat.le_antisymm.
    - destruct (le_lt_dec (length (Inputs t)) (length (Inputs m))) as [|Hlt]; [done|].
      exfalso.
      destruct (lookup_lt_is_Some_2 (Inputs t) (length (Inputs m)) Hlt) as [p Hp].
      destruct (le_lt_dec (Z.to_nat (Z.of_nat k * num_reqs_ m)) (length (Inputs m))) as [Hc|Hc].
      + rewrite Hin in Hp by lia. apply lookup_lt_Some in Hp. lia.
      + lia.
    - destruct (le_lt_dec (length (Inputs m)) (length (Inputs t))) as [|Hlt]; [done|].
      exfalso.
      destruct (lookup_lt_is_Some_2 (Inputs m) (Nat.max j (length (Inputs t)))) as [p Hp].
      + lia.
      + rewrite <- Hin in Hp by lia. apply lookup_lt_Some in Hp. lia. }
  assert (length (Outputs t) = length (Outputs m)) as Hlo.
  { apply Nat.le_antisymm.
    - destruct (le_lt_dec (length (Outputs t)) (length (Outputs m))) as [|Hlt]; [done|].
      exfalso.
      destruct (lookup_lt_is_Some_2 (Outputs t) (Nat.max k (length (Outputs m)))) as [p Hp];
        [lia|].
      rewrite Hout in Hp by lia. apply lookup_lt_Some in Hp. lia.
    - destruct (le_lt_dec (length (Outputs m)) (length (Outputs t))) as [|Hlt]; [done|].
      exfalso.
      destruct (lookup_lt_is_Some_2 (Outputs m) (Nat.max k (length (Outputs t)))) as [p Hp];
        [lia|].
      rewrite <- Hout in Hp by lia. apply lookup_lt_Some in Hp. lia. }
  unfold outputs_upto. simpl.
  split; [done|]. split; [done|]. split; [|split; [|split]].
  - intros o Ho. rewrite list_lookup_insert_ne by lia. apply Hout. lia.
  - intros j' Hj'. rewrite list_lookup_insert_ne by lia. apply Hin. nia.
  - intros o Ho out Hout0. destruct (decide (o = k)) as [->|Hne].
    + right. exists j, pin, req, q. split; [done|]. split; [done|]. split; [done|].
      simpl. rewrite !list_lookup_insert_eq by lia. rewrite Hd.
      assert (pout = out) as -> by congruence. done.
    + destruct (Hserved o ltac:(lia) out Hout0)
        as [Hsame|(j0 & p0 & x0 & q0 & Hj0 & Hp0 & Hq0 & Ho0 & Hi0)].
      * left. simpl. by rewrite list_lookup_insert_ne by lia.
      * right. exists j0, p0, x0, q0. simpl.
        rewrite !list_lookup_insert_ne by nia. done.
  - intros j' p Hp. simpl. destruct (decide (j' = j)) as [->|Hne].
    + right. assert (p = pin) as -> by congruence.
      split; [by rewrite Hq|]. by rewrite list_lookup_insert_eq by lia.
    + rewrite list_lookup_insert_ne by done. by apply Hheads.
Qed.

(** X25.  What a tick of a Mux with [R = num_reqs_] inputs per output may
    move: every output receives at most one request, the head of one of
    the inputs [o*R .. o*R + R - 1] of its own group, pushed with the
    configured delay; every input keeps its queue or loses just its head;
    and the inputs from [O*R] on (those left over when the number of
    inputs is not a multiple of the number of outputs) are never served. *)
Theorem mux_serves_own_group m m' :
  1 <= num_reqs_ m <= 32 -> (length (Outputs m) <= 32)%nat ->
  tick m = Ok m' ->
  (forall o, served_from_group m m' o) /\
  heads_only m m' /\
  (forall j : nat,
     Z.of_nat (length (Outputs m)) * num_reqs_ m <= Z.of_nat j ->
     Inputs m' !! j = Inputs m !! j).
Proof.
  intros HR HO Hrun. unfold tick in Hrun.
  destruct (_ =? _)%nat.
  { injection Hrun as <-. split; [by left|]. split; [by left|done]. }
  apply (for_range_inv (outputs_upto m)) in Hrun.
  - destruct Hrun as (_ & _ & Hout & Hin & Hserved & Hheads). simpl in *.
    split; [|split; [done|done]].
    intros o. destruct (decide (o < length (Outputs m))%nat) as [Ho|Ho].
    + by apply Hserved.
    + intros out Hout0. apply lookup_lt_Some in Hout0. lia.
  - split; [done|]. split; [done|]. split; [done|]. split; [done|].
    split; [intros o Ho; lia|]. by left.
  - intros k t t' Hk Ht Hstep. apply (outputs_upto_step m k t t' HR); [lia|done|done].
Qed.

(** X26.  Strict priority: in a Priority Mux with [2^k] inputs per output
    the scan for an output starts at the first input of its group on every
    tick, so the request it forwards is the head of the non-empty input of
    lowest index in the group; no cursor moves. *)
Theorem priority_grants_lowest (k g : Z) m (o : nat) pin (x : T) q out :
  type_ m = Priority -> 0 <= k <= 5 -> num_reqs_ m = 2 ^ k ->
  cursors_ m !! o = Some 0 -> (o < 32)%nat -> delay_ m <> 0 ->
  0 <= g < 2 ^ k ->
  Inputs m !! Z.to_nat (Z.of_nat o * 2 ^ k + g) = Some pin -> queue pin = x :: q ->
  (forall g' p, 0 <= g' < g ->
     Inputs m !! Z.to_nat (Z.of_nat o * 2 ^ k + g') = Some p -> queue p = []) ->
  Outputs m !! o = Some out ->
  tick_output o m
  = Ok (mk (<[Z.to_nat (Z.of_nat o * 2 ^ k + g) := port_pop pin]> (Inputs m))
           (<[o := mkPort (queue out) (sched out ++ [(x, delay_ m)])]> (Outputs m))
           Priority (delay_ m) (cursors_ m) (2 ^ k)).
Proof.
  intros Hty Hk HR Hc Ho Hd Hg Hpin Hq Hlow Hout.
  assert (1 <= 2 ^ k <= 32) as Hp.
  { split; [apply (Z.pow_le_mono_r 2 0 k); lia|apply (Z.pow_le_mono_r 2 k 5); lia]. }
  assert (forall r, 0 <= r < 2 ^ k -> input_of m o 0 r = Z.of_nat o * 2 ^ k + r) as Hidx.
  { intros r Hr. unfold input_of, grant_of. rewrite HR, Z.add_0_l.
    rewrite (wrap32_small r), (wrap32_small (2 ^ k - 1)) by lia.
    rewrite land_low_mask by lia. rewrite Z.mod_small by lia.
    apply wrap32_small. nia. }
  pose proof (lookup_lt_Some _ _ _ Hpin) as Hjlt.
  unfold tick_output. rewrite HR.
  replace (Z.to_nat (2 ^ k)) with (Z.to_nat g + S (Z.to_nat (2 ^ k - g - 1)))%nat by lia.
  rewrite (scan_skip o m 0 (Z.to_nat g) _ 0 Hc).
  - simpl scan. rewrite (vec_at_lookup _ _ _ Hc). simpl.
    rewrite Z2Nat.id by lia. rewrite !Z.add_0_l.
    pose proof (Hidx g Hg) as Hig. unfold input_of, grant_of in Hig.
    rewrite Z.add_0_l in Hig. rewrite Hig.
    destruct (Z.leb_spec (Z.of_nat (length (Inputs m))) (Z.of_nat o * 2 ^ k + g)); [lia|].
    rewrite (vec_at_lookup _ _ _ Hpin). simpl. rewrite Hq.
    unfold ports_push. rewrite (vec_at_lookup _ _ _ Hout). simpl.
    unfold port_push. destruct (Z.eqb_spec (delay_ m) 0); [done|]. simpl.
    unfold update_cursor. simpl. rewrite Hty. unfold ports_pop. rewrite Hpin.
    by rewrite HR.
  - intros d Hdg. rewrite Z.add_0_l. right.
    rewrite (Hidx (Z.of_nat d)) by lia.
    destruct (lookup_lt_is_Some_2 (Inputs m) (Z.to_nat (Z.of_nat o * 2 ^ k + Z.of_nat d)))
      as [p Hp']; [nia|].
    exists p. split; [done|]. apply (Hlow (Z.of_nat d) p); [lia|done].
Qed.

(** X27.  Priority starves: in a Priority Mux with one output, as long as
    input 0 holds requests every tick forwards the head of input 0, in
    order, and no other input is ever served, whatever it holds and
    however many inputs there are. *)
Theorem priority_starves (n : nat) : forall m p0 out,
  type_ m = Priority -> cursors_ m = [0] -> 1 <= num_reqs_ m -> delay_ m <> 0 ->
  Outputs m = [out] -> length (Inputs m) <> 1%nat ->
  Inputs m !! 0%nat = Some p0 -> (n <= length (queue p0))%nat ->
  ticks n m
  = Ok (mk (<[0%nat := mkPort (drop n (queue p0)) (sched p0)]> (Inputs m))
           [mkPort (queue out)
                   (sched out ++ map (fun x => (x, delay_ m)) (take n (queue p0)))]
           Priority (delay_ m) [0] (num_reqs_ m)).
Proof.
  induction n as [|n IH]; intros m p0 out Hty Hc HR Hd Hout HI Hp0 Hn.
  - simpl. rewrite drop_0, app_nil_r.
    replace (mkPort (queue p0) (sched p0)) with p0 by (by destruct p0).
    rewrite list_insert_id by done.
    replace (mkPort (queue out) (sched out)) with out by (by destruct out).
    rewrite <- Hout, <- Hty, <- Hc. by destruct m.
  - destruct (queue p0) as [|x q] eqn:Hq; [simpl in Hn; lia|].
    assert (tick m
            = Ok (mk (<[0%nat := port_pop p0]> (Inputs m))
                     [mkPort (queue out) (sched out ++ [(x, delay_ m)])]
                     Priority (delay_ m) [0] (num_reqs_ m))) as Htick.
    { unfold tick. rewrite Hout. simpl length.
      destruct (Nat.eqb_spec (length (Inputs m)) 1); [done|].
      simpl. unfold tick_output.
      destruct (Z.to_nat (num_reqs_ m)) as [|r] eqn:Hr; [lia|].
      simpl. rewrite Hc. simpl.
      replace (wrap32 (0 + 0)) with 0 by reflexivity.
      rewrite Z.land_0_l.
      change (wrap32 (Z.of_nat 0 * num_reqs_ m + 0)) with 0.
      pose proof (lookup_lt_Some _ _ _ Hp0) as Hlt.
      destruct (Z.leb_spec (Z.of_nat (length (Inputs m))) 0); [lia|].
      change (Z.to_nat 0) with 0%nat.
      rewrite (vec_at_lookup _ _ _ Hp0). simpl. rewrite Hq.
      unfold ports_push. rewrite Hout. simpl.
      unfold port_push. destruct (Z.eqb_spec (delay_ m) 0); [done|]. simpl.
      unfold update_cursor. simpl. rewrite Hty. unfold ports_pop. by rewrite Hp0. }
    simpl ticks. rewrite Htick. simpl.
    pose proof (lookup_lt_Some _ _ _ Hp0) as Hlt.
    rewrite (IH _ (port_pop p0) (mkPort (queue out) (sched out ++ [(x, delay_ m)])));
      simpl; try done.
    + rewrite list_insert_insert_eq. unfold port_pop. rewrite Hq. simpl.
      by rewrite <- app_assoc.
    + by rewrite length_insert.
    + by apply list_lookup_insert_eq.
    + rewrite Hq. simpl in *. lia.
Qed.

End MuxMoves.

Lemma mux_conserves_requests_witness :
  exists m',
    tick Scenario.mux3 = Ok m' /\
    Permutation (requests Scenario.mux3) (requests m').
Proof.
  destruct (tick Scenario.mux3) as [m'|f] eqn:E; [|vm_compute in E; discriminate E].
  exists m'. split; [reflexivity|].
  exact (proj1 (mux_conserves_requests Scenario.mux3 m' E)).
Defined.

Lemma mux_idle_tick_witness : tick Examples.mux_empty = Ok Examples.mux_empty.
Proof.
  apply (mux_idle_tick Examples.mux_empty).
  - intros j p Hj. destruct j as [|[|[|j]]]; simpl in Hj; try discriminate Hj;
      by injection Hj as <-.
  - simpl. lia.
Defined.

Lemma mux_serves_own_group_witness :
  exists m',
    tick Examples.mux5 = Ok m' /\
    Inputs m' !! 4%nat = Inputs Examples.mux5 !! 4%nat.
Proof.
  destruct (tick Examples.mux5) as [m'|f] eqn:E; [|vm_compute in E; discriminate E].
  exists m'. split; [reflexivity|].
  destruct (mux_serves_own_group Examples.mux5 m' ltac:(simpl; lia) ltac:(simpl; lia) E)
    as (_ & _ & Hrest).
  apply Hrest. simpl. lia.
Defined.

Lemma priority_grants_lowest_witness :
  tick_output 1 Examples.mux_prio
  = Ok (mk [mkPort [10%nat] []; port_new; port_new; mkPort [] []]
           [port_new; mkPort [] [(40%nat, 1)]] Priority 1 [0; 0] 2).
Proof.
  apply (priority_grants_lowest 1 1 Examples.mux_prio 1 (mkPort [40%nat] []) 40%nat []
           port_new eq_refl ltac:(lia) eq_refl eq_refl ltac:(lia) ltac:(simpl; lia)
           ltac:(lia) eq_refl eq_refl).
  - intros g' p Hg' Hp. assert (g' = 0) as -> by lia. simpl in Hp. by injection Hp as <-.
  - reflexivity.
Defined.

Lemma priority_starves_witness :
  ticks 2 Examples.mux_prio3
  = Ok (mk [mkPort [12%nat] []; mkPort [20; 21]%nat []; mkPort [30%nat] []]
           [mkPort [] [(10%nat, 1); (11%nat, 1)]] Priority 1 [0] 3).
Proof.
  apply (priority_starves 2 Examples.mux_prio3 (mkPort [10; 11; 12]%nat []) port_new
           eq_refl eq_refl ltac:(simpl; lia) ltac:(simpl; lia) eq_refl
           ltac:(simpl; lia) eq_refl ltac:(simpl; lia)).
Defined.

End MuxMoves.

(** ** Switch: idle ticks and the degenerate fan-in *)

Module SwitchMoves.
Import Switch.
Section SwitchMoves.
Context {Req Rsp : Type} `{Tagged Req} `{Tagged Rsp}.
Implicit Types (s : Switch.t Req Rsp).

Lemma scan_all_empty (o : nat) s (c : Z) (n : nat) : forall (r : Z),
  cursors_ s !! o = Some c ->
  (forall j p, ReqIn s !! j = Some p -> queue p = []) ->
  scan o r n s = Ok s.
Proof.
  induction n as [|n IH]; intros r Hc Hempty; [done|].
  simpl. rewrite (vec_at_lookup _ _ _ Hc). simpl.
  set (j := wrap32 (Z.of_nat o * num_reqs s
                    + Z.land (wrap32 (c + r)) (wrap32 (num_reqs s - 1)))).
  destruct (Z.leb_spec (Z.of_nat (length (ReqIn s))) j) as [Hle|Hlt]; [by apply IH|].
  pose proof (wrap32_range (Z.of_nat o * num_reqs s
                            + Z.land (wrap32 (c + r)) (wrap32 (num_reqs s - 1)))) as Hj.
  fold j in Hj.
  destruct (lookup_lt_is_Some_2 (ReqIn s) (Z.to_nat j)) as [p Hp]; [lia|].
  rewrite (vec_at_lookup _ _ _ Hp). simpl. rewrite (Hempty _ _ Hp). by apply IH.
Qed.

(** X28.  A tick of a Switch that has no request on any input and no
    response on any output does nothing at all. *)
Theorem switch_idle_tick s :
  (forall j p, ReqIn s !! j = Some p -> queue p = []) ->
  (forall o p, RspOut s !! o = Some p -> queue p = []) ->
  (length (ReqOut s) <= length (RspOut s))%nat ->
  (length (ReqOut s) <= length (cursors_ s))%nat ->
  tick s = Ok s.
Proof.
  intros Hreq Hrsp Hlr Hlc. unfold tick.
  destruct (_ =? _)%nat; [done|].
  apply for_range_id. intros o Ho. unfold tick_output, tick_rsp.
  destruct (lookup_lt_is_Some_2 (RspOut s) o) as [p Hp]; [lia|].
  destruct (lookup_lt_is_Some_2 (cursors_ s) o) as [c Hc]; [lia|].
  rewrite (vec_at_lookup _ _ _ Hp). simpl. rewrite (Hrsp _ _ Hp). simpl.
  unfold tick_req. by apply (scan_all_empty o s c).
Qed.

(** What is pushed when the head of a queue is forwarded. *)
Definition head_with {A} (delay : Z) (l : list A) : list (A * Z) :=
  match l with
  | x :: _ => [(x, delay)]
  | [] => []
  end.

Definition pushed {A} (delay : Z) (src dst : SimPort A) : SimPort A :=
  mkPort (queue dst) (sched dst ++ head_with delay (queue src)).

(** The state when the loop over the outputs reaches output [k], in a
    switch with one input per output. *)
Definition straight_upto s (k : nat) t : Prop :=
  lg_num_reqs_ t = lg_num_reqs_ s /\ delay_ t = delay_ s /\
  length (ReqIn t) = length (ReqIn s) /\
  (forall j, (k <= j)%nat ->
     ReqIn t !! j = ReqIn s !! j /\ ReqOut t !! j = ReqOut s !! j /\
     RspIn t !! j = RspIn s !! j /\ RspOut t !! j = RspOut s !! j) /\
  (forall o, (o < k)%nat ->
     ReqIn t !! o = port_pop <$> ReqIn s !! o /\
     RspOut t !! o = port_pop <$> RspOut s !! o /\
     (forall pin pout, ReqIn s !! o = Some pin -> ReqOut s !! o = Some pout ->
        ReqOut t !! o = Some (pushed (delay_ s) pin pout)) /\
     (forall rout rin, RspOut s !! o = Some rout -> RspIn s !! o = Some rin ->
        RspIn t !! o = Some (pushed 1 rout rin))).

Lemma port_pop_empty {A} (p : SimPort A) : queue p = [] -> port_pop p = p.
Proof. intros Hq. unfold port_pop. rewrite Hq. destruct p. simpl in *. by subst. Qed.

Lemma pushed_empty {A} d (src dst : SimPort A) : queue src = [] -> pushed d src dst = dst.
Proof. intros Hq. unfold pushed. rewrite Hq. simpl. rewrite app_nil_r. by destruct dst. Qed.

Lemma straight_step s (k : nat) t t' :
  lg_num_reqs_ s = 0 -> (k < length (ReqOut s))%nat ->
  (length (ReqOut s) <= length (ReqIn s))%nat ->
  Z.of_nat (length (ReqIn s)) <= 2 ^ 32 ->
  straight_upto s k t -> tick_output k t = Ok t' -> straight_upto s (S k) t'.
Proof.
  intros Hlg Hk HIO H32 (Hlg' & Hd & Hlen & Hrest & Hdone) Hstep.
  destruct (Hrest k (le_n k)) as (Hqi & Hqo & Hri & Hro).
  assert (num_reqs t = 1) as HR by (unfold num_reqs; rewrite Hlg', Hlg; reflexivity).
  unfold tick_output in Hstep. apply res_bind_Ok in Hstep as (t1 & Hrsp & Hreq).
  (* the response path *)
  assert (lg_num_reqs_ t1 = 0 /\ delay_ t1 = delay_ s /\ cursors_ t1 = cursors_ t /\
          ReqIn t1 = ReqIn t /\ ReqOut t1 = ReqOut t /\
          (forall j, j <> k -> RspIn t1 !! j = RspIn t !! j /\ RspOut t1 !! j = RspOut t !! j) /\
          RspOut t1 !! k = port_pop <$> RspOut s !! k /\
          (forall rout rin, RspOut s !! k = Some rout -> RspIn s !! k = Some rin ->
             RspIn t1 !! k = Some (pushed 1 rout rin))) as Ht1.
  { unfold tick_rsp in Hrsp.
    apply res_bind_Ok in Hrsp as (rout & Hrout & Hrsp). apply vec_at_Ok in Hrout.
    assert (RspOut s !! k = Some rout) as Hros by (by rewrite <- Hro).
    destruct (queue rout) as [|rsp q] eqn:Hq.
    - injection Hrsp as <-. rewrite Hlg', Hlg.
      do 5 (split; [done|]). split; [done|]. split.
      + rewrite Hros, Hrout. simpl. by rewrite port_pop_empty.
      + intros rout' rin Hr1 Hr2.
        assert (rout' = rout) as -> by congruence.
        rewrite pushed_empty by done. by rewrite Hri.
    - rewrite HR, Hlg', Hlg in Hrsp. simpl in Hrsp.
      replace (wrap32 (Z.of_nat k * 1 + 0)) with (Z.of_nat k) in Hrsp
        by (rewrite wrap32_small; lia).
      rewrite Nat2Z.id in Hrsp.
      apply res_bind_Ok in Hrsp as (rsp_in & Hpush & Hrsp). injection Hrsp as <-.
      simpl. rewrite ?Hlg', ?Hlg.
      do 5 (split; [done|]). split; [|split].
      + intros j Hj. rewrite (ports_push_ne _ _ _ _ _ _ Hpush) by done.
        by rewrite ports_pop_ne.
      + by rewrite (ports_pop_eq _ _ _ Hrout), Hros.
      + intros rout' rin Hr1 Hr2. rewrite <- Hri in Hr2.
        assert (rout' = rout) as -> by congruence.
        rewrite (ports_push_eq _ _ _ _ _ _ Hpush Hr2). unfold pushed. by rewrite Hq. }
  destruct Ht1 as (Hlg1 & Hd1 & Hc1 & Hqi1 & Hqo1 & Hrne & Hro1 & Hri1).
  (* the request path: one iteration, on input [k] *)
  assert (num_reqs t1 = 1) as HR1 by (unfold num_reqs; rewrite Hlg1; reflexivity).
  assert (Z.to_nat (num_reqs t1) = 1%nat) as Hn by (rewrite HR1; reflexivity).
  unfold tick_req in Hreq. rewrite Hn in Hreq. simpl in Hreq.
  apply res_bind_Ok in Hreq as (c & Hc & Hreq).
  rewrite HR1 in Hreq.
  replace (Z.land (wrap32 (c + 0)) (wrap32 (1 - 1))) with 0 in Hreq
    by (change (wrap32 (1 - 1)) with 0; by rewrite Z.land_0_r).
  replace (wrap32 (Z.of_nat k * 1 + 0)) with (Z.of_nat k) in Hreq
    by (rewrite wrap32_small; lia).
  rewrite Nat2Z.id in Hreq. rewrite Hqi1, Hqo1, Hlg1, Hd1 in Hreq. simpl in Hreq.
  destruct (Z.leb_spec (Z.of_nat (length (ReqIn t))) (Z.of_nat k)) as [Hle|_]; [lia|].
  apply res_bind_Ok in Hreq as (pin & Hpin & Hreq). apply vec_at_Ok in Hpin.
  assert (ReqIn s !! k = Some pin) as Hpins by (by rewrite <- Hqi).
  assert (forall o, (o < k)%nat ->
            ReqIn t !! o = port_pop <$> ReqIn s !! o /\
            RspOut t1 !! o = port_pop <$> RspOut s !! o /\
            (forall pin pout, ReqIn s !! o = Some pin -> ReqOut s !! o = Some pout ->
               ReqOut t !! o = Some (pushed (delay_ s) pin pout)) /\
            (forall rout rin, RspOut s !! o = Some rout -> RspIn s !! o = Some rin ->
               RspIn t1 !! o = Some (pushed 1 rout rin))) as Hdone1.
  { intros o Ho. destruct (Hdone o Ho) as (D1 & D2 & D3 & D4).
    destruct (Hrne o ltac:(lia)) as [-> ->]. done. }
  destruct (queue pin) as [|req q] eqn:Hq.
  - injection Hreq as <-. unfold straight_upto.
    rewrite Hlg1, Hd1, Hqi1, Hqo1. split; [done|]. split; [done|]. split; [done|]. split.
    + intros j Hj. destruct (Hrest j ltac:(lia)) as (R1 & R2 & R3 & R4).
      destruct (Hrne j ltac:(lia)) as [-> ->]. done.
    + intros o Ho. destruct (decide (o = k)) as [->|Hne]; [|apply Hdone1; lia].
      split; [rewrite Hpins, Hpin; simpl; by rewrite port_pop_empty|].
      split; [done|]. split; [|done].
      intros pin' pout Hp1 Hp2.
      assert (pin' = pin) as -> by congruence.
      rewrite pushed_empty by done. by rewrite Hqo.
  - apply res_bind_Ok in Hreq as (outs & Hpush & Hreq).
    assert (ReqIn t' = ports_pop (ReqIn t) k /\ ReqOut t' = outs /\
            RspIn t' = RspIn t1 /\ RspOut t' = RspOut t1 /\
            lg_num_reqs_ t' = 0 /\ delay_ t' = delay_ s) as (E1 & E2 & E3 & E4 & E5 & E6).
    { unfold update_cursor in Hreq. simpl in Hreq. destruct (type_ t1).
      - by injection Hreq as <-.
      - apply res_bind_Ok in Hreq as (? & _ & Hreq). by injection Hreq as <-. }
    unfold straight_upto. rewrite E1, E2, E3, E4, E5, E6, ports_pop_length.
    split; [by rewrite Hlg|]. split; [done|]. split; [done|]. split.
    + intros j Hj. destruct (Hrest j ltac:(lia)) as (R1 & R2 & R3 & R4).
      destruct (Hrne j ltac:(lia)) as [-> ->].
      rewrite ports_pop_ne by lia. rewrite (ports_push_ne _ _ _ _ _ _ Hpush) by lia. done.
    + intros o Ho. destruct (decide (o = k)) as [->|Hne].
      * split; [by rewrite (ports_pop_eq _ _ _ Hpin), Hpins|].
        split; [done|]. split; [|done].
        intros pin' pout Hp1 Hp2. rewrite <- Hqo in Hp2.
        assert (pin' = pin) as -> by congruence.
        rewrite (ports_push_eq _ _ _ _ _ _ Hpush Hp2). unfold pushed. by rewrite Hq.
      * destruct (Hdone1 o ltac:(lia)) as (D1 & D2 & D3 & D4).
        rewrite ports_pop_ne by lia.
        split; [done|]. split; [done|]. split; [|done].
        intros pin' pout Hp1 Hp2. rewrite (ports_push_ne _ _ _ _ _ _ Hpush) by lia.
        by apply D3.
Qed.

(** X29.  A Switch out of bypass mode with fewer than two inputs per
    output ([lg_num_reqs_ = 0], as [log2ceil(I / O)] gives for
    [O < I < 2*O]) passes packets straight through: on every tick output
    [o] forwards the head of input [o], with the tag as it is, and the
    head of its response port goes to the response port of input [o] with
    delay 1 and the tag as it is.  The inputs from [O] on are never
    served. *)
Theorem switch_straight_through s s' :
  lg_num_reqs_ s = 0 ->
  (length (ReqOut s) < length (ReqIn s))%nat -> Z.of_nat (length (ReqIn s)) <= 2 ^ 32 ->
  tick s = Ok s' ->
  (forall o, (o < length (ReqOut s))%nat ->
     ReqIn s' !! o = port_pop <$> ReqIn s !! o /\
     RspOut s' !! o = port_pop <$> RspOut s !! o /\
     (forall pin pout, ReqIn s !! o = Some pin -> ReqOut s !! o = Some pout ->
        ReqOut s' !! o = Some (pushed (delay_ s) pin pout)) /\
     (forall rout rin, RspOut s !! o = Some rout -> RspIn s !! o = Some rin ->
        RspIn s' !! o = Some (pushed 1 rout rin))) /\
  (forall j, (length (ReqOut s) <= j)%nat -> ReqIn s' !! j = ReqIn s !! j).
Proof.
  intros Hlg HIO H32 Hrun. unfold tick in Hrun.
  destruct (Nat.eqb_spec (length (ReqIn s)) (length (ReqOut s))) as [|_]; [lia|].
  apply (for_range_inv (straight_upto s)) in Hrun.
  - destruct Hrun as (_ & _ & _ & Hrest & Hdone). simpl in *.
    split; [done|]. intros j Hj. by destruct (Hrest j Hj).
  - unfold straight_upto. do 3 (split; [done|]). split; [done|]. intros o Ho. lia.
  - intros k t t' Hk Ht Hstep.
    apply (straight_step s k t t' Hlg); [lia|lia|done|done|done].
Qed.

(** The packets in a switch: the requests waiting on the inputs or on
    their way out, and the responses waiting on the outputs or on their way
    back. *)
Definition waiting {A} (p : SimPort A) : Z := Z.of_nat (length (queue p)).
Definition in_flight {A} (p : SimPort A) : Z := Z.of_nat (length (sched p)).

Definition req_count s : Z := sum_map waiting (ReqIn s) + sum_map in_flight (ReqOut s).
Definition rsp_count s : Z := sum_map waiting (RspOut s) + sum_map in_flight (RspIn s).

Definition same_shape s s' : Prop :=
  length (ReqIn s') = length (ReqIn s) /\ length (RspIn s') = length (RspIn s) /\
  length (ReqOut s') = length (ReqOut s) /\ length (RspOut s') = length (RspOut s).

Lemma tick_rsp_counts (o : nat) s s' :
  tick_rsp o s = Ok s' ->
  req_count s' = req_count s /\ rsp_count s' = rsp_count s /\ same_shape s s'.
Proof.
  unfold tick_rsp. intros Hrun.
  apply res_bind_Ok in Hrun as (rout & Hrout & Hrun). apply vec_at_Ok in Hrout.
  destruct (queue rout) as [|rsp q] eqn:Hq.
  { injection Hrun as <-. by repeat split. }
  destruct (if negb (lg_num_reqs_ s =? 0)
            then decode_tag (num_reqs s) (lg_num_reqs_ s) rsp else (0, rsp)) as [i rsp'].
  apply res_bind_Ok in Hrun as (rsp_in & Hpush & Hrun). injection Hrun as <-.
  apply ports_push_Ok in Hpush as (rin & Hrin & _ & ->).
  unfold req_count, rsp_count, same_shape, ports_pop. simpl. rewrite Hrout.
  rewrite !length_insert. split; [done|]. split; [|done].
  rewrite (sum_map_insert _ _ _ _ _ Hrout), (sum_map_insert _ _ _ _ _ Hrin).
  unfold waiting, in_flight, port_pop. simpl. rewrite Hq, length_app. simpl. lia.
Qed.

Lemma scan_counts (o : nat) (n : nat) : forall (r : Z) s s',
  scan o r n s = Ok s' ->
  req_count s' = req_count s /\ rsp_count s' = rsp_count s /\ same_shape s s'.
Proof.
  induction n as [|n IH]; intros r s s' Hrun.
  - injection Hrun as <-. by repeat split.
  - simpl in Hrun. apply res_bind_Ok in Hrun as (cursor & _ & Hrun).
    destruct (_ <=? _); [by eapply IH|].
    apply res_bind_Ok in Hrun as (pin & Hpin & Hrun). apply vec_at_Ok in Hpin.
    destruct (queue pin) as [|req q] eqn:Hq; [by eapply IH|].
    apply res_bind_Ok in Hrun as (outs & Hpush & Hrun).
    apply ports_push_Ok in Hpush as (pout & Hpout & _ & ->).
    assert (exists cursors',
              s' = mk (ports_pop (ReqIn s) (Z.to_nat (wrap32 (Z.of_nat o * num_reqs s
                          + Z.land (wrap32 (cursor + r)) (wrap32 (num_reqs s - 1))))))
                      (RspIn s)
                      (<[o := mkPort (queue pout)
                               (sched pout ++
                                [(if negb (lg_num_reqs_ s =? 0)
                                  then encode_tag (lg_num_reqs_ s)
                                         (Z.land (wrap32 (cursor + r))
                                                 (wrap32 (num_reqs s - 1))) req
                                  else req, delay_ s)])]> (ReqOut s))
                      (RspOut s) (type_ s) (delay_ s) cursors' (lg_num_reqs_ s))
      as [cursors' ->].
    { unfold update_cursor in Hrun. simpl in Hrun. destruct (type_ s).
      - injection Hrun as <-. eauto.
      - apply res_bind_Ok in Hrun as (? & _ & Hrun). injection Hrun as <-. eauto. }
    unfold req_count, rsp_count, same_shape, ports_pop. simpl. rewrite Hpin.
    rewrite !length_insert. split; [|done].
    rewrite (sum_map_insert _ _ _ _ _ Hpin), (sum_map_insert _ _ _ _ _ Hpout).
    unfold waiting, in_flight, port_pop. simpl. rewrite Hq, length_app. simpl. lia.
Qed.

(** X30.  A tick of a Switch drops nothing and invents nothing: the number
    of requests held (queued on the inputs or pushed on the outputs) and
    the number of responses held (queued on the outputs or pushed back to
    the inputs) are the same after the tick, and so are the numbers of
    ports. *)
Theorem switch_conserves_packets s s' :
  tick s = Ok s' ->
  req_count s' = req_count s /\ rsp_count s' = rsp_count s /\ same_shape s s'.
Proof.
  unfold tick. intros Hrun.
  destruct (_ =? _)%nat; [injection Hrun as <-; by repeat split|].
  apply (for_range_inv
    (fun _ t => req_count t = req_count s /\ rsp_count t = rsp_count s /\ same_shape s t))
    in Hrun; [done|by repeat split|].
  intros o t t' _ (Hq & Hr & S1 & S2 & S3 & S4) Hstep.
  unfold tick_output in Hstep. apply res_bind_Ok in Hstep as (t1 & Hrsp & Hreq).
  destruct (tick_rsp_counts _ _ _ Hrsp) as (Hq1 & Hr1 & A1 & A2 & A3 & A4).
  destruct (scan_counts _ _ _ _ _ Hreq) as (Hq2 & Hr2 & B1 & B2 & B3 & B4).
  unfold same_shape. repeat split; congruence.
Qed.

End SwitchMoves.

Lemma switch_idle_tick_witness :
  tick (Scenario.switch2_rsp 0) <> Ok (Scenario.switch2_rsp 0) /\
  tick Examples.switch_idle = Ok Examples.switch_idle.
Proof.
  split; [vm_compute; discriminate|].
  apply (switch_idle_tick Examples.switch_idle).
  - intros j p Hj. destruct j as [|[|j]]; simpl in Hj; try discriminate Hj;
      by injection Hj as <-.
  - intros o p Ho. destruct o as [|o]; simpl in Ho; try discriminate Ho;
      by injection Ho as <-.
  - simpl. lia.
  - simpl. lia.
Defined.

Lemma switch_straight_through_witness :
  exists s',
    tick Examples.switch32 = Ok s' /\
    ReqOut s' !! 0%nat = Some (mkPort [] [(MemReq.mk 64 false 6 0 5, 1)]) /\
    ReqIn s' !! 2%nat = Some (mkPort [Scenario.big_req] []).
Proof.
  destruct (tick Examples.switch32) as [s'|f] eqn:E; [|vm_compute in E; discriminate E].
  exists s'. split; [reflexivity|].
  destruct (switch_straight_through Examples.switch32 s' eq_refl
              ltac:(simpl; lia) ltac:(simpl; lia) E) as (Hserved & Hrest).
  split.
  - destruct (Hserved 0%nat ltac:(simpl; lia)) as (_ & _ & Hout & _).
    exact (Hout (mkPort [Scenario.small_req] []) port_new eq_refl eq_refl).
  - rewrite (Hrest 2%nat ltac:(simpl; lia)). reflexivity.
Defined.

Lemma switch_conserves_packets_witness :
  exists s',
    tick Scenario.switch2 = Ok s' /\ req_count s' = 1 /\ rsp_count s' = 0.
Proof.
  destruct (tick Scenario.switch2) as [s'|f] eqn:E; [|vm_compute in E; discriminate E].
  exists s'. split; [reflexivity|].
  destruct (switch_conserves_packets Scenario.switch2 s' E) as (Hq & Hr & _).
  split; [rewrite Hq|rewrite Hr]; reflexivity.
Defined.

End SwitchMoves.
